(** * memstore: an in-memory record store with indices, transactions and a
    reference-preserving codec.

    This development embeds two source files of the repository:

    - [obj2obj.ts] (class [Obj2Obj], methods [Encode] and [Decode]) in
      [Module Obj2Obj];
    - [database.ts] (class [Database]) in [Module Database].

    JavaScript values live in a heap of cells addressed by natural numbers;
    "the same object" is "the same address".  Numbers are carried around by
    the program and never computed on, so an integer payload (plus [VNaN],
    the one number that is not [===] to itself) stands for them.  A [Date] is
    represented by the string its [toISOString] returns, and an invalid
    [Date] by a string that [toISOString] never returns.  Objects are kept
    with their own properties; what they inherit from [Object.prototype] is
    named in [prototype_names] and kept out of the statements. *)

From Stdlib Require Import String Ascii ZArith Bool Arith Lia List.
From Stdlib Require Import DecimalString DecimalZ DecimalNat.
Import ListNotations.
Local Open Scope string_scope.
Local Open Scope list_scope.

Set Implicit Arguments.
Set Warnings "-register-all,-notation-for-abbreviation".

(** ** Values *)

(** A property key: a string, or a symbol (identified by a number). *)
Inductive Key :=
| KStr (s : string)
| KSym (n : nat).

(** A JavaScript value whose object references are of type [R]. *)
Inductive Value (R : Type) :=
| VUndef
| VNull
| VBool (b : bool)
| VNum (z : Z)
| VNaN
| VStr (s : string)
| VBig (z : Z)
| VSym (n : nat)
| VFun (n : nat)
| VObj (r : R).

Arguments VUndef {R}.
Arguments VNull {R}.
Arguments VBool {R} b.
Arguments VNum {R} z.
Arguments VNaN {R}.
Arguments VStr {R} s.
Arguments VBig {R} z.
Arguments VSym {R} n.
Arguments VFun {R} n.

(** The contents of a heap cell. [CObject] lists the own properties in
    enumeration order, [CMap] and [CSet] their entries in insertion order. *)
Inductive Cell (R : Type) :=
| CObject (props : list (Key * Value R))
| CArray (elems : list (Value R))
| CMap (entries : list (Value R * Value R))
| CSet (members : list (Value R))
| CDate (iso : string).

Arguments CDate {R} iso.

Definition Key_eqb (k1 k2 : Key) : bool :=
  match k1, k2 with
  | KStr a, KStr b => String.eqb a b
  | KSym a, KSym b => Nat.eqb a b
  | _, _ => false
  end.

Section ValueEq.
Variable R : Type.
Variable R_eqb : R -> R -> bool.
(** [SameValueZero], the equality of [Map] keys and [Set] members. *)
Definition same_value_zero (v1 v2 : Value R) : bool :=
  match v1, v2 with
  | VUndef, VUndef => true
  | VNull, VNull => true
  | VBool a, VBool b => Bool.eqb a b
  | VNum a, VNum b => Z.eqb a b
  | VNaN, VNaN => true
  | VStr a, VStr b => String.eqb a b
  | VBig a, VBig b => Z.eqb a b
  | VSym a, VSym b => Nat.eqb a b
  | VFun a, VFun b => Nat.eqb a b
  | VObj a, VObj b => R_eqb a b
  | _, _ => false
  end.

(** [===]: as [SameValueZero], except that [NaN] differs from itself. *)
Definition strict_equal (v1 v2 : Value R) : bool :=
  match v1, v2 with
  | VNaN, _ => false
  | _, _ => same_value_zero v1 v2
  end.

End ValueEq.

(** [typeof] for the values that [Encode] passes through unchanged. *)
Definition typeof {R} (v : Value R) : string :=
  match v with
  | VUndef => "undefined"
  | VNull => "object"
  | VBool _ => "boolean"
  | VNum _ | VNaN => "number"
  | VStr _ => "string"
  | VBig _ => "bigint"
  | VSym _ => "symbol"
  | VFun _ => "function"
  | VObj _ => "object"
  end.

(** Decimal rendering of integers, as [BigInt.prototype.toString] and template
    literals produce it. *)
Definition string_of_Z (z : Z) : string := NilZero.string_of_int (Z.to_int z).
Definition Z_of_string (s : string) : option Z :=
  option_map Z.of_int (NilZero.int_of_string s).
Definition string_of_nat (n : nat) : string := string_of_Z (Z.of_nat n).

(** ** Names that every object literal inherits *)

(** The own property names of [Object.prototype].  An object literal such as
    [_data = {}], [indices: {}] or a record [{...}] has them all through its
    prototype: [obj["constructor"]] is a function, not [undefined], although
    the object has no such property of its own.  The embedding below keeps the
    own properties of an object only; the statements that read a table, a
    column or a field by a name the object may lack say that the name is not
    one of these. *)
Definition prototype_names : list string :=
  ["constructor"; "__defineGetter__"; "__defineSetter__"; "hasOwnProperty";
   "__lookupGetter__"; "__lookupSetter__"; "isPrototypeOf";
   "propertyIsEnumerable"; "toString"; "valueOf"; "__proto__";
   "toLocaleString"].

Definition inherited (name : string) : bool :=
  existsb (String.eqb name) prototype_names.

Definition inherited_key (k : Key) : bool :=
  match k with KStr s => inherited s | KSym _ => false end.

(** ** Results of effectful code: a state and exception monad *)

Inductive JsError :=
| Error (message : string)
| TypeError (message : string)
| SyntaxError (message : string).

Inductive Res (S A : Type) :=
| Ok (a : A) (s : S)
| Throw (e : JsError) (s : S).

Arguments Ok {S A} a s.
Arguments Throw {S A} e s.

Definition M (S A : Type) := S -> Res S A.

Definition ret {S A} (a : A) : M S A := fun s => Ok a s.
Definition throw {S A} (e : JsError) : M S A := fun s => Throw e s.
Definition bind {S A B} (m : M S A) (k : A -> M S B) : M S B :=
  fun s => match m s with
           | Ok a s' => k a s'
           | Throw e s' => Throw e s'
           end.
Definition get_state {S} : M S S := fun s => Ok s s.
Definition modify {S} (f : S -> S) : M S unit := fun s => Ok tt (f s).

(** The state a run ends in, whether it returned or threw. *)
Definition state_of {S A} (r : Res S A) : S :=
  match r with Ok _ s => s | Throw _ s => s end.

Declare Scope js_scope.
Delimit Scope js_scope with js.
Notation "x <- c1 ;; c2" := (bind c1 (fun x => c2))
  (at level 100, c1 at next level, right associativity) : js_scope.
Notation "c1 ;;; c2" := (bind c1 (fun _ => c2))
  (at level 100, right associativity) : js_scope.

Section Loops.
Variables S A : Type.
Variable body : A -> M S unit.

(** [for (const x of xs) body(x)] over a snapshot of the elements. *)
Fixpoint for_each (xs : list A) : M S unit :=
  match xs with
  | [] => ret tt
  | x :: rest => fun s =>
      match body x s with
      | Ok _ s' => for_each rest s'
      | Throw e s' => Throw e s'
      end
  end.
End Loops.

(** ** Association lists with the update discipline of JS maps and objects:
    an existing key keeps its position, a new key goes last. *)
Section Assoc.
Variables K V : Type.
Variable eqb : K -> K -> bool.

Fixpoint assoc_get (k : K) (l : list (K * V)) : option V :=
  match l with
  | [] => None
  | (k', v) :: rest => if eqb k k' then Some v else assoc_get k rest
  end.

Fixpoint assoc_set (k : K) (v : V) (l : list (K * V)) : list (K * V) :=
  match l with
  | [] => [(k, v)]
  | (k', v') :: rest =>
      if eqb k k' then (k', v) :: rest else (k', v') :: assoc_set k v rest
  end.

Fixpoint assoc_del (k : K) (l : list (K * V)) : list (K * V) :=
  match l with
  | [] => []
  | (k', v') :: rest =>
      if eqb k k' then rest else (k', v') :: assoc_del k rest
  end.

Definition assoc_has (k : K) (l : list (K * V)) : bool :=
  match assoc_get k l with Some _ => true | None => false end.
End Assoc.

Section ListSet.
Variable V : Type.
Variable eqb : V -> V -> bool.

(** [Set.prototype.add]: a member already present is not added again. *)
Definition set_add (v : V) (l : list V) : list V :=
  if existsb (eqb v) l then l else l ++ [v].

Fixpoint set_del (v : V) (l : list V) : list V :=
  match l with
  | [] => []
  | x :: rest => if eqb v x then rest else x :: set_del v rest
  end.
End ListSet.

(** Replace the element at a position (no effect out of range). *)
Fixpoint list_update {A} (n : nat) (f : A -> A) (l : list A) : list A :=
  match l, n with
  | [], _ => []
  | x :: rest, O => f x :: rest
  | x :: rest, S n' => x :: list_update n' f rest
  end.


(** * The codec: [Obj2Obj.Encode] and [Obj2Obj.Decode] *)

Module Obj2Obj.

Notation addr := nat (only parsing).
Notation JsValue := (Value addr) (only parsing).
Notation Heap := (list (Cell addr)) (only parsing).

(** The wire form, [EncodedObj].  [EValue] covers the four primitive kinds
    and, on decoding, is also the [default:] branch of the [switch]. *)
Inductive EncodedObj :=
| EValue (type : string) (val : JsValue)
| EDate (val : string) (ref : nat)
| EArray (val : list EncodedObj) (ref : nat)
| EMap (val : list (EncodedObj * EncodedObj)) (ref : nat)
| ESet (val : list EncodedObj) (ref : nat)
| EObject (val : list (EncodedObj * EncodedObj)) (ref : nat)
| EReference (val : nat)
| ESymbol (val : option string)
| EBigInt (val : string)
| ENull.

Definition same_value (v1 v2 : JsValue) : bool := same_value_zero Nat.eqb v1 v2.

(** ** Encode *)

(** The two mutable arguments of [Encode]: [refs], a [Map] from composite to
    reference id (entries in insertion order, so [refs.size] is the length),
    and the [symbols] table, an object from names to symbols. *)
Record EncState := mkEnc {
  refs : list (addr * nat);
  symbols : list (string * nat)
}.

Definition Enc (A : Type) := EncState -> option (A * EncState).

Section EncodeLoops.
Variable enc : JsValue -> Enc EncodedObj.

(** [for (let val of obj) out.push(this.Encode(val, ...))] *)
Fixpoint encode_list (vs : list JsValue) : Enc (list EncodedObj) :=
  fun st =>
  match vs with
  | [] => Some ([], st)
  | v :: rest =>
      match enc v st with
      | None => None
      | Some (w, st1) =>
          match encode_list rest st1 with
          | None => None
          | Some (ws, st2) => Some (w :: ws, st2)
          end
      end
  end.

(** [for (let [key, val] of obj) out.push({key: Encode(key), val: Encode(val)})] *)
Fixpoint encode_pairs (kvs : list (JsValue * JsValue))
  : Enc (list (EncodedObj * EncodedObj)) :=
  fun st =>
  match kvs with
  | [] => Some ([], st)
  | (k, v) :: rest =>
      match enc k st with
      | None => None
      | Some (wk, st1) =>
          match enc v st1 with
          | None => None
          | Some (wv, st2) =>
              match encode_pairs rest st2 with
              | None => None
              | Some (ws, st3) => Some ((wk, wv) :: ws, st3)
              end
          end
      end
  end.
End EncodeLoops.

Definition is_string_key (p : Key * JsValue) : bool :=
  match fst p with KStr _ => true | KSym _ => false end.

Definition key_value (k : Key) : JsValue :=
  match k with KStr s => VStr s | KSym n => VSym n end.

(** The properties an object is encoded from: [for (let key in obj)] first,
    [Object.getOwnPropertySymbols(obj)] second. *)
Definition object_entries (props : list (Key * JsValue))
  : list (JsValue * JsValue) :=
  map (fun p => (key_value (fst p), snd p))
      (filter is_string_key props ++
       filter (fun p => negb (is_string_key p)) props).

(** The [typeID === "symbol"] branch. *)
Definition encode_symbol (n : nat) : Enc EncodedObj :=
  fun st =>
  match find (fun p => Nat.eqb (snd p) n) (symbols st) with
  | Some (key, _) => Some (ESymbol (Some key), st)
  | None =>
      let name := String.append "__unk" (string_of_nat (length (symbols st))) in
      Some (ESymbol (Some name),
            mkEnc (refs st) (assoc_set String.eqb name n (symbols st)))
  end.

(** *** Dates *)

(** [toISOString] renders the time value of a [Date] as
    [YYYY-MM-DDTHH:mm:ss.sssZ], the year written with a sign and six digits
    when it is not between 0 and 9999; time values range from
    [-271821-04-20T00:00:00.000Z] to [+275760-09-13T00:00:00.000Z].  On an
    invalid [Date] (time value [NaN]) it throws a [RangeError].  A cell
    [CDate iso] stands for the [Date] with the time value that [iso]
    renders, and for an invalid [Date] when [iso] renders none. *)
Definition digit (c : ascii) : option Z :=
  let n := Z.of_nat (nat_of_ascii c) in
  if ((48 <=? n) && (n <=? 57))%Z then Some (n - 48)%Z else None.

Fixpoint number (cs : list ascii) (acc : Z) : option Z :=
  match cs with
  | [] => Some acc
  | c :: rest =>
      match digit c with
      | Some d => number rest (10 * acc + d)%Z
      | None => None
      end
  end.

Definition leap_year (y : Z) : bool :=
  ((y mod 4 =? 0) && negb (y mod 100 =? 0) || (y mod 400 =? 0))%Z.

Definition days_in_month (y month : Z) : Z :=
  if (month =? 2)%Z then (if leap_year y then 29 else 28)%Z
  else if ((month =? 4) || (month =? 6) || (month =? 9) || (month =? 11))%Z
       then 30%Z else 31%Z.

(** The part after the year, [-MM-DDTHH:mm:ss.sssZ]: month, day and the
    milliseconds of the day. *)
Definition month_day_time (y : Z) (cs : list ascii) : option (Z * Z * Z) :=
  match cs with
  | [d1; m1; m2; d2; a1; a2; t; h1; h2; c1; i1; i2; c2; s1; s2; p; f1; f2; f3; z] =>
      if (Ascii.eqb d1 "-" && Ascii.eqb d2 "-" && Ascii.eqb t "T" &&
          Ascii.eqb c1 ":" && Ascii.eqb c2 ":" && Ascii.eqb p "." &&
          Ascii.eqb z "Z")%char
      then
        match number [m1; m2] 0, number [a1; a2] 0, number [h1; h2] 0,
              number [i1; i2] 0, number [s1; s2] 0, number [f1; f2; f3] 0 with
        | Some month, Some day, Some hour, Some minute, Some second, Some ms =>
            if ((1 <=? month) && (month <=? 12) && (1 <=? day) &&
                (day <=? days_in_month y month) && (hour <=? 23) &&
                (minute <=? 59) && (second <=? 59))%Z
            then Some (month, day,
                       (((hour * 60 + minute) * 60 + second) * 1000 + ms)%Z)
            else None
        | _, _, _, _, _, _ => None
        end
      else None
  | _ => None
  end.

(** Whether the text is what [toISOString] returns for some time value. *)
Definition date_text (iso : string) : bool :=
  match list_ascii_of_string iso with
  | y1 :: y2 :: y3 :: y4 :: y5 :: y6 :: y7 :: rest =>
      if Ascii.eqb y1 "+"%char then
        match number [y2; y3; y4; y5; y6; y7] 0 with
        | Some y =>
            match month_day_time y rest with
            | Some (month, day, ms) =>
                ((9999 <? y) &&
                 ((y <? 275760) ||
                  (y =? 275760) &&
                  ((month <? 9) ||
                   (month =? 9) && ((day <? 13) || (day =? 13) && (ms =? 0)))))%Z
            | None => false
            end
        | None => false
        end
      else if Ascii.eqb y1 "-"%char then
        match number [y2; y3; y4; y5; y6; y7] 0 with
        | Some n =>
            match month_day_time (- n) rest with
            | Some (month, day, ms) =>
                ((0 <? n) &&
                 ((n <? 271821) ||
                  (n =? 271821) &&
                  ((4 <? month) || (month =? 4) && (20 <=? day))))%Z
            | None => false
            end
        | None => false
        end
      else
        match number [y1; y2; y3; y4] 0 with
        | Some y =>
            match month_day_time y (y5 :: y6 :: y7 :: rest) with
            | Some _ => true
            | None => false
            end
        | None => false
        end
  | _ => false
  end.

(** [Encode], with the recursion depth bounded by [fuel]: every nested call
    on a composite registers a composite that was not in [refs] before.  A
    call that does not return gives [None]: the one [throw] on the way is
    the [RangeError] of [toISOString] on an invalid [Date]; the fuel
    [Encode] starts with is enough for every heap
    ([Encode_returns_on_every_graph]). *)
Fixpoint Encode_fuel (fuel : nat) (heap : Heap) (blocklist : list JsValue)
  (obj : JsValue) : Enc EncodedObj :=
  fun st =>
  match fuel with
  | O => None
  | S fuel' =>
      let enc := Encode_fuel fuel' heap blocklist in
      match obj with
      | VNull =>
          if existsb (same_value obj) blocklist
          then Some (EValue "undefined" VUndef, st)
          else Some (ENull, st)
      | VObj a =>
          if existsb (same_value obj) blocklist
          then Some (EValue "undefined" VUndef, st)
          else
            match assoc_get Nat.eqb a (refs st) with
            | Some n => Some (EReference n, st)
            | None =>
                match nth_error heap a with
                | None => None
                | Some cell =>
                    let ref := length (refs st) in
                    let st0 := mkEnc (refs st ++ [(a, ref)]) (symbols st) in
                    match cell with
                    | CArray elems =>
                        match encode_list enc elems st0 with
                        | Some (out, st1) => Some (EArray out ref, st1)
                        | None => None
                        end
                    | CDate iso =>
                        if date_text iso then Some (EDate iso ref, st0)
                        else None
                    | CMap entries =>
                        match encode_pairs enc entries st0 with
                        | Some (out, st1) => Some (EMap out ref, st1)
                        | None => None
                        end
                    | CSet members =>
                        match encode_list enc members st0 with
                        | Some (out, st1) => Some (ESet out ref, st1)
                        | None => None
                        end
                    | CObject props =>
                        match encode_pairs enc (object_entries props) st0 with
                        | Some (out, st1) => Some (EObject out ref, st1)
                        | None => None
                        end
                    end
                end
            end
      | VSym n => encode_symbol n st
      | VFun _ => Some (EValue "undefined" VUndef, st)
      | VBig z => Some (EBigInt (string_of_Z z), st)
      | _ => Some (EValue (typeof obj) obj, st)
      end
  end.

(** [Obj2Obj.Encode(obj, symbols, refs, blocklist)]. *)
Definition Encode (heap : Heap) (obj : JsValue) (symbols : list (string * nat))
  (refs : list (addr * nat)) (blocklist : list JsValue)
  : option (EncodedObj * EncState) :=
  Encode_fuel (S (length heap)) heap blocklist obj (mkEnc refs symbols).

(** ** Decode *)

(** What [Decode] mutates: the heap it allocates the decoded composites in,
    the [refs] map from reference id to decoded value, the [symbols] table,
    and the supply of fresh symbols for [Symbol()]. *)
Record DecState := mkDec {
  dheap : Heap;
  drefs : list (nat * JsValue);
  dsymbols : list (string * nat);
  next_symbol : nat
}.

Definition Dec (A : Type) := M DecState A.

Definition alloc (c : Cell addr) : Dec addr :=
  fun d => Ok (length (dheap d))
              (mkDec (dheap d ++ [c]) (drefs d) (dsymbols d) (next_symbol d)).

Definition refs_set (ref : nat) (v : JsValue) : Dec unit :=
  modify (fun d => mkDec (dheap d) (assoc_set Nat.eqb ref v (drefs d))
                         (dsymbols d) (next_symbol d)).

Definition update_cell (a : addr) (f : Cell addr -> Cell addr) : Dec unit :=
  modify (fun d => mkDec (list_update a f (dheap d)) (drefs d)
                         (dsymbols d) (next_symbol d)).

Definition fresh_symbol : Dec nat :=
  fun d => Ok (next_symbol d)
              (mkDec (dheap d) (drefs d) (dsymbols d) (S (next_symbol d))).

(** [out.push(v)], [out.set(k, v)], [out.add(v)] and [out[k] = v] on the
    composite under construction.  The object [out = {}] inherits the
    accessor [__proto__] from [Object.prototype], so [out["__proto__"] = v]
    runs its setter and creates no property.  (For an object or [null] the
    setter changes the prototype of [out], and throws a [TypeError] when
    that closes a cycle of prototypes; prototypes are not part of a cell,
    and the statements about [Decode] exclude wire forms with this key.) *)
Definition array_push (v : JsValue) (c : Cell addr) : Cell addr :=
  match c with CArray elems => CArray (elems ++ [v]) | _ => c end.
Definition map_set (k v : JsValue) (c : Cell addr) : Cell addr :=
  match c with CMap entries => CMap (assoc_set same_value k v entries) | _ => c end.
Definition set_add_cell (v : JsValue) (c : Cell addr) : Cell addr :=
  match c with CSet members => CSet (set_add same_value v members) | _ => c end.
Definition object_set (k : Key) (v : JsValue) (c : Cell addr) : Cell addr :=
  match c with
  | CObject props =>
      if Key_eqb k (KStr "__proto__") then CObject props
      else CObject (assoc_set Key_eqb k v props)
  | _ => c
  end.

(** [ToPropertyKey]: strings and symbols are keys as they are, other
    primitives are rendered; every object is rendered as a plain object is. *)
Definition to_property_key (v : JsValue) : Key :=
  match v with
  | VStr s => KStr s
  | VSym n => KSym n
  | VUndef => KStr "undefined"
  | VNull => KStr "null"
  | VBool true => KStr "true"
  | VBool false => KStr "false"
  | VNum z => KStr (string_of_Z z)
  | VNaN => KStr "NaN"
  | VBig z => KStr (string_of_Z z)
  | VFun _ => KStr "function () { [native code] }"
  | VObj _ => KStr "[object Object]"
  end.

(** [BigInt(s)] on a decimal literal, as [Encode] writes it; anything else
    is a [SyntaxError].  (The other texts [BigInt] accepts, with white space
    around the literal or in hexadecimal, octal or binary, are not
    followed.) *)
Definition BigInt (s : string) : Dec JsValue :=
  match Z_of_string s with
  | Some z => ret (VBig z)
  | None => throw (SyntaxError (String.append "Cannot convert " (String.append s " to a BigInt")))
  end.

Definition decode_symbol (val : option string) : Dec JsValue :=
  match val with
  | Some name =>
      fun d =>
      match assoc_get String.eqb name (dsymbols d) with
      | Some n => Ok (VSym n) d
      | None =>
          Ok (VSym (next_symbol d))
             (mkDec (dheap d) (drefs d)
                    (assoc_set String.eqb name (next_symbol d) (dsymbols d))
                    (S (next_symbol d)))
      end
  | None => bind fresh_symbol (fun n => ret (VSym n))
  end.

Fixpoint Decode (obj : EncodedObj) : Dec JsValue :=
  match obj with
  | EArray val ref =>
      bind (alloc (CArray [])) (fun out =>
      bind (refs_set ref (VObj out)) (fun _ =>
      bind (for_each (fun entry =>
              bind (Decode entry) (fun v => update_cell out (array_push v)))
            val) (fun _ =>
      ret (VObj out))))
  | EDate val ref =>
      bind (alloc (CDate val)) (fun out =>
      bind (refs_set ref (VObj out)) (fun _ =>
      ret (VObj out)))
  | EMap val ref =>
      bind (alloc (CMap [])) (fun out =>
      bind (refs_set ref (VObj out)) (fun _ =>
      bind (for_each (fun entry =>
              bind (Decode (fst entry)) (fun k =>
              bind (Decode (snd entry)) (fun v =>
              update_cell out (map_set k v))))
            val) (fun _ =>
      ret (VObj out))))
  | EObject val ref =>
      bind (alloc (CObject [])) (fun out =>
      bind (refs_set ref (VObj out)) (fun _ =>
      bind (for_each (fun entry =>
              bind (Decode (fst entry)) (fun k =>
              bind (Decode (snd entry)) (fun v =>
              update_cell out (object_set (to_property_key k) v))))
            val) (fun _ =>
      ret (VObj out))))
  | EReference val =>
      fun d =>
      match assoc_get Nat.eqb val (drefs d) with
      | Some v => Ok v d
      | None => Ok VUndef d
      end
  | ESet val ref =>
      bind (alloc (CSet [])) (fun out =>
      bind (refs_set ref (VObj out)) (fun _ =>
      bind (for_each (fun entry =>
              bind (Decode entry) (fun v => update_cell out (set_add_cell v)))
            val) (fun _ =>
      ret (VObj out))))
  | ESymbol val => decode_symbol val
  | EBigInt val => BigInt val
  | ENull => ret VNull
  | EValue _ val => ret val
  end.


(** ** Missing references *)

(** The wire form with every reference node that [Decode] meets while the
    id is not in its id map replaced by the node of the value [undefined].
    [known] lists the ids of the map; a composite node enters its id before
    its parts are read, as [refs.set(obj.ref, out)] does. *)
Section ResolveLoops.
Variable resolve : EncodedObj -> list nat -> EncodedObj * list nat.

Fixpoint resolve_list (ws : list EncodedObj) (known : list nat)
  : list EncodedObj * list nat :=
  match ws with
  | [] => ([], known)
  | w :: rest =>
      let (w', known1) := resolve w known in
      let (rest', known2) := resolve_list rest known1 in
      (w' :: rest', known2)
  end.

Fixpoint resolve_pairs (kvs : list (EncodedObj * EncodedObj)) (known : list nat)
  : list (EncodedObj * EncodedObj) * list nat :=
  match kvs with
  | [] => ([], known)
  | (k, v) :: rest =>
      let (k', known1) := resolve k known in
      let (v', known2) := resolve v known1 in
      let (rest', known3) := resolve_pairs rest known2 in
      ((k', v') :: rest', known3)
  end.
End ResolveLoops.

Fixpoint resolve (obj : EncodedObj) (known : list nat)
  : EncodedObj * list nat :=
  match obj with
  | EArray val ref =>
      let (val', known') := resolve_list resolve val (ref :: known) in
      (EArray val' ref, known')
  | EDate val ref => (obj, ref :: known)
  | EMap val ref =>
      let (val', known') := resolve_pairs resolve val (ref :: known) in
      (EMap val' ref, known')
  | ESet val ref =>
      let (val', known') := resolve_list resolve val (ref :: known) in
      (ESet val' ref, known')
  | EObject val ref =>
      let (val', known') := resolve_pairs resolve val (ref :: known) in
      (EObject val' ref, known')
  | EReference id =>
      if existsb (Nat.eqb id) known then (obj, known)
      else (EValue "undefined" VUndef, known)
  | _ => (obj, known)
  end.

Definition resolved (obj : EncodedObj) (known : list nat) : EncodedObj :=
  fst (resolve obj known).

(** [known] lists the ids of the decoder's id map. *)
Definition tracks (known : list nat) (d : DecState) : Prop :=
  forall id, existsb (Nat.eqb id) known = true
             <-> assoc_get Nat.eqb id (drefs d) <> None.

(** What [resolve] achieves on one wire form: [Decode] does the same on the
    resolved form, and [resolve] keeps track of the ids [Decode] enters. *)
Definition resolve_ok (w : EncodedObj) : Prop :=
  forall known d, tracks known d ->
    Decode (fst (resolve w known)) d = Decode w d /\
    forall v d', Decode w d = Ok v d' -> tracks (snd (resolve w known)) d'.

(** ** Value graphs, for stating the round trip *)

(** The values a composite holds directly. *)
Definition children (c : Cell addr) : list JsValue :=
  match c with
  | CObject props => map snd props
  | CArray elems => elems
  | CMap entries => flat_map (fun p => [fst p; snd p]) entries
  | CSet members => members
  | CDate _ => []
  end.

(** The composites of the graph rooted at [root]. *)
Inductive reachable (heap : Heap) (root : JsValue) : addr -> Prop :=
| reach_root a : root = VObj a -> reachable heap root a
| reach_child a c b :
    reachable heap root a -> nth_error heap a = Some c ->
    In (VObj b) (children c) -> reachable heap root b.

(** Values of the kinds a data graph is built from: everything but symbols
    and functions. *)
Definition plain_value (v : JsValue) : bool :=
  match v with VSym _ | VFun _ => false | _ => true end.

Definition in_heap (heap : Heap) (v : JsValue) : Prop :=
  match v with VObj a => a < length heap | _ => True end.

(** A well-formed cell: its references point into the heap, and it is a
    legal JS object, [Map] or [Set] (no key or member occurs twice). *)
Definition wf_cell (heap : Heap) (c : Cell addr) : Prop :=
  Forall (in_heap heap) (children c) /\
  match c with
  | CObject props => NoDup (map fst props)
  | CMap entries => NoDup (map fst entries)
  | CSet members => NoDup members
  | _ => True
  end.

Definition wf_heap (heap : Heap) : Prop := Forall (wf_cell heap) heap.

(** Every [Date] of the heap is valid. *)
Definition valid_date (c : Cell addr) : Prop :=
  match c with CDate iso => date_text iso = true | _ => True end.
Definition valid_dates (heap : Heap) : Prop := Forall valid_date heap.

(** No object of the heap has an own property named [__proto__]. *)
Definition no_proto_key (c : Cell addr) : Prop :=
  match c with
  | CObject props => ~ In (KStr "__proto__") (map fst props)
  | _ => True
  end.
Definition no_proto_keys (heap : Heap) : Prop := Forall no_proto_key heap.

(** A cell of a data graph: plain values under string keys. *)
Definition plain_cell (c : Cell addr) : Prop :=
  Forall (fun v => plain_value v = true) (children c) /\
  match c with
  | CObject props => Forall (fun p => is_string_key p = true) props
  | _ => True
  end.

Definition plain_heap (heap : Heap) : Prop := Forall plain_cell heap.

(** Renaming of addresses along [f]. *)
Definition rename_value (f : addr -> addr) (v : JsValue) : JsValue :=
  match v with VObj a => VObj (f a) | _ => v end.

Definition rename_cell (f : addr -> addr) (c : Cell addr) : Cell addr :=
  match c with
  | CObject props => CObject (map (fun p => (fst p, rename_value f (snd p))) props)
  | CArray elems => CArray (map (rename_value f) elems)
  | CMap entries =>
      CMap (map (fun p => (rename_value f (fst p), rename_value f (snd p))) entries)
  | CSet members => CSet (map (rename_value f) members)
  | CDate iso => CDate iso
  end.

(** The graph at [v'] in [heap'] is the graph at [v] in [heap], node for
    node: [f] sends every composite of the one to a composite of the other
    with the same contents, and sends different composites to different
    ones. *)
Definition same_graph (heap : Heap) (v : JsValue) (heap' : Heap) (v' : JsValue)
  : Prop :=
  exists f : addr -> addr,
    v' = rename_value f v /\
    (forall a, reachable heap v a ->
       exists c, nth_error heap a = Some c /\
                 nth_error heap' (f a) = Some (rename_cell f c)) /\
    (forall a b, reachable heap v a -> reachable heap v b ->
       f a = f b -> a = b).


(** ** Invariants of an encoding run and the decoding run that follows it *)

(** The id [Encode] gave a composite (0 for one it never met). *)
Definition ref_of (rs : list (addr * nat)) (a : addr) : nat :=
  match assoc_get Nat.eqb a rs with Some n => n | None => 0 end.

Definition registered (rs : list (addr * nat)) (v : JsValue) : Prop :=
  match v with VObj a => assoc_get Nat.eqb a rs <> None | _ => True end.

(** [refs] as [Encode] builds it: the k-th composite met has id k, no
    composite is met twice, and all of them are in the heap. *)
Definition refs_ok (heap : Heap) (rs : list (addr * nat)) : Prop :=
  map snd rs = seq 0 (length rs) /\
  NoDup (map fst rs) /\
  Forall (fun p => fst p < length heap) rs.

Definition extends (rs rs' : list (addr * nat)) : Prop :=
  exists ext, rs' = rs ++ ext.

(** The decoder is in step with the encoder: it has allocated one composite
    per id handed out, and its id map sends id i to the i-th of them. *)
Definition in_sync (rs : list (addr * nat)) (d : DecState) : Prop :=
  length (dheap d) = length rs /\
  forall i, i < length rs -> assoc_get Nat.eqb i (drefs d) = Some (VObj i).

(** The composites registered from position [n] on are fully decoded. *)
Definition completed (heap : Heap) (n : nat) (rs : list (addr * nat))
  (dh : Heap) : Prop :=
  forall a i c, In (a, i) rs -> n <= i -> nth_error heap a = Some c ->
    nth_error dh i = Some (rename_cell (ref_of rs) c) /\
    Forall (registered rs) (children c).

(** The cells below [n], but for the one at [out], are untouched. *)
Definition untouched (n : nat) (out : option nat) (dh dh' : Heap) : Prop :=
  forall i, i < n -> Some i <> out -> nth_error dh' i = nth_error dh i.

(** What a nested [Encode] call with enough fuel achieves. *)
Definition enc_total (heap : Heap) (fuel : nat) (enc : JsValue -> Enc EncodedObj) : Prop :=
  forall v st, in_heap heap v -> refs_ok heap (refs st) ->
    length heap - length (refs st) < fuel ->
    exists w st', enc v st = Some (w, st') /\
      refs_ok heap (refs st') /\ extends (refs st) (refs st').

(** What one nested [Encode] call and the matching [Decode] call achieve. *)
Definition dec_spec (heap : Heap) (enc : JsValue -> Enc EncodedObj) : Prop :=
  forall v st w st', enc v st = Some (w, st') ->
    plain_value v = true -> refs_ok heap (refs st) ->
    forall d, in_sync (refs st) d ->
    exists d', Decode w d = Ok (rename_value (ref_of (refs st')) v) d' /\
      in_sync (refs st') d' /\ refs_ok heap (refs st') /\
      extends (refs st) (refs st') /\
      registered (refs st') v /\
      untouched (length (refs st)) None (dheap d) (dheap d') /\
      completed heap (length (refs st)) (refs st') (dheap d').

(** ** The order of the reference ids in a wire form *)

Section IdsLoops.
Variable check : EncodedObj -> nat -> option nat.

Fixpoint ids_of_list (ws : list EncodedObj) (next : nat) : option nat :=
  match ws with
  | [] => Some next
  | w :: rest =>
      match check w next with
      | Some next' => ids_of_list rest next'
      | None => None
      end
  end.

Fixpoint ids_of_pairs (kvs : list (EncodedObj * EncodedObj)) (next : nat)
  : option nat :=
  match kvs with
  | [] => Some next
  | (k, v) :: rest =>
      match check k next with
      | Some next1 =>
          match check v next1 with
          | Some next2 => ids_of_pairs rest next2
          | None => None
          end
      | None => None
      end
  end.
End IdsLoops.

(** A wire form whose ids a decoder can follow, read in the order [Decode]
    reads it: every composite node carries the next unused id, counted from
    [next], and every reference node names an id below the ones still
    unused.  The result is the first id left unused. *)
Fixpoint ids_in_order (w : EncodedObj) (next : nat) : option nat :=
  match w with
  | EReference k => if Nat.ltb k next then Some next else None
  | EDate _ ref => if Nat.eqb ref next then Some (S next) else None
  | EArray ws ref | ESet ws ref =>
      if Nat.eqb ref next then ids_of_list ids_in_order ws (S next) else None
  | EMap kvs ref | EObject kvs ref =>
      if Nat.eqb ref next then ids_of_pairs ids_in_order kvs (S next) else None
  | EValue _ _ | ESymbol _ | EBigInt _ | ENull => Some next
  end.

(** What a nested [Encode] call does to the ids. *)
Definition ids_spec (heap : Heap) (enc : JsValue -> Enc EncodedObj) : Prop :=
  forall v st w st', enc v st = Some (w, st') -> refs_ok heap (refs st) ->
    refs_ok heap (refs st') /\
    ids_in_order w (length (refs st)) = Some (length (refs st')).

(** What [Decode] does with the wire form of a nested [Encode] call. *)
Definition decodes (enc : JsValue -> Enc EncodedObj) : Prop :=
  forall v st w st', enc v st = Some (w, st') ->
    forall d, exists v' d', Decode w d = Ok v' d'.

End Obj2Obj.

(** A value graph with a self-reference, a shared list, both container
    kinds, a date and a big integer. *)
Definition sample_heap : Obj2Obj.Heap :=
  [ CObject [(KStr "self", VObj 0); (KStr "list", VObj 1); (KStr "again", VObj 1);
             (KStr "big", VBig 12345678901234567890%Z); (KStr "when", VObj 4)];
    CArray [VObj 2; VObj 3; VStr "x"; VNull; VUndef; VBool true; VNum 3%Z; VNaN];
    CMap [(VStr "k", VObj 2); (VObj 0, VNum 1%Z)];
    CSet [VObj 0; VNum 3%Z];
    CDate "2020-01-01T00:00:00.000Z" ].


(** * The store: class [Database] *)

Module Database.

(** ** Objects and their proxies *)

(** A reference to an object: the object itself, or the [Proxy] that [_wrap]
    made for a reference.  [_wrap] keeps one proxy per wrapped reference (the
    [_wrapped] cache, never cleared), so a proxy is identified by what it
    wraps; a proxy can itself be wrapped again. *)
Inductive Ref :=
| Raw (a : nat)
| Prox (target : Ref).

Notation DbValue := (Value Ref) (only parsing).

Fixpoint Ref_eqb (r1 r2 : Ref) : bool :=
  match r1, r2 with
  | Raw a, Raw b => Nat.eqb a b
  | Prox t1, Prox t2 => Ref_eqb t1 t2
  | _, _ => false
  end.

(** The object behind any number of proxies. *)
Fixpoint base (r : Ref) : nat :=
  match r with Raw a => a | Prox t => base t end.

Definition same_value (v1 v2 : DbValue) : bool := same_value_zero Ref_eqb v1 v2.
Definition strict_eq (v1 v2 : DbValue) : bool := strict_equal Ref_eqb v1 v2.

(** [const UniqueID = Symbol("DataRecord.__id")] *)
Definition UniqueID : Key := KSym 0.

(** JavaScript truthiness, for [!x] and [if (x)]. *)
Definition truthy (v : DbValue) : bool :=
  match v with
  | VUndef | VNull | VNaN => false
  | VBool b => b
  | VNum z => negb (Z.eqb z 0)
  | VBig z => negb (Z.eqb z 0)
  | VStr s => negb (String.eqb s EmptyString)
  | _ => true
  end.

(** [ToIntegerOrInfinity] on the arguments [splice] is given. *)
Definition to_integer (v : DbValue) : Z :=
  match v with VNum z => z | VBool true => 1%Z | _ => 0%Z end.

(** An array index written as a property key, and back. *)
Definition index_key (i : nat) : Key := KStr (string_of_nat i).
Definition key_index (k : Key) : option nat :=
  match k with
  | KStr s =>
      match Z_of_string s with
      | Some z =>
          if (0 <=? z)%Z && String.eqb (string_of_Z z) s
          then Some (Z.to_nat z) else None
      | None => None
      end
  | KSym _ => None
  end.

(** ** Change events and the state of a [Database] *)

(** What every event of the observer carries: [tableName], [record],
    [colName] and [object]. *)
Record Attribution := mkAttr {
  tableName : string;
  record : DbValue;
  colName : Key;
  object : DbValue
}.

(** [DataRecordUpdateEvent], one constructor per [type]. *)
Inductive DataRecordUpdateEvent :=
| EvAdded (tableName : string) (record : DbValue)
| EvRemoved (tableName : string) (record : DbValue)
| EvMethodClear (at_ : Attribution) (args : list DbValue)
| EvMethodDelete (at_ : Attribution) (oldValue : DbValue) (args : list DbValue)
| EvMethodAdd (at_ : Attribution) (oldValue : DbValue) (args : list DbValue)
| EvMethodSet (at_ : Attribution) (oldValue : DbValue) (args : list DbValue)
| EvMethodPush (at_ : Attribution) (args : list DbValue)
| EvMethodPop (at_ : Attribution) (deletedValue : DbValue) (args : list DbValue)
| EvMethodShift (at_ : Attribution) (deletedValue : DbValue) (args : list DbValue)
| EvMethodUnshift (at_ : Attribution) (args : list DbValue)
| EvMethodSplice (at_ : Attribution) (deletedValues : DbValue) (args : list DbValue)
| EvDelete (at_ : Attribution) (key : Key) (oldValue : DbValue)
| EvSet (at_ : Attribution) (key : Key) (oldValue newValue : DbValue).

(** [interface Transaction { changes: DataRecordUpdateEvent[] }] *)
Record Transaction := mkTransaction { changes : list DataRecordUpdateEvent }.

(** One index: a [Map] from a value to the [Set] of records holding it. *)
Notation IndexMap := (list (DbValue * list DbValue)) (only parsing).

(** One entry of [DataStore]. *)
Record Table := mkTable {
  records : list (DbValue * DbValue);
  indices : list (string * IndexMap);
  lastUID : option Z
}.

(** The closure of a proxy: the arguments [_wrap] was first called with. *)
Record Closure := mkClosure {
  cl_tableName : string;
  cl_record : Ref;
  cl_colName : option Key
}.

(** A [Database] object together with the heap its records live in and the
    console [logError] writes to. *)
Record Db := mkDb {
  heap : list (Cell Ref);
  _wrapped : list (Ref * Closure);
  _data : list (string * Table);
  _transactions : list Transaction;
  console : list string
}.

Definition new_Database : Db := mkDb [] [] [] [] [].

Notation Op := (M Db) (only parsing).

Definition set_heap (h : list (Cell Ref)) (db : Db) : Db :=
  mkDb h (_wrapped db) (_data db) (_transactions db) (console db).
Definition set_wrapped (w : list (Ref * Closure)) (db : Db) : Db :=
  mkDb (heap db) w (_data db) (_transactions db) (console db).
Definition set_data (d : list (string * Table)) (db : Db) : Db :=
  mkDb (heap db) (_wrapped db) d (_transactions db) (console db).
Definition set_transactions (t : list Transaction) (db : Db) : Db :=
  mkDb (heap db) (_wrapped db) (_data db) t (console db).

(** [logError(e)], with [_DEBUG = true]. *)
Definition logError (e : string) : Op unit :=
  modify (fun db => mkDb (heap db) (_wrapped db) (_data db) (_transactions db)
                         (console db ++ [e])).

(** A name between double quotes, as the messages show it. *)
Definition quoted (name : string) : string :=
  String (ascii_of_nat 34) (String.append name (String (ascii_of_nat 34) EmptyString)).

Definition table_missing (tableName : string) : string :=
  String.append "Table " (String.append (quoted tableName) " does not exist.").

(** ** Plain operations on heap objects *)

Definition cell_of (r : Ref) (db : Db) : option (Cell Ref) :=
  nth_error (heap db) (base r).

(** [obj instanceof Map], [Array.isArray(obj)], ...: a proxy answers for its
    target. *)
Definition is_map (r : Ref) (db : Db) : bool :=
  match cell_of r db with Some (CMap _) => true | _ => false end.
Definition is_set (r : Ref) (db : Db) : bool :=
  match cell_of r db with Some (CSet _) => true | _ => false end.
Definition is_date (r : Ref) (db : Db) : bool :=
  match cell_of r db with Some (CDate _) => true | _ => false end.
Definition is_array (r : Ref) (db : Db) : bool :=
  match cell_of r db with Some (CArray _) => true | _ => false end.

Definition alloc (c : Cell Ref) : Op Ref :=
  fun db => Ok (Raw (length (heap db))) (set_heap (heap db ++ [c]) db).

Definition update_cell (a : nat) (f : Cell Ref -> Cell Ref) : Op unit :=
  modify (fun db => set_heap (list_update a f (heap db)) db).

(** [target[property]] on an object that is not a proxy.  Own properties,
    list elements, [length] and [size] are modelled; what is inherited from
    a prototype is not. *)
Definition raw_get (c : Cell Ref) (property : Key) : DbValue :=
  match c with
  | CObject props =>
      match assoc_get Key_eqb property props with Some v => v | None => VUndef end
  | CArray elems =>
      if Key_eqb property (KStr "length") then VNum (Z.of_nat (length elems))
      else match key_index property with
           | Some i => nth i elems VUndef
           | None => VUndef
           end
  | CMap entries =>
      if Key_eqb property (KStr "size") then VNum (Z.of_nat (length entries))
      else VUndef
  | CSet members =>
      if Key_eqb property (KStr "size") then VNum (Z.of_nat (length members))
      else VUndef
  | CDate _ => VUndef
  end.

(** [target[property] = value] on an object that is not a proxy; writing
    past the end of a list fills the gap with [undefined].  Two assignments
    are not followed: to [__proto__] on an object that has no such property
    (it runs the setter of [Object.prototype]), and to the [length] of a
    list (it truncates or extends the list). *)
Definition raw_set (property : Key) (value : DbValue) (c : Cell Ref) : Cell Ref :=
  match c with
  | CObject props => CObject (assoc_set Key_eqb property value props)
  | CArray elems =>
      match key_index property with
      | Some i =>
          if Nat.ltb i (length elems)
          then CArray (list_update i (fun _ => value) elems)
          else CArray (elems ++ repeat VUndef (i - length elems) ++ [value])
      | None => c
      end
  | _ => c
  end.

(** [delete target[property]] on an object that is not a proxy; a deleted
    list element reads as [undefined] afterwards. *)
Definition raw_delete (property : Key) (c : Cell Ref) : Cell Ref :=
  match c with
  | CObject props => CObject (assoc_del Key_eqb property props)
  | CArray elems =>
      match key_index property with
      | Some i => CArray (list_update i (fun _ => VUndef) elems)
      | None => c
      end
  | _ => c
  end.

(** The methods of [Map], [Set] and [Array] that the store and its observer
    use. *)
Inductive Method :=
| m_add | m_set | m_delete | m_clear | m_get | m_has
| m_push | m_pop | m_shift | m_unshift | m_splice.

Definition arg (n : nat) (args : list DbValue) : DbValue := nth n args VUndef.

(** [Array.prototype.splice]: the list after the call and the removed
    elements. *)
Definition splice (elems : list DbValue) (args : list DbValue)
  : list DbValue * list DbValue :=
  match args with
  | [] => (elems, [])
  | start :: rest =>
      let len := Z.of_nat (length elems) in
      let rel := to_integer start in
      let actualStart :=
        Z.to_nat (if (rel <? 0)%Z then Z.max (len + rel) 0 else Z.min rel len) in
      let deleteCount :=
        match rest with
        | [] => length elems - actualStart
        | dc :: _ =>
            Z.to_nat (Z.min (Z.max (to_integer dc) 0)
                            (len - Z.of_nat actualStart))
        end in
      (firstn actualStart elems ++ tl rest ++ skipn (actualStart + deleteCount) elems,
       firstn deleteCount (skipn actualStart elems))
  end.

Definition not_a_function : JsError := TypeError "target[property] is not a function".

(** A method call on an object that is not a proxy. *)
Definition raw_call (a : nat) (method : Method) (args : list DbValue)
  : Op DbValue :=
  fun db =>
  match nth_error (heap db) a, method with
  | Some (CMap entries), m_set =>
      Ok (VObj (Raw a))
         (set_heap (list_update a (fun _ =>
            CMap (assoc_set same_value (arg 0 args) (arg 1 args) entries))
            (heap db)) db)
  | Some (CMap entries), m_get =>
      Ok (match assoc_get same_value (arg 0 args) entries with
          | Some v => v | None => VUndef end) db
  | Some (CMap entries), m_has =>
      Ok (VBool (assoc_has same_value (arg 0 args) entries)) db
  | Some (CMap entries), m_delete =>
      Ok (VBool (assoc_has same_value (arg 0 args) entries))
         (set_heap (list_update a (fun _ =>
            CMap (assoc_del same_value (arg 0 args) entries)) (heap db)) db)
  | Some (CMap _), m_clear =>
      Ok VUndef (set_heap (list_update a (fun _ => CMap []) (heap db)) db)
  | Some (CSet members), m_add =>
      Ok (VObj (Raw a))
         (set_heap (list_update a (fun _ =>
            CSet (set_add same_value (arg 0 args) members)) (heap db)) db)
  | Some (CSet members), m_has =>
      Ok (VBool (existsb (same_value (arg 0 args)) members)) db
  | Some (CSet members), m_delete =>
      Ok (VBool (existsb (same_value (arg 0 args)) members))
         (set_heap (list_update a (fun _ =>
            CSet (set_del same_value (arg 0 args) members)) (heap db)) db)
  | Some (CSet _), m_clear =>
      Ok VUndef (set_heap (list_update a (fun _ => CSet []) (heap db)) db)
  | Some (CArray elems), m_push =>
      Ok (VNum (Z.of_nat (length (elems ++ args))))
         (set_heap (list_update a (fun _ => CArray (elems ++ args)) (heap db)) db)
  | Some (CArray elems), m_unshift =>
      Ok (VNum (Z.of_nat (length (args ++ elems))))
         (set_heap (list_update a (fun _ => CArray (args ++ elems)) (heap db)) db)
  | Some (CArray elems), m_pop =>
      Ok (last elems VUndef)
         (set_heap (list_update a (fun _ => CArray (removelast elems)) (heap db)) db)
  | Some (CArray elems), m_shift =>
      Ok (hd VUndef elems)
         (set_heap (list_update a (fun _ => CArray (tl elems)) (heap db)) db)
  | Some (CArray elems), m_splice =>
      let (kept, removed) := splice elems args in
      Ok (VObj (Raw (length (heap db))))
         (set_heap (list_update a (fun _ => CArray kept) (heap db) ++ [CArray removed]) db)
  | _, _ => Throw not_a_function db
  end.

(** ** The mutation observer: [_wrap] and [onUpdateRecord] *)

Local Open Scope js_scope.

Definition dangling : JsError := TypeError "Cannot read properties of undefined".

(** A property access or method call on a value that is not an object. *)
Definition as_ref (v : DbValue) : Op Ref :=
  match v with
  | VObj r => ret r
  | _ => throw dangling
  end.

(** [this._transactions[this._transactions.length - 1].changes.push(event)] *)
Fixpoint push_change (event : DataRecordUpdateEvent) (ts : list Transaction)
  : list Transaction :=
  match ts with
  | [] => []
  | [t] => [mkTransaction (changes t ++ [event])]
  | t :: rest => t :: push_change event rest
  end.

(** Several events pushed one after the other. *)
Definition append_changes (events : list DataRecordUpdateEvent)
  (ts : list Transaction) : list Transaction :=
  fold_left (fun ts event => push_change event ts) events ts.

(** [oldSet = index.get(v); if (oldSet) oldSet.delete(record)] *)
Definition bucket_delete (v record : DbValue) (index : IndexMap) : IndexMap :=
  match assoc_get same_value v index with
  | Some bucket => assoc_set same_value v (set_del same_value record bucket) index
  | None => index
  end.

(** [if (!index.has(v)) index.set(v, new Set()); index.get(v).add(record)] *)
Definition bucket_add (v record : DbValue) (index : IndexMap) : IndexMap :=
  match assoc_get same_value v index with
  | Some bucket => assoc_set same_value v (set_add same_value record bucket) index
  | None => index ++ [(v, [record])]
  end.

Definition set_indices (ix : list (string * IndexMap)) (t : Table) : Table :=
  mkTable (records t) ix (lastUID t).
Definition set_records (rs : list (DbValue * DbValue)) (t : Table) : Table :=
  mkTable rs (indices t) (lastUID t).

(** The index maintenance of [onUpdateRecord] for the types ["set"] and
    ["delete"], on [this._data]. *)
Definition reindex_data (tableName : string) (key : Key)
  (oldValue newValue record : DbValue) (data : list (string * Table))
  : list (string * Table) :=
  match assoc_get String.eqb tableName data, key with
  | Some schema, KStr col =>
      match assoc_get String.eqb col (indices schema) with
      | Some index =>
          let index' := bucket_add newValue record
                          (bucket_delete oldValue record index) in
          assoc_set String.eqb tableName
            (set_indices (assoc_set String.eqb col index' (indices schema)) schema)
            data
      | None => data
      end
  | _, _ => data
  end.

Definition reindex (tableName : string) (key : Key)
  (oldValue newValue record : DbValue) (db : Db) : Db :=
  set_data (reindex_data tableName key oldValue newValue record (_data db)) db.

Definition onUpdateRecord (event : DataRecordUpdateEvent) : Op unit :=
  fun db =>
  let db1 := set_transactions (push_change event (_transactions db)) db in
  match event with
  | EvSet at_ key oldValue newValue =>
      if strict_eq (record at_) (object at_)
      then Ok tt (reindex (tableName at_) key oldValue newValue (record at_) db1)
      else Ok tt db1
  | EvDelete at_ key oldValue =>
      if strict_eq (record at_) (object at_)
      then Ok tt (reindex (tableName at_) key oldValue VUndef (record at_) db1)
      else Ok tt db1
  | _ => Ok tt db1
  end.

(** [onUpdateTable] does nothing in [Database]. *)
Definition onUpdateTable (tableName event : string) : Op unit := ret tt.

Definition _wrap (tableName : string) (record : Ref) (colName : option Key)
  (obj : DbValue) : Op DbValue :=
  match obj with
  | VObj r =>
      fun db =>
      if assoc_has Ref_eqb r (_wrapped db)
      then Ok (VObj (Prox r)) db
      else Ok (VObj (Prox r))
              (set_wrapped (_wrapped db ++ [(r, mkClosure tableName record colName)]) db)
  | _ => ret obj
  end.

Definition _wrapRecord (tableName : string) (record : Ref) : Op DbValue :=
  _wrap tableName record None (VObj record).

Definition closure_of (target : Ref) : Op Closure :=
  fun db =>
  match assoc_get Ref_eqb target (_wrapped db) with
  | Some cl => Ok cl db
  | None => Throw (TypeError "not a proxy made by this Database") db
  end.

(** [let curColName = colName ?? property] *)
Definition curColName (cl : Closure) (property : Key) : Key :=
  match cl_colName cl with Some c => c | None => property end.

Definition method_name (m : Method) : string :=
  match m with
  | m_add => "add" | m_set => "set" | m_delete => "delete" | m_clear => "clear"
  | m_get => "get" | m_has => "has"
  | m_push => "push" | m_pop => "pop" | m_shift => "shift"
  | m_unshift => "unshift" | m_splice => "splice"
  end.

(** [obj[property]]; on a proxy, the [get] trap for a data property. *)
Fixpoint get (r : Ref) (property : Key) : Op DbValue :=
  match r with
  | Raw a =>
      fun db =>
      match nth_error (heap db) a with
      | Some c => Ok (raw_get c property) db
      | None => Throw dangling db
      end
  | Prox target =>
      cl <- closure_of target ;;
      fun db =>
      if is_map target db || is_set target db || is_date target db
      then get target property db
      else (v <- get target property ;;
            _wrap (cl_tableName cl) (cl_record cl)
                  (Some (curColName cl property)) v) db
  end.

(** [obj[property] = value]; on a proxy, the [set] trap. *)
Fixpoint put (r : Ref) (property : Key) (value : DbValue) : Op unit :=
  match r with
  | Raw a => update_cell a (raw_set property value)
  | Prox target =>
      cl <- closure_of target ;;
      let col := curColName cl property in
      oldValue <- get target property ;;
      wvalue <- _wrap (cl_tableName cl) (cl_record cl) (Some col) value ;;
      put target property wvalue ;;;
      wrecord <- _wrapRecord (cl_tableName cl) (cl_record cl) ;;
      wobject <- _wrap (cl_tableName cl) target (Some col) (VObj target) ;;
      wold <- _wrap (cl_tableName cl) (cl_record cl) (Some col) oldValue ;;
      wnew <- _wrap (cl_tableName cl) (cl_record cl) (Some col) value ;;
      onUpdateRecord
        (EvSet (mkAttr (cl_tableName cl) wrecord col wobject) property wold wnew)
  end.

(** [delete obj[property]]; on a proxy, the [deleteProperty] trap. *)
Fixpoint delete (r : Ref) (property : Key) : Op unit :=
  match r with
  | Raw a => update_cell a (raw_delete property)
  | Prox target =>
      cl <- closure_of target ;;
      let col := curColName cl property in
      oldValue <- get target property ;;
      delete target property ;;;
      wrecord <- _wrapRecord (cl_tableName cl) (cl_record cl) ;;
      wobject <- _wrap (cl_tableName cl) target (Some col) (VObj target) ;;
      wold <- _wrap (cl_tableName cl) (cl_record cl) (Some col) oldValue ;;
      onUpdateRecord
        (EvDelete (mkAttr (cl_tableName cl) wrecord col wobject) property wold)
  end.

(** [obj.method(...args)]; on a proxy, the function the [get] trap returns
    for [method], applied to [args]. *)
Fixpoint call (r : Ref) (method : Method) (args : list DbValue) : Op DbValue :=
  match r with
  | Raw a => raw_call a method args
  | Prox target =>
      cl <- closure_of target ;;
      let T := cl_tableName cl in
      let col := curColName cl (KStr (method_name method)) in
      fun db =>
      if is_map target db || is_set target db then
        match method with
        | m_add | m_set | m_delete | m_clear =>
            (wrecord <- _wrapRecord T (cl_record cl) ;;
             wobject <- _wrap T target (Some col) (VObj target) ;;
             oldValue <-
               (match method with
                | m_set | m_delete =>
                    fun db' =>
                    if is_map target db'
                    then (v <- call target m_get [arg 0 args] ;;
                          _wrap T (cl_record cl) (Some col) v) db'
                    else Ok VUndef db'
                | _ => ret VUndef
                end) ;;
             let at_ := mkAttr T wrecord col wobject in
             onUpdateRecord
               (match method with
                | m_add => EvMethodAdd at_ oldValue args
                | m_set => EvMethodSet at_ oldValue args
                | m_delete => EvMethodDelete at_ oldValue args
                | _ => EvMethodClear at_ args
                end) ;;;
             call target method args) db
        | m_get =>
            (v <- call target m_get [arg 0 args] ;;
             _wrap T target (Some col) v) db
        | _ => call target method args db
        end
      else if is_date target db then call target method args db
      else if is_array target db then
        match method with
        | m_pop | m_shift =>
            (deletedItems <- call target method args ;;
             wrecord <- _wrapRecord T (cl_record cl) ;;
             wobject <- _wrap T target (Some col) (VObj target) ;;
             deletedValue <- _wrap T (cl_record cl) (Some col) deletedItems ;;
             let at_ := mkAttr T wrecord col wobject in
             onUpdateRecord
               (match method with
                | m_pop => EvMethodPop at_ deletedValue args
                | _ => EvMethodShift at_ deletedValue args
                end) ;;;
             ret deletedItems) db
        | m_push | m_unshift =>
            (deletedItems <- call target method args ;;
             wrecord <- _wrapRecord T (cl_record cl) ;;
             wobject <- _wrap T target (Some col) (VObj target) ;;
             let at_ := mkAttr T wrecord col wobject in
             onUpdateRecord
               (match method with
                | m_push => EvMethodPush at_ args
                | _ => EvMethodUnshift at_ args
                end) ;;;
             ret deletedItems) db
        | m_splice =>
            (deletedItems <- call target method args ;;
             wrecord <- _wrapRecord T (cl_record cl) ;;
             wobject <- _wrap T target (Some col) (VObj target) ;;
             deletedValues <- _wrap T (cl_record cl) (Some col) deletedItems ;;
             onUpdateRecord
               (EvMethodSplice (mkAttr T wrecord col wobject) deletedValues args) ;;;
             ret deletedItems) db
        | _ => Throw not_a_function db
        end
      else Throw not_a_function db
  end.

Section MapM.
Variables A B : Type.
Variable f : A -> Op B.

(** [xs.map(f)] for an [f] with effects. *)
Fixpoint map_m (xs : list A) : Op (list B) :=
  match xs with
  | [] => ret []
  | x :: rest => y <- f x ;; ys <- map_m rest ;; ret (y :: ys)
  end.

Variable p : A -> Op bool.

(** [xs.filter(p)] for a [p] with effects. *)
Fixpoint filter_m (xs : list A) : Op (list A) :=
  match xs with
  | [] => ret []
  | x :: rest =>
      keep <- p x ;; ys <- filter_m rest ;;
      ret (if keep then x :: ys else ys)
  end.
End MapM.

(** [[...v]] for a list [v]: its iterator reads [length] and then the
    elements, through the traps when [v] is a proxy. *)
Definition spread (v : DbValue) : Op (list DbValue) :=
  r <- as_ref v ;;
  len <- get r (KStr "length") ;;
  map_m (fun i => get r (index_key i)) (seq 0 (Z.to_nat (to_integer len))).

(** ** The store operations *)

(** [_data] and the [indices] of a table are object literals, read by
    name.  Under a name that [Object.prototype] defines ([inherited]) such a
    read finds the inherited member when the object has no table or index of
    that name, so the code takes the branch of an existing table or index
    there, and then throws a [TypeError] or writes on the inherited member.
    The operations below follow the code for the own properties; the
    statements about a table or an index that does not exist say that its
    name is not inherited. *)

(** An object literal evaluated by the caller: a fresh object. *)
Definition new_object (props : list (Key * DbValue)) : Op Ref :=
  alloc (CObject props).

Definition table (tableName : string) (db : Db) : option Table :=
  assoc_get String.eqb tableName (_data db).

(** [this._data[tableName]], for code that goes on to read a field of it. *)
Definition the_table (tableName : string) : Op Table :=
  fun db =>
  match table tableName db with
  | Some t => Ok t db
  | None => Throw dangling db
  end.

Definition update_table (tableName : string) (f : Table -> Table) : Op unit :=
  t <- the_table tableName ;;
  modify (fun db => set_data (assoc_set String.eqb tableName (f t) (_data db)) db).

Definition update_index (tableName colName : string) (f : IndexMap -> IndexMap)
  : Op unit :=
  update_table tableName (fun t =>
    match assoc_get String.eqb colName (indices t) with
    | Some index => set_indices (assoc_set String.eqb colName (f index) (indices t)) t
    | None => t
    end).

(** Rendering of a value inside a template literal. *)
Definition display (v : DbValue) : string :=
  match v with
  | VUndef => "undefined"
  | VNull => "null"
  | VBool true => "true"
  | VBool false => "false"
  | VNum z => string_of_Z z
  | VNaN => "NaN"
  | VStr s => s
  | VBig z => string_of_Z z
  | VSym _ => "Symbol()"
  | VFun _ => "function"
  | VObj _ => "[object Object]"
  end.

Definition tableExists (tableName : string) : Op bool :=
  fun db => Ok (match table tableName db with Some _ => true | None => false end) db.

Definition indexExists (tableName indexKey : string) : Op bool :=
  fun db =>
  Ok (match table tableName db with
      | Some t => assoc_has String.eqb indexKey (indices t)
      | None => false
      end) db.

Definition addIndex (tableName indexKey : string) : Op unit :=
  fun db =>
  match table tableName db with
  | None => logError (table_missing tableName) db
  | Some t =>
      if assoc_has String.eqb indexKey (indices t)
      then logError (String.append "Index " (String.append (quoted indexKey)
                     (String.append " already exists in "
                     (String.append (quoted tableName) ".")))) db
      else
        (indexMap <-
           (fix scan (rs : list DbValue) (indexMap : IndexMap) : Op IndexMap :=
              match rs with
              | [] => ret indexMap
              | rec :: rest =>
                  r <- as_ref rec ;;
                  value <- get r (KStr indexKey) ;;
                  scan rest (if strict_eq value VUndef then indexMap
                             else bucket_add value rec indexMap)
              end) (map snd (records t)) [] ;;
         update_table tableName (fun t' =>
           set_indices (assoc_set String.eqb indexKey indexMap (indices t')) t') ;;;
         onUpdateTable tableName "added-index") db
  end.

Definition removeIndex (tableName indexKey : string) : Op unit :=
  fun db =>
  match table tableName db with
  | None => logError (table_missing tableName) db
  | Some t =>
      if assoc_has String.eqb indexKey (indices t)
      then
        (update_table tableName (fun t' =>
           set_indices (assoc_del String.eqb indexKey (indices t')) t') ;;;
         onUpdateTable tableName "removed-index") db
      else logError (String.append "Index " (String.append (quoted indexKey)
                     (String.append " does not exist in "
                     (String.append (quoted tableName) ".")))) db
  end.

Definition createTable (tableName : string) (indexKeys : list string) : Op unit :=
  (fun db =>
   match table tableName db with
   | None =>
       onUpdateTable tableName "added"
         (set_data (assoc_set String.eqb tableName (mkTable [] [] None) (_data db)) db)
   | Some _ => Ok tt db
   end) ;;;
  for_each (fun key => addIndex tableName key) indexKeys.

Definition deleteTable (tableName : string) : Op unit :=
  fun db =>
  match table tableName db with
  | None => logError (table_missing tableName) db
  | Some _ =>
      onUpdateTable tableName "removed"
        (set_data (assoc_del String.eqb tableName (_data db)) db)
  end.

(** [this._data[tableName].lastUID || BigInt(0)], plus one. *)
Definition getNextUID (tableName : string) : Op Z :=
  t <- the_table tableName ;;
  ret (match lastUID t with
       | Some uid => if Z.eqb uid 0 then 0%Z else uid
       | None => 0%Z
       end + 1)%Z.

Definition reserveNextUID (tableName : string) : Op Z :=
  uid <- getNextUID tableName ;;
  update_table tableName (fun t => mkTable (records t) (indices t) (Some uid)) ;;;
  ret uid.

(** The loop both [addRecord] and [setRecord] run over
    [Object.entries(this._data[tableName].indices)]. *)
Definition populate_indices (tableName : string) (wrappedRecord : DbValue)
  : Op unit :=
  t <- the_table tableName ;;
  for_each (fun colName =>
      r <- as_ref wrappedRecord ;;
      value <- get r (KStr colName) ;;
      if strict_eq value VUndef then ret tt
      else update_index tableName colName (bucket_add value wrappedRecord))
    (map fst (indices t)).

(** The statements [addRecord] and [setRecord] have in common, from
    [record[UniqueID] = ...] to [return wrappedRecord]. *)
Definition insert_record (tableName : string) (record : DbValue) (uid : Z)
  (wrapped : bool) : Op DbValue :=
  r <- as_ref record ;;
  put r UniqueID (VBig uid) ;;;
  id <- get r UniqueID ;;
  update_table tableName (fun t =>
    set_records (assoc_set same_value id record (records t)) t) ;;;
  wrappedRecord <- (if wrapped then _wrapRecord tableName r else ret record) ;;
  populate_indices tableName wrappedRecord ;;;
  onUpdateRecord (EvAdded tableName wrappedRecord) ;;;
  ret wrappedRecord.

Definition addRecord (tableName : string) (record : DbValue) (wrapped : bool)
  : Op DbValue :=
  fun db =>
  match table tableName db with
  | None => Throw (Error (table_missing tableName)) db
  | Some _ =>
      (uid <- reserveNextUID tableName ;;
       insert_record tableName record uid wrapped) db
  end.

Definition setRecord (tableName : string) (record : DbValue) (uid : Z)
  (wrapped : bool) : Op DbValue :=
  fun db =>
  match table tableName db with
  | None => Throw (Error (table_missing tableName)) db
  | Some _ =>
      (update_table tableName (fun t =>
         match lastUID t with
         | Some last =>
             if Z.eqb last 0 || Z.ltb last uid
             then mkTable (records t) (indices t) (Some uid) else t
         | None => mkTable (records t) (indices t) (Some uid)
         end) ;;;
       insert_record tableName record uid wrapped) db
  end.

Definition removeRecord (tableName : string) (record : DbValue) : Op unit :=
  fun db =>
  match table tableName db with
  | None => logError (table_missing tableName) db
  | Some _ =>
      (r <- as_ref record ;;
       id <- get r UniqueID ;;
       if negb (truthy id)
       then logError "Could not find UID in record object for removal."
       else
         t <- the_table tableName ;;
         if negb (assoc_has same_value id (records t))
         then logError (String.append "Record with id "
                         (String.append (quoted (display id))
                         (String.append " does not exist in "
                         (String.append (quoted tableName) "."))))
         else
           update_table tableName (fun t' =>
             set_records (assoc_del same_value id (records t')) t') ;;;
           for_each (fun colName =>
               value <- get r (KStr colName) ;;
               if strict_eq value VUndef then ret tt
               else update_index tableName colName (bucket_delete value record))
             (map fst (indices t)) ;;;
           onUpdateRecord (EvRemoved tableName record)) db
  end.

Definition getRecord (tableName : string) (id : Z) (wrapped : bool)
  : Op DbValue :=
  fun db =>
  match table tableName db with
  | None => (logError (table_missing tableName) ;;; ret VUndef) db
  | Some t =>
      match assoc_get same_value (VBig id) (records t) with
      | Some record =>
          if truthy record
          then (if wrapped
                then (r <- as_ref record ;; _wrapRecord tableName r)
                else ret record) db
          else Ok VUndef db
      | None => Ok VUndef db
      end
  end.

Definition getAllRecords (tableName : string) : Op (list DbValue) :=
  t <- the_table tableName ;;
  ret (map snd (records t)).

(** The two ways [getRecordsByColumn] finds its records. *)
Definition index_lookup (indexMap : IndexMap) (value : DbValue) : list DbValue :=
  match assoc_get same_value value indexMap with
  | Some bucket => bucket
  | None => []
  end.

Definition linear_scan (t : Table) (colName : string) (value : DbValue)
  : Op (list DbValue) :=
  filter_m (fun record =>
      r <- as_ref record ;;
      v <- get r (KStr colName) ;;
      ret (strict_eq v value))
    (map snd (records t)).

Definition getRecordsByColumn (tableName colName : string) (value : DbValue)
  (wrapped : bool) : Op (list DbValue) :=
  fun db =>
  match table tableName db with
  | None => (logError (table_missing tableName) ;;; ret []) db
  | Some t =>
      (records <-
         match assoc_get String.eqb colName (indices t) with
         | Some indexMap => ret (index_lookup indexMap value)
         | None => linear_scan t colName value
         end ;;
       if wrapped
       then map_m (fun record => r <- as_ref record ;; _wrapRecord tableName r)
                  records
       else ret records) db
  end.

Definition removeRecordsByColumn (tableName colName : string) (value : DbValue)
  (wrapped : bool) : Op (list DbValue) :=
  entries <- getRecordsByColumn tableName colName value wrapped ;;
  for_each (fun entry => removeRecord tableName entry) entries ;;;
  ret entries.

(** ** Transactions *)

Definition isInTransaction : Op bool :=
  fun db => Ok (negb (Nat.eqb (length (_transactions db)) 0)) db.

Definition beginTransaction : Op unit :=
  modify (fun db => set_transactions (_transactions db ++ [mkTransaction []]) db).

Definition commitTransaction : Op unit :=
  fun db =>
  match _transactions db with
  | [] => Throw (Error "No transaction to commit. Did you forget to call beginTransaction()?") db
  | _ => Ok tt (set_transactions (removelast (_transactions db)) db)
  end.

(** One [case] of the [switch] in [rollbackTransaction]. *)
Definition undo (change : DataRecordUpdateEvent) : Op unit :=
  match change with
  | EvAdded T rec => removeRecord T rec
  | EvRemoved T rec => addRecord T rec false ;;; ret tt
  | EvSet at_ key oldValue _ => o <- as_ref (object at_) ;; put o key oldValue
  | EvDelete at_ key oldValue => o <- as_ref (object at_) ;; put o key oldValue
  | EvMethodAdd at_ _ args =>
      o <- as_ref (object at_) ;; call o m_delete [arg 0 args] ;;; ret tt
  | EvMethodDelete at_ oldValue args =>
      o <- as_ref (object at_) ;;
      fun db =>
      if is_map o db
      then (call o m_set [arg 0 args; oldValue] ;;; ret tt) db
      else (call o m_add [arg 0 args] ;;; ret tt) db
  | EvMethodSet at_ _ args =>
      o <- as_ref (object at_) ;;
      present <- call o m_has [arg 0 args] ;;
      if truthy present
      then call o m_set [arg 0 args; arg 1 args] ;;; ret tt
      else call o m_delete [arg 0 args] ;;; ret tt
  | EvMethodClear _ _ => ret tt
  | EvMethodPop at_ deletedValue _ =>
      fun db =>
      match object at_ with
      | VObj o =>
          if is_array o db then (call o m_push [deletedValue] ;;; ret tt) db
          else Throw (Error "Invalid object type for pop method.") db
      | _ => Throw (Error "Invalid object type for pop method.") db
      end
  | EvMethodShift at_ deletedValue _ =>
      fun db =>
      match object at_ with
      | VObj o =>
          if is_array o db then (call o m_unshift [deletedValue] ;;; ret tt) db
          else Throw (Error "Invalid object type for shift method.") db
      | _ => Throw (Error "Invalid object type for shift method.") db
      end
  | EvMethodPush at_ _ =>
      fun db =>
      match object at_ with
      | VObj o =>
          if is_array o db
          then (len <- get o (KStr "length") ;;
                if (0 <? to_integer len)%Z then call o m_pop [] ;;; ret tt
                else ret tt) db
          else Throw (Error "Invalid object type for pop method.") db
      | _ => Throw (Error "Invalid object type for pop method.") db
      end
  | EvMethodUnshift at_ _ =>
      fun db =>
      match object at_ with
      | VObj o =>
          if is_array o db
          then (len <- get o (KStr "length") ;;
                if (0 <? to_integer len)%Z then call o m_shift [] ;;; ret tt
                else ret tt) db
          else Throw (Error "Invalid object type for shift method.") db
      | _ => Throw (Error "Invalid object type for shift method.") db
      end
  | EvMethodSplice at_ deletedValues args =>
      fun db =>
      match object at_ with
      | VObj o =>
          if is_array o db
          then (let start := arg 0 args in
                call o m_splice
                  [start; VNum (Z.max 0 (Z.of_nat (length args) - 2))] ;;;
                items <- spread deletedValues ;;
                call o m_splice (start :: VNum 0 :: items) ;;;
                ret tt) db
          else Throw (Error "Invalid object type for splice method.") db
      | _ => Throw (Error "Invalid object type for splice method.") db
      end
  end.

Definition rollbackTransaction : Op unit :=
  fun db =>
  match _transactions db with
  | [] => Throw (Error "No transaction to rollback. Did you forget to call beginTransaction()?") db
  | _ =>
      let transaction := last (_transactions db) (mkTransaction []) in
      for_each undo (rev (changes transaction))
        (set_transactions (removelast (_transactions db)) db)
  end.


(** ** Notions used to state what the operations do *)

(** The value [_wrap] returns for [v]: the proxy of an object, a primitive
    as it is. *)
Definition wrapped_value (v : DbValue) : DbValue :=
  match v with VObj r => VObj (Prox r) | _ => v end.

(** The handle [_wrapRecord] returns for the record object at address [a]. *)
Definition handle (a : nat) : DbValue := VObj (Prox (Raw a)).

(** The [_wrapped] cache after [_wrap(tableName, record, colName, obj)] for
    an object [obj]. *)
Definition cache_with (tableName : string) (record : Ref) (colName : option Key)
  (obj : Ref) (w : list (Ref * Closure)) : list (Ref * Closure) :=
  if assoc_has Ref_eqb obj w then w
  else w ++ [(obj, mkClosure tableName record colName)].

(** The [_wrapped] cache only ever gains entries. *)
Definition cache_grows (w w' : list (Ref * Closure)) : Prop :=
  forall r cl, assoc_get Ref_eqb r w = Some cl -> assoc_get Ref_eqb r w' = Some cl.

(** One turn of a loop over the indices that applies [change] to the bucket
    map of column [col], for a record [rec] whose index key at [col] is
    [key_of col]; a column where the key is [undefined] is skipped. *)
Definition index_step (change : DbValue -> DbValue -> IndexMap -> IndexMap)
  (key_of : string -> DbValue) (rec : DbValue)
  (ixs : list (string * IndexMap)) (col : string) : list (string * IndexMap) :=
  match assoc_get String.eqb col ixs with
  | Some ix =>
      if strict_eq (key_of col) VUndef then ixs
      else assoc_set String.eqb col (change (key_of col) rec ix) ixs
  | None => ixs
  end.

(** The indices after the loop of [addRecord] and [setRecord]. *)
Definition populate_step := index_step bucket_add.
Definition populated (key_of : string -> DbValue) (rec : DbValue)
  (cols : list string) (ixs : list (string * IndexMap))
  : list (string * IndexMap) :=
  fold_left (populate_step key_of rec) cols ixs.

(** The indices after the loop of [removeRecord]. *)
Definition depopulate_step := index_step bucket_delete.
Definition depopulated (key_of : string -> DbValue) (rec : DbValue)
  (cols : list string) (ixs : list (string * IndexMap))
  : list (string * IndexMap) :=
  fold_left (depopulate_step key_of rec) cols ixs.

(** The identifier [addRecord] assigns in a table whose counter is [last]. *)
Definition next_uid (last : option Z) : Z :=
  match last with Some uid => (uid + 1)%Z | None => 1%Z end.

(** A primitive value: anything but an object. *)
Definition primitive (v : DbValue) : bool :=
  match v with VObj _ => false | _ => true end.


(** The table after [insert_record] has stored [rec] under [uid] and has
    entered [wr] (the record or its handle) into the indices. *)
Definition inserted (t : Table) (uid : Z) (rec wr : DbValue)
  (key_of : string -> DbValue) : Table :=
  mkTable (assoc_set same_value (VBig uid) rec (records t))
          (populated key_of wr (map fst (indices t)) (indices t))
          (lastUID t).

(** The index key of a record object at a column: what reading the field
    through [wr] gives. *)
Definition index_key_of (wrapped : bool) (props : list (Key * DbValue))
  (col : string) : DbValue :=
  let v := raw_get (CObject props) (KStr col) in
  if wrapped then wrapped_value v else v.

(** The state after [logError(message)]. *)
Definition logged (message : string) (db : Db) : Db :=
  mkDb (heap db) (_wrapped db) (_data db) (_transactions db)
       (console db ++ [message]).

(** Whatever an operation does, it leaves the stack of frames as it was
    but for events pushed on the innermost frame. *)
Definition keeps_frames {A} (m : Op A) : Prop :=
  forall db, exists events,
    _transactions (state_of (m db)) = append_changes events (_transactions db).

(** How a record reference reads its fields: the [get] trap of a handle
    wraps what it reads, which changes the cache only if that is an object
    met for the first time. *)
Definition reads (r : Ref) (h : list (Cell Ref)) (w0 : list (Ref * Closure))
  (key_of : Key -> DbValue) : Prop :=
  forall k w d tr c, cache_grows w0 w ->
    exists w', get r k (mkDb h w d tr c) = Ok (key_of k) (mkDb h w' d tr c) /\
               cache_grows w w' /\
               (primitive (key_of k) = true -> w' = w).

(** The counter of a table after [setRecord] with identifier [uid]. *)
Definition advanced (last : option Z) (uid : Z) : option Z :=
  match last with
  | Some l => if Z.eqb l 0 || Z.ltb l uid then Some uid else Some l
  | None => Some uid
  end.

(** The event of an assignment [handle[k] = v], and of [delete handle[k]]. *)
Definition set_event (cl : Closure) (a : nat) (k : Key) (old v : DbValue)
  : DataRecordUpdateEvent :=
  EvSet (mkAttr (cl_tableName cl) (VObj (Prox (cl_record cl)))
                (curColName cl k) (handle a))
        k (wrapped_value old) (wrapped_value v).

Definition delete_event (cl : Closure) (a : nat) (k : Key) (old : DbValue)
  : DataRecordUpdateEvent :=
  EvDelete (mkAttr (cl_tableName cl) (VObj (Prox (cl_record cl)))
                   (curColName cl k) (handle a))
           k (wrapped_value old).

(** The table after [removeRecord] has taken the record with identifier
    [uid] out of the record map and [rec] out of the indices. *)
Definition removed (t : Table) (uid : Z) (rec : DbValue)
  (key_of : string -> DbValue) : Table :=
  mkTable (assoc_del same_value (VBig uid) (records t))
          (depopulated key_of rec (map fst (indices t)) (indices t))
          (lastUID t).

(** An index after one turn of such a loop at column [col]. *)
Definition changed_index (change : DbValue -> DbValue -> IndexMap -> IndexMap)
  (key_of : string -> DbValue) (rec : DbValue) (col : string) (ix : IndexMap)
  : IndexMap :=
  if strict_eq (key_of col) VUndef then ix else change (key_of col) rec ix.

(** The operations of the store and of its observer, but for the three
    that control transactions. *)
Inductive store_operation : forall A : Type, Op A -> Prop :=
| op_tableExists T : store_operation (tableExists T)
| op_indexExists T key : store_operation (indexExists T key)
| op_createTable T keys : store_operation (createTable T keys)
| op_deleteTable T : store_operation (deleteTable T)
| op_addIndex T key : store_operation (addIndex T key)
| op_removeIndex T key : store_operation (removeIndex T key)
| op_getNextUID T : store_operation (getNextUID T)
| op_reserveNextUID T : store_operation (reserveNextUID T)
| op_addRecord T record wrapped : store_operation (addRecord T record wrapped)
| op_setRecord T record uid wrapped :
    store_operation (setRecord T record uid wrapped)
| op_removeRecord T record : store_operation (removeRecord T record)
| op_removeRecordsByColumn T col v wrapped :
    store_operation (removeRecordsByColumn T col v wrapped)
| op_getRecord T id wrapped : store_operation (getRecord T id wrapped)
| op_getAllRecords T : store_operation (getAllRecords T)
| op_getRecordsByColumn T col v wrapped :
    store_operation (getRecordsByColumn T col v wrapped)
| op_get r property : store_operation (get r property)
| op_put r property value : store_operation (put r property value)
| op_delete r property : store_operation (delete r property)
| op_call r method args : store_operation (call r method args).

(** [transaction(cb)()]: the function that [transaction(cb)] returns, when
    it is called. *)
Definition transaction {A} (cb : Op A) : Op unit :=
  beginTransaction ;;;
  fun db =>
  match (cb ;;; commitTransaction) db with
  | Ok _ db' => Ok tt db'
  | Throw err db' => (rollbackTransaction ;;; throw err) db'
  end.

(** An operation that only looks: it leaves the heap, the tables and the
    frames as they are; the proxy cache and the console can gain entries. *)
Definition observes {A} (m : Op A) : Prop :=
  forall db,
    let db' := state_of (m db) in
    heap db' = heap db /\ _data db' = _data db /\
    _transactions db' = _transactions db /\
    cache_grows (_wrapped db) (_wrapped db') /\
    exists messages, console db' = console db ++ messages.

(** The lookups of the store, and the read of a property through a
    reference. *)
Inductive lookup_operation : forall A : Type, Op A -> Prop :=
| look_tableExists T : lookup_operation (tableExists T)
| look_indexExists T key : lookup_operation (indexExists T key)
| look_getNextUID T : lookup_operation (getNextUID T)
| look_getRecord T id wrapped : lookup_operation (getRecord T id wrapped)
| look_getAllRecords T : lookup_operation (getAllRecords T)
| look_getRecordsByColumn T col v wrapped :
    lookup_operation (getRecordsByColumn T col v wrapped)
| look_get r property : lookup_operation (get r property).

End Database.

(** ** Client programs used as test scenarios *)



(** ** Stores built by a client that goes through the handles *)

Module Reach.
Import Database.

Fixpoint distinct_keys (keys : list Key) : bool :=
  match keys with
  | [] => true
  | k :: rest => negb (existsb (Key_eqb k) rest) && distinct_keys rest
  end.

(** A key that is a symbol, or a string among the names [plain]. *)
Definition plain_key (plain : string -> bool) (k : Key) : bool :=
  match k with KStr s => plain s | KSym _ => true end.

(** An object literal for a record: primitive values under distinct keys. *)
Definition literal (props : list (Key * DbValue)) : bool :=
  forallb (fun p => primitive (snd p)) props
  && distinct_keys (map fst props).

(** One step of such a client.  Tables get their indices while they hold no
    record; records are fresh object literals, added with [addRecord] or,
    under a positive identifier that is not in use, with [setRecord];
    primitive values are assigned to fields, fields are deleted, and records
    removed, through the handle [getRecord] returns for a stored record.
    Tables and indices are dropped and records looked up at any time.
    [plain] says which names of tables, columns and fields the client
    uses. *)
Inductive step_of (plain : string -> bool) (db db' : Db) : Prop :=
| step_createTable T cols :
    plain T = true -> forallb plain cols = true ->
    (forall t, table T db = Some t -> records t = []) ->
    createTable T cols db = Ok tt db' -> step_of plain db db'
| step_addRecord T props a db1 h :
    plain T = true -> forallb (plain_key plain) (map fst props) = true ->
    literal props = true ->
    new_object props db = Ok (Raw a) db1 ->
    addRecord T (VObj (Raw a)) true db1 = Ok h db' -> step_of plain db db'
| step_setRecord T props a db1 uid h :
    plain T = true -> forallb (plain_key plain) (map fst props) = true ->
    literal props = true ->
    new_object props db = Ok (Raw a) db1 ->
    (0 < uid)%Z ->
    (forall t, table T db = Some t ->
       assoc_get same_value (VBig uid) (records t) = None) ->
    setRecord T (VObj (Raw a)) uid true db1 = Ok h db' -> step_of plain db db'
| step_assign T id hd db1 key v :
    plain T = true -> plain key = true ->
    getRecord T id true db = Ok (VObj hd) db1 ->
    primitive v = true ->
    put hd (KStr key) v db1 = Ok tt db' -> step_of plain db db'
| step_delete T id hd db1 key :
    plain T = true -> plain key = true ->
    getRecord T id true db = Ok (VObj hd) db1 ->
    delete hd (KStr key) db1 = Ok tt db' -> step_of plain db db'
| step_removeRecord T id hd db1 :
    plain T = true ->
    getRecord T id true db = Ok (VObj hd) db1 ->
    removeRecord T (VObj hd) db1 = Ok tt db' -> step_of plain db db'
| step_removeIndex T col :
    plain T = true -> plain col = true ->
    removeIndex T col db = Ok tt db' -> step_of plain db db'
| step_deleteTable T :
    plain T = true ->
    deleteTable T db = Ok tt db' -> step_of plain db db'
| step_getRecord T id wrapped v :
    plain T = true ->
    getRecord T id wrapped db = Ok v db' -> step_of plain db db'
| step_getAllRecords T found :
    plain T = true ->
    getAllRecords T db = Ok found db' -> step_of plain db db'
| step_getRecordsByColumn T col v wrapped found :
    plain T = true -> plain col = true ->
    getRecordsByColumn T col v wrapped db = Ok found db' -> step_of plain db db'
| step_begin :
    beginTransaction db = Ok tt db' -> step_of plain db db'
| step_commit :
    commitTransaction db = Ok tt db' -> step_of plain db db'.

(** A step with any names. *)
Definition step : Db -> Db -> Prop := step_of (fun _ => true).

Inductive reachable : Db -> Prop :=
| reach_new : reachable new_Database
| reach_step db db' : reachable db -> step db db' -> reachable db'.

(** A step of a client whose table, column and field names are none of the
    names every object inherits, and the stores such a client builds. *)
Definition plain_step : Db -> Db -> Prop :=
  step_of (fun name => negb (inherited name)).

Inductive built : Db -> Prop :=
| built_new : built new_Database
| built_step db db' : built db -> plain_step db db' -> built db'.

(** *** The invariant of these stores *)

(** Every field of an object holds a primitive value. *)
Definition primitive_fields (props : list (Key * DbValue)) : Prop :=
  Forall (fun p : Key * DbValue => primitive (snd p) = true) props.

(** A stored record: a plain object with primitive fields that carries its
    identifier and whose handle was made for this table. *)
Definition record_at (h : list (Cell Ref)) (w : list (Ref * Closure))
  (T : string) (id rec : DbValue) : Prop :=
  exists uid a props,
    id = VBig uid /\ rec = VObj (Raw a) /\ (0 < uid)%Z /\
    nth_error h a = Some (CObject props) /\
    Forall (fun p => primitive (snd p) = true) props /\
    NoDup (map fst props) /\
    assoc_get Key_eqb UniqueID props = Some (VBig uid) /\
    assoc_get Ref_eqb (Raw a) w = Some (mkClosure T (Raw a) None).

(** The record at address [a] is among [recs] and its value at column [col]
    is [k]. *)
Definition holds (h : list (Cell Ref)) (recs : list (DbValue * DbValue))
  (col : string) (k : DbValue) (a : nat) : Prop :=
  exists id props,
    In (id, VObj (Raw a)) recs /\
    nth_error h a = Some (CObject props) /\
    raw_get (CObject props) (KStr col) = k.

(** An index is exact on every bucket keyed by a defined value: the bucket
    holds the handles of the records with that value, once each. *)
Definition index_ok (h : list (Cell Ref)) (recs : list (DbValue * DbValue))
  (col : string) (ix : IndexMap) : Prop :=
  forall k, k <> VUndef ->
    NoDup (index_lookup ix k) /\
    forall x, In x (index_lookup ix k) <->
              exists a, x = handle a /\ holds h recs col k a.

Record table_ok (h : list (Cell Ref)) (w : list (Ref * Closure))
  (T : string) (t : Table) : Prop := mk_table_ok {
  ok_records : forall id rec, In (id, rec) (records t) -> record_at h w T id rec;
  ok_ids : NoDup (map fst (records t));
  ok_counter : forall uid rec, In (VBig uid, rec) (records t) ->
                 exists last, lastUID t = Some last /\ (uid <= last)%Z;
  ok_counter_pos : forall last, lastUID t = Some last -> (0 < last)%Z;
  ok_columns : NoDup (map fst (indices t));
  ok_indices : forall col ix, assoc_get String.eqb col (indices t) = Some ix ->
                 index_ok h (records t) col ix;
  ok_members : forall col ix k x,
                 assoc_get String.eqb col (indices t) = Some ix ->
                 In x (index_lookup ix k) ->
                 exists a, x = handle a /\ a < length h
}.

(** The invariant, on the parts of the state it reads. *)
Definition inv (h : list (Cell Ref)) (w : list (Ref * Closure))
  (d : list (string * Table)) : Prop :=
  (forall T t, assoc_get String.eqb T d = Some t -> table_ok h w T t) /\
  (forall r cl, assoc_get Ref_eqb r w = Some cl -> base r < length h) /\
  NoDup (map fst d).

Definition store_ok (db : Db) : Prop :=
  inv (heap db) (_wrapped db) (_data db).

(** Whether the linear scan keeps a record. *)
Definition matching (h : list (Cell Ref)) (col : string) (v rec : DbValue) : bool :=
  match rec with
  | VObj (Raw a) =>
      match nth_error h a with
      | Some cell => strict_eq (raw_get cell (KStr col)) v
      | None => false
      end
  | _ => false
  end.

(** The object a value stands for, behind any proxies. *)
Definition address (v : DbValue) : option nat :=
  match v with VObj r => Some (base r) | _ => None end.


(** The index invariant on the buckets keyed by a defined value: a record
    whose value at an indexed column is defined is in the bucket of that
    value, and a record is in no bucket keyed by another defined value. *)
Definition index_invariant (db : Db) : Prop :=
  forall T t, table T db = Some t ->
  forall id rec, In (id, rec) (records t) ->
  exists a props,
    rec = VObj (Raw a) /\ nth_error (heap db) a = Some (CObject props) /\
    forall col ix, assoc_get String.eqb col (indices t) = Some ix ->
      let v := raw_get (CObject props) (KStr col) in
      (v <> VUndef -> In (handle a) (index_lookup ix v)) /\
      (forall k, k <> VUndef -> k <> v -> ~ In (handle a) (index_lookup ix k)).

End Reach.

(** A store with a table [users] indexed on [email], and a record object
    not yet added to it. *)
Definition sample_db : Database.Db :=
  Database.mkDb
    [CObject [(KStr "name", VStr "John"); (KStr "email", VStr "j@x.com")]]
    []
    [("users", Database.mkTable [] [("email", [])] None)]
    [] [].

Module Scenarios.
Import Database.
Local Open Scope js_scope.

(** What a run returned or threw, without the final state. *)
Definition outcome {A} (r : Res Db A) : A + JsError :=
  match r with Ok a _ => inl a | Throw e _ => inr e end.

(** The contents of an object, read behind any proxies. *)
Definition contents (v : DbValue) : Op (Cell Ref) :=
  r <- as_ref v ;;
  fun db => match cell_of r db with
            | Some c => Ok c db
            | None => Throw dangling db
            end.

(** A record with a [Set] field; the set is cleared inside a transaction
    that is then rolled back.  Returns the set before [begin] and after
    [rollback]. *)
Definition clear_then_rollback : Op (Cell Ref * Cell Ref) :=
  createTable "t" [] ;;;
  tags <- alloc (CSet [VStr "a"; VStr "b"]) ;;
  r <- new_object [(KStr "name", VStr "John"); (KStr "tags", VObj tags)] ;;
  h <- addRecord "t" (VObj r) true ;;
  p <- as_ref h ;;
  before <- contents (VObj tags) ;;
  beginTransaction ;;;
  s <- get p (KStr "tags") ;;
  s' <- as_ref s ;;
  call s' m_clear [] ;;;
  rollbackTransaction ;;;
  after <- contents (VObj tags) ;;
  ret (before, after).

(** The scenario of the test suite: [push] and [splice] on a list field,
    rolled back. *)
Definition push_splice_then_rollback : Op (Cell Ref * Cell Ref * Cell Ref) :=
  createTable "t" [] ;;;
  hobbies <- alloc (CArray [VStr "a"; VStr "b"; VStr "c"]) ;;
  r <- new_object [(KStr "name", VStr "John"); (KStr "hobbies", VObj hobbies)] ;;
  h <- addRecord "t" (VObj r) true ;;
  p <- as_ref h ;;
  before <- contents (VObj hobbies) ;;
  beginTransaction ;;;
  l <- get p (KStr "hobbies") ;;
  l' <- as_ref l ;;
  call l' m_push [VStr "d"] ;;;
  call l' m_splice [VNum 1; VNum 1; VStr "x"; VStr "y"] ;;;
  during <- contents (VObj hobbies) ;;
  rollbackTransaction ;;;
  after <- contents (VObj hobbies) ;;
  ret (before, during, after).

(** A record is removed inside a transaction that is then rolled back.
    Returns the record's identifier before and after, and what
    [getRecord] finds under the old identifier. *)
Definition remove_then_rollback : Op (DbValue * DbValue * DbValue) :=
  createTable "t" ["name"] ;;;
  r <- new_object [(KStr "name", VStr "John")] ;;
  h <- addRecord "t" (VObj r) true ;;
  before <- get r UniqueID ;;
  beginTransaction ;;;
  removeRecord "t" h ;;;
  rollbackTransaction ;;;
  after <- get r UniqueID ;;
  found <- getRecord "t" 1 false ;;
  ret (before, after, found).

(** A field is assigned through the handle in an inner transaction; the
    inner transaction is rolled back, then the outer one.  Returns the field
    before, the open frames after the inner rollback, the field then, and
    the field after the outer rollback. *)
Definition nested_rollbacks
  : Op (DbValue * list Transaction * DbValue * DbValue) :=
  createTable "t" [] ;;;
  r <- new_object [(KStr "name", VStr "John")] ;;
  h <- addRecord "t" (VObj r) true ;;
  p <- as_ref h ;;
  before <- get p (KStr "name") ;;
  beginTransaction ;;;
  beginTransaction ;;;
  put p (KStr "name") (VStr "Jane") ;;;
  rollbackTransaction ;;;
  frames <- (fun db => Ok (_transactions db) db) ;;
  between <- get p (KStr "name") ;;
  rollbackTransaction ;;;
  after <- get p (KStr "name") ;;
  ret (before, frames, between, after).


(** The same with a record whose indexed field is [NaN], looked up under
    [NaN]. *)
Definition lookup_NaN : Op (list DbValue * list DbValue) :=
  createTable "users" ["score"] ;;;
  r <- new_object [(KStr "name", VStr "John"); (KStr "score", VNaN)] ;;
  addRecord "users" (VObj r) true ;;;
  indexed <- getRecordsByColumn "users" "score" VNaN false ;;
  removeIndex "users" "score" ;;;
  scanned <- getRecordsByColumn "users" "score" VNaN false ;;
  ret (indexed, scanned).

(** An index declared with [addIndex] when the table already holds a
    record, then an assignment to the indexed field through the handle:
    the lookup of the old value, with the index and after its removal. *)
Definition late_index : Op (list DbValue * list DbValue) :=
  createTable "users" [] ;;;
  r <- new_object [(KStr "name", VStr "John"); (KStr "email", VStr "j@x.com")] ;;
  h <- addRecord "users" (VObj r) true ;;
  addIndex "users" "email" ;;;
  p <- as_ref h ;;
  put p (KStr "email") (VStr "k@x.com") ;;;
  indexed <- getRecordsByColumn "users" "email" (VStr "j@x.com") false ;;
  removeIndex "users" "email" ;;;
  scanned <- getRecordsByColumn "users" "email" (VStr "j@x.com") false ;;
  ret (indexed, scanned).


(** A store built step by step: a table [users] indexed on [email], one
    record, and its [email] assigned through the handle. *)
Definition john : list (Key * DbValue) :=
  [(KStr "name", VStr "John"); (KStr "email", VStr "j@x.com")].
Definition users_1 : Db :=
  state_of (createTable "users" ["email"] new_Database).
Definition users_2 : Db :=
  state_of ((r <- new_object john ;; addRecord "users" (VObj r) true) users_1).
Definition users_3 : Db :=
  state_of ((h <- getRecord "users" 1 true ;;
             r <- as_ref h ;;
             put r (KStr "email") (VStr "k@x.com")) users_2).

End Scenarios.


(** * Facts about the basic definitions *)

Lemma Key_eqb_spec k1 k2 : reflect (k1 = k2) (Key_eqb k1 k2).
Proof.
  destruct k1 as [a|a], k2 as [b|b]; simpl; try (constructor; discriminate).
  - destruct (String.eqb_spec a b); constructor; congruence.
  - destruct (Nat.eqb_spec a b); constructor; congruence.
Qed.

Section ValueEqFacts.
Variable R : Type.
Variable R_eqb : R -> R -> bool.
Hypothesis R_eqb_spec : forall a b, reflect (a = b) (R_eqb a b).

Lemma same_value_zero_spec (v1 v2 : Value R) :
  reflect (v1 = v2) (same_value_zero R_eqb v1 v2).
Proof.
  destruct v1, v2; simpl; try (constructor; congruence).
  - destruct (Bool.eqb_spec b b0); constructor; congruence.
  - destruct (Z.eqb_spec z z0); constructor; congruence.
  - destruct (String.eqb_spec s s0); constructor; congruence.
  - destruct (Z.eqb_spec z z0); constructor; congruence.
  - destruct (Nat.eqb_spec n n0); constructor; congruence.
  - destruct (Nat.eqb_spec n n0); constructor; congruence.
  - destruct (R_eqb_spec r r0); constructor; congruence.
Qed.

Lemma same_value_zero_refl (v : Value R) : same_value_zero R_eqb v v = true.
Proof. destruct (same_value_zero_spec v v); congruence. Qed.
End ValueEqFacts.

Lemma Z_of_string_of_Z z : Z_of_string (string_of_Z z) = Some z.
Proof.
  unfold Z_of_string, string_of_Z.
  rewrite NilZero.isi.
  - simpl. now rewrite DecimalZ.of_to.
  - destruct z; simpl; try discriminate.
    intros [= H]. now apply (DecimalPos.Unsigned.to_uint_nonnil p).
  - destruct z; simpl; try discriminate.
    intros [= H]. now apply (DecimalPos.Unsigned.to_uint_nonnil p).
Qed.

Section AssocFacts.
Variables K V : Type.
Variable eqb : K -> K -> bool.
Hypothesis eqb_spec : forall a b, reflect (a = b) (eqb a b).

Lemma assoc_get_set k k' (v : V) l :
  assoc_get eqb k (assoc_set eqb k' v l) =
  if eqb k k' then Some v else assoc_get eqb k l.
Proof.
  induction l as [|[k0 v0] l IH]; simpl.
  - reflexivity.
  - destruct (eqb_spec k' k0) as [->|Hne]; simpl.
    + destruct (eqb_spec k k0); reflexivity.
    + rewrite IH. destruct (eqb_spec k k0) as [->|]; [|reflexivity].
      destruct (eqb_spec k0 k'); congruence.
Qed.

Lemma assoc_get_app k (l l' : list (K * V)) :
  assoc_get eqb k (l ++ l') =
  match assoc_get eqb k l with Some v => Some v | None => assoc_get eqb k l' end.
Proof.
  induction l as [|[k0 v0] l IH]; simpl; [reflexivity|].
  destruct (eqb k k0); [reflexivity|apply IH].
Qed.

Lemma assoc_get_None k (l : list (K * V)) :
  assoc_get eqb k l = None <-> ~ In k (map fst l).
Proof.
  induction l as [|[k0 v0] l IH]; simpl.
  - tauto.
  - destruct (eqb_spec k k0) as [->|Hne].
    + split; [discriminate|]. intros H. exfalso. apply H. now left.
    + rewrite IH. split; intros H; [intros [E|E]; [congruence|tauto]|tauto].
Qed.

Lemma assoc_get_In k (v : V) l :
  assoc_get eqb k l = Some v -> In (k, v) l.
Proof.
  induction l as [|[k0 v0] l IH]; simpl; [discriminate|].
  destruct (eqb_spec k k0) as [->|Hne].
  - intros [= ->]. now left.
  - intros H. right. now apply IH.
Qed.

Lemma In_assoc_get k (v : V) l :
  NoDup (map fst l) -> In (k, v) l -> assoc_get eqb k l = Some v.
Proof.
  induction l as [|[k0 v0] l IH]; simpl; [tauto|].
  intros Hnd [E|Hin].
  - injection E as -> ->. destruct (eqb_spec k k); congruence.
  - inversion Hnd as [|? ? Hnotin Hnd']; subst.
    destruct (eqb_spec k k0) as [->|Hne].
    + exfalso. apply Hnotin. change k0 with (fst (k0, v)). now apply in_map.
    + now apply IH.
Qed.

Lemma assoc_set_fresh k (v : V) l :
  assoc_get eqb k l = None -> assoc_set eqb k v l = l ++ [(k, v)].
Proof.
  induction l as [|[k0 v0] l IH]; simpl; [reflexivity|].
  destruct (eqb k k0); [discriminate|]. intros H. now rewrite IH.
Qed.
End AssocFacts.

Lemma nth_error_list_update_eq {A} n (f : A -> A) l x :
  nth_error l n = Some x -> nth_error (list_update n f l) n = Some (f x).
Proof.
  revert n. induction l as [|y l IH]; intros [|n]; simpl; try discriminate.
  - now intros [= ->].
  - apply IH.
Qed.

Lemma nth_error_list_update_neq {A} n m (f : A -> A) l :
  n <> m -> nth_error (list_update n f l) m = nth_error l m.
Proof.
  revert n m. induction l as [|y l IH]; intros [|n] [|m] H; simpl; try reflexivity.
  - congruence.
  - apply IH. congruence.
Qed.

Lemma length_list_update {A} n (f : A -> A) l :
  length (list_update n f l) = length l.
Proof.
  revert n. induction l as [|y l IH]; intros [|n]; simpl; try reflexivity.
  now rewrite IH.
Qed.

Arguments assoc_get_set {K V eqb} eqb_spec k k' v l.
Arguments assoc_get_None {K V eqb} eqb_spec k l.
Arguments assoc_get_In {K V eqb} eqb_spec {k v l} _.
Arguments In_assoc_get {K V eqb} eqb_spec {k v l} _ _.

(** * Facts about the codec *)

Module CodecFacts.
Import Obj2Obj.

Lemma Nat_eqb_reflect a b : reflect (a = b) (Nat.eqb a b).
Proof. apply Nat.eqb_spec. Qed.

Lemma extends_refl rs : extends rs rs.
Proof. exists []. now rewrite app_nil_r. Qed.

Lemma extends_trans rs1 rs2 rs3 :
  extends rs1 rs2 -> extends rs2 rs3 -> extends rs1 rs3.
Proof. intros [e1 ->] [e2 ->]. exists (e1 ++ e2). now rewrite app_assoc. Qed.

Lemma extends_length rs rs' : extends rs rs' -> length rs <= length rs'.
Proof. intros [e ->]. rewrite length_app. lia. Qed.

Lemma extends_get rs rs' a n :
  extends rs rs' -> assoc_get Nat.eqb a rs = Some n ->
  assoc_get Nat.eqb a rs' = Some n.
Proof. intros [e ->] H. now rewrite assoc_get_app, H. Qed.

Lemma extends_registered rs rs' v :
  extends rs rs' -> registered rs v -> registered rs' v.
Proof.
  intros He. destruct v; simpl; auto.
  destruct (assoc_get Nat.eqb r rs) eqn:E; [|congruence].
  intros _. now rewrite (extends_get _ He E).
Qed.

Section Heap.
Variable heap : Heap.

Lemma refs_ok_nil : refs_ok heap [].
Proof. repeat split; simpl; constructor. Qed.

Lemma refs_ok_length rs : refs_ok heap rs -> length rs <= length heap.
Proof.
  intros (_ & Hnd & Hlt).
  rewrite <- (length_map fst rs), <- (length_seq (length heap) 0).
  apply NoDup_incl_length; [exact Hnd|].
  intros a Ha. apply in_map_iff in Ha as ([a' n] & <- & Hin).
  rewrite Forall_forall in Hlt. apply Hlt in Hin. simpl in *.
  apply in_seq. lia.
Qed.

Lemma refs_ok_register rs a :
  refs_ok heap rs -> assoc_get Nat.eqb a rs = None -> a < length heap ->
  refs_ok heap (rs ++ [(a, length rs)]).
Proof.
  intros (Hids & Hnd & Hlt) Hnone Ha. repeat split.
  - rewrite map_app, length_app, Hids. simpl.
    rewrite Nat.add_1_r, seq_S. reflexivity.
  - rewrite map_app. simpl.
    rewrite (assoc_get_None Nat_eqb_reflect) in Hnone.
    apply NoDup_app; [exact Hnd| repeat constructor; simpl; tauto |].
    intros x Hx [<-|[]]. contradiction.
  - apply Forall_app. split; [exact Hlt|]. repeat constructor. exact Ha.
Qed.

Lemma wf_heap_children a c :
  wf_heap heap -> nth_error heap a = Some c ->
  Forall (in_heap heap) (children c).
Proof.
  intros Hwf Hc. unfold wf_heap in Hwf. rewrite Forall_forall in Hwf.
  apply nth_error_In in Hc. now apply Hwf in Hc as [H _].
Qed.

(** *** Encoding terminates *)

Section Totality.
Hypothesis Hwf : wf_heap heap.
Hypothesis Hdates : valid_dates heap.
Variable blocklist : list JsValue.

Lemma encode_list_total fuel enc vs :
  enc_total heap fuel enc ->
  forall st, Forall (in_heap heap) vs -> refs_ok heap (refs st) ->
    length heap - length (refs st) < fuel ->
    exists ws st', encode_list enc vs st = Some (ws, st') /\
      refs_ok heap (refs st') /\ extends (refs st) (refs st').
Proof.
  intros Henc. induction vs as [|v vs IH]; intros st Hin Hok Hfuel; simpl.
  - exists [], st. auto using extends_refl.
  - inversion Hin as [|? ? Hv Hvs]; subst.
    destruct (Henc v st Hv Hok Hfuel) as (w & st1 & -> & Hok1 & He1).
    destruct (IH st1 Hvs Hok1) as (ws & st2 & -> & Hok2 & He2).
    + apply extends_length in He1. lia.
    + exists (w :: ws), st2. eauto using extends_trans.
Qed.

Lemma encode_pairs_total fuel enc kvs :
  enc_total heap fuel enc ->
  forall st, Forall (fun p => in_heap heap (fst p) /\ in_heap heap (snd p)) kvs ->
    refs_ok heap (refs st) ->
    length heap - length (refs st) < fuel ->
    exists ws st', encode_pairs enc kvs st = Some (ws, st') /\
      refs_ok heap (refs st') /\ extends (refs st) (refs st').
Proof.
  intros Henc. induction kvs as [|[k v] kvs IH]; intros st Hin Hok Hfuel; simpl.
  - exists [], st. auto using extends_refl.
  - inversion Hin as [|? ? [Hk Hv] Hkvs]; subst. simpl in *.
    destruct (Henc k st Hk Hok Hfuel) as (wk & st1 & -> & Hok1 & He1).
    pose proof (extends_length He1).
    destruct (Henc v st1 Hv Hok1) as (wv & st2 & -> & Hok2 & He2); [lia|].
    pose proof (extends_length He2).
    destruct (IH st2 Hkvs Hok2) as (ws & st3 & -> & Hok3 & He3); [lia|].
    exists ((wk, wv) :: ws), st3. eauto using extends_trans.
Qed.

Lemma in_heap_flat_pairs (kvs : list (JsValue * JsValue)) :
  Forall (in_heap heap) (flat_map (fun p => [fst p; snd p]) kvs) ->
  Forall (fun p => in_heap heap (fst p) /\ in_heap heap (snd p)) kvs.
Proof.
  induction kvs as [|[k v] kvs IH]; simpl; intros H; constructor.
  - inversion H as [|? ? Hk H']; subst. inversion H'; subst. auto.
  - apply IH. inversion H as [|? ? Hk H']; subst. now inversion H'.
Qed.

Lemma in_heap_object_entries (props : list (Key * JsValue)) :
  Forall (in_heap heap) (map snd props) ->
  Forall (fun p => in_heap heap (fst p) /\ in_heap heap (snd p))
         (object_entries props).
Proof.
  intros H. rewrite Forall_forall in *. intros [k v] Hin.
  unfold object_entries in Hin. apply in_map_iff in Hin as ([k0 v0] & E & Hin).
  injection E as <- <-. simpl. split.
  - destruct k0; exact I.
  - apply H. apply in_app_or in Hin.
    change v0 with (snd (k0, v0)). apply in_map.
    destruct Hin as [Hin|Hin]; apply filter_In in Hin; tauto.
Qed.

Lemma Encode_fuel_total fuel :
  enc_total heap fuel (Encode_fuel fuel heap blocklist).
Proof.
  induction fuel as [|fuel IH]; intros v st Hv Hok Hfuel; [lia|].
  assert (Hself : forall w : EncodedObj, exists w0 st', Some (w, st) = Some (w0, st') /\
            refs_ok heap (refs st') /\ extends (refs st) (refs st')).
  { intros w. exists w, st. auto using extends_refl. }
  destruct v; simpl; try apply Hself.
  - destruct existsb; apply Hself.
  - unfold encode_symbol. destruct find as [[key ?]|]; [apply Hself|].
    eexists _, _. split; [reflexivity|]. simpl. auto using extends_refl.
  - destruct existsb; [apply Hself|].
    destruct (assoc_get Nat.eqb r (refs st)) eqn:Hget; [apply Hself|].
    simpl in Hv. destruct (nth_error heap r) as [c|] eqn:Hc.
    2:{ apply nth_error_None in Hc. lia. }
    pose proof (refs_ok_register Hok Hget Hv) as Hok0.
    pose proof (refs_ok_length Hok0) as Hlen. rewrite length_app in Hlen.
    simpl in Hlen.
    set (st0 := mkEnc (refs st ++ [(r, length (refs st))]) (symbols st)).
    assert (He0 : extends (refs st) (refs st0)) by (now eexists).
    assert (Hfuel0 : length heap - length (refs st0) < fuel).
    { simpl. rewrite length_app. simpl. lia. }
    pose proof (wf_heap_children _ Hwf Hc) as Hch || pose proof (wf_heap_children Hwf Hc) as Hch.
    destruct c; simpl in Hch.
    + destruct (@encode_pairs_total fuel _ (object_entries props) IH st0) as (ws & st1 & -> & ? & ?);
        auto using in_heap_object_entries.
      eexists _, _. split; [reflexivity|]. eauto using extends_trans.
    + destruct (@encode_list_total fuel _ elems IH st0) as (ws & st1 & -> & ? & ?); auto.
      eexists _, _. split; [reflexivity|]. eauto using extends_trans.
    + destruct (@encode_pairs_total fuel _ entries IH st0) as (ws & st1 & -> & ? & ?);
        auto using in_heap_flat_pairs.
      eexists _, _. split; [reflexivity|]. eauto using extends_trans.
    + destruct (@encode_list_total fuel _ members IH st0) as (ws & st1 & -> & ? & ?); auto.
      eexists _, _. split; [reflexivity|]. eauto using extends_trans.
    + assert (Hiso : date_text iso = true).
      { unfold valid_dates in Hdates. rewrite Forall_forall in Hdates.
        exact (Hdates _ (nth_error_In _ _ Hc)). }
      rewrite Hiso. eexists _, _. split; [reflexivity|]. auto.
Qed.

End Totality.

(** *** Facts about [refs] *)

Lemma NoDup_map_In_inj {A B} (f : A -> B) l x y :
  NoDup (map f l) -> In x l -> In y l -> f x = f y -> x = y.
Proof.
  induction l as [|z l IH]; simpl; [tauto|].
  intros Hnd Hx Hy E. inversion Hnd as [|? ? Hnotin Hnd']; subst.
  destruct Hx as [->|Hx], Hy as [->|Hy]; auto.
  - exfalso. apply Hnotin. rewrite E. now apply in_map.
  - exfalso. apply Hnotin. rewrite <- E. now apply in_map.
Qed.

Lemma refs_ok_In_get rs a i :
  refs_ok heap rs -> In (a, i) rs -> assoc_get Nat.eqb a rs = Some i.
Proof. intros (_ & Hnd & _). now apply In_assoc_get; [apply Nat_eqb_reflect|]. Qed.

Lemma refs_ok_id_lt rs a i : refs_ok heap rs -> In (a, i) rs -> i < length rs.
Proof.
  intros (Hids & _ & _) Hin.
  assert (H : In i (map snd rs)) by (change i with (snd (a, i)); now apply in_map).
  rewrite Hids in H. apply in_seq in H. lia.
Qed.

Lemma refs_ok_id_inj rs a b i :
  refs_ok heap rs -> In (a, i) rs -> In (b, i) rs -> a = b.
Proof.
  intros (Hids & _ & _) Ha Hb.
  assert (Hnd : NoDup (map snd rs)) by (rewrite Hids; apply seq_NoDup).
  assert (E : (a, i) = (b, i)) by (now apply (NoDup_map_In_inj snd rs)).
  congruence.
Qed.

Lemma refs_ok_In_prefix rs ext a i :
  refs_ok heap (rs ++ ext) -> In (a, i) (rs ++ ext) -> i < length rs ->
  In (a, i) rs.
Proof.
  intros Hok Hin Hlt. apply in_app_or in Hin as [Hin|Hin]; [exact Hin|exfalso].
  destruct Hok as (Hids & _ & _).
  rewrite map_app, length_app, seq_app in Hids.
  assert (Hlen : length (map snd rs) = length (seq 0 (length rs)))
    by now rewrite length_map, length_seq.
  destruct (app_eq_app _ _ _ _ Hids) as (l & [[E1 E2]|[E1 E2]]).
  - assert (l = []).
    { apply (f_equal (@length nat)) in E1. rewrite length_app in E1.
      destruct l; [reflexivity|simpl in *; lia]. }
    subst l. simpl in E2.
    assert (H : In i (map snd ext)) by (change i with (snd (a, i)); now apply in_map).
    rewrite <- E2 in H. apply in_seq in H. lia.
  - assert (l = []).
    { apply (f_equal (@length nat)) in E1. rewrite length_app in E1.
      destruct l; [reflexivity|simpl in *; lia]. }
    subst l. simpl in E2.
    assert (H : In i (map snd ext)) by (change i with (snd (a, i)); now apply in_map).
    rewrite E2 in H. apply in_seq in H. lia.
Qed.

Lemma ref_of_inj rs a b :
  refs_ok heap rs -> registered rs (VObj a) -> registered rs (VObj b) ->
  ref_of rs a = ref_of rs b -> a = b.
Proof.
  intros Hok Ha Hb. unfold ref_of. simpl in Ha, Hb.
  destruct (assoc_get Nat.eqb a rs) as [i|] eqn:Ea; [|congruence].
  destruct (assoc_get Nat.eqb b rs) as [j|] eqn:Eb; [|congruence].
  intros ->. apply (assoc_get_In Nat_eqb_reflect) in Ea, Eb.
  eapply refs_ok_id_inj; eauto.
Qed.

Lemma rename_value_inj rs v1 v2 :
  refs_ok heap rs -> registered rs v1 -> registered rs v2 ->
  rename_value (ref_of rs) v1 = rename_value (ref_of rs) v2 -> v1 = v2.
Proof.
  intros Hok H1 H2.
  destruct v1, v2; simpl; try congruence.
  intros [= E]. f_equal. eapply ref_of_inj; eauto.
Qed.

Lemma rename_value_ext rs rs' v :
  extends rs rs' -> registered rs v ->
  rename_value (ref_of rs) v = rename_value (ref_of rs') v.
Proof.
  intros He. destruct v; simpl; auto. unfold ref_of.
  destruct (assoc_get Nat.eqb r rs) eqn:E; [|congruence].
  intros _. now rewrite (extends_get _ He E).
Qed.

Lemma map_rename_ext rs rs' vs :
  extends rs rs' -> Forall (registered rs) vs ->
  map (rename_value (ref_of rs)) vs = map (rename_value (ref_of rs')) vs.
Proof.
  intros He H. induction H as [|v vs Hv _ IH]; simpl; [reflexivity|].
  now rewrite IH, (rename_value_ext _ He Hv).
Qed.

Lemma rename_cell_ext rs rs' c :
  extends rs rs' -> Forall (registered rs) (children c) ->
  rename_cell (ref_of rs) c = rename_cell (ref_of rs') c.
Proof.
  intros He. destruct c; simpl; intros H; f_equal.
  - induction props as [|[k v] props IH]; simpl in *; [reflexivity|].
    inversion H; subst. now rewrite IH, (rename_value_ext v He).
  - now apply map_rename_ext.
  - induction entries as [|[k v] entries IH]; simpl in *; [reflexivity|].
    inversion H as [|? ? Hk H']; subst. inversion H'; subst.
    now rewrite IH, (rename_value_ext k He), (rename_value_ext v He).
  - now apply map_rename_ext.
Qed.

Lemma NoDup_map_rename rs vs :
  refs_ok heap rs -> Forall (registered rs) vs -> NoDup vs ->
  NoDup (map (rename_value (ref_of rs)) vs).
Proof.
  intros Hok Hreg Hnd. induction Hnd as [|v vs Hnotin Hnd IH]; simpl; constructor.
  - inversion Hreg; subst. intros Hin. apply in_map_iff in Hin as (v' & E & Hin).
    apply Hnotin. rewrite Forall_forall in H2.
    rewrite (rename_value_inj _ _ Hok (H2 _ Hin) H1 E) in Hin. exact Hin.
  - apply IH. now inversion Hreg.
Qed.

Lemma completed_start rs dh :
  refs_ok heap rs -> completed heap (length rs) rs dh.
Proof.
  intros Hok a i c Hin Hle _. apply (refs_ok_id_lt _ _ Hok) in Hin. lia.
Qed.

Lemma untouched_refl n out dh : untouched n out dh dh.
Proof. intros i _ _. reflexivity. Qed.

(** *** Decoding what was encoded *)

Section RoundTrip.
Hypothesis Hwf : wf_heap heap.
Hypothesis Hplain : plain_heap heap.
Hypothesis Hproto : no_proto_keys heap.

Lemma in_sync_update rs d out f :
  in_sync rs d ->
  in_sync rs (mkDec (list_update out f (dheap d)) (drefs d) (dsymbols d)
                    (next_symbol d)).
Proof. intros [Hl Hr]. split; simpl; [now rewrite length_list_update|exact Hr]. Qed.

Lemma completed_step n rs1 rs' dh1 dh' out :
  refs_ok heap rs1 -> refs_ok heap rs' -> extends rs1 rs' ->
  (forall j, out = Some j -> j < n) -> n <= length rs1 ->
  completed heap n rs1 dh1 ->
  untouched (length rs1) out dh1 dh' ->
  completed heap (length rs1) rs' dh' ->
  completed heap n rs' dh'.
Proof.
  intros Hok1 Hok' He Hout Hn Hc1 Hun Hc' a i c Hin Hle Hc.
  destruct (Nat.le_gt_cases (length rs1) i) as [Hge|Hlt].
  - now apply (Hc' a i c).
  - destruct He as [ext ->].
    assert (Hin1 : In (a, i) rs1) by (eapply refs_ok_In_prefix; eauto).
    destruct (Hc1 a i c Hin1 Hle Hc) as [Hcell Hreg].
    assert (He : extends rs1 (rs1 ++ ext)) by now eexists.
    split.
    + rewrite Hun; [|exact Hlt|intros E; symmetry in E; apply Hout in E; lia].
      rewrite Hcell. f_equal. now apply rename_cell_ext.
    + eapply Forall_impl; [|exact Hreg]. intros v. now apply extends_registered.
Qed.

Lemma completed_update n rs dh out f :
  completed heap n rs dh -> out < n ->
  completed heap n rs (list_update out f dh).
Proof.
  intros Hc Hout a i c Hin Hle Hcell.
  destruct (Hc a i c Hin Hle Hcell) as [H1 H2]. split; [|exact H2].
  rewrite nth_error_list_update_neq; [exact H1|lia].
Qed.

Lemma decode_list_spec enc (upd : JsValue -> Cell addr -> Cell addr) vs :
  dec_spec heap enc ->
  forall st ws st', encode_list enc vs st = Some (ws, st') ->
  Forall (fun v => plain_value v = true) vs ->
  refs_ok heap (refs st) ->
  forall d out c0, in_sync (refs st) d -> out < length (refs st) ->
  nth_error (dheap d) out = Some c0 ->
  exists d',
    for_each (fun entry => bind (Decode entry) (fun v => update_cell out (upd v)))
             ws d = Ok tt d' /\
    nth_error (dheap d') out =
      Some (fold_left (fun c v => upd v c)
                      (map (rename_value (ref_of (refs st'))) vs) c0) /\
    in_sync (refs st') d' /\ refs_ok heap (refs st') /\
    extends (refs st) (refs st') /\
    Forall (registered (refs st')) vs /\
    untouched (length (refs st)) (Some out) (dheap d) (dheap d') /\
    completed heap (length (refs st)) (refs st') (dheap d').
Proof.
  intros Henc. induction vs as [|v vs IH];
    intros st ws st' Hen Hpl Hok d out c0 Hsync Hout Hcell; simpl in Hen.
  - injection Hen as <- <-. exists d. simpl.
    split; [reflexivity|]. split; [exact Hcell|].
    auto 10 using extends_refl, untouched_refl, completed_start.
  - destruct (enc v st) as [[w st1]|] eqn:Ev; [|discriminate].
    destruct (encode_list enc vs st1) as [[ws' st2]|] eqn:Evs; [|discriminate].
    injection Hen as <- <-.
    inversion Hpl as [|? ? Hpv Hpvs]; subst.
    destruct (Henc v st w st1 Ev Hpv Hok d Hsync)
      as (d1 & Hdec & Hsync1 & Hok1 & He1 & Hreg1 & Hun1 & Hcomp1).
    pose proof (extends_length He1) as Hlen1.
    set (d2 := mkDec (list_update out (upd (rename_value (ref_of (refs st1)) v))
                        (dheap d1)) (drefs d1) (dsymbols d1) (next_symbol d1)).
    assert (Hcell1 : nth_error (dheap d1) out = Some c0).
    { rewrite Hun1; [exact Hcell|exact Hout|discriminate]. }
    destruct (IH st1 ws' st2 Evs Hpvs Hok1 d2 out
                 (upd (rename_value (ref_of (refs st1)) v) c0))
      as (d' & Hloop & Hout' & Hsync' & Hok' & He' & Hreg' & Hun' & Hcomp').
    { now apply in_sync_update. }
    { lia. }
    { simpl. now apply nth_error_list_update_eq. }
    exists d'. split; [|split; [|split; [|split; [|split; [|split; [|split]]]]]].
    + simpl. unfold bind at 1. rewrite Hdec. unfold update_cell, modify.
      exact Hloop.
    + rewrite Hout'. simpl. now rewrite (rename_value_ext _ He' Hreg1).
    + exact Hsync'.
    + exact Hok'.
    + eauto using extends_trans.
    + constructor; [now apply (extends_registered _ He')|exact Hreg'].
    + intros i Hi Hne. rewrite Hun'; [|lia|exact Hne]. simpl.
      rewrite nth_error_list_update_neq; [|congruence].
      apply Hun1; [exact Hi|discriminate].
    + apply completed_step with (rs1 := refs st1) (dh1 := dheap d2)
                                (out := Some out); auto.
      * now intros j [= <-].
      * now apply completed_update.
Qed.

Lemma decode_pairs_spec enc (upd : JsValue -> JsValue -> Cell addr -> Cell addr)
      kvs :
  dec_spec heap enc ->
  forall st ws st', encode_pairs enc kvs st = Some (ws, st') ->
  Forall (fun p => plain_value (fst p) = true /\ plain_value (snd p) = true) kvs ->
  refs_ok heap (refs st) ->
  forall d out c0, in_sync (refs st) d -> out < length (refs st) ->
  nth_error (dheap d) out = Some c0 ->
  exists d',
    for_each (fun entry => bind (Decode (fst entry)) (fun k =>
                           bind (Decode (snd entry)) (fun v =>
                           update_cell out (upd k v))))
             ws d = Ok tt d' /\
    nth_error (dheap d') out =
      Some (fold_left (fun c p => upd (fst p) (snd p) c)
              (map (fun p => (rename_value (ref_of (refs st')) (fst p),
                              rename_value (ref_of (refs st')) (snd p))) kvs)
              c0) /\
    in_sync (refs st') d' /\ refs_ok heap (refs st') /\
    extends (refs st) (refs st') /\
    Forall (fun p => registered (refs st') (fst p) /\
                     registered (refs st') (snd p)) kvs /\
    untouched (length (refs st)) (Some out) (dheap d) (dheap d') /\
    completed heap (length (refs st)) (refs st') (dheap d').
Proof.
  intros Henc. induction kvs as [|[k v] kvs IH];
    intros st ws st' Hen Hpl Hok d out c0 Hsync Hout Hcell; simpl in Hen.
  - injection Hen as <- <-. exists d. simpl.
    split; [reflexivity|]. split; [exact Hcell|].
    auto 10 using extends_refl, untouched_refl, completed_start.
  - destruct (enc k st) as [[wk st1]|] eqn:Ek; [|discriminate].
    destruct (enc v st1) as [[wv st2]|] eqn:Ev; [|discriminate].
    destruct (encode_pairs enc kvs st2) as [[ws' st3]|] eqn:Evs; [|discriminate].
    injection Hen as <- <-.
    inversion Hpl as [|? ? [Hpk Hpv] Hpvs]; subst. simpl in Hpk, Hpv.
    destruct (Henc k st wk st1 Ek Hpk Hok d Hsync)
      as (d1 & Hdk & Hsync1 & Hok1 & He1 & Hreg1 & Hun1 & Hcomp1).
    destruct (Henc v st1 wv st2 Ev Hpv Hok1 d1 Hsync1)
      as (d2 & Hdv & Hsync2 & Hok2 & He2 & Hreg2 & Hun2 & Hcomp2).
    pose proof (extends_length He1) as Hlen1.
    pose proof (extends_length He2) as Hlen2.
    set (k' := rename_value (ref_of (refs st1)) k).
    set (v' := rename_value (ref_of (refs st2)) v).
    set (d3 := mkDec (list_update out (upd k' v') (dheap d2))
                     (drefs d2) (dsymbols d2) (next_symbol d2)).
    assert (Hcell2 : nth_error (dheap d2) out = Some c0).
    { rewrite Hun2; [|lia|discriminate].
      rewrite Hun1; [exact Hcell|exact Hout|discriminate]. }
    assert (Hcomp02 : completed heap (length (refs st)) (refs st2) (dheap d2)).
    { apply completed_step with (rs1 := refs st1) (dh1 := dheap d1) (out := None);
        auto. discriminate. }
    destruct (IH st2 ws' st3 Evs Hpvs Hok2 d3 out (upd k' v' c0))
      as (d' & Hloop & Hout' & Hsync' & Hok' & He' & Hreg' & Hun' & Hcomp').
    { now apply in_sync_update. }
    { lia. }
    { simpl. now apply nth_error_list_update_eq. }
    exists d'. split; [|split; [|split; [|split; [|split; [|split; [|split]]]]]].
    + simpl. unfold bind at 1. rewrite Hdk. unfold bind at 1. rewrite Hdv.
      unfold update_cell, modify. exact Hloop.
    + rewrite Hout'. simpl. unfold k', v'.
      rewrite (rename_value_ext _ (extends_trans He2 He') Hreg1).
      now rewrite (rename_value_ext _ He' Hreg2).
    + exact Hsync'.
    + exact Hok'.
    + eauto using extends_trans.
    + constructor; [|exact Hreg']. simpl. split.
      * apply (extends_registered _ (extends_trans He2 He')). exact Hreg1.
      * now apply (extends_registered _ He').
    + intros i Hi Hne. rewrite Hun'; [|lia|exact Hne]. simpl.
      rewrite nth_error_list_update_neq; [|congruence].
      rewrite Hun2; [|lia|discriminate].
      apply Hun1; [exact Hi|discriminate].
    + apply completed_step with (rs1 := refs st2) (dh1 := dheap d3)
                                (out := Some out); auto.
      * intros j [= <-]. exact Hout.
      * lia.
      * apply completed_update; [exact Hcomp02|exact Hout].
Qed.


(** The composite under construction, once all its entries are in. *)

Lemma same_value_reflect (v1 v2 : JsValue) : reflect (v1 = v2) (same_value v1 v2).
Proof. apply same_value_zero_spec, Nat_eqb_reflect. Qed.

Lemma existsb_same_value_false (v : JsValue) l :
  ~ In v l -> existsb (same_value v) l = false.
Proof.
  intros H. destruct (existsb (same_value v) l) eqn:E; [|reflexivity].
  apply existsb_exists in E as (x & Hx & Heq).
  destruct (same_value_reflect v x); congruence.
Qed.

Lemma fold_array_push (vs acc : list JsValue) :
  fold_left (fun c v => array_push v c) vs (CArray acc) = CArray (acc ++ vs).
Proof.
  revert acc. induction vs as [|v vs IH]; intros acc; simpl.
  - now rewrite app_nil_r.
  - rewrite IH, <- app_assoc. reflexivity.
Qed.

Lemma fold_set_add (vs acc : list JsValue) :
  NoDup (acc ++ vs) ->
  fold_left (fun c v => set_add_cell v c) vs (CSet acc) = CSet (acc ++ vs).
Proof.
  revert acc. induction vs as [|v vs IH]; intros acc Hnd; simpl.
  - now rewrite app_nil_r.
  - unfold set_add. rewrite existsb_same_value_false.
    + rewrite IH, <- app_assoc; [reflexivity|].
      now rewrite <- app_assoc.
    + apply NoDup_remove_2 in Hnd. intros Hin. apply Hnd.
      apply in_or_app. now left.
Qed.

Lemma fold_map_set (kvs acc : list (JsValue * JsValue)) :
  NoDup (map fst (acc ++ kvs)) ->
  fold_left (fun c p => map_set (fst p) (snd p) c) kvs (CMap acc) =
  CMap (acc ++ kvs).
Proof.
  revert acc. induction kvs as [|[k v] kvs IH]; intros acc Hnd; simpl.
  - now rewrite app_nil_r.
  - rewrite assoc_set_fresh.
    + rewrite IH, <- app_assoc; [reflexivity|].
      now rewrite <- app_assoc.
    + apply (assoc_get_None same_value_reflect).
      rewrite map_app in Hnd. simpl in Hnd. apply NoDup_remove_2 in Hnd.
      intros Hin. apply Hnd. apply in_or_app. now left.
Qed.

Lemma fold_object_set (kvs acc : list (Key * JsValue)) :
  NoDup (map fst (acc ++ kvs)) ->
  ~ In (KStr "__proto__") (map fst kvs) ->
  fold_left (fun c p => object_set (to_property_key (fst p)) (snd p) c)
            (map (fun p => (key_value (fst p), snd p)) kvs) (CObject acc) =
  CObject (acc ++ kvs).
Proof.
  revert acc. induction kvs as [|[k v] kvs IH]; intros acc Hnd Hnone; simpl.
  - now rewrite app_nil_r.
  - assert (Ek : to_property_key (key_value k) = k) by now destruct k.
    assert (Hk : Key_eqb k (KStr "__proto__") = false).
    { destruct (Key_eqb_spec k (KStr "__proto__")) as [->|]; [|reflexivity].
      exfalso. apply Hnone. now left. }
    rewrite Ek. cbn [object_set]. rewrite Hk, assoc_set_fresh.
    + rewrite IH, <- app_assoc; [reflexivity| |].
      * now rewrite <- app_assoc.
      * intros Hin. apply Hnone. now right.
    + apply (assoc_get_None Key_eqb_spec).
      rewrite map_app in Hnd. simpl in Hnd. apply NoDup_remove_2 in Hnd.
      intros Hin. apply Hnd. apply in_or_app. now left.
Qed.

Lemma object_entries_strings (props : list (Key * JsValue)) :
  Forall (fun p => is_string_key p = true) props ->
  object_entries props = map (fun p => (key_value (fst p), snd p)) props.
Proof.
  intros H. unfold object_entries. f_equal.
  induction H as [|p l Hp _ IH]; simpl; [reflexivity|].
  rewrite Hp. simpl. f_equal. exact IH.
Qed.

Lemma rename_object_entries f (props : list (Key * JsValue)) :
  map (fun p => (rename_value f (fst p), rename_value f (snd p)))
      (map (fun p => (key_value (fst p), snd p)) props) =
  map (fun p => (key_value (fst p), snd p))
      (map (fun p => (fst p, rename_value f (snd p))) props).
Proof.
  rewrite !map_map. apply map_ext. intros [k v]. simpl.
  now destruct k.
Qed.

Lemma Forall_flat_pairs (P : JsValue -> Prop) (kvs : list (JsValue * JsValue)) :
  Forall P (flat_map (fun p => [fst p; snd p]) kvs) ->
  Forall (fun p => P (fst p) /\ P (snd p)) kvs.
Proof.
  induction kvs as [|[k v] kvs IH]; simpl; intros H; constructor.
  - inversion H as [|? ? Hk H']; subst. inversion H'; subst. auto.
  - apply IH. inversion H as [|? ? Hk H']; subst. now inversion H'.
Qed.

Lemma Forall_pairs_flat (P : JsValue -> Prop) (kvs : list (JsValue * JsValue)) :
  Forall (fun p => P (fst p) /\ P (snd p)) kvs ->
  Forall P (flat_map (fun p => [fst p; snd p]) kvs).
Proof.
  induction 1 as [|[k v] kvs [Hk Hv] _ IH]; simpl; auto.
Qed.

Lemma plain_heap_cell a c :
  nth_error heap a = Some c -> plain_cell c.
Proof.
  intros Hc. unfold plain_heap in Hplain. rewrite Forall_forall in Hplain.
  apply Hplain. eapply nth_error_In; eauto.
Qed.

Lemma wf_heap_cell a c : nth_error heap a = Some c -> wf_cell heap c.
Proof.
  intros Hc. unfold wf_heap in Hwf. rewrite Forall_forall in Hwf.
  apply Hwf. eapply nth_error_In; eauto.
Qed.

Lemma Decode_EObject val ref d :
  Decode (EObject val ref) d =
  match for_each (fun entry => bind (Decode (fst entry)) (fun k =>
                               bind (Decode (snd entry)) (fun v =>
                               update_cell (length (dheap d))
                                           (object_set (to_property_key k) v))))
          val (mkDec (dheap d ++ [CObject []])
                     (assoc_set Nat.eqb ref (VObj (length (dheap d))) (drefs d))
                     (dsymbols d) (next_symbol d)) with
  | Ok _ d' => Ok (VObj (length (dheap d))) d'
  | Throw e d' => Throw e d'
  end.
Proof. reflexivity. Qed.

Lemma Decode_EMap val ref d :
  Decode (EMap val ref) d =
  match for_each (fun entry => bind (Decode (fst entry)) (fun k =>
                               bind (Decode (snd entry)) (fun v =>
                               update_cell (length (dheap d)) (map_set k v))))
          val (mkDec (dheap d ++ [CMap []])
                     (assoc_set Nat.eqb ref (VObj (length (dheap d))) (drefs d))
                     (dsymbols d) (next_symbol d)) with
  | Ok _ d' => Ok (VObj (length (dheap d))) d'
  | Throw e d' => Throw e d'
  end.
Proof. reflexivity. Qed.

Lemma Decode_EArray val ref d :
  Decode (EArray val ref) d =
  match for_each (fun entry => bind (Decode entry) (fun v =>
                               update_cell (length (dheap d)) (array_push v)))
          val (mkDec (dheap d ++ [CArray []])
                     (assoc_set Nat.eqb ref (VObj (length (dheap d))) (drefs d))
                     (dsymbols d) (next_symbol d)) with
  | Ok _ d' => Ok (VObj (length (dheap d))) d'
  | Throw e d' => Throw e d'
  end.
Proof. reflexivity. Qed.

Lemma Decode_ESet val ref d :
  Decode (ESet val ref) d =
  match for_each (fun entry => bind (Decode entry) (fun v =>
                               update_cell (length (dheap d)) (set_add_cell v)))
          val (mkDec (dheap d ++ [CSet []])
                     (assoc_set Nat.eqb ref (VObj (length (dheap d))) (drefs d))
                     (dsymbols d) (next_symbol d)) with
  | Ok _ d' => Ok (VObj (length (dheap d))) d'
  | Throw e d' => Throw e d'
  end.
Proof. reflexivity. Qed.

(** Entering a composite: [Decode] allocates it and records its id. *)
Lemma enter_node rs d c0 :
  in_sync rs d ->
  forall a,
  let d0 := mkDec (dheap d ++ [c0])
                  (assoc_set Nat.eqb (length rs) (VObj (length (dheap d))) (drefs d))
                  (dsymbols d) (next_symbol d) in
  in_sync (rs ++ [(a, length rs)]) d0 /\
  nth_error (dheap d0) (length rs) = Some c0.
Proof.
  intros [Hl Hr] a d0. split; [split|]; simpl.
  - rewrite !length_app. simpl. lia.
  - intros i Hi. rewrite length_app in Hi. simpl in Hi.
    rewrite (assoc_get_set Nat_eqb_reflect).
    destruct (Nat.eqb_spec i (length rs)) as [->|Hne].
    + now rewrite Hl.
    + apply Hr. lia.
  - rewrite nth_error_app2; [|lia]. now rewrite Hl, Nat.sub_diag.
Qed.

(** Leaving a composite whose entries have all been decoded. *)
Lemma leave_node st a c st1 d c0 d' :
  refs_ok heap (refs st) -> assoc_get Nat.eqb a (refs st) = None ->
  nth_error heap a = Some c -> in_sync (refs st) d ->
  extends (refs st ++ [(a, length (refs st))]) (refs st1) ->
  refs_ok heap (refs st1) ->
  untouched (length (refs st ++ [(a, length (refs st))]))
            (Some (length (refs st))) (dheap d ++ [c0]) (dheap d') ->
  completed heap (length (refs st ++ [(a, length (refs st))])) (refs st1)
            (dheap d') ->
  nth_error (dheap d') (length (refs st)) =
    Some (rename_cell (ref_of (refs st1)) c) ->
  Forall (registered (refs st1)) (children c) ->
  rename_value (ref_of (refs st1)) (VObj a) = VObj (length (refs st)) /\
  extends (refs st) (refs st1) /\
  registered (refs st1) (VObj a) /\
  untouched (length (refs st)) None (dheap d) (dheap d') /\
  completed heap (length (refs st)) (refs st1) (dheap d').
Proof.
  intros Hok Hget Hc Hsync He Hok1 Hun Hcomp Hcell Hreg.
  set (n := length (refs st)) in *.
  assert (Hget0 : assoc_get Nat.eqb a (refs st ++ [(a, n)]) = Some n).
  { rewrite assoc_get_app, Hget. simpl. now rewrite Nat.eqb_refl. }
  pose proof (extends_get _ He Hget0) as Hget1.
  rewrite length_app in Hun, Hcomp. simpl in Hun, Hcomp.
  split; [|split; [|split; [|split]]].
  - simpl. unfold ref_of. now rewrite Hget1.
  - eapply extends_trans; [|exact He]. now eexists.
  - simpl. now rewrite Hget1.
  - intros i Hi _. rewrite Hun; [|lia|intros [= ->]; lia].
    apply nth_error_app1. destruct Hsync as [Hl _]. fold n in Hl. lia.
  - intros a' i c' Hin Hle Hc'.
    destruct (Nat.eq_dec i n) as [->|Hne].
    + assert (a' = a).
      { eapply refs_ok_id_inj; [exact Hok1|exact Hin|].
        now apply (assoc_get_In Nat_eqb_reflect). }
      subst a'. rewrite Hc in Hc'. injection Hc' as <-. auto.
    + apply (Hcomp a' i c'); auto. lia.
Qed.

(** Every nested [Encode] call is undone by the matching [Decode] call. *)
Lemma Encode_fuel_decodes fuel : dec_spec heap (Encode_fuel fuel heap []).
Proof.
  induction fuel as [|fuel IH]; intros v st w st' Hen Hpl Hok d Hsync;
    [discriminate|].
  assert (Hleaf : forall v0 : JsValue,
            registered (refs st) v ->
            Decode w d = Ok v0 d -> rename_value (ref_of (refs st)) v = v0 ->
            st' = st ->
            exists d', Decode w d = Ok (rename_value (ref_of (refs st')) v) d' /\
              in_sync (refs st') d' /\ refs_ok heap (refs st') /\
              extends (refs st) (refs st') /\ registered (refs st') v /\
              untouched (length (refs st)) None (dheap d) (dheap d') /\
              completed heap (length (refs st)) (refs st') (dheap d')).
  { intros v0 Hr Hd Hv ->. exists d. rewrite Hv.
    split; [exact Hd|].
    auto 10 using extends_refl, untouched_refl, completed_start. }
  destruct v; simpl in Hen; try discriminate Hpl;
    try (injection Hen as <- <-; eapply Hleaf; simpl; eauto; fail).
  - (* bigint *)
    injection Hen as <- <-. eapply Hleaf; simpl; eauto.
    unfold BigInt. now rewrite Z_of_string_of_Z.
  - (* a composite *)
    destruct (assoc_get Nat.eqb r (refs st)) as [n|] eqn:Hget.
    + injection Hen as <- <-.
      assert (Hn : n < length (refs st)).
      { eapply refs_ok_id_lt; [exact Hok|].
        apply (assoc_get_In Nat_eqb_reflect). exact Hget. }
      exists d. simpl. destruct Hsync as [Hl Hr]. rewrite (Hr n Hn).
      unfold ref_of. rewrite Hget.
      split; [reflexivity|].
      split; [now split|].
      split; [exact Hok|]. split; [apply extends_refl|].
      split; [congruence|].
      split; [apply untouched_refl|now apply completed_start].
    + destruct (nth_error heap r) as [c|] eqn:Hc; [|discriminate].
      assert (Hr : r < length heap).
      { apply nth_error_Some. congruence. }
      pose proof (refs_ok_register Hok Hget Hr) as Hok0.
      set (st0 := mkEnc (refs st ++ [(r, length (refs st))]) (symbols st)) in *.
      destruct (plain_heap_cell _ Hc) as [Hpc Hkeys].
      destruct (wf_heap_cell _ Hc) as [_ Hdup].
      assert (Hlen : length (dheap d) = length (refs st)) by apply Hsync.
      destruct c as [props|elems|entries|members|iso]; simpl in Hpc, Hkeys, Hdup.
      * (* object *)
        destruct (encode_pairs _ _ st0) as [[out st1]|] eqn:Hloop; [|discriminate].
        injection Hen as <- <-.
        destruct (enter_node (CObject []) Hsync r) as [Hsync0 Hcell0].
        rewrite Hlen in Hsync0, Hcell0.
        rewrite (object_entries_strings Hkeys) in Hloop.
        edestruct (@decode_pairs_spec _
                     (fun k v => object_set (to_property_key k) v) _ IH
                     st0 out st1 Hloop)
          as (d' & Hfor & Hout & Hsync' & Hok' & He' & Hreg' & Hun' & Hcomp');
          [| exact Hok0 | exact Hsync0 | | exact Hcell0 |].
        { rewrite Forall_forall in *. intros [k v] Hin.
          apply in_map_iff in Hin as ([k0 v0] & [= <- <-] & Hin). simpl. split.
          - specialize (Hkeys _ Hin). unfold is_string_key in Hkeys. simpl in Hkeys.
            now destruct k0.
          - apply Hpc. change v0 with (snd (k0, v0)). now apply in_map. }
        { simpl. rewrite length_app. simpl. lia. }
        assert (Hregc : Forall (registered (refs st1)) (map snd props)).
        { rewrite Forall_forall in *. intros v Hin.
          apply in_map_iff in Hin as ([k0 v0] & <- & Hin).
          specialize (Hreg' (key_value k0, v0)). simpl in Hreg'. apply Hreg'.
          apply in_map_iff. now exists (k0, v0). }
        destruct (@leave_node st r (CObject props) st1 d (CObject []) d')
          as (Hv & He & Hrg & Hun & Hcomp); auto.
        { rewrite Hout. f_equal.
          rewrite (rename_object_entries (ref_of (refs st1)) props).
          rewrite fold_object_set; [reflexivity| |].
          - simpl. rewrite map_map. simpl. exact Hdup.
          - rewrite map_map. simpl.
            unfold no_proto_keys in Hproto. rewrite Forall_forall in Hproto.
            exact (Hproto _ (nth_error_In _ _ Hc)). }
        exists d'. rewrite Hv.
        split; [|auto 10].
        rewrite Decode_EObject, Hlen, Hfor. reflexivity.
      * (* array *)
        destruct (encode_list _ _ st0) as [[out st1]|] eqn:Hloop; [|discriminate].
        injection Hen as <- <-.
        destruct (enter_node (CArray []) Hsync r) as [Hsync0 Hcell0].
        rewrite Hlen in Hsync0, Hcell0.
        edestruct (@decode_list_spec _ array_push _ IH st0 out st1 Hloop)
          as (d' & Hfor & Hout & Hsync' & Hok' & He' & Hreg' & Hun' & Hcomp');
          [exact Hpc | exact Hok0 | exact Hsync0 | | exact Hcell0 |].
        { simpl. rewrite length_app. simpl. lia. }
        destruct (@leave_node st r (CArray elems) st1 d (CArray []) d')
          as (Hv & He & Hrg & Hun & Hcomp); auto.
        { rewrite Hout. f_equal. apply fold_array_push. }
        exists d'. rewrite Hv.
        split; [|auto 10].
        rewrite Decode_EArray, Hlen, Hfor. reflexivity.
      * (* Map *)
        destruct (encode_pairs _ _ st0) as [[out st1]|] eqn:Hloop; [|discriminate].
        injection Hen as <- <-.
        destruct (enter_node (CMap []) Hsync r) as [Hsync0 Hcell0].
        rewrite Hlen in Hsync0, Hcell0.
        edestruct (@decode_pairs_spec _ map_set _ IH st0 out st1 Hloop)
          as (d' & Hfor & Hout & Hsync' & Hok' & He' & Hreg' & Hun' & Hcomp');
          [| exact Hok0 | exact Hsync0 | | exact Hcell0 |].
        { apply (@Forall_flat_pairs (fun v => plain_value v = true)). exact Hpc. }
        { simpl. rewrite length_app. simpl. lia. }
        destruct (@leave_node st r (CMap entries) st1 d (CMap []) d')
          as (Hv & He & Hrg & Hun & Hcomp); auto.
        { rewrite Hout. f_equal. rewrite fold_map_set; [reflexivity|].
          simpl. rewrite map_map. simpl.
          rewrite <- (map_map fst (rename_value (ref_of (refs st1)))).
          apply NoDup_map_rename; auto.
          rewrite Forall_forall in *. intros k Hin.
          apply in_map_iff in Hin as (p & <- & Hin). now apply Hreg'. }
        { apply (@Forall_pairs_flat (registered (refs st1))). exact Hreg'. }
        exists d'. rewrite Hv.
        split; [|auto 10].
        rewrite Decode_EMap, Hlen, Hfor. reflexivity.
      * (* Set *)
        destruct (encode_list _ _ st0) as [[out st1]|] eqn:Hloop; [|discriminate].
        injection Hen as <- <-.
        destruct (enter_node (CSet []) Hsync r) as [Hsync0 Hcell0].
        rewrite Hlen in Hsync0, Hcell0.
        edestruct (@decode_list_spec _ set_add_cell _ IH st0 out st1 Hloop)
          as (d' & Hfor & Hout & Hsync' & Hok' & He' & Hreg' & Hun' & Hcomp');
          [exact Hpc | exact Hok0 | exact Hsync0 | | exact Hcell0 |].
        { simpl. rewrite length_app. simpl. lia. }
        destruct (@leave_node st r (CSet members) st1 d (CSet []) d')
          as (Hv & He & Hrg & Hun & Hcomp); auto.
        { rewrite Hout. f_equal. rewrite fold_set_add; [reflexivity|].
          simpl. now apply NoDup_map_rename. }
        exists d'. rewrite Hv.
        split; [|auto 10].
        rewrite Decode_ESet, Hlen, Hfor. reflexivity.
      * (* Date *)
        destruct (date_text iso); [|discriminate].
        injection Hen as <- <-.
        destruct (enter_node (CDate iso) Hsync r) as [Hsync0 Hcell0].
        rewrite Hlen in Hsync0, Hcell0.
        destruct (@leave_node st r (CDate iso) st0 d (CDate iso)
                    (mkDec (dheap d ++ [CDate iso])
                       (assoc_set Nat.eqb (length (refs st))
                          (VObj (length (refs st))) (drefs d))
                       (dsymbols d) (next_symbol d)))
          as (Hv & He & Hrg & Hun & Hcomp); auto.
        { apply extends_refl. }
        { apply untouched_refl. }
        { now apply completed_start. }
        eexists. rewrite Hv.
        split; [|split; [exact Hsync0|auto 10]].
        simpl. unfold bind, alloc, refs_set, modify. now rewrite Hlen.
Qed.

End RoundTrip.

End Heap.

(** X30. The round trip, where it holds.  For every value graph built from
    objects, lists, Maps, Sets, valid Dates, strings, numbers, booleans,
    null, undefined and arbitrary-precision integers, with sharing and
    cycles allowed, and no object of which has an own property named
    [__proto__]: [Encode] terminates with a wire form, [Decode] of that wire
    form returns, and the decoded graph is the original one node for node:
    equal contents, and two decoded nodes are the same node exactly when
    the original nodes were. *)
Theorem Decode_Encode_round_trip (heap : Heap) (v : JsValue)
    (symbols symbols' : list (string * nat)) (fresh : nat) :
  wf_heap heap -> plain_heap heap -> valid_dates heap -> no_proto_keys heap ->
  plain_value v = true -> in_heap heap v ->
  exists w st,
    Encode heap v symbols [] [] = Some (w, st) /\
    exists v' d,
      Decode w (mkDec [] [] symbols' fresh) = Ok v' d /\
      same_graph heap v (dheap d) v'.
Proof.
  intros Hwf Hplain Hdates Hproto Hpv Hin.
  destruct (@Encode_fuel_total heap Hwf Hdates [] (S (length heap)) v
              (mkEnc [] symbols))
    as (w & st & Hen & Hok & _); auto using refs_ok_nil.
  { simpl. lia. }
  exists w, st. split; [exact Hen|].
  destruct (@Encode_fuel_decodes heap Hwf Hplain Hproto _ v _ w st Hen Hpv
              (refs_ok_nil heap) (mkDec [] [] symbols' fresh))
    as (d & Hdec & Hsync & _ & _ & Hreg & _ & Hcomp).
  { split; simpl; [reflexivity|intros i Hi; lia]. }
  exists (rename_value (ref_of (refs st)) v), d. split; [exact Hdec|].
  exists (ref_of (refs st)). split; [reflexivity|].
  assert (Hreach : forall a, reachable heap v a -> registered (refs st) (VObj a)).
  { intros a Hr. induction Hr as [a ->|a c b _ IH Hc Hb]; [exact Hreg|].
    simpl in IH. destruct (assoc_get Nat.eqb a (refs st)) as [i|] eqn:Hget;
      [|congruence].
    apply (assoc_get_In Nat_eqb_reflect) in Hget.
    destruct (Hcomp a i c Hget (Nat.le_0_l i) Hc) as [_ Hch].
    rewrite Forall_forall in Hch. now apply Hch. }
  split.
  - intros a Hr. apply Hreach in Hr. simpl in Hr.
    destruct (assoc_get Nat.eqb a (refs st)) as [i|] eqn:Hget; [|congruence].
    pose proof (assoc_get_In Nat_eqb_reflect Hget) as Hi.
    assert (Ha : a < length heap).
    { destruct Hok as (_ & _ & Hlt). rewrite Forall_forall in Hlt.
      now apply Hlt in Hi. }
    destruct (nth_error heap a) as [c|] eqn:Hc.
    2:{ apply nth_error_None in Hc. lia. }
    exists c. split; [reflexivity|].
    unfold ref_of at 1. rewrite Hget.
    now destruct (Hcomp a i c Hi (Nat.le_0_l i) Hc).
  - intros a b Ha Hb. apply ref_of_inj with (heap := heap); auto.
Qed.

(** C5, at two failing inputs.  An object with an own property named
    [__proto__] (as [JSON.parse] makes one) is encoded with that property
    and decoded without it: [Decode] assigns the property on a fresh object
    literal, where that name is the accessor inherited from
    [Object.prototype].  And [Encode] does not return on an invalid [Date]:
    [toISOString] throws. *)
Theorem round_trip_fails_on_proto_key_and_invalid_date :
  Encode [CObject [(KStr "__proto__", VNum 1)]] (VObj 0) [] [] []
  = Some (EObject [(EValue "string" (VStr "__proto__"),
                    EValue "number" (VNum 1))] 0,
          mkEnc [(0, 0)] []) /\
  Decode (EObject [(EValue "string" (VStr "__proto__"),
                    EValue "number" (VNum 1))] 0)
         (mkDec [] [] [] 0)
  = Ok (VObj 0) (mkDec [CObject []] [(0, VObj 0)] [] 0) /\
  Encode [CDate "Invalid Date"] (VObj 0) [] [] [] = None.
Proof. repeat split. Qed.

(** C6, refuted as stated: a wire form holding a reference to id 5, which
    nothing defines, decodes to a list holding [undefined]; no error is
    raised. *)
Lemma Decode_dangling_reference_returns :
  Decode (EArray [EReference 5] 0) (mkDec [] [] [] 0)
  = Ok (VObj 0) (mkDec [CArray [VUndef]] [(0, VObj 0)] [] 0).
Proof. reflexivity. Qed.

Lemma Decode_Encode_round_trip_witness :
  exists w st,
    Encode sample_heap (VObj 0) [] [] [] = Some (w, st) /\
    exists v' d,
      Decode w (mkDec [] [] [] 0) = Ok v' d /\
      same_graph sample_heap (VObj 0) (dheap d) v'.
Proof.
  apply (@Decode_Encode_round_trip sample_heap (VObj 0) [] [] 0).
  - unfold wf_heap, sample_heap.
    repeat (apply Forall_cons || apply Forall_nil); unfold wf_cell; simpl;
      (split; [repeat constructor; simpl; lia|]);
      try exact I;
      repeat constructor; simpl; intuition discriminate.
  - unfold plain_heap, sample_heap.
    repeat (apply Forall_cons || apply Forall_nil); unfold plain_cell; simpl;
      (split; [repeat constructor|]); try exact I; repeat constructor.
  - unfold valid_dates, sample_heap.
    repeat (apply Forall_cons || apply Forall_nil); simpl;
      try exact I; reflexivity.
  - unfold no_proto_keys, sample_heap.
    repeat (apply Forall_cons || apply Forall_nil); simpl;
      try exact I; intuition discriminate.
  - reflexivity.
  - simpl. lia.
Defined.

(** The self-referential object [v.self = v]: the decoded object is its own
    [self] field. *)
Example Decode_Encode_self :
  match Encode [CObject [(KStr "self", VObj 0)]] (VObj 0) [] [] [] with
  | Some (w, _) => Decode w (mkDec [] [] [] 0)
  | None => Throw (Error "out of fuel") (mkDec [] [] [] 0)
  end
  = Ok (VObj 0) (mkDec [CObject [(KStr "self", VObj 0)]] [(0, VObj 0)] [] 0).
Proof. reflexivity. Qed.


(** ** What [Encode] produces, for any graph *)

Local Unset Implicit Arguments.

Section WireForm.
Variable heap : Heap.
Variable blocklist : list JsValue.

Lemma encode_list_ids enc vs :
  ids_spec heap enc ->
  forall st ws st', encode_list enc vs st = Some (ws, st') ->
    refs_ok heap (refs st) ->
    refs_ok heap (refs st') /\
    ids_of_list ids_in_order ws (length (refs st)) = Some (length (refs st')).
Proof.
  intros IH. induction vs as [|v vs IHvs]; intros st ws st' E Hok; simpl in E.
  - injection E as <- <-. split; [exact Hok|reflexivity].
  - destruct (enc v st) as [[w st1]|] eqn:Ev; [|discriminate].
    destruct (encode_list enc vs st1) as [[ws1 st2]|] eqn:Evs; [|discriminate].
    injection E as <- <-.
    destruct (IH v st w st1 Ev Hok) as [Hok1 Hw].
    destruct (IHvs st1 ws1 st2 Evs Hok1) as [Hok2 Hws].
    split; [exact Hok2|]. simpl. now rewrite Hw.
Qed.

Lemma encode_pairs_ids enc kvs :
  ids_spec heap enc ->
  forall st ws st', encode_pairs enc kvs st = Some (ws, st') ->
    refs_ok heap (refs st) ->
    refs_ok heap (refs st') /\
    ids_of_pairs ids_in_order ws (length (refs st)) = Some (length (refs st')).
Proof.
  intros IH. induction kvs as [|[k v] kvs IHkvs]; intros st ws st' E Hok;
    simpl in E.
  - injection E as <- <-. split; [exact Hok|reflexivity].
  - destruct (enc k st) as [[wk st1]|] eqn:Ek; [|discriminate].
    destruct (enc v st1) as [[wv st2]|] eqn:Ev; [|discriminate].
    destruct (encode_pairs enc kvs st2) as [[ws1 st3]|] eqn:Ekvs; [|discriminate].
    injection E as <- <-.
    destruct (IH k st wk st1 Ek Hok) as [Hok1 Hk].
    destruct (IH v st1 wv st2 Ev Hok1) as [Hok2 Hv].
    destruct (IHkvs st2 ws1 st3 Ekvs Hok2) as [Hok3 Hws].
    split; [exact Hok3|]. simpl. now rewrite Hk, Hv.
Qed.

Lemma Encode_fuel_ids fuel : ids_spec heap (Encode_fuel fuel heap blocklist).
Proof.
  induction fuel as [|fuel IH]; intros v st w st' E Hok; [discriminate|].
  assert (Hleaf : forall w0 : EncodedObj,
            ids_in_order w0 (length (refs st)) = Some (length (refs st)) ->
            Some (w0, st) = Some (w, st') ->
            refs_ok heap (refs st') /\
            ids_in_order w (length (refs st)) = Some (length (refs st'))).
  { intros w0 Hw0 [= <- <-]. split; assumption. }
  destruct v; simpl in E; try (refine (Hleaf _ _ E); reflexivity).
  - destruct (existsb (same_value VNull) blocklist);
      refine (Hleaf _ _ E); reflexivity.
  - unfold encode_symbol in E.
    destruct (find (fun p => Nat.eqb (snd p) n) (symbols st)) as [[key ?]|].
    + refine (Hleaf _ _ E); reflexivity.
    + injection E as <- <-. split; [exact Hok|reflexivity].
  - destruct (existsb (same_value (VObj r)) blocklist);
      [refine (Hleaf _ _ E); reflexivity|].
    destruct (assoc_get Nat.eqb r (refs st)) as [n|] eqn:Hget.
    { refine (Hleaf (EReference n) _ E). simpl.
      apply (assoc_get_In Nat_eqb_reflect) in Hget.
      pose proof (@refs_ok_id_lt heap (refs st) r n Hok Hget) as Hlt.
      apply Nat.ltb_lt in Hlt. now rewrite Hlt. }
    destruct (nth_error heap r) as [c|] eqn:Hc; [|discriminate].
    assert (Hr : r < length heap) by (apply nth_error_Some; congruence).
    pose proof (@refs_ok_register heap (refs st) r Hok Hget Hr) as Hok0.
    set (st0 := mkEnc (refs st ++ [(r, length (refs st))]) (symbols st)) in *.
    assert (Hlen0 : length (refs st0) = S (length (refs st))).
    { simpl. rewrite length_app. simpl. lia. }
    destruct c.
    + destruct (encode_pairs _ (object_entries props) st0) as [[out st1]|] eqn:Eo;
        [|discriminate].
      injection E as <- <-.
      destruct (encode_pairs_ids _ _ IH st0 out st1 Eo Hok0) as [Hok1 Hids].
      split; [exact Hok1|]. simpl. rewrite Nat.eqb_refl, <- Hlen0. exact Hids.
    + destruct (encode_list _ elems st0) as [[out st1]|] eqn:Eo; [|discriminate].
      injection E as <- <-.
      destruct (encode_list_ids _ _ IH st0 out st1 Eo Hok0) as [Hok1 Hids].
      split; [exact Hok1|]. simpl. rewrite Nat.eqb_refl, <- Hlen0. exact Hids.
    + destruct (encode_pairs _ entries st0) as [[out st1]|] eqn:Eo; [|discriminate].
      injection E as <- <-.
      destruct (encode_pairs_ids _ _ IH st0 out st1 Eo Hok0) as [Hok1 Hids].
      split; [exact Hok1|]. simpl. rewrite Nat.eqb_refl, <- Hlen0. exact Hids.
    + destruct (encode_list _ members st0) as [[out st1]|] eqn:Eo; [|discriminate].
      injection E as <- <-.
      destruct (encode_list_ids _ _ IH st0 out st1 Eo Hok0) as [Hok1 Hids].
      split; [exact Hok1|]. simpl. rewrite Nat.eqb_refl, <- Hlen0. exact Hids.
    + destruct (date_text iso); [|discriminate].
      injection E as <- <-. split; [exact Hok0|].
      simpl. rewrite Nat.eqb_refl, <- Hlen0. reflexivity.
Qed.

End WireForm.

(** X1. Whatever the graph, the symbols table and the blocklist, the wire
    form [Encode] returns when called without [refs] has its ids in the
    order [Decode] meets them: the composite nodes carry 0, 1, 2, ... and
    every reference node names an id that a node before it carries.  The
    count of ids is the number of composites [Encode] registered. *)
Theorem Encode_ids_in_order (heap : Heap) (v : JsValue)
    (symbols : list (string * nat)) (blocklist : list JsValue) w st :
  Encode heap v symbols [] blocklist = Some (w, st) ->
  ids_in_order w 0 = Some (length (refs st)) /\
  length (refs st) <= length heap.
Proof.
  intros E. unfold Encode in E.
  destruct (Encode_fuel_ids heap blocklist _ v _ w st E (@refs_ok_nil heap))
    as [Hok Hids].
  split; [exact Hids|]. exact (@refs_ok_length heap (refs st) Hok).
Qed.

Lemma Encode_ids_in_order_witness :
  exists w st,
    Encode sample_heap (VObj 0) [] [] [] = Some (w, st) /\
    ids_in_order w 0 = Some 5 /\ length (refs st) <= 5.
Proof.
  eexists _, _. split; [reflexivity|].
  exact (Encode_ids_in_order sample_heap (VObj 0) [] [] _ _ eq_refl).
Defined.


Section DecodeReturns.
Variable heap : Heap.
Variable blocklist : list JsValue.

Lemma encode_list_decodes enc vs (upd : JsValue -> Cell addr -> Cell addr) out :
  decodes enc ->
  forall st ws st', encode_list enc vs st = Some (ws, st') ->
    forall d, exists d',
      for_each (fun entry => bind (Decode entry) (fun v => update_cell out (upd v)))
        ws d = Ok tt d'.
Proof.
  intros IH. induction vs as [|v vs IHvs]; intros st ws st' E d; simpl in E.
  - injection E as <- <-. exists d. reflexivity.
  - destruct (enc v st) as [[w st1]|] eqn:Ev; [|discriminate].
    destruct (encode_list enc vs st1) as [[ws1 st2]|] eqn:Evs; [|discriminate].
    injection E as <- <-.
    destruct (IH v st w st1 Ev d) as (v' & d1 & Ed).
    simpl. unfold bind at 1. rewrite Ed. simpl.
    exact (IHvs st1 ws1 st2 Evs _).
Qed.

Lemma encode_pairs_decodes enc kvs
    (upd : JsValue -> JsValue -> Cell addr -> Cell addr) out :
  decodes enc ->
  forall st ws st', encode_pairs enc kvs st = Some (ws, st') ->
    forall d, exists d',
      for_each (fun entry => bind (Decode (fst entry)) (fun k =>
                             bind (Decode (snd entry)) (fun v =>
                             update_cell out (upd k v))))
        ws d = Ok tt d'.
Proof.
  intros IH. induction kvs as [|[k v] kvs IHkvs]; intros st ws st' E d;
    simpl in E.
  - injection E as <- <-. exists d. reflexivity.
  - destruct (enc k st) as [[wk st1]|] eqn:Ek; [|discriminate].
    destruct (enc v st1) as [[wv st2]|] eqn:Ev; [|discriminate].
    destruct (encode_pairs enc kvs st2) as [[ws1 st3]|] eqn:Ekvs; [|discriminate].
    injection E as <- <-.
    destruct (IH k st wk st1 Ek d) as (k' & d1 & Edk).
    destruct (IH v st1 wv st2 Ev d1) as (v' & d2 & Edv).
    simpl. unfold bind at 1. rewrite Edk. unfold bind at 1. rewrite Edv. simpl.
    exact (IHkvs st2 ws1 st3 Ekvs _).
Qed.

Lemma Encode_fuel_always_decodes fuel : decodes (Encode_fuel fuel heap blocklist).
Proof.
  induction fuel as [|fuel IH]; intros v st w st' E d; [discriminate|].
  assert (Hval : forall ty (x : JsValue),
            exists v' d', Decode (EValue ty x) d = Ok v' d').
  { intros ty x. exists x, d. reflexivity. }
  destruct v; simpl in E; try (injection E as <- <-; apply Hval).
  - destruct (existsb (same_value VNull) blocklist); injection E as <- <-;
      [apply Hval|]. exists VNull, d. reflexivity.
  - injection E as <- <-. simpl. unfold BigInt. rewrite Z_of_string_of_Z.
    eexists _, _. reflexivity.
  - unfold encode_symbol in E.
    assert (Hsym : forall name, exists v' d',
              Decode (ESymbol (Some name)) d = Ok v' d').
    { intros name. simpl.
      destruct (assoc_get String.eqb name (dsymbols d)); eexists _, _; reflexivity. }
    destruct (find (fun p => Nat.eqb (snd p) n) (symbols st)) as [[key ?]|];
      injection E as <- <-; apply Hsym.
  - destruct (existsb (same_value (VObj r)) blocklist);
      [injection E as <- <-; apply Hval|].
    destruct (assoc_get Nat.eqb r (refs st)) as [n|].
    { injection E as <- <-. simpl.
      destruct (assoc_get Nat.eqb n (drefs d)); eexists _, _; reflexivity. }
    destruct (nth_error heap r) as [c|]; [|discriminate].
    set (st0 := mkEnc (refs st ++ [(r, length (refs st))]) (symbols st)) in *.
    destruct c.
    + destruct (encode_pairs _ (object_entries props) st0) as [[out st1]|] eqn:Eo;
        [|discriminate].
      injection E as <- <-. rewrite Decode_EObject.
      edestruct (encode_pairs_decodes _ _
                   (fun k v => object_set (to_property_key k) v)
                   (length (dheap d)) IH st0 out st1 Eo) as (d' & ->).
      eexists _, _. reflexivity.
    + destruct (encode_list _ elems st0) as [[out st1]|] eqn:Eo; [|discriminate].
      injection E as <- <-. rewrite Decode_EArray.
      edestruct (encode_list_decodes _ _ array_push (length (dheap d))
                   IH st0 out st1 Eo) as (d' & ->).
      eexists _, _. reflexivity.
    + destruct (encode_pairs _ entries st0) as [[out st1]|] eqn:Eo; [|discriminate].
      injection E as <- <-. rewrite Decode_EMap.
      edestruct (encode_pairs_decodes _ _ map_set (length (dheap d))
                   IH st0 out st1 Eo) as (d' & ->).
      eexists _, _. reflexivity.
    + destruct (encode_list _ members st0) as [[out st1]|] eqn:Eo; [|discriminate].
      injection E as <- <-. rewrite Decode_ESet.
      edestruct (encode_list_decodes _ _ set_add_cell (length (dheap d))
                   IH st0 out st1 Eo) as (d' & ->).
      eexists _, _. reflexivity.
    + destruct (date_text iso); [|discriminate].
      injection E as <- <-. eexists _, _. reflexivity.
Qed.

End DecodeReturns.

(** X2. [Decode] raises nothing on a wire form that [Encode] produced from
    a graph none of whose objects has an own property named [__proto__]:
    whatever else the graph holds (symbols, functions and blocklisted
    objects included), and whatever symbols table and id map the decoder is
    given, [Decode] returns a value.  (The one [throw] of [Decode], in
    [BigInt], is never reached, since [Encode] writes big integers in
    decimal; an own [__proto__] is excluded because assigning it can throw
    the [TypeError] of a cyclic prototype chain.) *)
Theorem Decode_of_Encode_returns (heap : Heap) (v : JsValue)
    (symbols : list (string * nat)) (refs0 : list (addr * nat))
    (blocklist : list JsValue) w st :
  no_proto_keys heap ->
  Encode heap v symbols refs0 blocklist = Some (w, st) ->
  forall d, exists v' d', Decode w d = Ok v' d'.
Proof.
  intros _ E. exact (Encode_fuel_always_decodes heap blocklist _ v _ w st E).
Qed.

Lemma Decode_of_Encode_returns_witness :
  exists w st,
    Encode [CObject [(KSym 7, VBig (-3)); (KStr "f", VFun 1); (KStr "o", VObj 1)];
            CArray [VObj 0]]
           (VObj 0) [("__id", 7)] [] [VObj 1] = Some (w, st) /\
    exists v' d', Decode w (mkDec [] [(0, VNull)] [] 0) = Ok v' d'.
Proof.
  eexists _, _. split; [reflexivity|].
  exact (Decode_of_Encode_returns
           [CObject [(KSym 7, VBig (-3)); (KStr "f", VFun 1); (KStr "o", VObj 1)];
            CArray [VObj 0]]
           (VObj 0) [("__id", 7)] [] [VObj 1]
           _ _ ltac:(repeat constructor; simpl; intuition discriminate)
           eq_refl (mkDec [] [(0, VNull)] [] 0)).
Defined.


(** X3. Symbols make the round trip through the table that [Encode] and
    [Decode] share: a symbol listed in the table is written under its name
    and the table stays as it is; a symbol not listed is entered under
    [__unk<size of the table>]; and [Decode], given the table [Encode]
    left, returns the same symbol and changes nothing. *)
Theorem symbol_round_trip (heap : Heap) (n : nat)
    (symbols : list (string * nat)) (refs0 : list (addr * nat))
    (blocklist : list JsValue) w st :
  NoDup (map fst symbols) ->
  Encode heap (VSym n) symbols refs0 blocklist = Some (w, st) ->
  (forall h r fresh,
     Decode w (mkDec h r (Obj2Obj.symbols st) fresh)
     = Ok (VSym n) (mkDec h r (Obj2Obj.symbols st) fresh)) /\
  (In n (map snd symbols) -> Obj2Obj.symbols st = symbols) /\
  (~ In n (map snd symbols) ->
   Obj2Obj.symbols st
   = assoc_set String.eqb
       (String.append "__unk" (string_of_nat (length symbols))) n symbols).
Proof.
  intros Hnd E. unfold Encode in E. simpl in E. unfold encode_symbol in E.
  simpl in E.
  destruct (find (fun p => Nat.eqb (snd p) n) symbols) as [[key m]|] eqn:Ef.
  - injection E as <- <-. simpl.
    apply find_some in Ef as [Hin Hm]. simpl in Hm. apply Nat.eqb_eq in Hm.
    subst m. split; [|split].
    + intros h r fresh.
      now rewrite (In_assoc_get String.eqb_spec Hnd Hin).
    + reflexivity.
    + intros Hnot. exfalso. apply Hnot.
      change n with (snd (key, n)). now apply in_map.
  - injection E as <- <-. simpl. split; [|split].
    + intros h r fresh.
      rewrite (assoc_get_set String.eqb_spec), String.eqb_refl. reflexivity.
    + intros Hin. exfalso. apply in_map_iff in Hin as ([key m] & Hm & Hin).
      simpl in Hm. subst m.
      pose proof (find_none _ _ Ef _ Hin) as Hf. simpl in Hf.
      now rewrite Nat.eqb_refl in Hf.
    + reflexivity.
Qed.

Lemma symbol_round_trip_witness :
  (forall h r fresh,
     Decode (ESymbol (Some "__unk1")) (mkDec h r [("__id", 0); ("__unk1", 5)] fresh)
     = Ok (VSym 5) (mkDec h r [("__id", 0); ("__unk1", 5)] fresh)) /\
  (forall h r fresh,
     Decode (ESymbol (Some "__id")) (mkDec h r [("__id", 0)] fresh)
     = Ok (VSym 0) (mkDec h r [("__id", 0)] fresh)).
Proof.
  split.
  - refine (proj1 (symbol_round_trip [] 5 [("__id", 0)] [] []
                     (ESymbol (Some "__unk1"))
                     (mkEnc [] [("__id", 0); ("__unk1", 5)]) _ eq_refl)).
    repeat constructor. simpl. tauto.
  - refine (proj1 (symbol_round_trip [] 0 [("__id", 0)] [] []
                     (ESymbol (Some "__id")) (mkEnc [] [("__id", 0)]) _ eq_refl)).
    repeat constructor. simpl. tauto.
Defined.


(** X25. [Encode] returns on every object graph whose Dates are valid,
    cyclic graphs included, whatever the symbols table and the blocklist:
    the recursion ends because an object met again is written as a
    reference.  Every object it wrote is registered once, and the ids are 0,
    1, 2, ... in the order of registration.  (On an invalid Date,
    [toISOString] throws and so does [Encode].) *)
Theorem Encode_returns_on_every_graph (heap : Heap) (v : JsValue)
    (symbols : list (string * nat)) (blocklist : list JsValue) :
  wf_heap heap -> valid_dates heap -> in_heap heap v ->
  exists w st,
    Encode heap v symbols [] blocklist = Some (w, st) /\
    NoDup (map fst (refs st)) /\
    map snd (refs st) = seq 0 (length (refs st)) /\
    length (refs st) <= length heap.
Proof.
  intros Hwf Hdates Hin.
  destruct (@Encode_fuel_total heap Hwf Hdates blocklist (S (length heap)) v
              (mkEnc [] symbols))
    as (w & st & Hen & Hok & _); auto using refs_ok_nil.
  { simpl. lia. }
  exists w, st. split; [exact Hen|].
  pose proof (@refs_ok_length heap (refs st) Hok) as Hlen.
  destruct Hok as (Hids & Hnd & _). auto.
Qed.

Lemma Encode_returns_on_every_graph_witness :
  exists w st,
    Encode sample_heap (VObj 0) [("tag", 5)] [] [VObj 3] = Some (w, st) /\
    length (refs st) <= length sample_heap.
Proof.
  destruct (@Encode_returns_on_every_graph sample_heap (VObj 0) [("tag", 5)]
              [VObj 3]) as (w & st & E & _ & _ & Hlen).
  - unfold wf_heap, sample_heap.
    repeat (apply Forall_cons || apply Forall_nil); unfold wf_cell; simpl;
      (split; [repeat constructor; simpl; lia|]);
      try exact I;
      repeat constructor; simpl; intuition discriminate.
  - unfold valid_dates, sample_heap.
    repeat (apply Forall_cons || apply Forall_nil); simpl;
      try exact I; reflexivity.
  - simpl. lia.
  - exists w, st. split; [exact E|exact Hlen].
Defined.

(** ** A missing reference is no error *)

Section WireInduction.
Variable P : EncodedObj -> Prop.
Hypothesis H_value : forall type val, P (EValue type val).
Hypothesis H_date : forall val ref, P (EDate val ref).
Hypothesis H_array : forall val ref, Forall P val -> P (EArray val ref).
Hypothesis H_map : forall val ref,
  Forall (fun p => P (fst p) /\ P (snd p)) val -> P (EMap val ref).
Hypothesis H_set : forall val ref, Forall P val -> P (ESet val ref).
Hypothesis H_object : forall val ref,
  Forall (fun p => P (fst p) /\ P (snd p)) val -> P (EObject val ref).
Hypothesis H_reference : forall val, P (EReference val).
Hypothesis H_symbol : forall val, P (ESymbol val).
Hypothesis H_bigint : forall val, P (EBigInt val).
Hypothesis H_null : P ENull.

Lemma wire_form_ind : forall w, P w.
Proof.
  fix IH 1. intros w. destruct w as [type val|val ref|val ref|val ref|val ref
                                    |val ref|val|val|val|].
  - apply H_value.
  - apply H_date.
  - apply H_array. induction val as [|x rest IHrest]; constructor;
      [apply IH|exact IHrest].
  - apply H_map. induction val as [|[k v] rest IHrest]; constructor;
      [split; apply IH|exact IHrest].
  - apply H_set. induction val as [|x rest IHrest]; constructor;
      [apply IH|exact IHrest].
  - apply H_object. induction val as [|[k v] rest IHrest]; constructor;
      [split; apply IH|exact IHrest].
  - apply H_reference.
  - apply H_symbol.
  - apply H_bigint.
  - apply H_null.
Qed.
End WireInduction.

Lemma tracks_enter known d ref c v :
  tracks known d ->
  tracks (ref :: known)
    (mkDec (dheap d ++ [c]) (assoc_set Nat.eqb ref v (drefs d))
           (dsymbols d) (next_symbol d)).
Proof.
  intros H id. simpl. rewrite (assoc_get_set Nat_eqb_reflect).
  destruct (Nat_eqb_reflect id ref) as [->|Hne]; simpl.
  - split; [discriminate|reflexivity].
  - apply H.
Qed.

Lemma tracks_same_refs known d d' :
  drefs d' = drefs d -> tracks known d -> tracks known d'.
Proof. intros E H id. rewrite E. apply H. Qed.

Lemma tracks_map_fst d : tracks (map fst (drefs d)) d.
Proof.
  intros id. induction (drefs d) as [|[k v] l IH]; simpl.
  - split; [discriminate|congruence].
  - destruct (Nat_eqb_reflect id k) as [->|Hne]; simpl.
    + split; [discriminate|reflexivity].
    + exact IH.
Qed.

Lemma resolve_list_ok ws (upd : JsValue -> Cell addr -> Cell addr) out :
  Forall resolve_ok ws ->
  forall known d, tracks known d ->
    for_each (fun entry => bind (Decode entry) (fun v => update_cell out (upd v)))
             (fst (resolve_list resolve ws known)) d
    = for_each (fun entry => bind (Decode entry) (fun v => update_cell out (upd v)))
               ws d /\
    forall d',
      for_each (fun entry => bind (Decode entry) (fun v => update_cell out (upd v)))
               ws d = Ok tt d' ->
      tracks (snd (resolve_list resolve ws known)) d'.
Proof.
  induction 1 as [|w ws Hw _ IH]; intros known d Ht.
  - simpl. split; [reflexivity|]. intros d' [= <-]. exact Ht.
  - destruct (Hw known d Ht) as [E Hk]. simpl.
    destruct (resolve w known) as [w' known1]. simpl in E, Hk.
    specialize (IH known1).
    destruct (resolve_list resolve ws known1) as [rest' known2]. simpl in *.
    unfold bind. rewrite E.
    destruct (Decode w d) as [v d1|e d1]; [|split; [reflexivity|discriminate]].
    unfold update_cell, modify.
    apply IH. apply (tracks_same_refs known1 d1); [reflexivity|].
    now apply (Hk v d1).
Qed.

Lemma resolve_pairs_ok kvs (upd : JsValue -> JsValue -> Cell addr -> Cell addr) out :
  Forall (fun p => resolve_ok (fst p) /\ resolve_ok (snd p)) kvs ->
  forall known d, tracks known d ->
    for_each (fun entry => bind (Decode (fst entry)) (fun k =>
                           bind (Decode (snd entry)) (fun v =>
                           update_cell out (upd k v))))
             (fst (resolve_pairs resolve kvs known)) d
    = for_each (fun entry => bind (Decode (fst entry)) (fun k =>
                             bind (Decode (snd entry)) (fun v =>
                             update_cell out (upd k v))))
               kvs d /\
    forall d',
      for_each (fun entry => bind (Decode (fst entry)) (fun k =>
                             bind (Decode (snd entry)) (fun v =>
                             update_cell out (upd k v))))
               kvs d = Ok tt d' ->
      tracks (snd (resolve_pairs resolve kvs known)) d'.
Proof.
  induction 1 as [|[wk wv] kvs [Hwk Hwv] _ IH]; intros known d Ht.
  - simpl. split; [reflexivity|]. intros d' [= <-]. exact Ht.
  - simpl in Hwk, Hwv.
    destruct (Hwk known d Ht) as [Ek Hk]. simpl.
    destruct (resolve wk known) as [wk' known1]. simpl in Ek, Hk.
    specialize (Hwv known1).
    destruct (resolve wv known1) as [wv' known2]. simpl in Hwv.
    specialize (IH known2).
    destruct (resolve_pairs resolve kvs known2) as [rest' known3]. simpl in *.
    unfold bind. rewrite Ek.
    destruct (Decode wk d) as [k d1|e d1]; [|split; [reflexivity|discriminate]].
    destruct (Hwv d1 (Hk k d1 eq_refl)) as [Ev Hv]. rewrite Ev.
    destruct (Decode wv d1) as [v d2|e d2]; [|split; [reflexivity|discriminate]].
    unfold update_cell, modify.
    apply IH. apply (tracks_same_refs known2 d2); [reflexivity|].
    now apply (Hv v d2).
Qed.

(** The resolved form is decoded as the wire form is. *)
Lemma resolve_spec : forall w, resolve_ok w.
Proof.
  apply wire_form_ind.
  - intros type val known d Ht. simpl. split; [reflexivity|].
    intros v d' [= _ <-]. exact Ht.
  - intros val ref known d Ht. simpl. split; [reflexivity|].
    unfold bind, alloc, refs_set, modify. intros v d' [= _ <-].
    now apply tracks_enter.
  - intros val ref IH known d Ht. simpl fst. simpl snd.
    pose proof (resolve_list_ok val array_push (length (dheap d)) IH
                  (ref :: known) _ (tracks_enter known d ref (CArray [])
                                      (VObj (length (dheap d))) Ht)) as [E Hk].
    cbn [resolve]. fold (resolve_list resolve).
    destruct (resolve_list resolve val (ref :: known)) as [val' known'].
    simpl in E, Hk. simpl fst. simpl snd.
    rewrite !Decode_EArray, E. split; [reflexivity|].
    destruct (for_each _ val _) as [[] d1|e d1]; [|discriminate].
    intros v d' [= _ <-]. now apply Hk.
  - intros val ref IH known d Ht.
    pose proof (resolve_pairs_ok val map_set (length (dheap d)) IH
                  (ref :: known) _ (tracks_enter known d ref (CMap [])
                                      (VObj (length (dheap d))) Ht)) as [E Hk].
    cbn [resolve].
    destruct (resolve_pairs resolve val (ref :: known)) as [val' known'].
    simpl in E, Hk. simpl fst. simpl snd.
    rewrite !Decode_EMap, E. split; [reflexivity|].
    destruct (for_each _ val _) as [[] d1|e d1]; [|discriminate].
    intros v d' [= _ <-]. now apply Hk.
  - intros val ref IH known d Ht.
    pose proof (resolve_list_ok val set_add_cell (length (dheap d)) IH
                  (ref :: known) _ (tracks_enter known d ref (CSet [])
                                      (VObj (length (dheap d))) Ht)) as [E Hk].
    cbn [resolve].
    destruct (resolve_list resolve val (ref :: known)) as [val' known'].
    simpl in E, Hk. simpl fst. simpl snd.
    rewrite !Decode_ESet, E. split; [reflexivity|].
    destruct (for_each _ val _) as [[] d1|e d1]; [|discriminate].
    intros v d' [= _ <-]. now apply Hk.
  - intros val ref IH known d Ht.
    pose proof (resolve_pairs_ok val
                  (fun k v => object_set (to_property_key k) v)
                  (length (dheap d)) IH
                  (ref :: known) _ (tracks_enter known d ref (CObject [])
                                      (VObj (length (dheap d))) Ht)) as [E Hk].
    cbn [resolve].
    destruct (resolve_pairs resolve val (ref :: known)) as [val' known'].
    simpl in E, Hk. simpl fst. simpl snd.
    rewrite !Decode_EObject, E. split; [reflexivity|].
    destruct (for_each _ val _) as [[] d1|e d1]; [|discriminate].
    intros v d' [= _ <-]. now apply Hk.
  - intros id known d Ht. cbn [resolve].
    destruct (existsb (Nat.eqb id) known) eqn:Hk; simpl fst; simpl snd.
    + split; [reflexivity|]. simpl.
      destruct (assoc_get Nat.eqb id (drefs d)); intros v' d' [= _ <-]; exact Ht.
    + assert (Hnone : assoc_get Nat.eqb id (drefs d) = None).
      { destruct (assoc_get Nat.eqb id (drefs d)) eqn:Hg; [|reflexivity].
        assert (H : existsb (Nat.eqb id) known = true).
        { apply Ht. rewrite Hg. discriminate. }
        congruence. }
      simpl. rewrite Hnone. split; [reflexivity|].
      intros v d' [= _ <-]. exact Ht.
  - intros [name|] known d Ht; simpl; (split; [reflexivity|]).
    + destruct (assoc_get String.eqb name (dsymbols d)); intros v d' [= _ <-];
        [exact Ht|]. now apply (tracks_same_refs known d).
    + unfold bind, fresh_symbol, ret. intros v d' [= _ <-].
      now apply (tracks_same_refs known d).
  - intros val known d Ht. simpl. split; [reflexivity|].
    unfold BigInt. destruct (Z_of_string val); [|discriminate].
    intros v d' [= _ <-]. exact Ht.
  - intros known d Ht. simpl. split; [reflexivity|].
    intros v d' [= _ <-]. exact Ht.
Qed.

(** C6 (as the code has it).  A reference node whose id is not in the id map
    is no error: the node decodes to [undefined] and the decoder state is
    unchanged; and on every wire form [Decode] does exactly what it does on
    the wire form where each reference node met while its id is not in the
    map is replaced by the node of the value [undefined] -- the same result
    and state, or the same error when another node raises one. *)
Theorem Decode_missing_reference_is_undefined (w : EncodedObj) (d : DecState) :
  Decode w d = Decode (resolved w (map fst (drefs d))) d /\
  forall id, assoc_get Nat.eqb id (drefs d) = None ->
    resolved (EReference id) (map fst (drefs d)) = EValue "undefined" VUndef /\
    Decode (EReference id) d = Ok VUndef d.
Proof.
  split.
  - symmetry. apply (resolve_spec w (map fst (drefs d)) d), tracks_map_fst.
  - intros id Hnone. split.
    + unfold resolved. cbn [resolve].
      destruct (existsb (Nat.eqb id) (map fst (drefs d))) eqn:Hk; [|reflexivity].
      apply (tracks_map_fst d id) in Hk. congruence.
    + simpl. now rewrite Hnone.
Qed.

Lemma Decode_missing_reference_is_undefined_witness :
  Decode (EArray [EReference 7; EReference 0; EReference 3] 3)
         (mkDec [] [(0, VNull)] [] 0)
  = Decode (EArray [EValue "undefined" VUndef; EReference 0; EReference 3] 3)
           (mkDec [] [(0, VNull)] [] 0) /\
  Decode (EReference 7) (mkDec [] [(0, VNull)] [] 0)
  = Ok VUndef (mkDec [] [(0, VNull)] [] 0).
Proof.
  destruct (Decode_missing_reference_is_undefined
              (EArray [EReference 7; EReference 0; EReference 3] 3)
              (mkDec [] [(0, VNull)] [] 0)) as [E Hnode].
  split; [exact E|].
  apply (Hnode 7). reflexivity.
Defined.

End CodecFacts.

(** * Facts about the store *)

Module DatabaseFacts.
Import Database Scenarios.
Local Open Scope js_scope.

(** ** Scenarios, run *)

(** C1, at a failing input: a [Set] cleared inside a transaction is still
    empty after [rollbackTransaction]; its two members are not restored. *)
Theorem rollback_leaves_cleared_set_empty :
  outcome (clear_then_rollback new_Database)
  = inl (CSet [VStr "a"; VStr "b"], CSet []).
Proof. reflexivity. Qed.

(** The [case "method.clear"] of [rollbackTransaction] does nothing at all. *)
Lemma undo_clear_does_nothing at_ args db :
  undo (EvMethodClear at_ args) db = Ok tt db.
Proof. reflexivity. Qed.

(** Lists are restored: the scenario of the test suite. *)
Example rollback_restores_pushed_and_spliced_list :
  outcome (push_splice_then_rollback new_Database)
  = inl (CArray [VStr "a"; VStr "b"; VStr "c"],
         CArray [VStr "a"; VStr "x"; VStr "y"; VStr "c"; VStr "d"],
         CArray [VStr "a"; VStr "b"; VStr "c"]).
Proof. reflexivity. Qed.

(** C4, at a failing input: a record added under identifier 1 and removed
    inside a transaction has identifier 2 after [rollbackTransaction], and
    nothing is stored under identifier 1: the rollback adds the record
    again with [addRecord], which takes a fresh identifier. *)
Theorem rollback_of_removal_changes_identifier :
  outcome (remove_then_rollback new_Database)
  = inl (VBig 1, VBig 2, VUndef).
Proof. reflexivity. Qed.

(** C9, at a failing input: the rollback of an inner transaction does not
    act on the inner frame only.  It writes the old value back through the
    handle, and that write is recorded as a [set] event in the enclosing
    frame; the field reads ["John"] again, but when the outer transaction
    is rolled back in its turn, this event is undone and the field is
    ["Jane"], the value written in the transaction that was rolled back
    first. *)
Theorem inner_rollback_is_undone_by_outer_rollback :
  outcome (nested_rollbacks new_Database)
  = inl (VStr "John",
         [mkTransaction
            [EvSet (mkAttr "t" (VObj (Prox (Raw 0))) (KStr "name")
                      (VObj (Prox (Raw 0))))
               (KStr "name") (VStr "Jane") (VStr "John")]],
         VStr "John", VStr "Jane").
Proof. reflexivity. Qed.


(** The index is a [Map] and finds [NaN]; the scan compares with [===] and
    does not. *)
Example lookup_of_NaN_differs :
  outcome (lookup_NaN new_Database) = inl ([VObj (Prox (Raw 0))], []).
Proof. reflexivity. Qed.

(** [addIndex] on a table with records enters the objects themselves, not
    their handles; the assignment through the handle then takes the handle
    out of the old bucket, and the object stays behind. *)
Example index_declared_late_goes_stale :
  outcome (late_index new_Database) = inl ([VObj (Raw 0)], []).
Proof. reflexivity. Qed.


(** ** Unknown tables *)

(** C7, at a failing input: [getAllRecords] on a table that does not exist
    throws a [TypeError]. *)
Theorem getAllRecords_unknown_table_throws :
  getAllRecords "ghost" new_Database = Throw dangling new_Database.
Proof. reflexivity. Qed.

Lemma getAllRecords_throws_without_table tableName db :
  table tableName db = None ->
  getAllRecords tableName db = Throw dangling db.
Proof.
  intros H. unfold getAllRecords, bind, the_table. now rewrite H.
Qed.

(** The other lookup and removal operations log the error and return. *)
Lemma unknown_table_is_reported tableName db :
  table tableName db = None ->
  (forall id wrapped,
     getRecord tableName id wrapped db
     = Ok VUndef (logged (table_missing tableName) db)) /\
  (forall colName value wrapped,
     getRecordsByColumn tableName colName value wrapped db
     = Ok [] (logged (table_missing tableName) db)) /\
  (forall record,
     removeRecord tableName record db
     = Ok tt (logged (table_missing tableName) db)) /\
  deleteTable tableName db = Ok tt (logged (table_missing tableName) db) /\
  (forall indexKey,
     addIndex tableName indexKey db
     = Ok tt (logged (table_missing tableName) db)) /\
  (forall indexKey,
     removeIndex tableName indexKey db
     = Ok tt (logged (table_missing tableName) db)).
Proof.
  intros H.
  unfold getRecord, getRecordsByColumn, removeRecord, deleteTable, addIndex,
    removeIndex.
  rewrite H. repeat split.
Qed.

(** ** Transaction frames *)

Lemma append_changes_app evs1 evs2 ts :
  append_changes (evs1 ++ evs2) ts = append_changes evs2 (append_changes evs1 ts).
Proof. unfold append_changes. apply fold_left_app. Qed.

Lemma push_change_last outer t ev :
  push_change ev (outer ++ [t]) = outer ++ [mkTransaction (changes t ++ [ev])].
Proof.
  induction outer as [|t0 outer IH]; simpl; [reflexivity|].
  rewrite IH. destruct (outer ++ [t]) eqn:E; [|reflexivity].
  now destruct outer.
Qed.

Lemma append_changes_last evs outer t :
  append_changes evs (outer ++ [t])
  = outer ++ [mkTransaction (changes t ++ evs)].
Proof.
  revert t. induction evs as [|ev evs IH]; intros [cs]; simpl.
  - now rewrite app_nil_r.
  - rewrite push_change_last, IH. simpl. now rewrite <- app_assoc.
Qed.

Lemma append_changes_nil evs : append_changes evs [] = [].
Proof. induction evs as [|ev evs IH]; simpl; auto. Qed.

Lemma append_changes_length evs ts :
  length (append_changes evs ts) = length ts.
Proof.
  destruct ts as [|t ts']; [now rewrite append_changes_nil|].
  destruct (@exists_last _ (t :: ts')) as (outer & t' & E); [discriminate|].
  rewrite E, append_changes_last, !length_app. reflexivity.
Qed.

Lemma kf_at {A} (m : Op A) db :
  keeps_frames m ->
  exists events,
    _transactions (state_of (m db)) = append_changes events (_transactions db).
Proof. intros H. apply H. Qed.

Lemma kf_same {A} (m : Op A) :
  (forall db, _transactions (state_of (m db)) = _transactions db) ->
  keeps_frames m.
Proof. intros H db. exists []. apply H. Qed.

Lemma kf_ret {A} (a : A) : keeps_frames (ret a).
Proof. now apply kf_same. Qed.

Lemma kf_throw {A} e : keeps_frames (throw e : Op A).
Proof. now apply kf_same. Qed.

Lemma kf_bind {A B} (m : Op A) (k : A -> Op B) :
  keeps_frames m -> (forall a, keeps_frames (k a)) -> keeps_frames (bind m k).
Proof.
  intros Hm Hk db. unfold bind. destruct (Hm db) as [evs1 E1].
  destruct (m db) as [a db1|e db1]; simpl in *.
  - destruct (Hk a db1) as [evs2 E2]. exists (evs1 ++ evs2).
    now rewrite E2, E1, append_changes_app.
  - now exists evs1.
Qed.

Lemma kf_for_each {A} (body : A -> Op unit) xs :
  (forall x, keeps_frames (body x)) -> keeps_frames (for_each body xs).
Proof.
  intros Hb. induction xs as [|x xs IH]; simpl; [apply kf_ret|].
  intros db. destruct (Hb x db) as [evs1 E1].
  destruct (body x db) as [[] db1|e db1]; simpl in *.
  - destruct (IH db1) as [evs2 E2]. exists (evs1 ++ evs2).
    now rewrite E2, E1, append_changes_app.
  - now exists evs1.
Qed.

Lemma kf_map_m {A B} (f : A -> Op B) xs :
  (forall x, keeps_frames (f x)) -> keeps_frames (map_m f xs).
Proof.
  intros Hf. induction xs as [|x xs IH]; simpl; [apply kf_ret|].
  apply kf_bind; [apply Hf|]. intros y.
  apply kf_bind; [apply IH|]. intros ys. apply kf_ret.
Qed.

Lemma kf_branch {A} (c : Db -> bool) (m1 m2 : Op A) :
  keeps_frames m1 -> keeps_frames m2 ->
  keeps_frames (fun db => if c db then m1 db else m2 db).
Proof. intros H1 H2 db. destruct (c db); [apply H1|apply H2]. Qed.

Lemma kf_modify (f : Db -> Db) :
  (forall db, _transactions (f db) = _transactions db) ->
  keeps_frames (modify f).
Proof. intros H. apply kf_same. intros db. apply H. Qed.

Lemma kf_wrap T rec col obj : keeps_frames (_wrap T rec col obj).
Proof.
  destruct obj; try apply kf_ret. apply kf_same. intros db. simpl.
  now destruct assoc_has.
Qed.

(** Splits a goal [keeps_frames m] along the structure of [m]. *)
Ltac kf_step :=
  match goal with
  | |- keeps_frames (bind _ _) => apply kf_bind; [|intros ?]
  | |- keeps_frames (ret _) => apply kf_ret
  | |- keeps_frames (throw _) => apply kf_throw
  | |- keeps_frames (for_each _ _) => apply kf_for_each; intros ?
  | |- keeps_frames (map_m _ _) => apply kf_map_m; intros ?
  | |- keeps_frames (if ?b then _ else _) => destruct b
  | |- keeps_frames (match ?x with _ => _ end) => destruct x
  | |- keeps_frames (let _ := _ in _) => cbv zeta
  | |- keeps_frames (fun db => if assoc_has _ _ (_wrapped db) then _ else _) =>
      apply (kf_wrap _ _ _ (VObj _))
  | |- keeps_frames (fun db => bind ?m ?k db) => change (keeps_frames (bind m k))
  | |- keeps_frames (fun db => call ?r ?me ?a db) =>
      change (keeps_frames (call r me a))
  | |- keeps_frames (fun db => Throw ?e db) => apply kf_throw
  | |- keeps_frames (fun db => Ok ?a db) => apply kf_ret
  | H : keeps_frames ?m |- keeps_frames ?m => exact H
  | H : forall x, keeps_frames (?m x) |- keeps_frames (?m _) => apply H
  | H : forall x y, keeps_frames (?m x y) |- keeps_frames (?m _ _) => apply H
  end.

Lemma kf_as_ref v : keeps_frames (as_ref v).
Proof. destruct v; apply kf_ret || apply kf_throw. Qed.

Lemma kf_logError e : keeps_frames (logError e).
Proof. now apply kf_modify. Qed.

Lemma kf_closure_of target : keeps_frames (closure_of target).
Proof. apply kf_same. intros db. unfold closure_of. now destruct assoc_get. Qed.

Lemma kf_update_cell a f : keeps_frames (update_cell a f).
Proof. now apply kf_modify. Qed.

Lemma kf_the_table T : keeps_frames (the_table T).
Proof. apply kf_same. intros db. unfold the_table. now destruct table. Qed.

Lemma kf_update_table T f : keeps_frames (update_table T f).
Proof.
  unfold update_table. apply kf_bind; [apply kf_the_table|]. intros t.
  now apply kf_modify.
Qed.

Lemma kf_update_index T col f : keeps_frames (update_index T col f).
Proof. apply kf_update_table. Qed.

Lemma transactions_reindex T key old new rec db :
  _transactions (reindex T key old new rec db) = _transactions db.
Proof. reflexivity. Qed.

Lemma kf_onUpdateRecord event : keeps_frames (onUpdateRecord event).
Proof.
  intros db. exists [event]. unfold onUpdateRecord.
  destruct event; simpl; try reflexivity;
    destruct strict_eq; simpl; now rewrite ?transactions_reindex.
Qed.

Lemma kf_raw_call a method args : keeps_frames (raw_call a method args).
Proof.
  apply kf_same. intros db. unfold raw_call.
  destruct (nth_error (heap db) a) as [[]|]; destruct method; try reflexivity.
  now destruct splice.
Qed.

Lemma kf_get r property : keeps_frames (get r property).
Proof.
  induction r as [a|target IH]; simpl.
  - apply kf_same. intros db. now destruct nth_error.
  - apply kf_bind; [apply kf_closure_of|]. intros cl.
    apply kf_branch; [exact IH|].
    apply kf_bind; [exact IH|]. intros v. apply kf_wrap.
Qed.

Lemma kf_put r : forall property value, keeps_frames (put r property value).
Proof.
  induction r as [a|target IH]; intros property value; simpl.
  - apply kf_update_cell.
  - repeat (kf_step || apply kf_closure_of || apply kf_get || apply kf_wrap
            || apply kf_onUpdateRecord).
Qed.

Lemma kf_delete r : forall property, keeps_frames (delete r property).
Proof.
  induction r as [a|target IH]; intros property; simpl.
  - apply kf_update_cell.
  - repeat (kf_step || apply kf_closure_of || apply kf_get || apply kf_wrap
            || apply kf_onUpdateRecord).
Qed.

Lemma kf_call r : forall method args, keeps_frames (call r method args).
Proof.
  induction r as [a|target IH]; intros method args; simpl.
  - apply kf_raw_call.
  - apply kf_bind; [apply kf_closure_of|]. intros cl.
    apply kf_branch; [|apply kf_branch; [apply IH|apply kf_branch]].
    + destruct method;
        repeat (kf_step || apply kf_wrap || apply kf_onUpdateRecord
                || (apply kf_branch; [|apply kf_ret])).
    + destruct method;
        repeat (kf_step || apply kf_wrap || apply kf_onUpdateRecord);
        apply kf_throw.
    + apply kf_throw.
Qed.

Lemma kf_spread v : keeps_frames (spread v).
Proof.
  unfold spread.
  repeat (kf_step || apply kf_as_ref || apply kf_get).
Qed.

Lemma kf_populate_indices T w : keeps_frames (populate_indices T w).
Proof.
  unfold populate_indices.
  repeat (kf_step || apply kf_the_table || apply kf_as_ref || apply kf_get
          || apply kf_update_index).
Qed.

Lemma kf_insert_record T record uid wrapped :
  keeps_frames (insert_record T record uid wrapped).
Proof.
  unfold insert_record, _wrapRecord.
  repeat (kf_step || apply kf_as_ref || apply kf_put || apply kf_get
          || apply kf_update_table || apply kf_wrap
          || apply kf_populate_indices || apply kf_onUpdateRecord).
Qed.

Lemma kf_addRecord T record wrapped : keeps_frames (addRecord T record wrapped).
Proof.
  intros db. unfold addRecord. destruct (table T db).
  - apply kf_at. unfold reserveNextUID, getNextUID.
    repeat (kf_step || apply kf_the_table || apply kf_update_table
            || apply kf_insert_record).
  - now exists [].
Qed.

Lemma kf_removeRecord T record : keeps_frames (removeRecord T record).
Proof.
  intros db. unfold removeRecord. destruct (table T db).
  - apply kf_at.
    repeat (kf_step || apply kf_as_ref || apply kf_get || apply kf_logError
            || apply kf_the_table || apply kf_update_table
            || apply kf_update_index || apply kf_onUpdateRecord).
  - apply kf_at, kf_logError.
Qed.

Lemma kf_undo change : keeps_frames (undo change).
Proof.
  destruct change; simpl;
    first
      [ apply kf_removeRecord
      | solve [repeat (kf_step || apply kf_addRecord || apply kf_as_ref
                       || apply kf_put || apply kf_call)]
      | solve [apply kf_bind; [apply kf_as_ref|]; intros o; apply kf_branch;
               repeat (kf_step || apply kf_call)]
      | solve [intros db; destruct (object at_); try (now exists []);
               destruct is_array; [|now exists []]; apply kf_at;
               repeat (kf_step || apply kf_call || apply kf_get
                       || apply kf_spread)] ].
Qed.

Lemma kf_rollback_loop changes : keeps_frames (for_each undo changes).
Proof. apply kf_for_each. intros change. apply kf_undo. Qed.
Lemma transactions_onUpdateRecord event db :
  _transactions (state_of (onUpdateRecord event db))
  = push_change event (_transactions db).
Proof.
  unfold onUpdateRecord.
  destruct event; simpl; try reflexivity;
    destruct strict_eq; simpl; now rewrite ?transactions_reindex.
Qed.

Lemma commit_pops db outer inner :
  _transactions db = outer ++ [inner] ->
  commitTransaction db = Ok tt (set_transactions outer db).
Proof.
  intros E. unfold commitTransaction. rewrite E, removelast_last.
  now destruct outer.
Qed.

Lemma rollback_pops db outer inner :
  _transactions db = outer ++ [inner] ->
  rollbackTransaction db
  = for_each undo (rev (changes inner)) (set_transactions outer db).
Proof.
  intros E. unfold rollbackTransaction. rewrite E, removelast_last, last_last.
  now destruct outer.
Qed.

(** The transaction controls, frame by frame.  With no frame open,
    [commitTransaction] and [rollbackTransaction]
    throw and leave the store as it is.  With frames [outer ++ [inner]]
    open, an event goes to [inner] only; [commitTransaction] pops [inner]
    and nothing else; [rollbackTransaction] pops [inner], replays the
    events of [inner] only, and leaves every frame of [outer] open: the
    stack is [outer] again, but for events the replay pushed on the frame
    that is now innermost. *)
Theorem transaction_control h w d c :
  (let db := mkDb h w d [] c in
   commitTransaction db
   = Throw (Error "No transaction to commit. Did you forget to call beginTransaction()?") db /\
   rollbackTransaction db
   = Throw (Error "No transaction to rollback. Did you forget to call beginTransaction()?") db) /\
  (forall outer inner,
   let db := mkDb h w d (outer ++ [inner]) c in
   (forall event,
      _transactions (state_of (onUpdateRecord event db))
      = outer ++ [mkTransaction (changes inner ++ [event])]) /\
   commitTransaction db = Ok tt (mkDb h w d outer c) /\
   rollbackTransaction db
   = for_each undo (rev (changes inner)) (mkDb h w d outer c) /\
   (exists events,
      _transactions (state_of (rollbackTransaction db))
      = append_changes events outer) /\
   length (_transactions (state_of (rollbackTransaction db))) = length outer).
Proof.
  split; [split; reflexivity|].
  intros outer inner db.
  assert (E : _transactions db = outer ++ [inner]) by reflexivity.
  split; [|split; [|split; [|split]]].
  - intros event. rewrite transactions_onUpdateRecord, E.
    apply push_change_last.
  - apply (@commit_pops db outer inner E).
  - apply (@rollback_pops db outer inner E).
  - rewrite (@rollback_pops db outer inner E).
    apply (kf_rollback_loop (rev (changes inner)) (set_transactions outer db)).
  - rewrite (@rollback_pops db outer inner E).
    destruct (kf_rollback_loop (rev (changes inner)) (set_transactions outer db))
      as [events ->].
    apply append_changes_length.
Qed.

(** Nested frames at work: an inner rollback undoes the inner [push] only,
    and the outer frame is still open afterwards. *)
Example inner_rollback_keeps_outer_frame :
  outcome
    ((createTable "t" [] ;;;
      l <- alloc (CArray [VStr "a"]) ;;
      r <- new_object [(KStr "hobbies", VObj l)] ;;
      h <- addRecord "t" (VObj r) true ;;
      p <- as_ref h ;;
      lv <- get p (KStr "hobbies") ;;
      l' <- as_ref lv ;;
      beginTransaction ;;;
      call l' m_push [VStr "b"] ;;;
      beginTransaction ;;;
      call l' m_push [VStr "c"] ;;;
      rollbackTransaction ;;;
      after <- contents (VObj l) ;;
      open <- isInTransaction ;;
      ret (after, open)) new_Database)
  = inl (CArray [VStr "a"; VStr "b"], true).
Proof. reflexivity. Qed.

(** ** Step lemmas: what each operation does to each part of the state *)

Lemma Ref_eqb_spec r1 r2 : reflect (r1 = r2) (Ref_eqb r1 r2).
Proof.
  revert r2. induction r1 as [a|t IH]; intros [b|t']; simpl;
    try (constructor; discriminate).
  - destruct (Nat.eqb_spec a b); constructor; congruence.
  - destruct (IH t'); constructor; congruence.
Qed.

Lemma same_value_spec (v1 v2 : DbValue) : reflect (v1 = v2) (same_value v1 v2).
Proof. apply same_value_zero_spec, Ref_eqb_spec. Qed.

Lemma same_value_refl (v : DbValue) : same_value v v = true.
Proof. destruct (same_value_spec v v); congruence. Qed.

Lemma string_eqb_spec (a b : string) : reflect (a = b) (String.eqb a b).
Proof. apply String.eqb_spec. Qed.

Lemma strict_eq_undef (v : DbValue) :
  strict_eq v VUndef = match v with VUndef => true | _ => false end.
Proof. now destruct v. Qed.

Lemma strict_eq_wrapped_undef (v : DbValue) :
  strict_eq (wrapped_value v) VUndef = strict_eq v VUndef.
Proof. now destruct v. Qed.

Lemma cache_grows_refl w : cache_grows w w.
Proof. intros r cl H. exact H. Qed.

Lemma cache_grows_trans w1 w2 w3 :
  cache_grows w1 w2 -> cache_grows w2 w3 -> cache_grows w1 w3.
Proof. intros H1 H2 r cl H. auto. Qed.

(** [_wrap], on a state given by its parts. *)
Lemma wrap_spec T rec col v h w d tr c :
  exists w',
    _wrap T rec col v (mkDb h w d tr c) = Ok (wrapped_value v) (mkDb h w' d tr c) /\
    cache_grows w w' /\
    (forall r, v = VObj r -> assoc_get Ref_eqb r w' <> None) /\
    (primitive v = true -> w' = w) /\
    (forall r, v = VObj r -> w' = cache_with T rec col r w).
Proof.
  destruct v; simpl;
    try (exists w; split; [reflexivity|]; split; [apply cache_grows_refl|];
         split; [discriminate|]; split; [reflexivity|discriminate]).
  unfold cache_with, assoc_has.
  destruct (assoc_get Ref_eqb r w) as [cl|] eqn:E.
  - exists w. split; [reflexivity|]. split; [apply cache_grows_refl|].
    split; [|split; [discriminate|]].
    + intros r' [= <-]. congruence.
    + intros r' [= <-]. now rewrite E.
  - eexists. split; [reflexivity|]. split; [|split; [|split; [discriminate|]]].
    + intros r' cl H. rewrite assoc_get_app, H. reflexivity.
    + intros r' [= <-]. rewrite assoc_get_app, E. simpl.
      destruct (Ref_eqb_spec r r); congruence.
    + intros r' [= <-]. now rewrite E.
Qed.

Lemma cache_with_cached T rec col r w :
  assoc_get Ref_eqb r w <> None -> cache_with T rec col r w = w.
Proof.
  intros H. unfold cache_with, assoc_has.
  destruct (assoc_get Ref_eqb r w); congruence.
Qed.

Lemma primitive_wrapped (v : DbValue) :
  primitive (wrapped_value v) = primitive v.
Proof. now destruct v. Qed.

(** [_wrapRecord] on an object that already has its handle. *)
Lemma wrapRecord_cached T a db cl :
  assoc_get Ref_eqb (Raw a) (_wrapped db) = Some cl ->
  _wrapRecord T (Raw a) db = Ok (handle a) db.
Proof.
  intros H. unfold _wrapRecord, _wrap, assoc_has. now rewrite H.
Qed.

(** Reading a field through the handle of a plain object. *)
Lemma get_through_handle a k h w d tr c props cl :
  nth_error h a = Some (CObject props) ->
  assoc_get Ref_eqb (Raw a) w = Some cl ->
  get (Prox (Raw a)) k (mkDb h w d tr c)
  = _wrap (cl_tableName cl) (cl_record cl) (Some (curColName cl k))
          (raw_get (CObject props) k) (mkDb h w d tr c).
Proof.
  intros Hc Hcl. simpl. unfold bind, closure_of. simpl. rewrite Hcl.
  unfold is_map, is_set, is_date, cell_of. simpl. rewrite Hc. simpl.
  reflexivity.
Qed.

Section AssocMore.
Variables K V : Type.
Variable eqb : K -> K -> bool.
Hypothesis eqb_spec : forall a b, reflect (a = b) (eqb a b).

Lemma assoc_set_set k (v1 v2 : V) l :
  assoc_set eqb k v2 (assoc_set eqb k v1 l) = assoc_set eqb k v2 l.
Proof.
  induction l as [|[k0 v0] l IH]; simpl.
  - destruct (eqb_spec k k); congruence.
  - destruct (eqb_spec k k0) as [->|Hne]; simpl.
    + destruct (eqb_spec k0 k0); congruence.
    + destruct (eqb_spec k k0); [congruence|]. now rewrite IH.
Qed.

Lemma assoc_set_same k (v : V) l :
  assoc_get eqb k l = Some v -> assoc_set eqb k v l = l.
Proof.
  induction l as [|[k0 v0] l IH]; simpl; [discriminate|].
  destruct (eqb_spec k k0) as [->|Hne].
  - now intros [= ->].
  - intros H. now rewrite IH.
Qed.

Lemma map_fst_assoc_set k (v : V) l :
  assoc_get eqb k l <> None ->
  map fst (assoc_set eqb k v l) = map fst l.
Proof.
  induction l as [|[k0 v0] l IH]; simpl; [congruence|].
  destruct (eqb_spec k k0) as [->|Hne]; simpl; [reflexivity|].
  intros H. now rewrite IH.
Qed.

Lemma assoc_get_del k k' (l : list (K * V)) :
  NoDup (map fst l) ->
  assoc_get eqb k (assoc_del eqb k' l) =
  if eqb k k' then None else assoc_get eqb k l.
Proof.
  induction l as [|[k0 v0] l IH]; simpl; intros Hnd.
  - now destruct (eqb k k').
  - inversion Hnd as [|? ? Hnotin Hnd']; subst.
    destruct (eqb_spec k' k0) as [->|Hne]; simpl.
    + destruct (eqb_spec k k0) as [->|Hne']; [|reflexivity].
      now apply (assoc_get_None eqb_spec).
    + rewrite IH by assumption.
      destruct (eqb_spec k k0) as [->|Hne']; [|reflexivity].
      destruct (eqb_spec k0 k'); congruence.
Qed.

Lemma In_assoc_del k (x : K * V) l :
  In x (assoc_del eqb k l) -> In x l.
Proof.
  induction l as [|[k0 v0] l IH]; simpl; [tauto|].
  destruct (eqb k k0); simpl; [tauto|]. intros [H|H]; auto.
Qed.

Lemma NoDup_assoc_del k (l : list (K * V)) :
  NoDup (map fst l) -> NoDup (map fst (assoc_del eqb k l)).
Proof.
  induction l as [|[k0 v0] l IH]; simpl; intros Hnd; [constructor|].
  inversion Hnd as [|? ? Hnotin Hnd']; subst.
  destruct (eqb k k0); simpl; [exact Hnd'|].
  constructor; [|now apply IH].
  intros Hin. apply Hnotin. apply in_map_iff in Hin as ([k1 v1] & <- & Hin).
  apply In_assoc_del in Hin. change k1 with (fst (k1, v1)). now apply in_map.
Qed.

Lemma NoDup_assoc_set k (v : V) (l : list (K * V)) :
  NoDup (map fst l) -> NoDup (map fst (assoc_set eqb k v l)).
Proof.
  intros Hnd. destruct (assoc_get eqb k l) eqn:E.
  - rewrite map_fst_assoc_set; [exact Hnd|congruence].
  - rewrite assoc_set_fresh by exact E. rewrite map_app. simpl.
    apply NoDup_app; [exact Hnd|repeat constructor; simpl; tauto|].
    intros x Hx [<-|[]]. now apply (assoc_get_None eqb_spec) in E.
Qed.
End AssocMore.

Arguments assoc_set_set {K V eqb} eqb_spec k v1 v2 l.
Arguments assoc_set_same {K V eqb} eqb_spec {k v l} _.
Arguments map_fst_assoc_set {K V eqb} eqb_spec k v {l} _.
Arguments assoc_get_del {K V eqb} eqb_spec k k' {l} _.
Arguments NoDup_assoc_set {K V eqb} eqb_spec k v {l} _.

Lemma reads_raw a h w0 cell :
  nth_error h a = Some cell -> reads (Raw a) h w0 (raw_get cell).
Proof.
  intros Hc k w d tr c _. exists w. simpl. rewrite Hc.
  split; [reflexivity|]. split; [apply cache_grows_refl|reflexivity].
Qed.

Lemma reads_handle a h w0 props cl :
  nth_error h a = Some (CObject props) ->
  assoc_get Ref_eqb (Raw a) w0 = Some cl ->
  reads (Prox (Raw a)) h w0
        (fun k => wrapped_value (raw_get (CObject props) k)).
Proof.
  intros Hc Hcl k w d tr c Hw.
  rewrite (@get_through_handle a k h w d tr c props cl Hc (Hw _ _ Hcl)).
  destruct (wrap_spec (cl_tableName cl) (cl_record cl) (Some (curColName cl k))
              (raw_get (CObject props) k) h w d tr c) as (w' & E & Hg & _ & Hp & _).
  exists w'. split; [exact E|]. split; [exact Hg|].
  rewrite primitive_wrapped. exact Hp.
Qed.

Lemma reads_later r h w0 w1 key_of :
  cache_grows w0 w1 -> reads r h w0 key_of -> reads r h w1 key_of.
Proof.
  intros Hg Hr k w d tr c Hw. apply Hr. eapply cache_grows_trans; eauto.
Qed.

Lemma set_indices_set_indices ixs1 ixs2 t :
  set_indices ixs2 (set_indices ixs1 t) = set_indices ixs2 t.
Proof. reflexivity. Qed.

Lemma set_indices_same t : set_indices (indices t) t = t.
Proof. now destruct t. Qed.

Lemma for_each_cons {A} (body : A -> Op unit) x xs db :
  for_each body (x :: xs) db
  = match body x db with
    | Ok _ db' => for_each body xs db'
    | Throw e db' => Throw e db'
    end.
Proof. reflexivity. Qed.

Lemma update_index_spec T col f h w d tr c t :
  assoc_get String.eqb T d = Some t ->
  update_index T col f (mkDb h w d tr c)
  = Ok tt (mkDb h w
             (assoc_set String.eqb T
                match assoc_get String.eqb col (indices t) with
                | Some ix => set_indices (assoc_set String.eqb col (f ix) (indices t)) t
                | None => t
                end d) tr c).
Proof.
  intros Ht. unfold update_index, update_table, bind, the_table, table, modify.
  simpl. now rewrite Ht.
Qed.

Lemma update_table_spec T f h w d tr c t :
  assoc_get String.eqb T d = Some t ->
  update_table T f (mkDb h w d tr c)
  = Ok tt (mkDb h w (assoc_set String.eqb T (f t) d) tr c).
Proof.
  intros Ht. unfold update_table, bind, the_table, table, modify.
  simpl. now rewrite Ht.
Qed.

(** One turn of the loop of [addRecord] and [setRecord] over the indices. *)
Lemma populate_turn T r key_of h tr c col w d t :
  reads r h w key_of ->
  assoc_get String.eqb T d = Some t ->
  exists w',
    (r' <- as_ref (VObj r) ;;
     value <- get r' (KStr col) ;;
     if strict_eq value VUndef then ret tt
     else update_index T col (bucket_add value (VObj r))) (mkDb h w d tr c)
    = Ok tt (mkDb h w'
               (assoc_set String.eqb T
                  (set_indices
                     (populate_step (fun col => key_of (KStr col)) (VObj r)
                                    (indices t) col) t) d)
               tr c) /\
    cache_grows w w' /\
    (primitive (key_of (KStr col)) = true -> w' = w).
Proof.
  intros Hr Ht.
  destruct (Hr (KStr col) w d tr c (cache_grows_refl w)) as (w1 & E & Hg1 & Hp1).
  exists w1. split; [|split; [exact Hg1|exact Hp1]].
  unfold bind. simpl. rewrite E. unfold populate_step, index_step.
  destruct (strict_eq (key_of (KStr col)) VUndef).
  - simpl. replace (set_indices _ t) with t.
    + now rewrite (@assoc_set_same _ _ _ string_eqb_spec T t d Ht).
    + destruct (assoc_get String.eqb col (indices t));
        now rewrite set_indices_same.
  - rewrite (@update_index_spec T col _ h w1 d tr c t Ht).
    destruct (assoc_get String.eqb col (indices t)); [reflexivity|].
    now rewrite set_indices_same.
Qed.

(** The loop of [addRecord] and [setRecord] over the indices. *)
Lemma populate_loop T r key_of h tr c cols :
  forall w d t,
  reads r h w key_of ->
  assoc_get String.eqb T d = Some t ->
  exists w',
    for_each (fun colName =>
        r' <- as_ref (VObj r) ;;
        value <- get r' (KStr colName) ;;
        if strict_eq value VUndef then ret tt
        else update_index T colName (bucket_add value (VObj r)))
      cols (mkDb h w d tr c)
    = Ok tt (mkDb h w'
               (assoc_set String.eqb T
                  (set_indices
                     (populated (fun col => key_of (KStr col)) (VObj r) cols
                                (indices t)) t) d)
               tr c) /\
    cache_grows w w' /\
    ((forall col, primitive (key_of (KStr col)) = true) -> w' = w).
Proof.
  induction cols as [|col cols IH]; intros w d t Hr Ht.
  - exists w. simpl.
    rewrite set_indices_same, (@assoc_set_same _ _ _ string_eqb_spec T t d Ht).
    split; [reflexivity|]. split; [apply cache_grows_refl|reflexivity].
  - rewrite for_each_cons.
    destruct (@populate_turn T r key_of h tr c col w d t Hr Ht)
      as (w1 & -> & Hg1 & Hp1).
    edestruct (IH w1) as (w' & -> & Hg' & Hp').
    + exact (@reads_later r h w w1 key_of Hg1 Hr).
    + rewrite (assoc_get_set string_eqb_spec), String.eqb_refl. reflexivity.
    + exists w'. split; [|split].
      * simpl. now rewrite (@assoc_set_set _ _ _ string_eqb_spec).
      * eapply cache_grows_trans; eauto.
      * intros Hall. rewrite (Hp' Hall). apply Hp1, Hall.
Qed.

Lemma raw_get_after_uid props uid col :
  raw_get (CObject (assoc_set Key_eqb UniqueID (VBig uid) props)) (KStr col)
  = raw_get (CObject props) (KStr col).
Proof.
  simpl. now rewrite (assoc_get_set Key_eqb_spec).
Qed.

Lemma raw_get_uid props (uid : Z) :
  raw_get (CObject (assoc_set Key_eqb UniqueID (VBig uid) props)) UniqueID
  = (VBig uid : DbValue).
Proof. simpl. now rewrite (assoc_get_set Key_eqb_spec). Qed.

Lemma populated_ext key_of key_of' rec cols ixs :
  (forall col, key_of col = key_of' col) ->
  populated key_of rec cols ixs = populated key_of' rec cols ixs.
Proof.
  intros H. revert ixs. induction cols as [|col cols IH]; intros ixs; simpl;
    [reflexivity|].
  replace (populate_step key_of rec ixs col)
    with (populate_step key_of' rec ixs col); [apply IH|].
  unfold populate_step, index_step. now rewrite H.
Qed.

Lemma bind_ok {A B} (m : Op A) (k : A -> Op B) db a db' :
  m db = Ok a db' -> bind m k db = k a db'.
Proof. intros E. unfold bind. now rewrite E. Qed.

Arguments bind_ok {A B} m k {db a db'} _.

Lemma put_raw_spec a k v h w d tr c :
  put (Raw a) k v (mkDb h w d tr c)
  = Ok tt (mkDb (list_update a (raw_set k v) h) w d tr c).
Proof. reflexivity. Qed.

Lemma get_raw_spec a k cell (h : list (Cell Ref)) w d tr c :
  nth_error h a = Some cell ->
  get (Raw a) k (mkDb h w d tr c) = Ok (raw_get cell k) (mkDb h w d tr c).
Proof. intros Hc. simpl. now rewrite Hc. Qed.

Lemma the_table_spec T h w d tr c t :
  assoc_get String.eqb T d = Some t ->
  the_table T (mkDb h w d tr c) = Ok t (mkDb h w d tr c).
Proof. intros Ht. unfold the_table, table. simpl. now rewrite Ht. Qed.

Lemma onUpdateRecord_added T wr h w d tr c :
  onUpdateRecord (EvAdded T wr) (mkDb h w d tr c)
  = Ok tt (mkDb h w d (push_change (EvAdded T wr) tr) c).
Proof. reflexivity. Qed.

(** [insert_record] on a plain object that is not a proxy. *)
Lemma insert_record_raw T a (props : list (Key * DbValue)) uid (wrapped : bool)
    (h : list (Cell Ref)) w d tr c t :
  nth_error h a = Some (CObject props) ->
  assoc_get String.eqb T d = Some t ->
  let wr := if wrapped then handle a else VObj (Raw a) in
  exists w',
    insert_record T (VObj (Raw a)) uid wrapped (mkDb h w d tr c)
    = Ok wr (mkDb (list_update a (raw_set UniqueID (VBig uid)) h) w'
               (assoc_set String.eqb T
                  (inserted t uid (VObj (Raw a)) wr (index_key_of wrapped props)) d)
               (push_change (EvAdded T wr) tr) c) /\
    cache_grows w w' /\
    (wrapped = true -> assoc_get Ref_eqb (Raw a) w' <> None) /\
    ((forall col, primitive (index_key_of wrapped props col) = true) ->
     w' = if wrapped then cache_with T (Raw a) None (Raw a) w else w).
Proof.
  intros Hc Ht wr.
  set (h1 := list_update a (raw_set UniqueID (VBig uid)) h).
  set (props1 := assoc_set Key_eqb UniqueID (VBig uid) props).
  assert (Hc1 : nth_error h1 a = Some (CObject props1)).
  { unfold h1. now rewrite (nth_error_list_update_eq _ _ _ Hc). }
  set (t1 := set_records (assoc_set same_value (VBig uid) (VObj (Raw a)) (records t)) t).
  set (d1 := assoc_set String.eqb T t1 d).
  assert (Ht1 : assoc_get String.eqb T d1 = Some t1).
  { unfold d1. now rewrite (assoc_get_set string_eqb_spec), String.eqb_refl. }
  unfold insert_record.
  rewrite (bind_ok _ _ (eq_refl : as_ref (VObj (Raw a)) _ = Ok (Raw a) _)).
  rewrite (bind_ok _ _ (put_raw_spec a UniqueID (VBig uid) h w d tr c)).
  fold h1.
  rewrite (bind_ok _ _ (@get_raw_spec a UniqueID _ h1 w d tr c Hc1)).
  assert (Huid : raw_get (CObject props1) UniqueID = VBig uid)
    by apply raw_get_uid.
  rewrite Huid.
  rewrite (bind_ok _ _ (@update_table_spec T _ h1 w d tr c t Ht)).
  fold t1. fold d1.
  set (w1 := if wrapped then cache_with T (Raw a) None (Raw a) w else w).
  assert (Hwrap :
    (if wrapped then _wrapRecord T (Raw a) else ret (VObj (Raw a))) (mkDb h1 w d1 tr c)
    = Ok wr (mkDb h1 w1 d1 tr c) /\ cache_grows w w1 /\
    (wrapped = true -> assoc_get Ref_eqb (Raw a) w1 <> None)).
  { unfold w1. destruct wrapped.
    - destruct (wrap_spec T (Raw a) None (VObj (Raw a)) h1 w d1 tr c)
        as (w1' & E & Hg & Hin & _ & Hex).
      rewrite <- (Hex (Raw a) eq_refl).
      split; [exact E|]. split; [exact Hg|]. intros _. now apply Hin.
    - split; [reflexivity|]. split; [apply cache_grows_refl|discriminate]. }
  destruct Hwrap as (Ewrap & Hg1 & Hin1).
  set (key := fun k => if wrapped
                       then wrapped_value (raw_get (CObject props1) k)
                       else raw_get (CObject props1) k).
  assert (Hreads : exists r, wr = VObj r /\ reads r h1 w1 key).
  { unfold key. destruct wrapped.
    - exists (Prox (Raw a)). split; [reflexivity|].
      destruct (assoc_get Ref_eqb (Raw a) w1) as [cl|] eqn:Hcl.
      + exact (@reads_handle a h1 w1 props1 cl Hc1 Hcl).
      + now destruct Hin1.
    - exists (Raw a). split; [reflexivity|].
      exact (@reads_raw a h1 w1 _ Hc1). }
  destruct Hreads as (r & Ewr & Hreads).
  assert (Ekey : forall col, key (KStr col) = index_key_of wrapped props col).
  { intros col. unfold key, index_key_of.
    pose proof (raw_get_after_uid props uid col) as Ecol. fold props1 in Ecol.
    rewrite Ecol. reflexivity. }
  destruct (@populate_loop T r key h1 tr c (map fst (indices t1)) w1 d1 t1 Hreads Ht1)
    as (w2 & Eloop & Hg2 & Hp2).
  exists w2. split; [|split; [|split]].
  - rewrite (bind_ok _ _ Ewrap).
    assert (Epop : populate_indices T wr (mkDb h1 w1 d1 tr c)
                   = Ok tt (mkDb h1 w2
                       (assoc_set String.eqb T
                          (set_indices
                             (populated (fun col => key (KStr col))
                                (VObj r) (map fst (indices t1)) (indices t1)) t1) d1)
                       tr c)).
    { unfold populate_indices.
      rewrite (bind_ok _ _ (@the_table_spec T h1 w1 d1 tr c t1 Ht1)).
      rewrite Ewr. exact Eloop. }
    rewrite (bind_ok _ _ Epop).
    rewrite (bind_ok _ _ (onUpdateRecord_added T wr h1 w2 _ tr c)).
    unfold ret. f_equal. f_equal.
    unfold d1. rewrite (@assoc_set_set _ _ _ string_eqb_spec). f_equal.
    unfold inserted, t1, set_indices. simpl. rewrite <- Ewr. f_equal.
    apply populated_ext. exact Ekey.
  - eapply cache_grows_trans; eauto.
  - intros Hw. specialize (Hin1 Hw).
    destruct (assoc_get Ref_eqb (Raw a) w1) as [cl|] eqn:Hcl; [|congruence].
    rewrite (Hg2 _ _ Hcl). discriminate.
  - intros Hprim. apply Hp2. intros col. rewrite Ekey. apply Hprim.
Qed.

(** *** The loops over the indices, as functions on the indices *)

Section IndexLoops.
Variable change : DbValue -> DbValue -> IndexMap -> IndexMap.
Variable key_of : string -> DbValue.
Variable rec : DbValue.

Lemma index_step_get ixs c col :
  assoc_get String.eqb col (index_step change key_of rec ixs c)
  = if String.eqb col c
    then option_map (changed_index change key_of rec col) (assoc_get String.eqb col ixs)
    else assoc_get String.eqb col ixs.
Proof.
  unfold index_step, changed_index.
  destruct (String.eqb_spec col c) as [->|Hne].
  - destruct (assoc_get String.eqb c ixs) as [ix|] eqn:E; simpl.
    + destruct (strict_eq (key_of c) VUndef); [exact E|].
      now rewrite (assoc_get_set string_eqb_spec), String.eqb_refl.
    + exact E.
  - destruct (assoc_get String.eqb c ixs) as [ix|] eqn:E; [|reflexivity].
    destruct (strict_eq (key_of c) VUndef); [reflexivity|].
    rewrite (assoc_get_set string_eqb_spec).
    destruct (String.eqb_spec col c); congruence.
Qed.

Lemma index_step_keys ixs c :
  map fst (index_step change key_of rec ixs c) = map fst ixs.
Proof.
  unfold index_step.
  destruct (assoc_get String.eqb c ixs) as [ix|] eqn:E; [|reflexivity].
  destruct (strict_eq (key_of c) VUndef); [reflexivity|].
  apply (map_fst_assoc_set string_eqb_spec). congruence.
Qed.

Lemma index_loop_keys cols ixs :
  map fst (fold_left (index_step change key_of rec) cols ixs) = map fst ixs.
Proof.
  revert ixs. induction cols as [|c cols IH]; intros ixs; simpl; [reflexivity|].
  now rewrite IH, index_step_keys.
Qed.

Lemma index_loop_get cols : forall ixs col,
  NoDup cols ->
  assoc_get String.eqb col (fold_left (index_step change key_of rec) cols ixs)
  = if existsb (String.eqb col) cols
    then option_map (changed_index change key_of rec col) (assoc_get String.eqb col ixs)
    else assoc_get String.eqb col ixs.
Proof.
  induction cols as [|c cols IH]; intros ixs col Hnd; simpl; [reflexivity|].
  inversion Hnd as [|? ? Hnotin Hnd']; subst.
  rewrite IH by assumption. rewrite index_step_get.
  destruct (String.eqb_spec col c) as [->|Hne]; simpl; [|reflexivity].
  destruct (existsb (String.eqb c) cols) eqn:E; [|reflexivity].
  apply existsb_exists in E as (x & Hx & Ex).
  apply String.eqb_eq in Ex. subst x. contradiction.
Qed.

(** Over all the columns of the indices, once each. *)
Lemma index_loop_all ixs col :
  NoDup (map fst ixs) ->
  assoc_get String.eqb col
    (fold_left (index_step change key_of rec) (map fst ixs) ixs)
  = option_map (changed_index change key_of rec col) (assoc_get String.eqb col ixs).
Proof.
  intros Hnd. rewrite index_loop_get by assumption.
  destruct (existsb (String.eqb col) (map fst ixs)) eqn:E; [reflexivity|].
  destruct (assoc_get String.eqb col ixs) as [ix|] eqn:Eg; [|reflexivity].
  exfalso. apply (assoc_get_In string_eqb_spec) in Eg.
  assert (Hin : In col (map fst ixs)).
  { change col with (fst (col, ix)). now apply in_map. }
  assert (existsb (String.eqb col) (map fst ixs) = true).
  { apply existsb_exists. exists col. split; [exact Hin|apply String.eqb_refl]. }
  congruence.
Qed.
End IndexLoops.

(** *** [addRecord] and [setRecord] on a plain object *)

Lemma next_uid_spec last :
  (match last with
   | Some uid => if Z.eqb uid 0 then 0%Z else uid
   | None => 0%Z
   end + 1)%Z = next_uid last.
Proof.
  destruct last as [uid|]; simpl; [|reflexivity].
  destruct (Z.eqb_spec uid 0); subst; reflexivity.
Qed.

Lemma reserveNextUID_spec T h w d tr c t :
  assoc_get String.eqb T d = Some t ->
  reserveNextUID T (mkDb h w d tr c)
  = Ok (next_uid (lastUID t))
       (mkDb h w
          (assoc_set String.eqb T
             (mkTable (records t) (indices t) (Some (next_uid (lastUID t)))) d)
          tr c).
Proof.
  intros Ht.
  unfold reserveNextUID, getNextUID, update_table, bind, the_table, table,
    modify, ret.
  simpl. rewrite Ht. simpl. rewrite Ht. rewrite next_uid_spec. reflexivity.
Qed.

Lemma addRecord_raw T a (props : list (Key * DbValue)) (wrapped : bool)
    (h : list (Cell Ref)) w d tr c t :
  nth_error h a = Some (CObject props) ->
  assoc_get String.eqb T d = Some t ->
  let uid := next_uid (lastUID t) in
  let wr := if wrapped then handle a else VObj (Raw a) in
  exists w',
    addRecord T (VObj (Raw a)) wrapped (mkDb h w d tr c)
    = Ok wr (mkDb (list_update a (raw_set UniqueID (VBig uid)) h) w'
               (assoc_set String.eqb T
                  (inserted (mkTable (records t) (indices t) (Some uid)) uid
                            (VObj (Raw a)) wr (index_key_of wrapped props)) d)
               (push_change (EvAdded T wr) tr) c) /\
    cache_grows w w' /\
    (wrapped = true -> assoc_get Ref_eqb (Raw a) w' <> None) /\
    ((forall col, primitive (index_key_of wrapped props col) = true) ->
     w' = if wrapped then cache_with T (Raw a) None (Raw a) w else w).
Proof.
  intros Hc Ht uid wr.
  unfold addRecord, table. simpl _data. rewrite Ht.
  rewrite (bind_ok _ _ (@reserveNextUID_spec T h w d tr c t Ht)). fold uid.
  edestruct (@insert_record_raw T a props uid wrapped h w) as (w' & E & Hg & Hin & Hex);
    [exact Hc| |].
  { rewrite (assoc_get_set string_eqb_spec), String.eqb_refl. reflexivity. }
  exists w'. split; [|split; [exact Hg|split; [exact Hin|exact Hex]]].
  rewrite E. now rewrite (assoc_set_set string_eqb_spec).
Qed.

Lemma setRecord_raw T a (props : list (Key * DbValue)) uid (wrapped : bool)
    (h : list (Cell Ref)) w d tr c t :
  nth_error h a = Some (CObject props) ->
  assoc_get String.eqb T d = Some t ->
  let wr := if wrapped then handle a else VObj (Raw a) in
  exists w',
    setRecord T (VObj (Raw a)) uid wrapped (mkDb h w d tr c)
    = Ok wr (mkDb (list_update a (raw_set UniqueID (VBig uid)) h) w'
               (assoc_set String.eqb T
                  (inserted (mkTable (records t) (indices t)
                                     (advanced (lastUID t) uid)) uid
                            (VObj (Raw a)) wr (index_key_of wrapped props)) d)
               (push_change (EvAdded T wr) tr) c) /\
    cache_grows w w' /\
    (wrapped = true -> assoc_get Ref_eqb (Raw a) w' <> None) /\
    ((forall col, primitive (index_key_of wrapped props col) = true) ->
     w' = if wrapped then cache_with T (Raw a) None (Raw a) w else w).
Proof.
  intros Hc Ht wr.
  unfold setRecord, table. simpl _data. rewrite Ht.
  rewrite (bind_ok _ _ (@update_table_spec T _ h w d tr c t Ht)).
  replace (match lastUID t with
           | Some last =>
               if Z.eqb last 0 || Z.ltb last uid
               then mkTable (records t) (indices t) (Some uid) else t
           | None => mkTable (records t) (indices t) (Some uid)
           end)
    with (mkTable (records t) (indices t) (advanced (lastUID t) uid)).
  2:{ unfold advanced. destruct t as [rs ixs [l|]]; simpl; [|reflexivity].
      now destruct (Z.eqb l 0 || Z.ltb l uid). }
  edestruct (@insert_record_raw T a props uid wrapped h w) as (w' & E & Hg & Hin & Hex);
    [exact Hc| |].
  { rewrite (assoc_get_set string_eqb_spec), String.eqb_refl. reflexivity. }
  exists w'. split; [|split; [exact Hg|split; [exact Hin|exact Hex]]].
  rewrite E. now rewrite (assoc_set_set string_eqb_spec).
Qed.

Lemma bucket_add_In (v rec : DbValue) ix :
  In rec (index_lookup (bucket_add v rec ix) v).
Proof.
  unfold index_lookup, bucket_add.
  destruct (assoc_get same_value v ix) as [bucket|] eqn:E.
  - rewrite (assoc_get_set same_value_spec), same_value_refl.
    unfold set_add. destruct (existsb (same_value rec) bucket) eqn:Ex.
    + apply existsb_exists in Ex as (x & Hx & Ex).
      destruct (same_value_spec rec x); congruence.
    + apply in_or_app. right. now left.
  - rewrite assoc_get_app, E. simpl. rewrite same_value_refl. now left.
Qed.

(** C8, where the code does what the claim says.  [addRecord] throws the
    error of the missing table when the table does not exist and its name is
    none of the names [Object.prototype] defines.  When the table exists,
    with indexes on columns of such names (the only ones [addIndex] makes),
    the record (a plain object at address [a]) gets the identifier
    [lastUID + 1], or 1 if the table never assigned one; it is stored in the
    record map under that identifier; for every index of the table, the
    handle is added to the bucket of the record's value at that column
    unless that value is [undefined]; and the handle is what is returned. *)
Theorem addRecord_contract T a (props : list (Key * DbValue)) db :
  (table T db = None -> inherited T = false ->
   forall record wrapped,
     addRecord T record wrapped db = Throw (Error (table_missing T)) db) /\
  (forall t,
   table T db = Some t ->
   nth_error (heap db) a = Some (CObject props) ->
   NoDup (map fst (indices t)) ->
   forallb (fun col => negb (inherited col)) (map fst (indices t)) = true ->
   let uid := next_uid (lastUID t) in
   exists db' t',
     addRecord T (VObj (Raw a)) true db = Ok (handle a) db' /\
     table T db' = Some t' /\
     lastUID t' = Some uid /\
     get (Raw a) UniqueID db' = Ok (VBig uid) db' /\
     records t' = assoc_set same_value (VBig uid) (VObj (Raw a)) (records t) /\
     assoc_get same_value (VBig uid) (records t') = Some (VObj (Raw a)) /\
     forall col ix,
       assoc_get String.eqb col (indices t) = Some ix ->
       let v := wrapped_value (raw_get (CObject props) (KStr col)) in
       assoc_get String.eqb col (indices t')
       = Some (if strict_eq v VUndef then ix else bucket_add v (handle a) ix) /\
       (strict_eq v VUndef = false ->
        exists ix', assoc_get String.eqb col (indices t') = Some ix' /\
                    In (handle a) (index_lookup ix' v))).
Proof.
  split.
  - intros Hnone _ record wrapped. unfold addRecord. now rewrite Hnone.
  - intros t Ht Hc Hnd _ uid. destruct db as [h w d tr c].
    unfold table in Ht. simpl in Ht, Hc.
    destruct (@addRecord_raw T a props true h w d tr c t Hc Ht)
      as (w' & E & _ & _).
    fold uid in E. eexists _, _. split; [exact E|].
    split.
    { unfold table. simpl. rewrite (assoc_get_set string_eqb_spec), String.eqb_refl.
      reflexivity. }
    split; [reflexivity|]. split.
    { erewrite get_raw_spec by (apply nth_error_list_update_eq; exact Hc).
      f_equal. apply raw_get_uid. }
    split; [reflexivity|]. split.
    { simpl. now rewrite (assoc_get_set same_value_spec), same_value_refl. }
    intros col ix Hix v.
    assert (Eix : assoc_get String.eqb col
              (indices (inserted (mkTable (records t) (indices t) (Some uid)) uid
                          (VObj (Raw a)) (handle a) (index_key_of true props)))
            = Some (if strict_eq v VUndef then ix else bucket_add v (handle a) ix)).
    { simpl. unfold populated, populate_step.
      rewrite index_loop_all by assumption. rewrite Hix. reflexivity. }
    split; [exact Eix|]. intros Hdef. eexists. split; [exact Eix|].
    rewrite Hdef. apply bucket_add_In.
Qed.

Lemma addRecord_contract_witness :
  exists db' t',
    addRecord "users" (VObj (Raw 0)) true sample_db = Ok (handle 0) db' /\
    table "users" db' = Some t' /\
    lastUID t' = Some 1%Z /\
    get (Raw 0) UniqueID db' = Ok (VBig 1) db' /\
    assoc_get same_value (VBig 1) (records t') = Some (VObj (Raw 0)) /\
    assoc_get String.eqb "email" (indices t')
    = Some [(VStr "j@x.com", [handle 0])].
Proof.
  destruct (addRecord_contract "users" 0
              [(KStr "name", VStr "John"); (KStr "email", VStr "j@x.com")]
              sample_db) as [_ H].
  destruct (H (mkTable [] [("email", [])] None)) as (db' & t' & E & Et & El & Eg & _ & Er & Ei).
  - reflexivity.
  - reflexivity.
  - simpl. repeat constructor. simpl. tauto.
  - reflexivity.
  - exists db', t'. repeat (split; [assumption|]).
    destruct (Ei "email" [] eq_refl) as [Eix _]. exact Eix.
Defined.

(** C10. [addRecord] and [setRecord] store the caller's object itself: the
    identifier is written on the object at address [a] (no object is
    allocated), and the record map holds the reference [Raw a] that was
    passed in. *)
Theorem record_is_stored_by_reference T a (props : list (Key * DbValue))
    (wrapped : bool) db t :
  table T db = Some t ->
  nth_error (heap db) a = Some (CObject props) ->
  (exists wr db' t',
     addRecord T (VObj (Raw a)) wrapped db = Ok wr db' /\
     nth_error (heap db') a
     = Some (CObject (assoc_set Key_eqb UniqueID
                        (VBig (next_uid (lastUID t))) props)) /\
     length (heap db') = length (heap db) /\
     get (Raw a) UniqueID db' = Ok (VBig (next_uid (lastUID t))) db' /\
     table T db' = Some t' /\
     assoc_get same_value (VBig (next_uid (lastUID t))) (records t')
     = Some (VObj (Raw a))) /\
  (forall uid,
   exists wr db' t',
     setRecord T (VObj (Raw a)) uid wrapped db = Ok wr db' /\
     nth_error (heap db') a
     = Some (CObject (assoc_set Key_eqb UniqueID (VBig uid) props)) /\
     length (heap db') = length (heap db) /\
     get (Raw a) UniqueID db' = Ok (VBig uid) db' /\
     table T db' = Some t' /\
     assoc_get same_value (VBig uid) (records t') = Some (VObj (Raw a))).
Proof.
  intros Ht Hc. destruct db as [h w d tr c].
  unfold table in Ht. simpl in Ht, Hc.
  assert (Hcell : forall uid : Z,
            nth_error (list_update a (raw_set UniqueID (VBig uid)) h) a
            = Some (CObject (assoc_set Key_eqb UniqueID (VBig uid) props))).
  { intros uid. now rewrite (nth_error_list_update_eq _ _ _ Hc). }
  split.
  - destruct (@addRecord_raw T a props wrapped h w d tr c t Hc Ht)
      as (w' & E & _ & _).
    eexists _, _, _. split; [exact E|]. cbn [heap].
    split; [apply Hcell|]. split; [apply length_list_update|].
    split; [|split].
    + erewrite get_raw_spec by apply Hcell. f_equal. apply raw_get_uid.
    + unfold table. simpl.
      rewrite (assoc_get_set string_eqb_spec), String.eqb_refl. reflexivity.
    + simpl. now rewrite (assoc_get_set same_value_spec), same_value_refl.
  - intros uid.
    destruct (@setRecord_raw T a props uid wrapped h w d tr c t Hc Ht)
      as (w' & E & _ & _).
    eexists _, _, _. split; [exact E|]. cbn [heap].
    split; [apply Hcell|]. split; [apply length_list_update|].
    split; [|split].
    + erewrite get_raw_spec by apply Hcell. f_equal. apply raw_get_uid.
    + unfold table. simpl.
      rewrite (assoc_get_set string_eqb_spec), String.eqb_refl. reflexivity.
    + simpl. now rewrite (assoc_get_set same_value_spec), same_value_refl.
Qed.

Lemma record_is_stored_by_reference_witness :
  exists wr db' t',
    addRecord "users" (VObj (Raw 0)) true sample_db = Ok wr db' /\
    nth_error (heap db') 0
    = Some (CObject [(KStr "name", VStr "John"); (KStr "email", VStr "j@x.com");
                     (UniqueID, VBig 1)]) /\
    length (heap db') = 1 /\
    get (Raw 0) UniqueID db' = Ok (VBig 1) db' /\
    table "users" db' = Some t' /\
    assoc_get same_value (VBig 1) (records t') = Some (VObj (Raw 0)).
Proof.
  exact (proj1 (@record_is_stored_by_reference "users" 0
                  [(KStr "name", VStr "John"); (KStr "email", VStr "j@x.com")]
                  true sample_db (mkTable [] [("email", [])] None)
                  eq_refl eq_refl)).
Defined.

(** *** Field assignment and deletion through the handle of a plain object *)

Lemma closure_of_spec r cl h w d tr c :
  assoc_get Ref_eqb r w = Some cl ->
  closure_of r (mkDb h w d tr c) = Ok cl (mkDb h w d tr c).
Proof. intros H. unfold closure_of. simpl. now rewrite H. Qed.

Lemma onUpdateRecord_set at_ key old new h w d tr c :
  onUpdateRecord (EvSet at_ key old new) (mkDb h w d tr c)
  = Ok tt (mkDb h w
             (if strict_eq (record at_) (object at_)
              then reindex_data (tableName at_) key old new (record at_) d
              else d)
             (push_change (EvSet at_ key old new) tr) c).
Proof. unfold onUpdateRecord. now destruct strict_eq. Qed.

Lemma onUpdateRecord_delete at_ key old h w d tr c :
  onUpdateRecord (EvDelete at_ key old) (mkDb h w d tr c)
  = Ok tt (mkDb h w
             (if strict_eq (record at_) (object at_)
              then reindex_data (tableName at_) key old VUndef (record at_) d
              else d)
             (push_change (EvDelete at_ key old) tr) c).
Proof. unfold onUpdateRecord. now destruct strict_eq. Qed.

Lemma put_through_handle a k v (props : list (Key * DbValue)) cl
    (h : list (Cell Ref)) w d tr c :
  nth_error h a = Some (CObject props) ->
  assoc_get Ref_eqb (Raw a) w = Some cl ->
  let old := raw_get (CObject props) k in
  exists w',
    put (Prox (Raw a)) k v (mkDb h w d tr c)
    = Ok tt (mkDb (list_update a (raw_set k (wrapped_value v)) h) w'
               (if Ref_eqb (cl_record cl) (Raw a)
                then reindex_data (cl_tableName cl) k (wrapped_value old)
                       (wrapped_value v) (VObj (Prox (cl_record cl))) d
                else d)
               (push_change (set_event cl a k old v) tr) c) /\
    cache_grows w w' /\
    (primitive v = true -> primitive old = true ->
     assoc_get Ref_eqb (cl_record cl) w <> None -> w' = w).
Proof.
  intros Hc Hcl old.
  set (T0 := cl_tableName cl). set (rec0 := cl_record cl).
  set (col := curColName cl k).
  set (h1 := list_update a (raw_set k (wrapped_value v)) h).
  destruct (wrap_spec T0 rec0 (Some col) v h w d tr c)
    as (w1 & E1 & G1 & _ & P1 & _).
  destruct (wrap_spec T0 rec0 None (VObj rec0) h1 w1 d tr c)
    as (w2 & E2 & G2 & _ & _ & X2).
  destruct (wrap_spec T0 (Raw a) (Some col) (VObj (Raw a)) h1 w2 d tr c)
    as (w3 & E3 & G3 & _ & _ & X3).
  destruct (wrap_spec T0 rec0 (Some col) old h1 w3 d tr c)
    as (w4 & E4 & G4 & _ & P4 & _).
  destruct (wrap_spec T0 rec0 (Some col) v h1 w4 d tr c)
    as (w5 & E5 & G5 & _ & P5 & _).
  exists w5. split; [|split].
  - change (put (Prox (Raw a)) k v) with
      (cl0 <- closure_of (Raw a) ;;
       let col := curColName cl0 k in
       oldValue <- get (Raw a) k ;;
       wvalue <- _wrap (cl_tableName cl0) (cl_record cl0) (Some col) v ;;
       put (Raw a) k wvalue ;;;
       wrecord <- _wrapRecord (cl_tableName cl0) (cl_record cl0) ;;
       wobject <- _wrap (cl_tableName cl0) (Raw a) (Some col) (VObj (Raw a)) ;;
       wold <- _wrap (cl_tableName cl0) (cl_record cl0) (Some col) oldValue ;;
       wnew <- _wrap (cl_tableName cl0) (cl_record cl0) (Some col) v ;;
       onUpdateRecord
         (EvSet (mkAttr (cl_tableName cl0) wrecord col wobject) k wold wnew)).
    rewrite (bind_ok _ _ (@closure_of_spec (Raw a) cl h w d tr c Hcl)).
    cbv zeta. fold T0 rec0 col.
    rewrite (bind_ok _ _ (@get_raw_spec a k _ h w d tr c Hc)). fold old.
    rewrite (bind_ok _ _ E1).
    rewrite (bind_ok _ _ (put_raw_spec a k (wrapped_value v) h w1 d tr c)).
    fold h1. unfold _wrapRecord.
    rewrite (bind_ok _ _ E2). rewrite (bind_ok _ _ E3).
    rewrite (bind_ok _ _ E4). rewrite (bind_ok _ _ E5).
    rewrite onUpdateRecord_set. reflexivity.
  - repeat (eapply cache_grows_trans; [eassumption|]). apply cache_grows_refl.
  - intros Hv Hold Hrec.
    rewrite (P5 Hv), (P4 Hold), (X3 _ eq_refl), (X2 _ eq_refl), (P1 Hv).
    rewrite (@cache_with_cached T0 rec0 None rec0 w Hrec).
    apply cache_with_cached. congruence.
Qed.

Lemma delete_through_handle a k (props : list (Key * DbValue)) cl
    (h : list (Cell Ref)) w d tr c :
  nth_error h a = Some (CObject props) ->
  assoc_get Ref_eqb (Raw a) w = Some cl ->
  let old := raw_get (CObject props) k in
  exists w',
    delete (Prox (Raw a)) k (mkDb h w d tr c)
    = Ok tt (mkDb (list_update a (raw_delete k) h) w'
               (if Ref_eqb (cl_record cl) (Raw a)
                then reindex_data (cl_tableName cl) k (wrapped_value old)
                       VUndef (VObj (Prox (cl_record cl))) d
                else d)
               (push_change (delete_event cl a k old) tr) c) /\
    cache_grows w w' /\
    (primitive old = true ->
     assoc_get Ref_eqb (cl_record cl) w <> None -> w' = w).
Proof.
  intros Hc Hcl old.
  set (T0 := cl_tableName cl). set (rec0 := cl_record cl).
  set (col := curColName cl k).
  set (h1 := list_update a (raw_delete k) h).
  destruct (wrap_spec T0 rec0 None (VObj rec0) h1 w d tr c)
    as (w2 & E2 & G2 & _ & _ & X2).
  destruct (wrap_spec T0 (Raw a) (Some col) (VObj (Raw a)) h1 w2 d tr c)
    as (w3 & E3 & G3 & _ & _ & X3).
  destruct (wrap_spec T0 rec0 (Some col) old h1 w3 d tr c)
    as (w4 & E4 & G4 & _ & P4 & _).
  exists w4. split; [|split].
  - change (delete (Prox (Raw a)) k) with
      (cl0 <- closure_of (Raw a) ;;
       let col := curColName cl0 k in
       oldValue <- get (Raw a) k ;;
       delete (Raw a) k ;;;
       wrecord <- _wrapRecord (cl_tableName cl0) (cl_record cl0) ;;
       wobject <- _wrap (cl_tableName cl0) (Raw a) (Some col) (VObj (Raw a)) ;;
       wold <- _wrap (cl_tableName cl0) (cl_record cl0) (Some col) oldValue ;;
       onUpdateRecord
         (EvDelete (mkAttr (cl_tableName cl0) wrecord col wobject) k wold)).
    rewrite (bind_ok _ _ (@closure_of_spec (Raw a) cl h w d tr c Hcl)).
    cbv zeta. fold T0 rec0 col.
    rewrite (bind_ok _ _ (@get_raw_spec a k _ h w d tr c Hc)). fold old.
    rewrite (bind_ok _ _ (eq_refl : delete (Raw a) k (mkDb h w d tr c)
                                    = Ok tt (mkDb h1 w d tr c))).
    unfold _wrapRecord.
    rewrite (bind_ok _ _ E2). rewrite (bind_ok _ _ E3). rewrite (bind_ok _ _ E4).
    rewrite onUpdateRecord_delete. reflexivity.
  - repeat (eapply cache_grows_trans; [eassumption|]). apply cache_grows_refl.
  - intros Hold Hrec.
    rewrite (P4 Hold), (X3 _ eq_refl), (X2 _ eq_refl).
    rewrite (@cache_with_cached T0 rec0 None rec0 w Hrec).
    apply cache_with_cached. congruence.
Qed.


(** *** Adding a record again through its handle, as a rollback does *)

Lemma reindex_data_symbol T n old new rec d :
  reindex_data T (KSym n) old new rec d = d.
Proof. unfold reindex_data. now destruct (assoc_get String.eqb T d). Qed.

(** [insert_record] without wrapping, on the handle of a plain object: the
    identifier is written through the handle, which records an assignment;
    the record map and the indices receive the handle. *)
Lemma insert_record_handle T a (props : list (Key * DbValue)) uid cl
    (h : list (Cell Ref)) w d tr c t :
  nth_error h a = Some (CObject props) ->
  assoc_get Ref_eqb (Raw a) w = Some cl ->
  assoc_get String.eqb T d = Some t ->
  exists w',
    insert_record T (handle a) uid false (mkDb h w d tr c)
    = Ok (handle a)
         (mkDb (list_update a (raw_set UniqueID (VBig uid)) h) w'
            (assoc_set String.eqb T
               (inserted t uid (handle a) (handle a) (index_key_of true props)) d)
            (push_change (EvAdded T (handle a))
               (push_change
                  (set_event cl a UniqueID (raw_get (CObject props) UniqueID)
                             (VBig uid)) tr)) c) /\
    cache_grows w w'.
Proof.
  intros Hc Hcl Ht.
  set (h1 := list_update a (raw_set UniqueID (VBig uid)) h).
  set (props1 := assoc_set Key_eqb UniqueID (VBig uid) props).
  assert (Hc1 : nth_error h1 a = Some (CObject props1)).
  { unfold h1. now rewrite (nth_error_list_update_eq _ _ _ Hc). }
  set (t1 := set_records (assoc_set same_value (VBig uid) (handle a) (records t)) t).
  set (d1 := assoc_set String.eqb T t1 d).
  assert (Ht1 : assoc_get String.eqb T d1 = Some t1).
  { unfold d1. now rewrite (assoc_get_set string_eqb_spec), String.eqb_refl. }
  destruct (@put_through_handle a UniqueID (VBig uid) props cl h w d tr c Hc Hcl)
    as (w1 & Eput & Hg1 & _).
  unfold UniqueID in Eput at 3. rewrite reindex_data_symbol in Eput.
  assert (Eput' : put (Prox (Raw a)) UniqueID (VBig uid) (mkDb h w d tr c)
            = Ok tt (mkDb h1 w1 d
                       (push_change
                          (set_event cl a UniqueID (raw_get (CObject props) UniqueID)
                                     (VBig uid)) tr) c)).
  { rewrite Eput. now destruct (Ref_eqb (cl_record cl) (Raw a)). }
  clear Eput. set (tr1 := push_change _ tr) in *.
  pose proof (Hg1 _ _ Hcl) as Hcl1.
  pose proof (@reads_handle a h1 w1 props1 cl Hc1 Hcl1) as Hreads.
  destruct (Hreads UniqueID w1 d tr1 c (cache_grows_refl w1)) as (w2 & Eget & Hg2 & _).
  assert (Huid : raw_get (CObject props1) UniqueID = VBig uid) by apply raw_get_uid.
  rewrite Huid in Eget. simpl wrapped_value in Eget.
  pose proof (@reads_later _ _ _ _ _ Hg2 Hreads) as Hreads2.
  destruct (@populate_loop T (Prox (Raw a)) _ h1 tr1 c (map fst (indices t1))
              w2 d1 t1 Hreads2 Ht1) as (w3 & Eloop & Hg3 & _).
  exists w3. split.
  - unfold insert_record, handle.
    rewrite (bind_ok _ _ (eq_refl : as_ref (VObj (Prox (Raw a))) _ = Ok (Prox (Raw a)) _)).
    rewrite (bind_ok _ _ Eput').
    rewrite (bind_ok _ _ Eget).
    rewrite (bind_ok _ _ (@update_table_spec T _ h1 w2 d tr1 c t Ht)).
    fold (handle a). fold t1. fold d1.
    rewrite (bind_ok _ _ (eq_refl : ret (handle a) (mkDb h1 w2 d1 tr1 c) = Ok _ _)).
    assert (Epop : populate_indices T (handle a) (mkDb h1 w2 d1 tr1 c)
                   = Ok tt (mkDb h1 w3
                       (assoc_set String.eqb T
                          (set_indices
                             (populated
                                (fun col => wrapped_value
                                              (raw_get (CObject props1) (KStr col)))
                                (handle a) (map fst (indices t1)) (indices t1)) t1) d1)
                       tr1 c)).
    { unfold populate_indices.
      rewrite (bind_ok _ _ (@the_table_spec T h1 w2 d1 tr1 c t1 Ht1)).
      exact Eloop. }
    rewrite (bind_ok _ _ Epop).
    rewrite (bind_ok _ _ (onUpdateRecord_added T (handle a) h1 w3 _ tr1 c)).
    unfold ret. f_equal. f_equal.
    unfold d1. rewrite (@assoc_set_set _ _ _ string_eqb_spec). f_equal.
    unfold inserted, t1, set_indices. simpl. f_equal.
    apply populated_ext. intros col. unfold index_key_of.
    pose proof (raw_get_after_uid props uid col) as Ecol. fold props1 in Ecol.
    f_equal. exact Ecol.
  - repeat (eapply cache_grows_trans; [eassumption|]). apply cache_grows_refl.
Qed.

(** [addRecord] without wrapping, on a plain object or on its handle. *)
Lemma addRecord_again T a (props : list (Key * DbValue)) (through_handle : bool)
    (h : list (Cell Ref)) w d tr c t :
  nth_error h a = Some (CObject props) ->
  (through_handle = true -> assoc_get Ref_eqb (Raw a) w <> None) ->
  assoc_get String.eqb T d = Some t ->
  let uid := next_uid (lastUID t) in
  let rec := if through_handle then handle a else VObj (Raw a) in
  exists w' tr',
    addRecord T rec false (mkDb h w d tr c)
    = Ok rec (mkDb (list_update a (raw_set UniqueID (VBig uid)) h) w'
                (assoc_set String.eqb T
                   (inserted (mkTable (records t) (indices t) (Some uid)) uid
                             rec rec (index_key_of through_handle props)) d)
                tr' c).
Proof.
  intros Hc Hcl Ht uid rec. destruct through_handle.
  - destruct (assoc_get Ref_eqb (Raw a) w) as [cl|] eqn:Ecl;
      [|now destruct Hcl].
    unfold addRecord, table. simpl _data. rewrite Ht.
    rewrite (bind_ok _ _ (@reserveNextUID_spec T h w d tr c t Ht)). fold uid.
    edestruct (@insert_record_handle T a props uid cl h w) as (w' & E & _);
      [exact Hc|exact Ecl| |].
    { rewrite (assoc_get_set string_eqb_spec), String.eqb_refl. reflexivity. }
    exists w'. eexists. unfold rec. rewrite E.
    now rewrite (assoc_set_set string_eqb_spec).
  - destruct (@addRecord_raw T a props false h w d tr c t Hc Ht) as (w' & E & _).
    exists w'. eexists. exact E.
Qed.

(** What the rollback of a removal does.  Rolling back a frame whose only event is the
    removal of a record adds the removed value (the plain object at address
    [a], or its handle) again with [addRecord]: the object gets the next
    identifier of the table, [lastUID + 1], which no record of the table ever
    had; the table's counter advances to it; the removed value is stored
    under it; and the value is entered once into the bucket of each index
    where its key is defined. *)
Theorem rollback_of_removal_adds_under_next_identifier
    T a (props : list (Key * DbValue)) (through_handle : bool)
    (h : list (Cell Ref)) w d outer c t :
  nth_error h a = Some (CObject props) ->
  (through_handle = true -> assoc_get Ref_eqb (Raw a) w <> None) ->
  assoc_get String.eqb T d = Some t ->
  NoDup (map fst (indices t)) ->
  let rec := if through_handle then handle a else VObj (Raw a) in
  let uid := next_uid (lastUID t) in
  exists db' t',
    rollbackTransaction
      (mkDb h w d (outer ++ [mkTransaction [EvRemoved T rec]]) c) = Ok tt db' /\
    table T db' = Some t' /\
    get (Raw a) UniqueID db' = Ok (VBig uid) db' /\
    (forall last old, lastUID t = Some last -> (old <= last)%Z ->
       uid = (last + 1)%Z /\ uid <> old) /\
    lastUID t' = Some uid /\
    records t' = assoc_set same_value (VBig uid) rec (records t) /\
    forall col ix,
      assoc_get String.eqb col (indices t) = Some ix ->
      let v := index_key_of through_handle props col in
      assoc_get String.eqb col (indices t')
      = Some (if strict_eq v VUndef then ix else bucket_add v rec ix).
Proof.
  intros Hc Hcl Ht Hnd rec uid.
  destruct (@addRecord_again T a props through_handle h w d outer c t Hc Hcl Ht)
    as (w' & tr' & E).
  fold rec uid in E.
  eexists _, _. split.
  { rewrite (@rollback_pops (mkDb h w d (outer ++ [mkTransaction [EvRemoved T rec]]) c)
               outer (mkTransaction [EvRemoved T rec]) eq_refl).
    simpl rev. rewrite for_each_cons.
    change (undo (EvRemoved T rec)) with (addRecord T rec false ;;; ret tt).
    unfold set_transactions. simpl.
    rewrite (bind_ok _ _ E). reflexivity. }
  split.
  { unfold table. simpl. rewrite (assoc_get_set string_eqb_spec), String.eqb_refl.
    reflexivity. }
  split.
  { erewrite get_raw_spec by (apply nth_error_list_update_eq; exact Hc).
    f_equal. apply raw_get_uid. }
  split.
  { intros last old El Hle. unfold uid. rewrite El. simpl. lia. }
  split; [reflexivity|]. split; [reflexivity|].
  intros col ix Hix v. simpl. unfold populated, populate_step.
  rewrite index_loop_all by assumption. rewrite Hix. reflexivity.
Qed.

Lemma rollback_of_removal_adds_under_next_identifier_witness :
  exists db' t',
    rollbackTransaction
      (mkDb [CObject [(KStr "name", VStr "John"); (UniqueID, VBig 1)]]
            [(Raw 0, mkClosure "t" (Raw 0) None)]
            [("t", mkTable [] [("name", [(VStr "John", [])])] (Some 1%Z))]
            [mkTransaction [EvRemoved "t" (handle 0)]] []) = Ok tt db' /\
    table "t" db' = Some t' /\
    get (Raw 0) UniqueID db' = Ok (VBig 2) db' /\
    lastUID t' = Some 2%Z /\
    records t' = [(VBig 2, handle 0)] /\
    assoc_get String.eqb "name" (indices t')
    = Some [(VStr "John", [handle 0])].
Proof.
  destruct (@rollback_of_removal_adds_under_next_identifier
              "t" 0 [(KStr "name", VStr "John"); (UniqueID, VBig 1)] true
              [CObject [(KStr "name", VStr "John"); (UniqueID, VBig 1)]]
              [(Raw 0, mkClosure "t" (Raw 0) None)]
              [("t", mkTable [] [("name", [(VStr "John", [])])] (Some 1%Z))]
              [] [] (mkTable [] [("name", [(VStr "John", [])])] (Some 1%Z)))
    as (db' & t' & E & Et & Eg & _ & El & Er & Ei).
  - reflexivity.
  - simpl. discriminate.
  - reflexivity.
  - simpl. repeat constructor. simpl. tauto.
  - exists db', t'. split; [exact E|]. split; [exact Et|]. split; [exact Eg|].
    split; [exact El|]. split; [exact Er|].
    exact (Ei "name" [(VStr "John", [])] eq_refl).
Defined.


(** *** Buckets as sets *)

Lemma set_add_In (v x : DbValue) l :
  In x (set_add same_value v l) <-> x = v \/ In x l.
Proof.
  unfold set_add. destruct (existsb (same_value v) l) eqn:E.
  - split; [tauto|]. intros [->|H]; [|exact H].
    apply existsb_exists in E as (y & Hy & Ey).
    now destruct (same_value_spec v y); subst.
  - rewrite in_app_iff. simpl. intuition congruence.
Qed.

Lemma set_add_NoDup (v : DbValue) l :
  NoDup l -> NoDup (set_add same_value v l).
Proof.
  intros Hnd. unfold set_add. destruct (existsb (same_value v) l) eqn:E;
    [exact Hnd|].
  apply NoDup_app; [exact Hnd|repeat constructor; simpl; tauto|].
  intros x Hx [<-|[]].
  assert (existsb (same_value v) l = true); [|congruence].
  apply existsb_exists. exists v. split; [exact Hx|apply same_value_refl].
Qed.

Lemma set_del_subset (v x : DbValue) l :
  In x (set_del same_value v l) -> In x l.
Proof.
  induction l as [|y l IH]; simpl; [tauto|].
  destruct (same_value v y); simpl; [tauto|]. intros [H|H]; auto.
Qed.

Lemma set_del_In (v x : DbValue) l :
  NoDup l -> (In x (set_del same_value v l) <-> x <> v /\ In x l).
Proof.
  induction l as [|y l IH]; simpl; intros Hnd; [tauto|].
  inversion Hnd as [|? ? Hnotin Hnd']; subst.
  destruct (same_value_spec v y) as [->|Hne]; simpl.
  - split.
    + intros H. split; [|now right]. intros ->. contradiction.
    + intros [Hx [E|H]]; [congruence|exact H].
  - rewrite (IH Hnd'). split.
    + intros [<-|[Hx H]]; [split; [congruence|now left]|split; [exact Hx|now right]].
    + intros [Hx [E|H]]; [now left|right; now split].
Qed.

Lemma set_del_NoDup (v : DbValue) l :
  NoDup l -> NoDup (set_del same_value v l).
Proof.
  induction l as [|y l IH]; simpl; intros Hnd; [constructor|].
  inversion Hnd as [|? ? Hnotin Hnd']; subst.
  destruct (same_value v y); [exact Hnd'|].
  constructor; [|now apply IH].
  intros H. apply Hnotin. now apply set_del_subset in H.
Qed.

Lemma index_lookup_bucket_add (v rec k : DbValue) ix :
  index_lookup (bucket_add v rec ix) k
  = if same_value k v then set_add same_value rec (index_lookup ix v)
    else index_lookup ix k.
Proof.
  unfold index_lookup, bucket_add.
  destruct (assoc_get same_value v ix) as [b|] eqn:E.
  - rewrite (assoc_get_set same_value_spec). now destruct (same_value k v).
  - rewrite assoc_get_app. simpl.
    destruct (same_value_spec k v) as [->|Hne].
    + now rewrite E.
    + now destruct (assoc_get same_value k ix).
Qed.

Lemma index_lookup_bucket_delete (v rec k : DbValue) ix :
  index_lookup (bucket_delete v rec ix) k
  = if same_value k v then set_del same_value rec (index_lookup ix v)
    else index_lookup ix k.
Proof.
  unfold index_lookup, bucket_delete.
  destruct (assoc_get same_value v ix) as [b|] eqn:E.
  - rewrite (assoc_get_set same_value_spec). now destruct (same_value k v).
  - destruct (same_value_spec k v) as [->|Hne]; [|reflexivity].
    now rewrite E.
Qed.

(** The members of a bucket after the three changes the store makes to an
    index. *)
Lemma bucket_after_add (v rec k x : DbValue) ix :
  In x (index_lookup (bucket_add v rec ix) k)
  <-> (k = v /\ x = rec) \/ In x (index_lookup ix k).
Proof.
  rewrite index_lookup_bucket_add.
  destruct (same_value_spec k v) as [->|Hne].
  - rewrite set_add_In. tauto.
  - tauto.
Qed.

Lemma bucket_after_delete (v rec k x : DbValue) ix :
  NoDup (index_lookup ix k) ->
  In x (index_lookup (bucket_delete v rec ix) k)
  <-> In x (index_lookup ix k) /\ ~ (k = v /\ x = rec).
Proof.
  intros Hnd. rewrite index_lookup_bucket_delete.
  destruct (same_value_spec k v) as [->|Hne].
  - rewrite set_del_In by assumption. tauto.
  - tauto.
Qed.

Lemma bucket_after_add_NoDup (v rec k : DbValue) ix :
  NoDup (index_lookup ix k) -> NoDup (index_lookup (bucket_add v rec ix) k).
Proof.
  intros Hnd. rewrite index_lookup_bucket_add.
  destruct (same_value_spec k v) as [->|Hne]; [|exact Hnd].
  now apply set_add_NoDup.
Qed.

Lemma bucket_after_delete_NoDup (v rec k : DbValue) ix :
  NoDup (index_lookup ix k) -> NoDup (index_lookup (bucket_delete v rec ix) k).
Proof.
  intros Hnd. rewrite index_lookup_bucket_delete.
  destruct (same_value_spec k v) as [->|Hne]; [|exact Hnd].
  now apply set_del_NoDup.
Qed.


(** *** Removing a record through its handle *)

(** The loop of [removeRecord] over the indices. *)
Lemma depopulate_loop T r rec key_of h tr c cols :
  forall w d t,
  reads r h w key_of ->
  assoc_get String.eqb T d = Some t ->
  exists w',
    for_each (fun colName =>
        value <- get r (KStr colName) ;;
        if strict_eq value VUndef then ret tt
        else update_index T colName (bucket_delete value rec))
      cols (mkDb h w d tr c)
    = Ok tt (mkDb h w'
               (assoc_set String.eqb T
                  (set_indices
                     (depopulated (fun col => key_of (KStr col)) rec cols
                                  (indices t)) t) d)
               tr c) /\
    cache_grows w w' /\
    ((forall col, primitive (key_of (KStr col)) = true) -> w' = w).
Proof.
  induction cols as [|col cols IH]; intros w d t Hr Ht.
  - exists w. simpl.
    rewrite set_indices_same, (@assoc_set_same _ _ _ string_eqb_spec T t d Ht).
    split; [reflexivity|]. split; [apply cache_grows_refl|reflexivity].
  - rewrite for_each_cons.
    destruct (Hr (KStr col) w d tr c (cache_grows_refl w)) as (w1 & E & Hg1 & Hp1).
    set (t1 := set_indices
                 (depopulate_step (fun col => key_of (KStr col)) rec (indices t) col) t).
    assert (Eturn :
      (value <- get r (KStr col) ;;
       if strict_eq value VUndef then ret tt
       else update_index T col (bucket_delete value rec))
        (mkDb h w d tr c)
      = Ok tt (mkDb h w1 (assoc_set String.eqb T t1 d) tr c)).
    { rewrite (bind_ok _ _ E). unfold t1, depopulate_step, index_step.
      destruct (strict_eq (key_of (KStr col)) VUndef).
      - simpl. replace (set_indices _ t) with t.
        + now rewrite (@assoc_set_same _ _ _ string_eqb_spec T t d Ht).
        + destruct (assoc_get String.eqb col (indices t));
            now rewrite set_indices_same.
      - rewrite (@update_index_spec T col _ h w1 d tr c t Ht).
        destruct (assoc_get String.eqb col (indices t)); [reflexivity|].
        now rewrite set_indices_same. }
    rewrite Eturn.
    edestruct (IH w1 (assoc_set String.eqb T t1 d) t1) as (w' & -> & Hg' & Hp').
    + exact (@reads_later r h w w1 key_of Hg1 Hr).
    + rewrite (assoc_get_set string_eqb_spec), String.eqb_refl. reflexivity.
    + exists w'. split; [|split].
      * simpl. now rewrite (@assoc_set_set _ _ _ string_eqb_spec).
      * eapply cache_grows_trans; eauto.
      * intros Hall. rewrite (Hp' Hall). apply Hp1, Hall.
Qed.

Lemma assoc_has_get {K V} (eqb : K -> K -> bool) k (l : list (K * V)) v :
  assoc_get eqb k l = Some v -> assoc_has eqb k l = true.
Proof. unfold assoc_has. now intros ->. Qed.

Lemma removeRecord_handle T a (props : list (Key * DbValue)) uid cl stored
    (h : list (Cell Ref)) w d tr c t :
  nth_error h a = Some (CObject props) ->
  assoc_get Ref_eqb (Raw a) w = Some cl ->
  assoc_get Key_eqb UniqueID props = Some (VBig uid) ->
  uid <> 0%Z ->
  assoc_get String.eqb T d = Some t ->
  assoc_get same_value (VBig uid) (records t) = Some stored ->
  exists w',
    removeRecord T (handle a) (mkDb h w d tr c)
    = Ok tt (mkDb h w'
               (assoc_set String.eqb T
                  (removed t uid (handle a) (index_key_of true props)) d)
               (push_change (EvRemoved T (handle a)) tr) c) /\
    cache_grows w w' /\
    ((forall col, primitive (index_key_of true props col) = true) -> w' = w).
Proof.
  intros Hc Hcl Hid Hnz Ht Hst.
  pose proof (@reads_handle a h w props cl Hc Hcl) as Hreads.
  destruct (Hreads UniqueID w d tr c (cache_grows_refl w)) as (w1 & Eget & Hg1 & Hp1).
  assert (Eid : raw_get (CObject props) UniqueID = VBig uid).
  { simpl. now rewrite Hid. }
  rewrite Eid in Eget, Hp1. simpl wrapped_value in Eget, Hp1.
  specialize (Hp1 eq_refl). subst w1.
  set (t1 := set_records (assoc_del same_value (VBig uid) (records t)) t).
  set (d1 := assoc_set String.eqb T t1 d).
  assert (Ht1 : assoc_get String.eqb T d1 = Some t1).
  { unfold d1. now rewrite (assoc_get_set string_eqb_spec), String.eqb_refl. }
  destruct (@depopulate_loop T (Prox (Raw a)) (handle a) _ h tr c
              (map fst (indices t)) w d1 t1 Hreads Ht1) as (w2 & Eloop & Hg2 & Hp2).
  exists w2. split; [|split; [exact Hg2|exact Hp2]].
  unfold removeRecord, table. simpl _data. rewrite Ht. unfold handle.
  rewrite (bind_ok _ _ (eq_refl : as_ref (VObj (Prox (Raw a))) _ = Ok (Prox (Raw a)) _)).
  rewrite (bind_ok _ _ Eget).
  assert (Etr : truthy (VBig uid : DbValue) = true).
  { simpl. now destruct (Z.eqb_spec uid 0). }
  rewrite Etr. change (negb true) with false. cbv iota.
  rewrite (bind_ok _ _ (@the_table_spec T h w d tr c t Ht)).
  rewrite (assoc_has_get _ _ _ Hst). change (negb true) with false. cbv iota.
  rewrite (bind_ok _ _ (@update_table_spec T _ h w d tr c t Ht)).
  fold t1. fold d1. fold (handle a).
  rewrite (bind_ok _ _ Eloop).
  unfold onUpdateRecord. simpl. f_equal. f_equal.
  unfold d1. rewrite (@assoc_set_set _ _ _ string_eqb_spec). reflexivity.
Qed.

(** *** Declaring an index on a table without records *)

Lemma addIndex_empty T col h w d tr c t :
  assoc_get String.eqb T d = Some t ->
  records t = [] ->
  exists c',
    addIndex T col (mkDb h w d tr c)
    = Ok tt (mkDb h w
               (if assoc_has String.eqb col (indices t) then d
                else assoc_set String.eqb T
                       (set_indices (assoc_set String.eqb col [] (indices t)) t) d)
               tr c').
Proof.
  intros Ht Hr. unfold addIndex, table. simpl _data. rewrite Ht.
  destruct (assoc_has String.eqb col (indices t)).
  - eexists. reflexivity.
  - rewrite Hr. simpl map.
    rewrite (bind_ok _ _ (eq_refl : ret (@nil (DbValue * list DbValue))
                                      (mkDb h w d tr c) = Ok _ _)).
    rewrite (bind_ok _ _ (@update_table_spec T _ h w d tr c t Ht)).
    exists c. reflexivity.
Qed.


(** *** The invariant of the stores a client builds through the handles *)

Import Reach.
Local Unset Implicit Arguments.
Arguments ok_records {h w T t} _ id rec _.
Arguments ok_counter {h w T t} _ uid rec _.
Arguments ok_counter_pos {h w T t} _ last _.
Arguments ok_indices {h w T t} _ col ix _.
Arguments ok_members {h w T t} _ col ix k x _ _.

Lemma distinct_keys_NoDup keys : distinct_keys keys = true -> NoDup keys.
Proof.
  induction keys as [|k keys IH]; simpl; intros H; [constructor|].
  apply andb_true_iff in H as [Hk Hrest]. constructor; [|now apply IH].
  intros Hin. apply negb_true_iff in Hk.
  assert (existsb (Key_eqb k) keys = true); [|congruence].
  apply existsb_exists. exists k. split; [exact Hin|].
  now destruct (Key_eqb_spec k k).
Qed.

Lemma literal_spec props :
  literal props = true ->
  Forall (fun p : Key * DbValue => primitive (snd p) = true) props /\
  NoDup (map fst props).
Proof.
  unfold literal. intros H. apply andb_true_iff in H as [Hp Hd]. split.
  - apply Forall_forall. intros p Hin.
    rewrite forallb_forall in Hp. now apply Hp.
  - now apply distinct_keys_NoDup.
Qed.

Lemma primitive_field props k :
  primitive_fields props -> primitive (raw_get (CObject props) k) = true.
Proof.
  intros Hp. simpl. destruct (assoc_get Key_eqb k props) as [v|] eqn:E;
    [|reflexivity].
  apply (assoc_get_In Key_eqb_spec) in E.
  unfold primitive_fields in Hp. rewrite Forall_forall in Hp.
  exact (Hp _ E).
Qed.

Lemma primitive_fields_set props k (v : DbValue) :
  primitive_fields props -> primitive v = true ->
  primitive_fields (assoc_set Key_eqb k v props).
Proof.
  intros Hp Hv. induction props as [|[k0 v0] props IH]; simpl.
  - repeat constructor. exact Hv.
  - inversion Hp as [|? ? H0 Hrest]; subst.
    destruct (Key_eqb k k0); constructor; auto. now apply IH.
Qed.

Lemma primitive_fields_del props k :
  primitive_fields props -> primitive_fields (assoc_del Key_eqb k props).
Proof.
  intros Hp. induction props as [|[k0 v0] props IH]; simpl; [constructor|].
  inversion Hp as [|? ? H0 Hrest]; subst.
  destruct (Key_eqb k k0); [exact Hrest|]. constructor; auto. now apply IH.
Qed.

Lemma wrapped_primitive (v : DbValue) : primitive v = true -> wrapped_value v = v.
Proof. now destruct v. Qed.

Lemma strict_eq_primitive (v k : DbValue) :
  primitive v = true -> k <> VNaN -> strict_eq v k = true <-> v = k.
Proof.
  intros Hv Hk. unfold strict_eq.
  destruct v, k; simpl in *; try discriminate; try congruence;
    try (split; [discriminate|congruence]); try tauto.
  - destruct b, b0; simpl; split; congruence.
  - rewrite Z.eqb_eq. split; congruence.
  - rewrite String.eqb_eq. split; congruence.
  - rewrite Z.eqb_eq. split; congruence.
  - rewrite Nat.eqb_eq. split; congruence.
  - rewrite Nat.eqb_eq. split; congruence.
Qed.

Lemma strict_eq_undefined (v : DbValue) : strict_eq v VUndef = true <-> v = VUndef.
Proof. destruct v; simpl; split; congruence. Qed.

Lemma store_ok_inv db : store_ok db <-> inv (heap db) (_wrapped db) (_data db).
Proof. reflexivity. Qed.

Lemma record_at_frame h w h' w' T id rec :
  record_at h w T id rec ->
  (forall a, rec = VObj (Raw a) -> nth_error h' a = nth_error h a) ->
  cache_grows w w' ->
  record_at h' w' T id rec.
Proof.
  intros (uid & a & props & -> & -> & Hpos & Hc & Hp & Hnd & Hid & Hcl) Hh Hw.
  exists uid, a, props. repeat (split; [assumption || reflexivity|]).
  split; [now rewrite (Hh a eq_refl)|].
  repeat (split; [assumption|]). now apply Hw.
Qed.

Lemma holds_frame h h' recs col k a :
  (forall id a0, In (id, VObj (Raw a0)) recs -> nth_error h' a0 = nth_error h a0) ->
  holds h' recs col k a <-> holds h recs col k a.
Proof.
  intros Hh. unfold holds. split; intros (id & props & Hin & Hc & Hv);
    exists id, props; (split; [exact Hin|]); (split; [|exact Hv]).
  - now rewrite <- (Hh _ _ Hin).
  - now rewrite (Hh _ _ Hin).
Qed.

Lemma index_ok_frame h h' recs col ix :
  (forall id a0, In (id, VObj (Raw a0)) recs -> nth_error h' a0 = nth_error h a0) ->
  index_ok h recs col ix -> index_ok h' recs col ix.
Proof.
  intros Hh Hix k Hk. destruct (Hix k Hk) as [Hnd Hmem]. split; [exact Hnd|].
  intros x. rewrite Hmem. split; intros (a & -> & Ha); exists a;
    (split; [reflexivity|]); now apply (holds_frame h h' recs col k a Hh).
Qed.

Lemma table_ok_frame h w h' w' T t :
  table_ok h w T t ->
  (forall id a0, In (id, VObj (Raw a0)) (records t) ->
     nth_error h' a0 = nth_error h a0) ->
  cache_grows w w' ->
  length h <= length h' ->
  table_ok h' w' T t.
Proof.
  intros [Hrec Hids Hcnt Hpos Hcols Hix Hmem] Hh Hw Hlen.
  constructor; try assumption.
  - intros id rec Hin. eapply record_at_frame; [exact (Hrec _ _ Hin)| |exact Hw].
    intros a ->. exact (Hh _ _ Hin).
  - intros col ix Hget. eapply index_ok_frame; [exact Hh|]. now apply Hix.
  - intros col ix k x Hget Hin. destruct (Hmem col ix k x Hget Hin) as (a & -> & Ha).
    exists a. split; [reflexivity|lia].
Qed.

(** What [bucket_add] and [bucket_delete] leave in the buckets. *)
Lemma members_add (P : DbValue -> Prop) v rec ix :
  (forall k x, In x (index_lookup ix k) -> P x) -> P rec ->
  forall k x, In x (index_lookup (bucket_add v rec ix) k) -> P x.
Proof.
  intros Hix Hrec k x Hin. apply bucket_after_add in Hin as [[_ ->]|Hin];
    [exact Hrec|exact (Hix k x Hin)].
Qed.

Lemma members_delete (P : DbValue -> Prop) v rec ix :
  (forall k x, In x (index_lookup ix k) -> P x) ->
  forall k x, In x (index_lookup (bucket_delete v rec ix) k) -> P x.
Proof.
  intros Hix k x Hin. rewrite index_lookup_bucket_delete in Hin.
  destruct (same_value_spec k v) as [->|Hne]; [|exact (Hix k x Hin)].
  apply set_del_subset in Hin. exact (Hix v x Hin).
Qed.

(** A stored record, as the invariant describes it. *)
Lemma stored_record h w T t id rec :
  table_ok h w T t -> In (id, rec) (records t) ->
  exists uid a props,
    id = VBig uid /\ rec = VObj (Raw a) /\ (0 < uid)%Z /\
    nth_error h a = Some (CObject props) /\
    primitive_fields props /\ NoDup (map fst props) /\
    assoc_get Key_eqb UniqueID props = Some (VBig uid) /\
    assoc_get Ref_eqb (Raw a) w = Some (mkClosure T (Raw a) None) /\
    assoc_get same_value (VBig uid) (records t) = Some (VObj (Raw a)).
Proof.
  intros Hok Hin.
  destruct (ok_records Hok _ _ Hin)
    as (uid & a & props & -> & -> & Hpos & Hc & Hp & Hnd & Hid & Hcl).
  exists uid, a, props. repeat (split; [assumption || reflexivity|]).
  exact (In_assoc_get same_value_spec (ok_ids Hok) Hin).
Qed.

(** An object is a record of one table only. *)
Lemma one_owner h w T t T0 t0 id id0 a :
  table_ok h w T t -> table_ok h w T0 t0 ->
  In (id, VObj (Raw a)) (records t) -> In (id0, VObj (Raw a)) (records t0) ->
  T0 = T.
Proof.
  intros Hok Hok0 Hin Hin0.
  destruct (stored_record _ _ _ _ _ _ Hok Hin)
    as (uid & a1 & props & _ & [= <-] & _ & _ & _ & _ & _ & Hcl & _).
  destruct (stored_record _ _ _ _ _ _ Hok0 Hin0)
    as (uid0 & a2 & props0 & _ & [= <-] & _ & _ & _ & _ & _ & Hcl0 & _).
  congruence.
Qed.

(** The identifier of a stored record is the one written on the object. *)
Lemma one_identifier h w T t id id0 a :
  table_ok h w T t ->
  In (id, VObj (Raw a)) (records t) -> In (id0, VObj (Raw a)) (records t) ->
  id0 = id.
Proof.
  intros Hok Hin Hin0.
  destruct (stored_record _ _ _ _ _ _ Hok Hin)
    as (uid & a1 & props & -> & [= <-] & _ & Hc & _ & _ & Hid & _).
  destruct (stored_record _ _ _ _ _ _ Hok Hin0)
    as (uid0 & a2 & props0 & -> & [= <-] & _ & Hc0 & _ & _ & Hid0 & _).
  congruence.
Qed.

(** What [getRecord] returns when it returns an object: the handle of a
    stored record, and the state as it was. *)
Lemma getRecord_handle T id hd db db1 :
  store_ok db ->
  getRecord T id true db = Ok (VObj hd) db1 ->
  db1 = db /\
  exists a t, hd = Prox (Raw a) /\ table T db = Some t /\
              In (VBig id, VObj (Raw a)) (records t).
Proof.
  intros [Htab _] E. unfold getRecord in E.
  destruct (table T db) as [t|] eqn:Ht.
  2:{ unfold bind, logError in E. simpl in E. discriminate. }
  destruct (assoc_get same_value (VBig id) (records t)) as [rec|] eqn:Hrec;
    [|discriminate].
  apply (assoc_get_In same_value_spec) in Hrec.
  destruct (stored_record _ _ _ _ _ _ (Htab _ _ Ht) Hrec)
    as (uid & a & props & _ & -> & _ & _ & _ & _ & _ & Hcl & _).
  simpl truthy in E. cbv iota in E.
  rewrite (bind_ok _ _ (eq_refl : as_ref (VObj (Raw a)) db = Ok (Raw a) db)) in E.
  rewrite (wrapRecord_cached T a db Hcl) in E.
  injection E as <- <-. split; [reflexivity|].
  exists a, t. auto.
Qed.


(** The invariant after one table was replaced or created. *)
Lemma inv_update h w d h' w' T t' :
  inv h w d ->
  table_ok h' w' T t' ->
  cache_grows w w' ->
  (forall r cl, assoc_get Ref_eqb r w' = Some cl -> base r < length h') ->
  (forall T0 t0 id a0, T0 <> T -> assoc_get String.eqb T0 d = Some t0 ->
     In (id, VObj (Raw a0)) (records t0) -> nth_error h' a0 = nth_error h a0) ->
  length h <= length h' ->
  inv h' w' (assoc_set String.eqb T t' d).
Proof.
  intros (Htab & Hcache & Hnames) Hok Hw Hcache' Hother Hlen.
  split; [|split; [exact Hcache'|]].
  - intros T0 t0. rewrite (assoc_get_set string_eqb_spec).
    destruct (String.eqb_spec T0 T) as [->|Hne].
    + intros [= <-]. exact Hok.
    + intros Ht0. apply (table_ok_frame h w); [now apply Htab| |exact Hw|exact Hlen].
      intros id a0 Hin. exact (Hother T0 t0 id a0 Hne Ht0 Hin).
  - apply (NoDup_assoc_set string_eqb_spec). exact Hnames.
Qed.

Lemma holds_record h w T t uid a props col k :
  table_ok h w T t ->
  In (VBig uid, VObj (Raw a)) (records t) ->
  nth_error h a = Some (CObject props) ->
  holds h (records t) col k a <-> raw_get (CObject props) (KStr col) = k.
Proof.
  intros Hok Hin Hc. split.
  - intros (id & props0 & _ & Hc0 & Hv). congruence.
  - intros Hv. exists (VBig uid), props. auto.
Qed.

(** A field of a stored record changes from [old] to [new], and
    [onUpdateRecord] moves the handle between the buckets. *)
Lemma inv_field_update h w d T t uid a props props' f key new :
  inv h w d ->
  assoc_get String.eqb T d = Some t ->
  In (VBig uid, VObj (Raw a)) (records t) ->
  nth_error h a = Some (CObject props) ->
  f (CObject props) = CObject props' ->
  primitive_fields props' -> NoDup (map fst props') ->
  assoc_get Key_eqb UniqueID props' = assoc_get Key_eqb UniqueID props ->
  (forall col, raw_get (CObject props') (KStr col)
               = if String.eqb col key then new
                 else raw_get (CObject props) (KStr col)) ->
  inv (list_update a f h) w
      (reindex_data T (KStr key) (raw_get (CObject props) (KStr key)) new
                    (handle a) d).
Proof.
  intros Hinv Ht Hin Hc Hf Hp' Hnd' Hid' Hval.
  pose proof Hinv as (Htab & Hcache & Hnames). pose proof (Htab _ _ Ht) as Hok.
  set (old := raw_get (CObject props) (KStr key)).
  set (h' := list_update a f h).
  assert (Hc' : nth_error h' a = Some (CObject props')).
  { unfold h'. rewrite (nth_error_list_update_eq _ _ _ Hc). now rewrite Hf. }
  assert (Hrest : forall a0, a0 <> a -> nth_error h' a0 = nth_error h a0).
  { intros a0 Hne. apply nth_error_list_update_neq. congruence. }
  set (t' := match assoc_get String.eqb key (indices t) with
             | Some ix =>
                 set_indices
                   (assoc_set String.eqb key
                      (bucket_add new (handle a) (bucket_delete old (handle a) ix))
                      (indices t)) t
             | None => t
             end).
  assert (Ed : reindex_data T (KStr key) old new (handle a) d
               = assoc_set String.eqb T t' d).
  { unfold reindex_data, t'. rewrite Ht.
    destruct (assoc_get String.eqb key (indices t)); [reflexivity|].
    symmetry. exact (assoc_set_same string_eqb_spec Ht). }
  rewrite Ed. clear Ed.
  assert (Erecs : records t' = records t).
  { unfold t'. now destruct (assoc_get String.eqb key (indices t)). }
  assert (Elast : lastUID t' = lastUID t).
  { unfold t'. now destruct (assoc_get String.eqb key (indices t)). }
  assert (Hthis : forall k a0,
            holds h' (records t) key k a0
            <-> (a0 = a /\ k = new) \/ (a0 <> a /\ holds h (records t) key k a0)).
  { intros k a0. destruct (Nat.eq_dec a0 a) as [->|Hne].
    - split.
      + intros (id & props0 & _ & Hc0 & Hv). left. split; [reflexivity|].
        rewrite Hc' in Hc0. injection Hc0 as <-.
        rewrite Hval, String.eqb_refl in Hv. congruence.
      + intros [[_ ->]|[Hne _]]; [|congruence].
        exists (VBig uid), props'. split; [exact Hin|]. split; [exact Hc'|].
        now rewrite Hval, String.eqb_refl.
    - unfold holds. rewrite (Hrest a0 Hne). tauto. }
  assert (Hother : forall col k a0, col <> key ->
            holds h' (records t) col k a0 <-> holds h (records t) col k a0).
  { intros col k a0 Hcol. destruct (Nat.eq_dec a0 a) as [->|Hne].
    - split; intros (id & props0 & Hin0 & Hc0 & Hv); exists id.
      + exists props. split; [exact Hin0|]. split; [exact Hc|].
        rewrite Hc' in Hc0. injection Hc0 as <-. rewrite Hval in Hv.
        destruct (String.eqb_spec col key); [contradiction|exact Hv].
      + exists props'. split; [exact Hin0|]. split; [exact Hc'|].
        rewrite Hc in Hc0. injection Hc0 as <-. rewrite Hval.
        destruct (String.eqb_spec col key); [contradiction|exact Hv].
    - unfold holds. rewrite (Hrest a0 Hne). tauto. }
  assert (Hkeep : forall col ix, col <> key ->
            index_ok h (records t) col ix -> index_ok h' (records t) col ix).
  { intros col ix Hcol Hix k Hk. destruct (Hix k Hk) as [Hnd Hmem].
    split; [exact Hnd|]. intros x. rewrite Hmem.
    split; intros (a0 & -> & Ha); exists a0; (split; [reflexivity|]);
      now apply (Hother col k a0 Hcol). }
  apply (inv_update h w d h' w T t' Hinv); [|apply cache_grows_refl| | |].
  - constructor.
    + rewrite Erecs. intros id rec Hin0.
      destruct (stored_record _ _ _ _ _ _ Hok Hin0)
        as (uid0 & a0 & props0 & -> & -> & Hpos & Hc0 & Hp0 & Hnd0 & Hid0 & Hcl0 & _).
      destruct (Nat.eq_dec a0 a) as [->|Hne].
      * exists uid0, a, props'. repeat (split; [assumption || reflexivity|]).
        split; [congruence|exact Hcl0].
      * exists uid0, a0, props0. repeat (split; [assumption || reflexivity|]).
        split; [now rewrite (Hrest a0 Hne)|]. repeat (split; [assumption|]).
        exact Hcl0.
    + rewrite Erecs. exact (ok_ids Hok).
    + rewrite Erecs, Elast. exact (ok_counter Hok).
    + rewrite Elast. exact (ok_counter_pos Hok).
    + unfold t'. destruct (assoc_get String.eqb key (indices t)); simpl.
      * apply (NoDup_assoc_set string_eqb_spec). exact (ok_columns Hok).
      * exact (ok_columns Hok).
    + rewrite Erecs. intros col ixc. unfold t'.
      destruct (assoc_get String.eqb key (indices t)) as [ix|] eqn:Eix; simpl.
      * rewrite (assoc_get_set string_eqb_spec).
        destruct (String.eqb_spec col key) as [->|Hcol].
        -- intros [= <-]. pose proof (ok_indices Hok _ _ Eix) as Hix.
           intros k Hk. destruct (Hix k Hk) as [Hnd Hmem]. split.
           { apply bucket_after_add_NoDup, bucket_after_delete_NoDup, Hnd. }
           intros x. rewrite bucket_after_add, (bucket_after_delete _ _ _ _ _ Hnd).
           rewrite Hmem. split.
           ++ intros [[-> ->]|[(a0 & -> & Ha) Hnot]].
              ** exists a. split; [reflexivity|]. apply Hthis. now left.
              ** exists a0. split; [reflexivity|]. apply Hthis. right.
                 split; [|exact Ha]. intros ->. apply Hnot. split; [|reflexivity].
                 apply (holds_record h w T t uid a props key k Hok Hin Hc) in Ha.
                 now symmetry.
           ++ intros (a0 & -> & Ha). apply Hthis in Ha as [[-> ->]|[Hne Ha]].
              ** now left.
              ** right. split; [now exists a0|]. intros [_ [= E]]. congruence.
        -- intros Hget. apply Hkeep; [exact Hcol|]. exact (ok_indices Hok _ _ Hget).
      * intros Hget. apply Hkeep; [|exact (ok_indices Hok _ _ Hget)].
        intros ->. congruence.
    + intros col ixc k x. unfold h', t'. rewrite length_list_update.
      destruct (assoc_get String.eqb key (indices t)) as [ix|] eqn:Eix; simpl;
        [|exact (ok_members Hok col ixc k x)].
      rewrite (assoc_get_set string_eqb_spec).
      destruct (String.eqb_spec col key) as [->|Hcol];
        [|exact (ok_members Hok col ixc k x)].
      intros [= <-]. revert k x. apply members_add; [apply members_delete|].
      * intros k x. exact (ok_members Hok key ix k x Eix).
      * exists a. split; [reflexivity|]. apply nth_error_Some. congruence.
  - intros r cl Hr. unfold h'. rewrite length_list_update. exact (Hcache _ _ Hr).
  - intros T0 t0 id a0 HT Ht0 Hin0. apply Hrest. intros ->.
    apply HT. exact (one_owner h w T t T0 t0 _ _ a Hok (Htab _ _ Ht0) Hin Hin0).
  - unfold h'. rewrite length_list_update. apply Nat.le_refl.
Qed.


Lemma In_assoc_del_iff (k id rec : DbValue) (l : list (DbValue * DbValue)) :
  NoDup (map fst l) ->
  In (id, rec) (assoc_del same_value k l) <-> id <> k /\ In (id, rec) l.
Proof.
  intros Hnd. split.
  - intros Hin. split; [|eapply In_assoc_del; exact Hin].
    assert (Hnd' : NoDup (map fst (assoc_del same_value k l))).
    { apply NoDup_assoc_del. exact Hnd. }
    apply (In_assoc_get same_value_spec Hnd') in Hin.
    rewrite (assoc_get_del same_value_spec id k Hnd) in Hin.
    destruct (same_value_spec id k); congruence.
  - intros [Hne Hin]. apply (assoc_get_In same_value_spec).
    rewrite (assoc_get_del same_value_spec id k Hnd).
    destruct (same_value_spec id k); [contradiction|].
    exact (In_assoc_get same_value_spec Hnd Hin).
Qed.

Lemma changed_index_lookup change key_of rec ixs col ixc :
  NoDup (map fst ixs) ->
  assoc_get String.eqb col
    (fold_left (index_step change key_of rec) (map fst ixs) ixs) = Some ixc ->
  exists ix, assoc_get String.eqb col ixs = Some ix /\
             ixc = if strict_eq (key_of col) VUndef then ix
                   else change (key_of col) rec ix.
Proof.
  intros Hnd. rewrite index_loop_all by assumption.
  destruct (assoc_get String.eqb col ixs) as [ix|]; [|discriminate].
  simpl. intros [= <-]. exists ix. split; reflexivity.
Qed.

(** A fresh object literal becomes a record, under an identifier [uid] that
    is not in use; the counter of the table goes to [last']. *)
Lemma inv_insert h w d T t props uid last' :
  inv h w d ->
  assoc_get String.eqb T d = Some t ->
  primitive_fields props -> NoDup (map fst props) ->
  (0 < uid)%Z ->
  assoc_get same_value (VBig uid) (records t) = None ->
  (uid <= last')%Z ->
  (forall l, lastUID t = Some l -> (l <= last')%Z) ->
  let a := length h in
  inv (list_update a (raw_set UniqueID (VBig uid)) (h ++ [CObject props]))
      (w ++ [(Raw a, mkClosure T (Raw a) None)])
      (assoc_set String.eqb T
         (inserted (mkTable (records t) (indices t) (Some last')) uid
                   (VObj (Raw a)) (handle a) (index_key_of true props)) d).
Proof.
  intros Hinv Ht Hp Hnd Hpos Hnew Hle' Hlast' a.
  pose proof Hinv as (Htab & Hcache & Hnames). pose proof (Htab _ _ Ht) as Hok.
  set (props1 := assoc_set Key_eqb UniqueID (VBig uid) props).
  set (h' := list_update a (raw_set UniqueID (VBig uid)) (h ++ [CObject props])).
  set (w' := w ++ [(Raw a, mkClosure T (Raw a) None)]).
  assert (Hc' : nth_error h' a = Some (CObject props1)).
  { assert (E : nth_error (h ++ [CObject props]) a = Some (CObject props)).
    { unfold a. rewrite nth_error_app2 by lia. now rewrite Nat.sub_diag. }
    unfold h'. now rewrite (nth_error_list_update_eq _ _ _ E). }
  assert (Hrest : forall a0 cell, nth_error h a0 = Some cell ->
                    a0 <> a /\ nth_error h' a0 = nth_error h a0).
  { intros a0 cell Hc0.
    assert (a0 < length h) by (apply nth_error_Some; congruence).
    split; [unfold a; lia|]. unfold h'.
    rewrite nth_error_list_update_neq by (unfold a; lia).
    now apply nth_error_app1. }
  assert (Hfresh : assoc_get Ref_eqb (Raw a) w = None).
  { destruct (assoc_get Ref_eqb (Raw a) w) as [cl|] eqn:E; [|reflexivity].
    apply Hcache in E. simpl in E. unfold a in E. lia. }
  assert (Hw : cache_grows w w').
  { intros r cl Hr. unfold w'. now rewrite assoc_get_app, Hr. }
  assert (Hcl : assoc_get Ref_eqb (Raw a) w' = Some (mkClosure T (Raw a) None)).
  { unfold w'. rewrite assoc_get_app, Hfresh. simpl. now rewrite Nat.eqb_refl. }
  assert (Erecs : assoc_set same_value (VBig uid) (VObj (Raw a)) (records t)
                  = records t ++ [(VBig uid, VObj (Raw a))]).
  { now apply assoc_set_fresh. }
  assert (Hold : forall id a0, In (id, VObj (Raw a0)) (records t) ->
                   a0 <> a /\ nth_error h' a0 = nth_error h a0).
  { intros id a0 Hin0.
    destruct (stored_record _ _ _ _ _ _ Hok Hin0)
      as (uid0 & a1 & props0 & _ & [= <-] & _ & Hc0 & _).
    exact (Hrest _ _ Hc0). }
  set (recs' := records t ++ [(VBig uid, VObj (Raw a))]).
  assert (Hholds : forall col k a0,
            holds h' recs' col k a0
            <-> (a0 = a /\ k = raw_get (CObject props) (KStr col))
                \/ holds h (records t) col k a0).
  { intros col k a0. unfold holds, recs'. split.
    - intros (id & props0 & Hin0 & Hc0 & Hv).
      apply in_app_iff in Hin0 as [Hin0|[[= <- <-]|[]]].
      + right. exists id, props0. split; [exact Hin0|].
        destruct (Hold _ _ Hin0) as [_ E]. rewrite <- E. auto.
      + left. split; [reflexivity|]. rewrite Hc' in Hc0. injection Hc0 as <-.
        rewrite <- Hv. apply raw_get_after_uid.
    - intros [[-> ->]|(id & props0 & Hin0 & Hc0 & Hv)].
      + exists (VBig uid), props1. split; [apply in_app_iff; right; now left|].
        split; [exact Hc'|]. apply raw_get_after_uid.
      + exists id, props0. split; [apply in_app_iff; now left|].
        destruct (Hold _ _ Hin0) as [_ E]. rewrite E. auto. }
  apply (inv_update h w d h' w' T _ Hinv); [|exact Hw| | |].
  - constructor; simpl; rewrite ?Erecs; fold recs'.
    + intros id rec Hin0. apply in_app_iff in Hin0 as [Hin0|[[= <- <-]|[]]].
      * apply (record_at_frame h w); [exact (ok_records Hok _ _ Hin0)| |exact Hw].
        intros a0 ->. exact (proj2 (Hold _ _ Hin0)).
      * exists uid, a, props1. repeat (split; [assumption || reflexivity|]).
        split; [now apply primitive_fields_set|].
        split; [apply (NoDup_assoc_set Key_eqb_spec); exact Hnd|].
        split; [|exact Hcl]. unfold props1.
        rewrite (assoc_get_set Key_eqb_spec). now destruct (Key_eqb_spec UniqueID UniqueID).
    + unfold recs'. rewrite <- Erecs.
      apply (NoDup_assoc_set same_value_spec). exact (ok_ids Hok).
    + intros uid0 rec Hin0. exists last'. split; [reflexivity|].
      apply in_app_iff in Hin0 as [Hin0|[[= <- <-]|[]]]; [|exact Hle'].
      destruct (ok_counter Hok uid0 rec Hin0) as (last & El & Hle).
      pose proof (Hlast' last El). lia.
    + intros last [= <-]. lia.
    + unfold populated, populate_step. rewrite index_loop_keys.
      exact (ok_columns Hok).
    + intros col ixc Hget. unfold populated, populate_step in Hget.
      apply changed_index_lookup in Hget as (ix & Hix & ->);
        [|exact (ok_columns Hok)].
      pose proof (ok_indices Hok col ix Hix) as Hixok.
      unfold index_key_of.
      rewrite (wrapped_primitive _ (primitive_field props (KStr col) Hp)).
      set (v := raw_get (CObject props) (KStr col)).
      intros k Hk. destruct (Hixok k Hk) as [Hndk Hmem].
      destruct (strict_eq v VUndef) eqn:Ev.
      * apply strict_eq_undefined in Ev. split; [exact Hndk|].
        intros x. rewrite Hmem. split; intros (a0 & -> & Ha); exists a0;
          (split; [reflexivity|]).
        -- apply Hholds. now right.
        -- apply Hholds in Ha as [[_ E]|Ha]; [|exact Ha].
           fold v in E. congruence.
      * split; [now apply bucket_after_add_NoDup|].
        intros x. rewrite bucket_after_add, Hmem. split.
        -- intros [[-> ->]|(a0 & -> & Ha)].
           ++ exists a. split; [reflexivity|]. apply Hholds. now left.
           ++ exists a0. split; [reflexivity|]. apply Hholds. now right.
        -- intros (a0 & -> & Ha). apply Hholds in Ha as [[-> ->]|Ha].
           ++ now left.
           ++ right. now exists a0.
    + intros col ixc k x Hget. unfold populated, populate_step in Hget.
      apply changed_index_lookup in Hget as (ix & Hix & ->);
        [|exact (ok_columns Hok)].
      assert (Hlen : length h' = S (length h)).
      { unfold h'. rewrite length_list_update, length_app. simpl. lia. }
      assert (Hbefore : forall k x, In x (index_lookup ix k) ->
                          exists a0, x = handle a0 /\ a0 < length h').
      { intros k0 x0 Hin0.
        destruct (ok_members Hok col ix k0 x0 Hix Hin0) as (a0 & -> & Ha0).
        exists a0. split; [reflexivity|lia]. }
      destruct (strict_eq (index_key_of true props col) VUndef);
        [exact (Hbefore k x)|].
      revert k x. apply members_add; [exact Hbefore|].
      exists a. split; [reflexivity|]. unfold a. lia.
  - intros r cl. unfold w'. rewrite assoc_get_app.
    assert (Hlen : length h' = S (length h)).
    { unfold h'. rewrite length_list_update, length_app. simpl. lia. }
    destruct (assoc_get Ref_eqb r w) as [cl0|] eqn:E.
    + intros _. apply Hcache in E. lia.
    + simpl. destruct (Ref_eqb_spec r (Raw a)) as [->|]; [|discriminate].
      intros _. simpl. unfold a. lia.
  - intros T0 t0 id a0 HT Ht0 Hin0.
    destruct (stored_record _ _ _ _ _ _ (Htab _ _ Ht0) Hin0)
      as (uid0 & a1 & props0 & _ & [= <-] & _ & Hc0 & _).
    exact (proj2 (Hrest _ _ Hc0)).
  - unfold h'. rewrite length_list_update, length_app. lia.
Qed.

Lemma inv_addRecord h w d T t props :
  inv h w d ->
  assoc_get String.eqb T d = Some t ->
  primitive_fields props -> NoDup (map fst props) ->
  let a := length h in
  let uid := next_uid (lastUID t) in
  inv (list_update a (raw_set UniqueID (VBig uid)) (h ++ [CObject props]))
      (w ++ [(Raw a, mkClosure T (Raw a) None)])
      (assoc_set String.eqb T
         (inserted (mkTable (records t) (indices t) (Some uid)) uid
                   (VObj (Raw a)) (handle a) (index_key_of true props)) d).
Proof.
  intros Hinv Ht Hp Hnd a uid.
  pose proof (proj1 Hinv _ _ Ht) as Hok.
  apply (inv_insert h w d T t props uid uid Hinv Ht Hp Hnd).
  - unfold uid. destruct (lastUID t) as [last|] eqn:El; simpl; [|lia].
    pose proof (ok_counter_pos Hok last El). lia.
  - destruct (assoc_get same_value (VBig uid) (records t)) as [rec|] eqn:E;
      [|reflexivity].
    apply (assoc_get_In same_value_spec) in E.
    destruct (ok_counter Hok uid rec E) as (last & El & Hle).
    unfold uid in Hle. rewrite El in Hle. simpl in Hle. lia.
  - lia.
  - intros l El. unfold uid. rewrite El. simpl. lia.
Qed.

Lemma inv_setRecord h w d T t props uid :
  inv h w d ->
  assoc_get String.eqb T d = Some t ->
  primitive_fields props -> NoDup (map fst props) ->
  (0 < uid)%Z ->
  assoc_get same_value (VBig uid) (records t) = None ->
  let a := length h in
  inv (list_update a (raw_set UniqueID (VBig uid)) (h ++ [CObject props]))
      (w ++ [(Raw a, mkClosure T (Raw a) None)])
      (assoc_set String.eqb T
         (inserted (mkTable (records t) (indices t) (advanced (lastUID t) uid)) uid
                   (VObj (Raw a)) (handle a) (index_key_of true props)) d).
Proof.
  intros Hinv Ht Hp Hnd Hpos Hnew a.
  pose proof (proj1 Hinv _ _ Ht) as Hok.
  assert (E : exists last', advanced (lastUID t) uid = Some last' /\
                (uid <= last')%Z /\
                forall l, lastUID t = Some l -> (l <= last')%Z).
  { unfold advanced. destruct (lastUID t) as [l|] eqn:El.
    - pose proof (ok_counter_pos Hok l El).
      destruct (Z.eqb_spec l 0); [lia|]. simpl.
      destruct (Z.ltb_spec l uid).
      + exists uid. split; [reflexivity|]. split; [lia|]. intros l0 [= <-]. lia.
      + exists l. split; [reflexivity|]. split; [lia|]. intros l0 [= <-]. lia.
    - exists uid. split; [reflexivity|]. split; [lia|]. discriminate. }
  destruct E as (last' & -> & Hle & Hlast).
  exact (inv_insert h w d T t props uid last' Hinv Ht Hp Hnd Hpos Hnew Hle Hlast).
Qed.


(** A stored record is removed through its handle. *)
Lemma inv_removeRecord h w d T t uid a props :
  inv h w d ->
  assoc_get String.eqb T d = Some t ->
  In (VBig uid, VObj (Raw a)) (records t) ->
  nth_error h a = Some (CObject props) ->
  inv h w (assoc_set String.eqb T
             (removed t uid (handle a) (index_key_of true props)) d).
Proof.
  intros Hinv Ht Hin Hc.
  pose proof Hinv as (Htab & Hcache & Hnames). pose proof (Htab _ _ Ht) as Hok.
  destruct (stored_record _ _ _ _ _ _ Hok Hin)
    as (uid0 & a0 & props0 & [= <-] & [= <-] & Hpos & Hc0 & Hp & Hnd & Hid & Hcl & _).
  rewrite Hc in Hc0. injection Hc0 as <-.
  set (recs' := assoc_del same_value (VBig uid) (records t)).
  assert (Hrecs : forall id rec, In (id, rec) recs'
                    <-> id <> VBig uid /\ In (id, rec) (records t)).
  { intros id rec. apply In_assoc_del_iff. exact (ok_ids Hok). }
  assert (Hholds : forall col k a0,
            holds h recs' col k a0 <-> a0 <> a /\ holds h (records t) col k a0).
  { intros col k a0. unfold holds. split.
    - intros (id & props0 & Hin0 & Hc0 & Hv). apply Hrecs in Hin0 as [Hne Hin0].
      split; [|now exists id, props0]. intros ->.
      apply Hne. exact (one_identifier h w T t _ _ a Hok Hin Hin0).
    - intros (Hne & id & props0 & Hin0 & Hc0 & Hv). exists id, props0.
      split; [|auto]. apply Hrecs. split; [|exact Hin0]. intros ->.
      apply Hne.
      pose proof (In_assoc_get same_value_spec (ok_ids Hok) Hin) as E1.
      pose proof (In_assoc_get same_value_spec (ok_ids Hok) Hin0) as E2.
      congruence. }
  apply (inv_update h w d h w T _ Hinv);
    [|apply cache_grows_refl|exact Hcache|reflexivity|apply Nat.le_refl].
  - constructor; simpl; fold recs'.
    + intros id rec Hin0. apply Hrecs in Hin0 as [_ Hin0].
      exact (ok_records Hok _ _ Hin0).
    + apply NoDup_assoc_del. exact (ok_ids Hok).
    + intros uid0 rec Hin0. apply Hrecs in Hin0 as [_ Hin0].
      exact (ok_counter Hok _ _ Hin0).
    + exact (ok_counter_pos Hok).
    + unfold depopulated, depopulate_step. rewrite index_loop_keys.
      exact (ok_columns Hok).
    + intros col ixc Hget. unfold depopulated, depopulate_step in Hget.
      apply changed_index_lookup in Hget as (ix & Hix & ->);
        [|exact (ok_columns Hok)].
      pose proof (ok_indices Hok col ix Hix) as Hixok.
      unfold index_key_of.
      rewrite (wrapped_primitive _ (primitive_field props (KStr col) Hp)).
      set (v := raw_get (CObject props) (KStr col)).
      intros k Hk. destruct (Hixok k Hk) as [Hndk Hmem].
      assert (Hmine : forall a0, holds h (records t) col k a0 -> a0 = a -> k = v).
      { intros a0 Ha ->.
        apply (holds_record h w T t uid a props col k Hok Hin Hc) in Ha.
        now symmetry. }
      destruct (strict_eq v VUndef) eqn:Ev.
      * apply strict_eq_undefined in Ev. split; [exact Hndk|].
        intros x. rewrite Hmem. split; intros (a0 & -> & Ha); exists a0;
          (split; [reflexivity|]).
        -- apply Hholds. split; [|exact Ha]. intros E.
           apply Hk. rewrite <- Ev. exact (Hmine a0 Ha E).
        -- now apply Hholds in Ha.
      * split; [now apply bucket_after_delete_NoDup|].
        intros x. rewrite (bucket_after_delete _ _ _ _ _ Hndk), Hmem. split.
        -- intros [(a0 & -> & Ha) Hnot]. exists a0. split; [reflexivity|].
           apply Hholds. split; [|exact Ha]. intros E. apply Hnot.
           split; [exact (Hmine a0 Ha E)|now rewrite E].
        -- intros (a0 & -> & Ha). apply Hholds in Ha as [Hne Ha].
           split; [now exists a0|]. intros [_ [= E]]. congruence.
    + intros col ixc k x Hget. unfold depopulated, depopulate_step in Hget.
      apply changed_index_lookup in Hget as (ix & Hix & ->);
        [|exact (ok_columns Hok)].
      destruct (strict_eq (index_key_of true props col) VUndef);
        [exact (ok_members Hok col ix k x Hix)|].
      revert k x. apply members_delete.
      intros k x. exact (ok_members Hok col ix k x Hix).
Qed.

(** A table is created, and an index declared on a table without records. *)
Lemma inv_new_table h w d T :
  inv h w d ->
  inv h w (assoc_set String.eqb T (mkTable [] [] None) d).
Proof.
  intros Hinv. pose proof Hinv as (Htab & Hcache & Hnames).
  apply (inv_update h w d h w T _ Hinv);
    [|apply cache_grows_refl|exact Hcache|reflexivity|apply Nat.le_refl].
  - constructor; simpl; try tauto; try constructor; discriminate.
Qed.

Lemma inv_addIndex_empty h w d T t col :
  inv h w d ->
  assoc_get String.eqb T d = Some t ->
  records t = [] ->
  inv h w (assoc_set String.eqb T
             (set_indices (assoc_set String.eqb col [] (indices t)) t) d).
Proof.
  intros Hinv Ht Hr. pose proof Hinv as (Htab & Hcache & Hnames).
  pose proof (Htab _ _ Ht) as Hok.
  apply (inv_update h w d h w T _ Hinv);
    [|apply cache_grows_refl|exact Hcache|reflexivity|apply Nat.le_refl].
  - constructor; simpl.
    + exact (ok_records Hok).
    + exact (ok_ids Hok).
    + exact (ok_counter Hok).
    + exact (ok_counter_pos Hok).
    + apply (NoDup_assoc_set string_eqb_spec). exact (ok_columns Hok).
    + intros col0 ix. rewrite (assoc_get_set string_eqb_spec).
      destruct (String.eqb_spec col0 col) as [->|Hne].
      * intros [= <-] k Hk. split; [constructor|]. intros x. simpl.
        split; [tauto|]. intros (a & _ & id & props & Hin & _).
        rewrite Hr in Hin. destruct Hin.
      * apply (ok_indices Hok).
    + intros col0 ix k x. rewrite (assoc_get_set string_eqb_spec).
      destruct (String.eqb_spec col0 col) as [->|Hne].
      * intros [= <-] [].
      * exact (ok_members Hok col0 ix k x).
Qed.

Lemma inv_removeIndex h w d T t col :
  inv h w d ->
  assoc_get String.eqb T d = Some t ->
  inv h w (assoc_set String.eqb T
             (set_indices (assoc_del String.eqb col (indices t)) t) d).
Proof.
  intros Hinv Ht. pose proof Hinv as (Htab & Hcache & Hnames).
  pose proof (Htab _ _ Ht) as Hok.
  apply (inv_update h w d h w T _ Hinv);
    [|apply cache_grows_refl|exact Hcache|reflexivity|apply Nat.le_refl].
  - constructor; simpl.
    + exact (ok_records Hok).
    + exact (ok_ids Hok).
    + exact (ok_counter Hok).
    + exact (ok_counter_pos Hok).
    + apply NoDup_assoc_del. exact (ok_columns Hok).
    + intros col0 ix. rewrite (assoc_get_del string_eqb_spec col0 col (ok_columns Hok)).
      destruct (String.eqb col0 col); [discriminate|]. apply (ok_indices Hok).
    + intros col0 ix k x.
      rewrite (assoc_get_del string_eqb_spec col0 col (ok_columns Hok)).
      destruct (String.eqb col0 col); [discriminate|].
      exact (ok_members Hok col0 ix k x).
Qed.


(** [records.map(record => this._wrapRecord(tableName, record))] *)
Lemma cache_with_get T rec col r w r0 cl :
  assoc_get Ref_eqb r0 (cache_with T rec col r w) = Some cl ->
  assoc_get Ref_eqb r0 w = Some cl \/ r0 = r.
Proof.
  unfold cache_with. destruct (assoc_has Ref_eqb r w); [now left|].
  rewrite assoc_get_app. destruct (assoc_get Ref_eqb r0 w); [now left|].
  simpl. destruct (Ref_eqb_spec r0 r); [now right|discriminate].
Qed.

Lemma wrap_all T l h d tr c :
  forall w,
  (forall x, In x l -> exists r, x = VObj r) ->
  exists w',
    map_m (fun record => r <- as_ref record ;; _wrapRecord T r) l (mkDb h w d tr c)
    = Ok (map wrapped_value l) (mkDb h w' d tr c) /\
    cache_grows w w' /\
    forall r cl, assoc_get Ref_eqb r w' = Some cl ->
                 assoc_get Ref_eqb r w = Some cl \/ In (VObj r) l.
Proof.
  induction l as [|x l IH]; intros w Hobj.
  - exists w. split; [reflexivity|]. split; [apply cache_grows_refl|].
    intros r cl Hr. now left.
  - destruct (Hobj x (or_introl eq_refl)) as (r & ->).
    destruct (wrap_spec T r None (VObj r) h w d tr c) as (w1 & E1 & Hg1 & _ & _ & Hx1).
    destruct (IH w1) as (w' & E' & Hg' & Hnew').
    { intros y Hy. apply Hobj. now right. }
    exists w'. split; [|split].
    + cbn [map_m].
      assert (Ex : (r0 <- as_ref (VObj r) ;; _wrapRecord T r0) (mkDb h w d tr c)
                   = Ok (wrapped_value (VObj r)) (mkDb h w1 d tr c)).
      { exact E1. }
      rewrite (bind_ok _ _ Ex). rewrite (bind_ok _ _ E'). reflexivity.
    + eapply cache_grows_trans; eassumption.
    + intros r0 cl Hr0. destruct (Hnew' r0 cl Hr0) as [Hin|Hin].
      * rewrite (Hx1 r eq_refl) in Hin. apply cache_with_get in Hin as [Hin| ->].
        -- now left.
        -- right. now left.
      * right. now right.
Qed.

Lemma linear_scan_spec col v h w d tr c l :
  (forall rec, In rec l ->
     exists a cell, rec = VObj (Raw a) /\ nth_error h a = Some cell) ->
  filter_m (fun record =>
      r <- as_ref record ;;
      v0 <- get r (KStr col) ;;
      ret (strict_eq v0 v)) l (mkDb h w d tr c)
  = Ok (filter (matching h col v) l) (mkDb h w d tr c).
Proof.
  induction l as [|x l IH]; intros Hobj; [reflexivity|].
  destruct (Hobj x (or_introl eq_refl)) as (a & cell & -> & Hc).
  cbn [filter_m filter matching]. rewrite Hc.
  assert (Ex : (r <- as_ref (VObj (Raw a)) ;;
                v0 <- get r (KStr col) ;;
                ret (strict_eq v0 v)) (mkDb h w d tr c)
               = Ok (strict_eq (raw_get cell (KStr col)) v) (mkDb h w d tr c)).
  { unfold bind. simpl. now rewrite Hc. }
  rewrite (bind_ok _ _ Ex). rewrite (bind_ok _ _ (IH (fun y Hy => Hobj y (or_intror Hy)))).
  reflexivity.
Qed.

Lemma address_wrapped (x : DbValue) : address (wrapped_value x) = address x.
Proof. now destruct x. Qed.

Lemma addresses_wrapped l : map address (map wrapped_value l) = map address l.
Proof.
  rewrite map_map. apply map_ext. exact address_wrapped.
Qed.

(** What [getRecordsByColumn] returns once the records are found. *)
Lemma materialized T (wrapped : bool) l h w d tr c :
  (forall x, In x l -> exists r, x = VObj r) ->
  exists found w',
    (if wrapped
     then map_m (fun record => r <- as_ref record ;; _wrapRecord T r) l
     else ret l) (mkDb h w d tr c) = Ok found (mkDb h w' d tr c) /\
    map address found = map address l /\
    (forall x, In x found -> exists r, x = VObj r) /\
    cache_grows w w' /\
    forall r cl, assoc_get Ref_eqb r w' = Some cl ->
                 assoc_get Ref_eqb r w = Some cl \/ In (VObj r) l.
Proof.
  intros Hobj. destruct wrapped.
  - destruct (wrap_all T l h d tr c w Hobj) as (w' & E & Hg & Hnew).
    exists (map wrapped_value l), w'. split; [exact E|].
    split; [apply addresses_wrapped|]. split; [|split; [exact Hg|exact Hnew]].
    intros x Hx. apply in_map_iff in Hx as (y & <- & Hy).
    destruct (Hobj y Hy) as (r & ->). now exists (Prox r).
  - exists l, w. split; [reflexivity|]. split; [reflexivity|].
    split; [exact Hobj|]. split; [apply cache_grows_refl|].
    intros r cl Hr. now left.
Qed.




(** The invariant under a growing cache, and without a table. *)
Lemma inv_cache h w d w' :
  inv h w d ->
  cache_grows w w' ->
  (forall r cl, assoc_get Ref_eqb r w' = Some cl -> base r < length h) ->
  inv h w' d.
Proof.
  intros (Htab & Hcache & Hnames) Hw Hcache'.
  split; [|split; [exact Hcache'|exact Hnames]].
  intros T t Ht. apply (table_ok_frame h w); [now apply Htab| |exact Hw|apply Nat.le_refl].
  reflexivity.
Qed.

Lemma inv_deleteTable h w d T :
  inv h w d -> inv h w (assoc_del String.eqb T d).
Proof.
  intros (Htab & Hcache & Hnames). split; [|split; [exact Hcache|]].
  - intros T0 t0. rewrite (assoc_get_del string_eqb_spec T0 T Hnames).
    destruct (String.eqb T0 T); [discriminate|]. apply Htab.
  - apply NoDup_assoc_del. exact Hnames.
Qed.

(** *** Every step of the client keeps the invariant *)

Lemma addIndex_loop T cols :
  forall h w d tr c t,
  inv h w d ->
  assoc_get String.eqb T d = Some t ->
  records t = [] ->
  exists d' c',
    for_each (fun key => addIndex T key) cols (mkDb h w d tr c)
    = Ok tt (mkDb h w d' tr c') /\ inv h w d'.
Proof.
  induction cols as [|col cols IH]; intros h w d tr c t Hinv Ht Hr.
  - exists d, c. split; [reflexivity|exact Hinv].
  - rewrite for_each_cons.
    destruct (@addIndex_empty T col h w d tr c t Ht Hr) as (c1 & ->).
    destruct (assoc_has String.eqb col (indices t)).
    + exact (IH h w d tr c1 t Hinv Ht Hr).
    + eapply IH.
      * exact (inv_addIndex_empty h w d T t col Hinv Ht Hr).
      * rewrite (assoc_get_set string_eqb_spec), String.eqb_refl. reflexivity.
      * exact Hr.
Qed.

Lemma Key_eqb_KStr a b : Key_eqb (KStr a) (KStr b) = String.eqb a b.
Proof. reflexivity. Qed.

Lemma Ok_state {S A} (a a' : A) (s s' : S) : Ok a s = Ok a' s' -> s' = s.
Proof. now intros [= _ ->]. Qed.

Lemma store_ok_parts h w d tr c : inv h w d -> store_ok (mkDb h w d tr c).
Proof. intros H. exact H. Qed.

Lemma step_preserves db db' : store_ok db -> step db db' -> store_ok db'.
Proof.
  intros Hok Hstep. destruct db as [h w d tr c].
  assert (Hinv : inv h w d) by exact Hok.
  pose proof Hinv as (Htab & Hcache & Hnames).
  destruct Hstep as [T cols _ _ Hempty E|T props a db1 hd _ _ Hlit Enew E
                    |T props a db1 uid hd _ _ Hlit Enew Hpos Hfree E
                    |T id hd db1 key v _ _ Eget Hv E|T id hd db1 key _ _ Eget E
                    |T id hd db1 _ Eget E|T col _ _ E|T _ E|T id wrapped v _ E
                    |T found _ E|T col v wrapped found _ _ E|E|E].
  - (* createTable *)
    unfold createTable in E. unfold table in Hempty. simpl in Hempty.
    destruct (assoc_get String.eqb T d) as [t|] eqn:Ht.
    + assert (E1 : (fun db : Db =>
                match table T db with
                | Some _ => Ok tt db
                | None =>
                    onUpdateTable T "added"
                      (set_data (assoc_set String.eqb T (mkTable [] [] None)
                                   (_data db)) db)
                end) (mkDb h w d tr c)
              = Ok tt (mkDb h w d tr c)).
      { unfold table. simpl. now rewrite Ht. }
      rewrite (bind_ok _ _ E1) in E.
      destruct (addIndex_loop T cols h w d tr c t Hinv Ht (Hempty t eq_refl))
        as (d' & c' & E' & Hinv').
      rewrite E' in E. apply Ok_state in E. subst db'. exact Hinv'.
    + assert (E1 : (fun db : Db =>
                match table T db with
                | Some _ => Ok tt db
                | None =>
                    onUpdateTable T "added"
                      (set_data (assoc_set String.eqb T (mkTable [] [] None)
                                   (_data db)) db)
                end) (mkDb h w d tr c)
              = Ok tt (mkDb h w (assoc_set String.eqb T (mkTable [] [] None) d) tr c)).
      { unfold table. simpl. now rewrite Ht. }
      rewrite (bind_ok _ _ E1) in E.
      assert (Hget : assoc_get String.eqb T
                       (assoc_set String.eqb T (mkTable [] [] None) d)
                     = Some (mkTable [] [] None)).
      { rewrite (assoc_get_set string_eqb_spec), String.eqb_refl. reflexivity. }
      destruct (addIndex_loop T cols h w _ tr c _ (inv_new_table h w d T Hinv)
                  Hget eq_refl) as (d' & c' & E' & Hinv').
      rewrite E' in E. apply Ok_state in E. subst db'. exact Hinv'.
  - (* addRecord *)
    injection Enew as <- <-. simpl heap in *.
    apply literal_spec in Hlit as [Hp Hnd].
    assert (Hc : nth_error (h ++ [CObject props]) (length h) = Some (CObject props)).
    { rewrite nth_error_app2 by lia. now rewrite Nat.sub_diag. }
    unfold set_heap in E. simpl in E.
    destruct (assoc_get String.eqb T d) as [t|] eqn:Ht.
    2:{ unfold addRecord, table in E. simpl in E. rewrite Ht in E. discriminate. }
    destruct (@addRecord_raw T (length h) props true (h ++ [CObject props])
                w d tr c t Hc Ht) as (w' & E' & _ & _ & Hex).
    rewrite E' in E. apply Ok_state in E. subst db'.
    rewrite Hex.
    2:{ intros col. unfold index_key_of. rewrite primitive_wrapped.
        now apply primitive_field. }
    apply store_ok_parts.
    assert (Ew : cache_with T (Raw (length h)) None (Raw (length h)) w
                 = w ++ [(Raw (length h), mkClosure T (Raw (length h)) None)]).
    { unfold cache_with, assoc_has.
      destruct (assoc_get Ref_eqb (Raw (length h)) w) as [cl|] eqn:Ecl;
        [|reflexivity].
      apply Hcache in Ecl. simpl in Ecl. lia. }
    rewrite Ew. exact (inv_addRecord h w d T t props Hinv Ht Hp Hnd).
  - (* setRecord *)
    injection Enew as <- <-. simpl heap in *.
    apply literal_spec in Hlit as [Hp Hnd].
    assert (Hc : nth_error (h ++ [CObject props]) (length h) = Some (CObject props)).
    { rewrite nth_error_app2 by lia. now rewrite Nat.sub_diag. }
    unfold set_heap in E. simpl in E. unfold table in Hfree. simpl in Hfree.
    destruct (assoc_get String.eqb T d) as [t|] eqn:Ht.
    2:{ unfold setRecord, table in E. simpl in E. rewrite Ht in E. discriminate. }
    destruct (@setRecord_raw T (length h) props uid true (h ++ [CObject props])
                w d tr c t Hc Ht) as (w' & E' & _ & _ & Hex).
    rewrite E' in E. apply Ok_state in E. subst db'.
    rewrite Hex.
    2:{ intros col. unfold index_key_of. rewrite primitive_wrapped.
        now apply primitive_field. }
    apply store_ok_parts.
    assert (Ew : cache_with T (Raw (length h)) None (Raw (length h)) w
                 = w ++ [(Raw (length h), mkClosure T (Raw (length h)) None)]).
    { unfold cache_with, assoc_has.
      destruct (assoc_get Ref_eqb (Raw (length h)) w) as [cl|] eqn:Ecl;
        [|reflexivity].
      apply Hcache in Ecl. simpl in Ecl. lia. }
    rewrite Ew.
    exact (inv_setRecord h w d T t props uid Hinv Ht Hp Hnd Hpos (Hfree t eq_refl)).
  - (* field assignment *)
    apply getRecord_handle in Eget as (-> & a & t & -> & Ht & Hin); [|exact Hok].
    unfold table in Ht. simpl in Ht.
    destruct (stored_record _ _ _ _ _ _ (Htab _ _ Ht) Hin)
      as (uid & a0 & props & [= <-] & [= <-] & Hpos & Hc & Hp & Hnd & Hid & Hcl & _).
    pose proof (@put_through_handle a (KStr key) v props _ h w d tr c Hc Hcl) as Hput.
    cbv zeta in Hput. destruct Hput as (w' & E' & _ & Hex).
    rewrite E' in E. apply Ok_state in E. subst db'. cbn [cl_record cl_tableName].
    rewrite Hex; [|exact Hv|now apply primitive_field|simpl; congruence].
    cbn [Ref_eqb]. rewrite Nat.eqb_refl.
    rewrite (wrapped_primitive _ Hv),
            (wrapped_primitive _ (primitive_field props (KStr key) Hp)).
    apply store_ok_parts.
    apply (inv_field_update h w d T t id a props
             (assoc_set Key_eqb (KStr key) v props) _ key v Hinv Ht Hin Hc).
    + reflexivity.
    + now apply primitive_fields_set.
    + apply (NoDup_assoc_set Key_eqb_spec). exact Hnd.
    + now rewrite (assoc_get_set Key_eqb_spec).
    + intros col. simpl. rewrite (assoc_get_set Key_eqb_spec), Key_eqb_KStr.
      now destruct (String.eqb col key).
  - (* field deletion *)
    apply getRecord_handle in Eget as (-> & a & t & -> & Ht & Hin); [|exact Hok].
    unfold table in Ht. simpl in Ht.
    destruct (stored_record _ _ _ _ _ _ (Htab _ _ Ht) Hin)
      as (uid & a0 & props & [= <-] & [= <-] & Hpos & Hc & Hp & Hnd & Hid & Hcl & _).
    pose proof (@delete_through_handle a (KStr key) props _ h w d tr c Hc Hcl) as Hdel.
    cbv zeta in Hdel. destruct Hdel as (w' & E' & _ & Hex).
    rewrite E' in E. apply Ok_state in E. subst db'. cbn [cl_record cl_tableName].
    rewrite Hex; [|now apply primitive_field|simpl; congruence].
    cbn [Ref_eqb]. rewrite Nat.eqb_refl.
    rewrite (wrapped_primitive _ (primitive_field props (KStr key) Hp)).
    apply store_ok_parts.
    apply (inv_field_update h w d T t id a props
             (assoc_del Key_eqb (KStr key) props) _ key VUndef Hinv Ht Hin Hc).
    + reflexivity.
    + now apply primitive_fields_del.
    + apply NoDup_assoc_del. exact Hnd.
    + now rewrite (assoc_get_del Key_eqb_spec _ _ Hnd).
    + intros col. simpl. rewrite (assoc_get_del Key_eqb_spec _ _ Hnd), Key_eqb_KStr.
      now destruct (String.eqb col key).
  - (* removeRecord *)
    apply getRecord_handle in Eget as (-> & a & t & -> & Ht & Hin); [|exact Hok].
    unfold table in Ht. simpl in Ht.
    destruct (stored_record _ _ _ _ _ _ (Htab _ _ Ht) Hin)
      as (uid & a0 & props & [= <-] & [= <-] & Hpos & Hc & Hp & Hnd & Hid & Hcl & Hst).
    destruct (@removeRecord_handle T a props id _ _ h w d tr c t Hc Hcl Hid
                ltac:(lia) Ht Hst) as (w' & E' & _ & Hex).
    unfold handle in E'. rewrite E' in E. apply Ok_state in E. subst db'.
    rewrite Hex.
    2:{ intros col. unfold index_key_of. rewrite primitive_wrapped.
        now apply primitive_field. }
    apply store_ok_parts.
    exact (inv_removeRecord h w d T t id a props Hinv Ht Hin Hc).
  - (* removeIndex *)
    unfold removeIndex, table in E. simpl in E.
    destruct (assoc_get String.eqb T d) as [t|] eqn:Ht.
    + destruct (assoc_has String.eqb col (indices t)).
      * rewrite (bind_ok _ _ (@update_table_spec T _ h w d tr c t Ht)) in E.
        apply Ok_state in E. subst db'. apply store_ok_parts.
        exact (inv_removeIndex h w d T t col Hinv Ht).
      * apply Ok_state in E. subst db'. exact Hinv.
    + apply Ok_state in E. subst db'. exact Hinv.
  - (* deleteTable *)
    unfold deleteTable, table in E. simpl in E.
    destruct (assoc_get String.eqb T d) as [t|] eqn:Ht.
    + apply Ok_state in E. subst db'. apply store_ok_parts.
      exact (inv_deleteTable h w d T Hinv).
    + apply Ok_state in E. subst db'. exact Hinv.
  - (* getRecord *)
    unfold getRecord, table in E. simpl _data in E.
    destruct (assoc_get String.eqb T d) as [t|] eqn:Ht.
    2:{ apply Ok_state in E. subst db'. exact Hinv. }
    destruct (assoc_get same_value (VBig id) (records t)) as [rec|] eqn:Hrec.
    2:{ apply Ok_state in E. subst db'. exact Hinv. }
    apply (assoc_get_In same_value_spec) in Hrec.
    destruct (stored_record _ _ _ _ _ _ (Htab _ _ Ht) Hrec)
      as (uid & a & props & _ & -> & _ & _ & _ & _ & _ & Hcl & _).
    cbn [truthy] in E. destruct wrapped.
    + rewrite (bind_ok _ _ (eq_refl : as_ref (VObj (Raw a)) (mkDb h w d tr c)
                                      = Ok (Raw a) (mkDb h w d tr c))) in E.
      rewrite (wrapRecord_cached T a (mkDb h w d tr c) Hcl) in E.
      apply Ok_state in E. subst db'. exact Hinv.
    + apply Ok_state in E. subst db'. exact Hinv.
  - (* getAllRecords *)
    unfold getAllRecords, bind, the_table, table in E. simpl in E.
    destruct (assoc_get String.eqb T d); [|discriminate].
    apply Ok_state in E. subst db'. exact Hinv.
  - (* getRecordsByColumn *)
    unfold getRecordsByColumn, table in E. simpl _data in E.
    destruct (assoc_get String.eqb T d) as [t|] eqn:Ht.
    2:{ apply Ok_state in E. subst db'. exact Hinv. }
    pose proof (Htab _ _ Ht) as Htok.
    assert (Hdone : forall l w0 d0,
              (forall x, In x l -> exists r, x = VObj r /\ base r < length h) ->
              inv h w0 d0 ->
              (if wrapped
               then map_m (fun record => r <- as_ref record ;; _wrapRecord T r) l
               else ret l) (mkDb h w0 d0 tr c) = Ok found db' ->
              store_ok db').
    { intros l w0 d0 Hl Hinv0 E0.
      destruct (materialized T wrapped l h w0 d0 tr c) as (f & w1 & E1 & _ & _ & Hg & Hnew).
      { intros x Hx. destruct (Hl x Hx) as (r & -> & _). now exists r. }
      rewrite E1 in E0. apply Ok_state in E0. subst db'. apply store_ok_parts.
      apply (inv_cache h w0 d0 w1 Hinv0 Hg).
      intros r cl Hr. destruct (Hnew r cl Hr) as [Hold|Hin].
      - destruct Hinv0 as (_ & Hc0 & _). exact (Hc0 r cl Hold).
      - destruct (Hl _ Hin) as (r0 & [= <-] & Hb). exact Hb. }
    destruct (assoc_get String.eqb col (indices t)) as [ix|] eqn:Hix.
    + rewrite (bind_ok _ _ (eq_refl : ret (index_lookup ix v) (mkDb h w d tr c)
                                      = Ok _ _)) in E.
      apply (Hdone (index_lookup ix v) w d); [|exact Hinv|exact E].
      intros x Hx. destruct (ok_members Htok col ix v x Hix Hx) as (a & -> & Ha).
      exists (Prox (Raw a)). split; [reflexivity|exact Ha].
    + assert (Hrecs : forall rec, In rec (map snd (records t)) ->
                exists a cell, rec = VObj (Raw a) /\ nth_error h a = Some cell).
      { intros rec Hin. apply in_map_iff in Hin as ([id rec0] & <- & Hin).
        destruct (stored_record _ _ _ _ _ _ Htok Hin)
          as (uid & a & props & _ & -> & _ & Hc & _).
        now exists a, (CObject props). }
      assert (Escan : linear_scan t col v (mkDb h w d tr c)
                      = Ok (filter (matching h col v) (map snd (records t)))
                           (mkDb h w d tr c)).
      { unfold linear_scan. exact (linear_scan_spec col v h w d tr c _ Hrecs). }
      rewrite (bind_ok _ _ Escan) in E.
      apply (Hdone (filter (matching h col v) (map snd (records t))) w d);
        [|exact Hinv|exact E].
      intros x Hx. apply filter_In in Hx as [Hx _].
      destruct (Hrecs x Hx) as (a & cell & -> & Hc). exists (Raw a).
      split; [reflexivity|]. simpl. apply nth_error_Some. congruence.
  - (* beginTransaction *)
    apply Ok_state in E. subst db'. exact Hinv.
  - (* commitTransaction *)
    unfold commitTransaction in E. simpl in E.
    destruct tr; [discriminate|]. apply Ok_state in E. subst db'. exact Hinv.
Qed.

Lemma new_Database_ok : store_ok new_Database.
Proof. split; [|split]; simpl; try discriminate. constructor. Qed.

Lemma reachable_ok db : reachable db -> store_ok db.
Proof.
  induction 1 as [|db db' _ IH Hstep]; [exact new_Database_ok|].
  exact (step_preserves db db' IH Hstep).
Qed.

Lemma forallb_any {A} (l : list A) : forallb (fun _ => true) l = true.
Proof. induction l; simpl; auto. Qed.

Lemma forallb_any_key (l : list Key) : forallb (plain_key (fun _ => true)) l = true.
Proof. induction l as [|[s|n] l IH]; simpl; auto. Qed.

(** A step with restricted names is a step. *)
Lemma step_of_any plain db db' : step_of plain db db' -> step db db'.
Proof.
  intros H.
  destruct H as [T cols _ _ Hempty E|T props a db1 hd _ _ Hlit Enew E
                |T props a db1 uid hd _ _ Hlit Enew Hpos Hfree E
                |T id hd db1 key v _ _ Eget Hv E|T id hd db1 key _ _ Eget E
                |T id hd db1 _ Eget E|T col _ _ E|T _ E|T id wrapped v _ E
                |T found _ E|T col v wrapped found _ _ E|E|E].
  - exact (@step_createTable _ _ _ T cols eq_refl (forallb_any cols) Hempty E).
  - exact (@step_addRecord _ _ _ T props a db1 hd eq_refl
             (forallb_any_key _) Hlit Enew E).
  - exact (@step_setRecord _ _ _ T props a db1 uid hd eq_refl
             (forallb_any_key _) Hlit Enew Hpos Hfree E).
  - exact (@step_assign _ _ _ T id hd db1 key v eq_refl eq_refl Eget Hv E).
  - exact (@step_delete _ _ _ T id hd db1 key eq_refl eq_refl Eget E).
  - exact (@step_removeRecord _ _ _ T id hd db1 eq_refl Eget E).
  - exact (@step_removeIndex _ _ _ T col eq_refl eq_refl E).
  - exact (@step_deleteTable _ _ _ T eq_refl E).
  - exact (@step_getRecord _ _ _ T id wrapped v eq_refl E).
  - exact (@step_getAllRecords _ _ _ T found eq_refl E).
  - exact (@step_getRecordsByColumn _ _ _ T col v wrapped found eq_refl eq_refl E).
  - exact (@step_begin _ _ _ E).
  - exact (@step_commit _ _ _ E).
Qed.

Lemma built_reachable db : built db -> reachable db.
Proof.
  induction 1 as [|db db' _ IH Hstep]; [exact reach_new|].
  exact (@reach_step db db' IH (@step_of_any _ db db' Hstep)).
Qed.


(** *** The index invariant and the two ways of looking records up *)

Lemma store_ok_index_invariant db : store_ok db -> index_invariant db.
Proof.
  intros [Htab _] T t Ht id rec Hin.
  pose proof (Htab T t Ht) as Hok.
  destruct (stored_record _ _ _ _ _ _ Hok Hin)
    as (uid & a & props & -> & -> & _ & Hc & _).
  exists a, props. split; [reflexivity|]. split; [exact Hc|].
  intros col ix Hix v. pose proof (ok_indices Hok col ix Hix) as Hixok. split.
  - intros Hv. apply (proj2 (Hixok v Hv)). exists a. split; [reflexivity|].
    now apply (holds_record _ _ _ _ uid a props col v Hok Hin Hc).
  - intros k Hk Hne Hmem. apply (proj2 (Hixok k Hk)) in Hmem as (a0 & [= <-] & Ha).
    apply (holds_record _ _ _ _ uid a props col k Hok Hin Hc) in Ha.
    apply Hne. now symmetry.
Qed.


Lemma users_3_reachable : reachable users_3.
Proof.
  apply (@reach_step users_2).
  - apply (@reach_step users_1).
    + apply (@reach_step new_Database); [apply reach_new|].
      apply (@step_createTable _ _ _ "users" ["email"]);
        [reflexivity|reflexivity|discriminate|reflexivity].
    + apply (@step_addRecord _ _ _ "users" john 0
               (state_of (new_object john users_1)) (handle 0)); reflexivity.
  - apply (@step_assign _ _ _ "users" 1 (Prox (Raw 0)) users_2 "email"
             (VStr "k@x.com")); reflexivity.
Qed.

Lemma users_3_built : built users_3.
Proof.
  apply (@built_step users_2).
  - apply (@built_step users_1).
    + apply (@built_step new_Database); [apply built_new|].
      apply (@step_createTable _ _ _ "users" ["email"]);
        [reflexivity|reflexivity|discriminate|reflexivity].
    + apply (@step_addRecord _ _ _ "users" john 0
               (state_of (new_object john users_1)) (handle 0)); reflexivity.
  - apply (@step_assign _ _ _ "users" 1 (Prox (Raw 0)) users_2 "email"
             (VStr "k@x.com")); reflexivity.
Qed.






(** *** Only the transaction controls change the stack of frames *)

Lemma kf_setRecord T record uid wrapped :
  keeps_frames (setRecord T record uid wrapped).
Proof.
  intros db. unfold setRecord. destruct (table T db).
  - apply kf_at.
    repeat (kf_step || apply kf_update_table || apply kf_insert_record).
  - now exists [].
Qed.

Lemma kf_getRecord T id wrapped : keeps_frames (getRecord T id wrapped).
Proof.
  intros db. unfold getRecord. destruct (table T db) as [t|].
  - destruct (assoc_get same_value (VBig id) (records t)) as [rec|];
      [|now exists []].
    destruct (truthy rec); [|now exists []]. apply kf_at.
    destruct wrapped; [|apply kf_ret]. unfold _wrapRecord.
    repeat (kf_step || apply kf_as_ref || apply kf_wrap).
  - apply kf_at. repeat (kf_step || apply kf_logError).
Qed.

Lemma kf_getAllRecords T : keeps_frames (getAllRecords T).
Proof.
  unfold getAllRecords. repeat (kf_step || apply kf_the_table).
Qed.

Lemma kf_filter_m {A} (p : A -> Op bool) xs :
  (forall x, keeps_frames (p x)) -> keeps_frames (filter_m p xs).
Proof.
  intros Hp. induction xs as [|x xs IH]; simpl; [apply kf_ret|].
  apply kf_bind; [apply Hp|]. intros keep.
  apply kf_bind; [apply IH|]. intros ys. apply kf_ret.
Qed.

Lemma kf_getRecordsByColumn T col v wrapped :
  keeps_frames (getRecordsByColumn T col v wrapped).
Proof.
  intros db. unfold getRecordsByColumn. destruct (table T db) as [t|].
  - apply kf_at. apply kf_bind.
    + destruct (assoc_get String.eqb col (indices t)); [apply kf_ret|].
      unfold linear_scan. apply kf_filter_m. intros rec.
      repeat (kf_step || apply kf_as_ref || apply kf_get).
    + intros found. destruct wrapped; [|apply kf_ret]. unfold _wrapRecord.
      repeat (kf_step || apply kf_as_ref || apply kf_wrap).
  - apply kf_at. repeat (kf_step || apply kf_logError).
Qed.

Lemma kf_removeRecordsByColumn T col v wrapped :
  keeps_frames (removeRecordsByColumn T col v wrapped).
Proof.
  unfold removeRecordsByColumn.
  repeat (kf_step || apply kf_getRecordsByColumn || apply kf_removeRecord).
Qed.

Lemma kf_addIndex T key : keeps_frames (addIndex T key).
Proof.
  intros db. unfold addIndex. destruct (table T db) as [t|];
    [|apply kf_at, kf_logError].
  destruct (assoc_has String.eqb key (indices t)); [apply kf_at, kf_logError|].
  apply kf_at. apply kf_bind.
  - generalize (@nil (DbValue * list DbValue)).
    induction (map snd (records t)) as [|rec rest IH]; intros acc;
      [apply kf_ret|].
    repeat (kf_step || apply kf_as_ref || apply kf_get || apply IH).
  - intros ix. unfold onUpdateTable.
    repeat (kf_step || apply kf_update_table).
Qed.

Lemma kf_removeIndex T key : keeps_frames (removeIndex T key).
Proof.
  intros db. unfold removeIndex. destruct (table T db) as [t|];
    [|apply kf_at, kf_logError].
  destruct (assoc_has String.eqb key (indices t)); [|apply kf_at, kf_logError].
  apply kf_at. unfold onUpdateTable. repeat (kf_step || apply kf_update_table).
Qed.

Lemma kf_createTable T keys : keeps_frames (createTable T keys).
Proof.
  unfold createTable. apply kf_bind.
  - apply kf_same. intros db. now destruct (table T db).
  - intros _. apply kf_for_each. intros key. apply kf_addIndex.
Qed.

Lemma kf_deleteTable T : keeps_frames (deleteTable T).
Proof.
  intros db. unfold deleteTable. destruct (table T db);
    [now exists []|apply kf_at, kf_logError].
Qed.

Lemma kf_store_operation A (m : Op A) : store_operation m -> keeps_frames m.
Proof.
  intros [].
  - now apply kf_same.
  - now apply kf_same.
  - apply kf_createTable.
  - apply kf_deleteTable.
  - apply kf_addIndex.
  - apply kf_removeIndex.
  - unfold getNextUID. repeat (kf_step || apply kf_the_table).
  - unfold reserveNextUID, getNextUID.
    repeat (kf_step || apply kf_the_table || apply kf_update_table).
  - apply kf_addRecord.
  - apply kf_setRecord.
  - apply kf_removeRecord.
  - apply kf_removeRecordsByColumn.
  - apply kf_getRecord.
  - apply kf_getAllRecords.
  - apply kf_getRecordsByColumn.
  - apply kf_get.
  - apply kf_put.
  - apply kf_delete.
  - apply kf_call.
Qed.

(** X4. No operation of the store or of its observer opens or closes a
    transaction frame, whether it returns or throws: outside a transaction
    it records nothing, and inside one it leaves the outer frames as they
    are and only appends events to the innermost frame. *)
Theorem operations_keep_the_frames A (m : Op A) db :
  store_operation m ->
  (_transactions db = [] -> _transactions (state_of (m db)) = []) /\
  (forall outer inner,
     _transactions db = outer ++ [inner] ->
     exists events,
       _transactions (state_of (m db))
       = outer ++ [mkTransaction (changes inner ++ events)]).
Proof.
  intros Hop. destruct (kf_store_operation A m Hop db) as [events E]. split.
  - intros E0. rewrite E, E0. apply append_changes_nil.
  - intros outer inner E0. exists events. rewrite E, E0.
    apply append_changes_last.
Qed.

Lemma operations_keep_the_frames_witness :
  exists events,
    _transactions
      (state_of (put (Prox (Raw 0)) (KStr "email") (VStr "k@x.com")
                     (set_transactions [mkTransaction []; mkTransaction []]
                        users_2)))
    = [mkTransaction []] ++ [mkTransaction ([] ++ events)].
Proof.
  exact (proj2 (operations_keep_the_frames unit
                  (put (Prox (Raw 0)) (KStr "email") (VStr "k@x.com"))
                  (set_transactions [mkTransaction []; mkTransaction []] users_2)
                  (op_put (Prox (Raw 0)) (KStr "email") (VStr "k@x.com")))
               [mkTransaction []] (mkTransaction []) eq_refl).
Defined.


(** *** The wrapper [transaction] *)

(** X5. [transaction(cb)] around a callback that opens and closes no frame
    of its own.  When the callback returns, its frame is committed: what it
    did stays, and the stack is exactly as before the call, the events of
    the callback being dropped with the frame, not handed to the enclosing
    frame.  When the callback throws, the events it recorded up to there
    are replayed backwards on the state it left, and its error is thrown
    again (or the error of the replay, if the replay throws).  Either way
    the stack has its former depth. *)
Theorem transaction_wrapper A (cb : Op A) db :
  keeps_frames cb ->
  let db1 := set_transactions (_transactions db ++ [mkTransaction []]) db in
  exists events,
    _transactions (state_of (cb db1))
    = _transactions db ++ [mkTransaction events] /\
    transaction cb db
    = match cb db1 with
      | Ok _ db2 => Ok tt (set_transactions (_transactions db) db2)
      | Throw e db2 =>
          match for_each undo (rev events)
                  (set_transactions (_transactions db) db2) with
          | Ok _ db3 => Throw e db3
          | Throw e' db3 => Throw e' db3
          end
      end /\
    length (_transactions (state_of (transaction cb db)))
    = length (_transactions db).
Proof.
  intros Hcb db1. destruct (Hcb db1) as [events E].
  unfold db1 in E at 2. simpl in E. rewrite append_changes_last in E.
  simpl in E. exists events. split; [exact E|].
  assert (Erun : transaction cb db
    = match cb db1 with
      | Ok _ db2 => Ok tt (set_transactions (_transactions db) db2)
      | Throw e db2 =>
          match for_each undo (rev events)
                  (set_transactions (_transactions db) db2) with
          | Ok _ db3 => Throw e db3
          | Throw e' db3 => Throw e' db3
          end
      end).
  { unfold transaction, beginTransaction, bind at 1, modify. fold db1.
    unfold bind at 1. destruct (cb db1) as [a db2|e db2]; simpl in E.
    - now rewrite (@commit_pops db2 _ _ E).
    - unfold bind. rewrite (@rollback_pops db2 _ _ E). simpl.
      now destruct (for_each undo (rev events) _). }
  split; [exact Erun|]. rewrite Erun.
  destruct (cb db1) as [a db2|e db2]; [reflexivity|].
  destruct (kf_rollback_loop (rev events)
              (set_transactions (_transactions db) db2)) as [evs Eundo].
  destruct (for_each undo (rev events) _) as [[] db3|e' db3]; simpl in *;
    rewrite Eundo; apply append_changes_length.
Qed.

Lemma transaction_wrapper_witness :
  exists events,
    _transactions
      (state_of (put (Prox (Raw 0)) (KStr "email") (VStr "k@x.com")
                     (set_transactions ([] ++ [mkTransaction []]) users_2)))
    = [] ++ [mkTransaction events] /\
    length (_transactions
              (state_of (transaction
                           (put (Prox (Raw 0)) (KStr "email") (VStr "k@x.com"))
                           users_2)))
    = 0.
Proof.
  destruct (transaction_wrapper unit
              (put (Prox (Raw 0)) (KStr "email") (VStr "k@x.com")) users_2
              (kf_put _ _ _)) as (events & E & _ & Hlen).
  exists events. split; [exact E|exact Hlen].
Defined.


(** *** Lookups change nothing *)

Lemma obs_same {A} (m : Op A) :
  (forall db, state_of (m db) = db) -> observes m.
Proof.
  intros H db. rewrite H. repeat split; try reflexivity.
  - intros r cl Hr. exact Hr.
  - exists []. now rewrite app_nil_r.
Qed.

Lemma obs_ret {A} (a : A) : observes (ret a).
Proof. now apply obs_same. Qed.

Lemma obs_bind {A B} (m : Op A) (k : A -> Op B) :
  observes m -> (forall a, observes (k a)) -> observes (bind m k).
Proof.
  intros Hm Hk db. unfold bind.
  destruct (Hm db) as (Hh & Hd & Ht & Hw & ms & Hc).
  destruct (m db) as [a db1|e db1]; simpl in *.
  - destruct (Hk a db1) as (Hh' & Hd' & Ht' & Hw' & ms' & Hc').
    repeat split; try congruence.
    + intros r cl Hr. apply Hw', Hw, Hr.
    + exists (ms ++ ms'). rewrite Hc', Hc. now rewrite app_assoc.
  - repeat split; try assumption. now exists ms.
Qed.

Lemma obs_wrap T rec col v : observes (_wrap T rec col v).
Proof.
  intros db. destruct (wrap_spec T rec col v (heap db) (_wrapped db) (_data db)
                         (_transactions db) (console db)) as (w' & E & Hg & _).
  destruct db as [h w d tr c]. simpl in *. rewrite E. simpl.
  repeat split; try reflexivity; [exact Hg|]. exists []. now rewrite app_nil_r.
Qed.

Lemma obs_as_ref v : observes (as_ref v).
Proof. apply obs_same. intros db. now destruct v. Qed.

Lemma obs_logError e : observes (logError e).
Proof.
  intros db. simpl. repeat split; try reflexivity.
  - intros r cl Hr. exact Hr.
  - now exists [e].
Qed.

Lemma obs_get r property : observes (get r property).
Proof.
  induction r as [a|target IH]; simpl.
  - apply obs_same. intros db. now destruct (nth_error (heap db) a).
  - apply obs_bind.
    + apply obs_same. intros db. unfold closure_of. now destruct assoc_get.
    + intros cl db.
      destruct (is_map target db || is_set target db || is_date target db).
      * apply IH.
      * apply (obs_bind _ _ IH). intros v. apply obs_wrap.
Qed.

Lemma obs_map_m {A B} (f : A -> Op B) xs :
  (forall x, observes (f x)) -> observes (map_m f xs).
Proof.
  intros Hf. induction xs as [|x xs IH]; simpl; [apply obs_ret|].
  apply obs_bind; [apply Hf|]. intros y.
  apply obs_bind; [apply IH|]. intros ys. apply obs_ret.
Qed.

Lemma obs_filter_m {A} (p : A -> Op bool) xs :
  (forall x, observes (p x)) -> observes (filter_m p xs).
Proof.
  intros Hp. induction xs as [|x xs IH]; simpl; [apply obs_ret|].
  apply obs_bind; [apply Hp|]. intros keep.
  apply obs_bind; [apply IH|]. intros ys. apply obs_ret.
Qed.

Lemma obs_wrapRecord T :
  forall rec, observes (r <- as_ref rec ;; _wrapRecord T r).
Proof.
  intros rec. apply obs_bind; [apply obs_as_ref|]. intros r. apply obs_wrap.
Qed.

Lemma obs_lookup A (m : Op A) : lookup_operation m -> observes m.
Proof.
  intros [].
  - now apply obs_same.
  - now apply obs_same.
  - apply obs_same. intros db. unfold getNextUID, bind, the_table.
    now destruct (table T db).
  - intros db. unfold getRecord. destruct (table T db) as [t|].
    + destruct (assoc_get same_value (VBig id) (records t)) as [rec|];
        [|now apply (obs_ret VUndef)].
      destruct (truthy rec); [|now apply (obs_ret VUndef)].
      destruct wrapped; [apply obs_wrapRecord|apply obs_ret].
    + apply (obs_bind _ _ (obs_logError _)). intros _. apply obs_ret.
  - apply obs_same. intros db. unfold getAllRecords, bind, the_table.
    now destruct (table T db).
  - intros db. unfold getRecordsByColumn. destruct (table T db) as [t|].
    + apply obs_bind.
      * destruct (assoc_get String.eqb col (indices t)); [apply obs_ret|].
        apply obs_filter_m. intros rec.
        apply obs_bind; [apply obs_as_ref|]. intros r.
        apply obs_bind; [apply obs_get|]. intros v0. apply obs_ret.
      * intros found. destruct wrapped; [|apply obs_ret].
        apply obs_map_m. apply obs_wrapRecord.
    + apply (obs_bind _ _ (obs_logError _)). intros _. apply obs_ret.
  - apply obs_get.
Qed.

(** X6. The lookups ([tableExists], [indexExists], [getNextUID],
    [getRecord], [getAllRecords], [getRecordsByColumn]) and the read of a
    property through any handle change neither an object, nor a table or an
    index, nor a transaction frame, whether they return or throw: the only
    traces they leave are proxies added to the cache and, for an unknown
    table, a message on the console. *)
Theorem lookups_change_nothing A (m : Op A) db :
  lookup_operation m ->
  heap (state_of (m db)) = heap db /\
  _data (state_of (m db)) = _data db /\
  _transactions (state_of (m db)) = _transactions db /\
  cache_grows (_wrapped db) (_wrapped (state_of (m db))) /\
  exists messages, console (state_of (m db)) = console db ++ messages.
Proof. intros Hm. exact (obs_lookup A m Hm db). Qed.

Lemma lookups_change_nothing_witness :
  heap (state_of (getRecordsByColumn "users" "email" (VStr "k@x.com") true users_3))
  = heap users_3 /\
  _data (state_of (getRecordsByColumn "users" "email" (VStr "k@x.com") true users_3))
  = _data users_3.
Proof.
  destruct (lookups_change_nothing _
              (getRecordsByColumn "users" "email" (VStr "k@x.com") true) users_3
              (look_getRecordsByColumn _ _ _ _)) as (Hh & Hd & _).
  split; [exact Hh|exact Hd].
Defined.


(** *** Assignment and deletion through a handle, seen from outside *)

(** X7. An assignment through the handle of a plain object, to a field
    whose name is a symbol or a string that [Object.prototype] does not
    define, the handle having been made for a table whose name
    [Object.prototype] does not define either, writes through to the
    object: the field of the object holds the value (the proxy of the
    value, when it is an object), the other such fields are as they were,
    no object is allocated, and exactly one [set] event, carrying the old
    value, is recorded.  A read of the field through the handle then returns
    the value, wrapped once more. *)
Theorem assignment_writes_through a k v (props : list (Key * DbValue)) cl
    (h : list (Cell Ref)) w d tr c :
  inherited_key k = false ->
  inherited (cl_tableName cl) = false ->
  nth_error h a = Some (CObject props) ->
  assoc_get Ref_eqb (Raw a) w = Some cl ->
  exists db',
    put (Prox (Raw a)) k v (mkDb h w d tr c) = Ok tt db' /\
    get (Raw a) k db' = Ok (wrapped_value v) db' /\
    (forall k', k' <> k -> inherited_key k' = false ->
       get (Raw a) k' db' = Ok (raw_get (CObject props) k') db') /\
    length (heap db') = length h /\
    _transactions db'
    = push_change (set_event cl a k (raw_get (CObject props) k) v) tr /\
    exists db'',
      get (Prox (Raw a)) k db' = Ok (wrapped_value (wrapped_value v)) db''.
Proof.
  intros _ _ Hc Hcl.
  pose proof (@put_through_handle a k v props cl h w d tr c Hc Hcl) as Hput.
  cbv zeta in Hput. destruct Hput as (w' & E & Hg & _).
  eexists. split; [exact E|].
  assert (Hc' : nth_error (list_update a (raw_set k (wrapped_value v)) h) a
                = Some (CObject (assoc_set Key_eqb k (wrapped_value v) props))).
  { now rewrite (nth_error_list_update_eq _ _ _ Hc). }
  assert (Hk : raw_get (CObject (assoc_set Key_eqb k (wrapped_value v) props)) k
               = wrapped_value v).
  { simpl. rewrite (assoc_get_set Key_eqb_spec).
    now destruct (Key_eqb_spec k k). }
  split; [|split; [|split; [|split]]].
  - erewrite get_raw_spec by exact Hc'. now rewrite Hk.
  - intros k' Hne _. erewrite get_raw_spec by exact Hc'. f_equal.
    simpl. rewrite (assoc_get_set Key_eqb_spec).
    now destruct (Key_eqb_spec k' k).
  - simpl. apply length_list_update.
  - reflexivity.
  - pose proof (@reads_handle a _ w' _ cl Hc' (Hg _ _ Hcl)) as Hreads.
    edestruct (Hreads k w') as (w'' & Eget & _); [apply cache_grows_refl|].
    rewrite Hk in Eget. eexists. exact Eget.
Qed.

Lemma assignment_writes_through_witness :
  exists db',
    put (Prox (Raw 0)) (KStr "email") (VStr "k@x.com") users_2 = Ok tt db' /\
    get (Raw 0) (KStr "email") db' = Ok (VStr "k@x.com") db' /\
    exists db'', get (Prox (Raw 0)) (KStr "email") db' = Ok (VStr "k@x.com") db''.
Proof.
  destruct (assignment_writes_through 0 (KStr "email") (VStr "k@x.com")
              (john ++ [(UniqueID, VBig 1)]) (mkClosure "users" (Raw 0) None)
              (heap users_2) (_wrapped users_2) (_data users_2)
              (_transactions users_2) (console users_2)
              eq_refl eq_refl eq_refl eq_refl)
    as (db' & E & Eraw & _ & _ & _ & db'' & Ehd).
  exists db'. split; [exact E|]. split; [exact Eraw|]. exists db''. exact Ehd.
Defined.

(** X8. A deletion through the handle of a plain object, of a field whose
    name is a symbol or a string that [Object.prototype] does not define,
    the handle having been made for a table whose name [Object.prototype]
    does not define either, deletes the field of the object: it reads
    [undefined] afterwards, through the object and through the handle; the
    other such fields are as they were; and exactly one [delete] event,
    carrying the old value, is recorded. *)
Theorem deletion_writes_through a k (props : list (Key * DbValue)) cl
    (h : list (Cell Ref)) w d tr c :
  inherited_key k = false ->
  inherited (cl_tableName cl) = false ->
  nth_error h a = Some (CObject props) ->
  NoDup (map fst props) ->
  assoc_get Ref_eqb (Raw a) w = Some cl ->
  exists db',
    delete (Prox (Raw a)) k (mkDb h w d tr c) = Ok tt db' /\
    get (Raw a) k db' = Ok VUndef db' /\
    get (Prox (Raw a)) k db' = Ok VUndef db' /\
    (forall k', k' <> k -> inherited_key k' = false ->
       get (Raw a) k' db' = Ok (raw_get (CObject props) k') db') /\
    _transactions db'
    = push_change (delete_event cl a k (raw_get (CObject props) k)) tr.
Proof.
  intros _ _ Hc Hnd Hcl.
  pose proof (@delete_through_handle a k props cl h w d tr c Hc Hcl) as Hdel.
  cbv zeta in Hdel. destruct Hdel as (w' & E & Hg & _).
  eexists. split; [exact E|].
  assert (Hc' : nth_error (list_update a (raw_delete k) h) a
                = Some (CObject (assoc_del Key_eqb k props))).
  { now rewrite (nth_error_list_update_eq _ _ _ Hc). }
  assert (Hk : raw_get (CObject (assoc_del Key_eqb k props)) k = VUndef).
  { simpl. rewrite (assoc_get_del Key_eqb_spec _ _ Hnd).
    now destruct (Key_eqb_spec k k). }
  split; [|split; [|split]].
  - rewrite (@get_raw_spec a k _ _ _ _ _ _ Hc'). now rewrite Hk.
  - pose proof (@reads_handle a _ w' _ cl Hc' (Hg _ _ Hcl)) as Hreads.
    edestruct (Hreads k w') as (w'' & Eget & _ & Hp); [apply cache_grows_refl|].
    rewrite Hk in Eget, Hp. simpl in Eget, Hp. rewrite (Hp eq_refl) in Eget.
    exact Eget.
  - intros k' Hne _. rewrite (@get_raw_spec a k' _ _ _ _ _ _ Hc'). f_equal.
    simpl. rewrite (assoc_get_del Key_eqb_spec _ _ Hnd).
    now destruct (Key_eqb_spec k' k).
  - reflexivity.
Qed.

Lemma deletion_writes_through_witness :
  exists db',
    delete (Prox (Raw 0)) (KStr "email") users_2 = Ok tt db' /\
    get (Raw 0) (KStr "email") db' = Ok VUndef db' /\
    get (Prox (Raw 0)) (KStr "email") db' = Ok VUndef db' /\
    get (Raw 0) (KStr "name") db' = Ok (VStr "John") db'.
Proof.
  destruct (deletion_writes_through 0 (KStr "email")
              (john ++ [(UniqueID, VBig 1)]) (mkClosure "users" (Raw 0) None)
              (heap users_2) (_wrapped users_2) (_data users_2)
              (_transactions users_2) (console users_2) eq_refl eq_refl eq_refl)
    as (db' & E & Eraw & Ehd & Hrest & _).
  - repeat constructor; simpl; intuition discriminate.
  - reflexivity.
  - exists db'. split; [exact E|]. split; [exact Eraw|]. split; [exact Ehd|].
    apply (Hrest (KStr "name")); [discriminate|reflexivity].
Defined.

(** X9. Only a write to a record itself, at a column that has an index,
    touches the tables: an assignment or a deletion through the proxy of an
    object that is not the record its proxy was made for (a nested object),
    or at a key that is no indexed column of the record's table, leaves
    every table and every index as it is. *)
Theorem other_writes_leave_the_indices a k v (props : list (Key * DbValue)) cl
    (h : list (Cell Ref)) w d tr c :
  nth_error h a = Some (CObject props) ->
  assoc_get Ref_eqb (Raw a) w = Some cl ->
  cl_record cl <> Raw a \/
  (forall col t, k = KStr col ->
     assoc_get String.eqb (cl_tableName cl) d = Some t ->
     assoc_get String.eqb col (indices t) = None) ->
  _data (state_of (put (Prox (Raw a)) k v (mkDb h w d tr c))) = d /\
  _data (state_of (delete (Prox (Raw a)) k (mkDb h w d tr c))) = d.
Proof.
  intros Hc Hcl Hcase.
  assert (Hsame : forall old new rec,
            (if Ref_eqb (cl_record cl) (Raw a)
             then reindex_data (cl_tableName cl) k old new rec d else d) = d).
  { intros old new rec.
    destruct (Ref_eqb_spec (cl_record cl) (Raw a)) as [Erec|Hne]; [|reflexivity].
    destruct Hcase as [Hne|Hcol]; [contradiction|].
    unfold reindex_data.
    destruct (assoc_get String.eqb (cl_tableName cl) d) as [t|] eqn:Et;
      [|reflexivity].
    destruct k as [col|n]; [|reflexivity].
    now rewrite (Hcol col t eq_refl eq_refl). }
  pose proof (@put_through_handle a k v props cl h w d tr c Hc Hcl) as Hput.
  pose proof (@delete_through_handle a k props cl h w d tr c Hc Hcl) as Hdel.
  cbv zeta in Hput, Hdel.
  destruct Hput as (w1 & -> & _). destruct Hdel as (w2 & -> & _).
  simpl. now rewrite !Hsame.
Qed.

Lemma other_writes_leave_the_indices_witness :
  _data (state_of (put (Prox (Raw 0)) (KStr "name") (VStr "Jack") users_2))
  = _data users_2 /\
  _data (state_of (delete (Prox (Raw 0)) (KStr "name") users_2))
  = _data users_2.
Proof.
  apply (other_writes_leave_the_indices 0 (KStr "name") (VStr "Jack")
           (john ++ [(UniqueID, VBig 1)]) (mkClosure "users" (Raw 0) None)
           (heap users_2) (_wrapped users_2) (_data users_2)
           (_transactions users_2) (console users_2) eq_refl eq_refl).
  right. intros col t [= <-] [= <-]. reflexivity.
Defined.


(** *** Failures and refusals *)

(** X10. On a table that does not exist, and whose name is none of the
    names [Object.prototype] defines, the operations fail in three
    different ways.  [getRecord], [getRecordsByColumn],
    [removeRecordsByColumn], [removeRecord], [deleteTable], [addIndex] and
    [removeIndex] write one message on the console and return ([undefined],
    an empty list, nothing); [addRecord] and [setRecord] throw an [Error]
    with that message; [getAllRecords], [getNextUID] and [reserveNextUID]
    throw the [TypeError] of a property read on [undefined].  Neither
    creates the table: [tableExists] and [indexExists] are false before and
    after. *)
Theorem unknown_table_outcomes tableName db :
  inherited tableName = false ->
  table tableName db = None ->
  let reported := logged (table_missing tableName) db in
  (forall id wrapped, getRecord tableName id wrapped db = Ok VUndef reported) /\
  (forall colName value wrapped,
     getRecordsByColumn tableName colName value wrapped db = Ok [] reported /\
     removeRecordsByColumn tableName colName value wrapped db = Ok [] reported) /\
  (forall record, removeRecord tableName record db = Ok tt reported) /\
  deleteTable tableName db = Ok tt reported /\
  (forall indexKey,
     addIndex tableName indexKey db = Ok tt reported /\
     removeIndex tableName indexKey db = Ok tt reported) /\
  (forall record wrapped,
     addRecord tableName record wrapped db
     = Throw (Error (table_missing tableName)) db) /\
  (forall record uid wrapped,
     setRecord tableName record uid wrapped db
     = Throw (Error (table_missing tableName)) db) /\
  getAllRecords tableName db = Throw dangling db /\
  getNextUID tableName db = Throw dangling db /\
  reserveNextUID tableName db = Throw dangling db /\
  tableExists tableName reported = Ok false reported /\
  (forall indexKey, indexExists tableName indexKey reported = Ok false reported).
Proof.
  intros _ H reported.
  assert (H' : table tableName reported = None) by exact H.
  unfold getRecord, getRecordsByColumn, removeRecordsByColumn, removeRecord,
    deleteTable, addIndex, removeIndex, addRecord, setRecord, getAllRecords,
    reserveNextUID, getNextUID, tableExists, indexExists, the_table, bind.
  unfold getRecordsByColumn. rewrite H, H'.
  repeat split.
Qed.

Lemma unknown_table_outcomes_witness :
  getRecord "orders" 1 true new_Database
  = Ok VUndef (logged (table_missing "orders") new_Database) /\
  addRecord "orders" VNull true new_Database
  = Throw (Error (table_missing "orders")) new_Database /\
  getNextUID "orders" new_Database = Throw dangling new_Database.
Proof.
  destruct (unknown_table_outcomes "orders" new_Database eq_refl eq_refl)
    as (Hget & _ & _ & _ & _ & Hadd & _ & _ & Hnext & _).
  split; [apply Hget|]. split; [apply Hadd|exact Hnext].
Defined.

Lemma remove_refused T a (props : list (Key * DbValue))
    (through_handle : bool) (h : list (Cell Ref)) w d tr c t :
  nth_error h a = Some (CObject props) ->
  (through_handle = true -> assoc_get Ref_eqb (Raw a) w <> None) ->
  assoc_get String.eqb T d = Some t ->
  let rec := if through_handle then handle a else VObj (Raw a) in
  let db := mkDb h w d tr c in
  (truthy (raw_get (CObject props) UniqueID) = false ->
   removeRecord T rec db
   = Ok tt (logged "Could not find UID in record object for removal." db)) /\
  (forall uid,
     raw_get (CObject props) UniqueID = VBig uid -> uid <> 0%Z ->
     assoc_get same_value (VBig uid) (records t) = None ->
     removeRecord T rec db
     = Ok tt (logged (String.append "Record with id "
                       (String.append (quoted (string_of_Z uid))
                       (String.append " does not exist in "
                       (String.append (quoted T) ".")))) db)).
Proof.
  intros Hc Hcached Ht rec db.
  assert (Hget : forall v, raw_get (CObject props) UniqueID = v ->
            primitive v = true ->
            get (match rec with VObj r => r | _ => Raw a end) UniqueID db
            = Ok v db).
  { intros v Hv Hprim. subst rec. destruct through_handle.
    - destruct (assoc_get Ref_eqb (Raw a) w) as [cl|] eqn:Hcl;
        [|now destruct Hcached].
      pose proof (@reads_handle a h w props cl Hc Hcl) as Hreads.
      edestruct (Hreads UniqueID w d tr c) as (w' & E & _ & Hsame);
        [apply cache_grows_refl|].
      rewrite Hv in E, Hsame.
      assert (Hp : primitive (wrapped_value v) = true) by now destruct v.
      rewrite (Hsame Hp) in E. unfold db. cbn [handle]. rewrite E.
      now destruct v.
    - unfold db. erewrite get_raw_spec by exact Hc. now rewrite Hv. }
  assert (Hrec : as_ref rec db
                 = Ok (match rec with VObj r => r | _ => Raw a end) db).
  { subst rec. now destruct through_handle. }
  split.
  - intros Hfalsy.
    unfold removeRecord, table. unfold db at 1. cbn [_data].
    rewrite Ht. rewrite (bind_ok _ _ Hrec).
    rewrite (bind_ok _ _ (Hget _ eq_refl ltac:(
      destruct (raw_get (CObject props) UniqueID); try reflexivity;
      discriminate))).
    rewrite Hfalsy. reflexivity.
  - intros uid Hid Hnz Hnone.
    unfold removeRecord, table. unfold db at 1. cbn [_data].
    rewrite Ht. rewrite (bind_ok _ _ Hrec).
    rewrite (bind_ok _ _ (Hget _ Hid eq_refl)).
    cbn [truthy]. destruct (Z.eqb_spec uid 0) as [|_]; [contradiction|].
    cbn [negb].
    rewrite (bind_ok _ _ (@the_table_spec T h w d tr c t Ht)).
    unfold assoc_has. rewrite Hnone. reflexivity.
Qed.

(** X11. On a table that exists, [removeRecord] refuses a record without
    identifier (the field [UniqueID] missing, or [0n]) and a record whose
    identifier is not in the table, given as the object or through its
    handle: it writes the message of the case on the console and changes
    nothing else. *)
Theorem removeRecord_refusals T a (props : list (Key * DbValue))
    (through_handle : bool) (h : list (Cell Ref)) w d tr c t :
  nth_error h a = Some (CObject props) ->
  (through_handle = true -> assoc_get Ref_eqb (Raw a) w <> None) ->
  assoc_get String.eqb T d = Some t ->
  let rec := if through_handle then handle a else VObj (Raw a) in
  let db := mkDb h w d tr c in
  (truthy (raw_get (CObject props) UniqueID) = false ->
   removeRecord T rec db
   = Ok tt (logged "Could not find UID in record object for removal." db)) /\
  (forall uid,
     raw_get (CObject props) UniqueID = VBig uid -> uid <> 0%Z ->
     assoc_get same_value (VBig uid) (records t) = None ->
     removeRecord T rec db
     = Ok tt (logged (String.append "Record with id "
                       (String.append (quoted (string_of_Z uid))
                       (String.append " does not exist in "
                       (String.append (quoted T) ".")))) db)).
Proof.
  intros Hc Hcached Ht.
  exact (remove_refused T a props through_handle h w d tr c t Hc Hcached Ht).
Qed.

Lemma removeRecord_refusals_witness :
  removeRecord "users" (VObj (Raw 0)) sample_db
  = Ok tt (logged "Could not find UID in record object for removal." sample_db).
Proof.
  exact (proj1 (removeRecord_refusals "users" 0 john false
                  (heap sample_db) (_wrapped sample_db) (_data sample_db)
                  (_transactions sample_db) (console sample_db)
                  (mkTable [] [("email", [])] None)
                  eq_refl (fun H : false = true => match Bool.diff_false_true H with end)
                  eq_refl) eq_refl).
Defined.

(** *** Insertion, lookup and removal together *)

(** X12. In a store built by the steps of [plain_step] (tables created
    with their indexes, under names that [Object.prototype] does not define;
    records that are fresh object literals with primitive fields, added with
    [wrapped] true by [addRecord] or, under a positive identifier not in
    use, by [setRecord];
    primitive values assigned to fields, fields deleted and records removed
    through the handles), removing a record through
    the handle [getRecord] gave for it takes it out of the table: [getRecord]
    of its identifier returns [undefined] afterwards, the other records are
    found as before, and a second removal of the same handle is refused
    with the message that the record does not exist. *)
Theorem removal_then_lookup T id hd db db1 :
  built db ->
  getRecord T id true db = Ok (VObj hd) db1 ->
  exists db2,
    removeRecord T (VObj hd) db1 = Ok tt db2 /\
    (forall wrapped, getRecord T id wrapped db2 = Ok VUndef db2) /\
    (forall id' v, id' <> id ->
       getRecord T id' false db = Ok v db ->
       getRecord T id' false db2 = Ok v db2) /\
    removeRecord T (VObj hd) db2
    = Ok tt (logged (String.append "Record with id "
                      (String.append (quoted (string_of_Z id))
                      (String.append " does not exist in "
                      (String.append (quoted T) ".")))) db2).
Proof.
  intros Hreach Hget. apply built_reachable in Hreach.
  pose proof (reachable_ok db Hreach) as Hok.
  destruct (getRecord_handle T id hd db db1 Hok Hget)
    as (-> & a & t & -> & Ht & Hin).
  destruct db as [h w d tr c]. unfold table in Ht. cbn [_data] in Ht.
  assert (Hinv : inv h w d) by exact Hok.
  destruct Hinv as (Htab & _ & _).
  pose proof (Htab T t Ht) as Htok.
  destruct (stored_record h w T t (VBig id) (VObj (Raw a)) Htok Hin)
    as (uid & a' & props & Hid & Hrec & Hpos & Hc & Hprim & Hnd & Huid & Hcl
        & Hstored).
  injection Hid as <-. injection Hrec as <-.
  destruct (@removeRecord_handle T a props id _ (VObj (Raw a)) h w d tr c t
              Hc Hcl Huid ltac:(lia) Ht Hstored) as (w' & E & Hg & _).
  eexists. split; [exact E|].
  assert (Ht2 : forall tr',
            table T (mkDb h w'
              (assoc_set String.eqb T
                 (removed t id (handle a) (index_key_of true props)) d) tr' c)
            = Some (removed t id (handle a) (index_key_of true props))).
  { intros tr'. unfold table. cbn [_data].
    rewrite (assoc_get_set String.eqb_spec).
    now destruct (String.eqb_spec T T). }
  pose proof (@ok_ids h w T t Htok) as Hids.
  split; [|split].
  - intros wrapped. unfold getRecord. rewrite Ht2. cbn [removed records].
    rewrite (assoc_get_del same_value_spec _ _ Hids), same_value_refl.
    reflexivity.
  - intros id' v Hne. unfold getRecord. rewrite Ht2.
    unfold table. cbn [_data removed records]. rewrite Ht.
    rewrite (assoc_get_del same_value_spec _ _ Hids).
    destruct (same_value_spec (VBig id') (VBig id)) as [Heq|_];
      [congruence|].
    destruct (assoc_get same_value (VBig id') (records t)) as [r|];
      [destruct (truthy r)|]; unfold ret; intros Hv;
      injection Hv as <-; reflexivity.
  - refine (proj2 (remove_refused T a props true h w' _ _ c
                     (removed t id (handle a) (index_key_of true props))
                     Hc _ _) id _ _ _).
    + intros _. rewrite (Hg _ _ Hcl). discriminate.
    + rewrite (assoc_get_set String.eqb_spec).
      now destruct (String.eqb_spec T T).
    + simpl. now rewrite Huid.
    + lia.
    + cbn [removed records].
      rewrite (assoc_get_del same_value_spec _ _ Hids), same_value_refl.
      reflexivity.
Qed.

Lemma removal_then_lookup_witness :
  exists db2,
    removeRecord "users" (handle 0) users_3 = Ok tt db2 /\
    getRecord "users" 1 true db2 = Ok VUndef db2.
Proof.
  destruct (removal_then_lookup "users" 1 (Prox (Raw 0)) users_3 users_3
              users_3_built eq_refl) as (db2 & E & Hgone & _).
  exists db2. split; [exact E|apply Hgone].
Defined.

(** X13. [addRecord] followed by [getRecord]: the object given to
    [addRecord] carries the identifier [getNextUID] announced, [getRecord]
    of that identifier returns the object itself, or its handle when asked
    for the wrapped record, the records with other identifiers are found as
    before, and [getNextUID] has moved on by one. *)
Theorem addRecord_then_getRecord T a (props : list (Key * DbValue))
    (wrapped : bool) (h : list (Cell Ref)) w d tr c t :
  nth_error h a = Some (CObject props) ->
  assoc_get String.eqb T d = Some t ->
  let db := mkDb h w d tr c in
  exists uid db1,
    getNextUID T db = Ok uid db /\
    addRecord T (VObj (Raw a)) wrapped db
    = Ok (if wrapped then handle a else VObj (Raw a)) db1 /\
    get (Raw a) UniqueID db1 = Ok (VBig uid) db1 /\
    getRecord T uid false db1 = Ok (VObj (Raw a)) db1 /\
    (exists db2, getRecord T uid true db1 = Ok (handle a) db2 /\
                 (wrapped = true -> db2 = db1)) /\
    (forall id v, id <> uid ->
       getRecord T id false db = Ok v db ->
       getRecord T id false db1 = Ok v db1) /\
    getNextUID T db1 = Ok (uid + 1)%Z db1.
Proof.
  intros Hc Ht db.
  pose proof (@addRecord_raw T a props wrapped h w d tr c t Hc Ht) as Hadd.
  cbv zeta in Hadd. destruct Hadd as (w' & E & Hg & Hcached & _).
  exists (next_uid (lastUID t)). eexists.
  assert (Hnext : getNextUID T db = Ok (next_uid (lastUID t)) db).
  { unfold getNextUID, db.
    rewrite (bind_ok _ _ (@the_table_spec T h w d tr c t Ht)).
    unfold ret. now rewrite next_uid_spec. }
  split; [exact Hnext|]. split; [exact E|].
  set (t1 := inserted (mkTable (records t) (indices t)
                         (Some (next_uid (lastUID t))))
                      (next_uid (lastUID t)) (VObj (Raw a))
                      (if wrapped then handle a else VObj (Raw a))
                      (index_key_of wrapped props)).
  assert (Ht1 : assoc_get String.eqb T (assoc_set String.eqb T t1 d) = Some t1).
  { rewrite (assoc_get_set String.eqb_spec).
    now destruct (String.eqb_spec T T). }
  assert (Hc1 : nth_error
                  (list_update a (raw_set UniqueID (VBig (next_uid (lastUID t)))) h)
                  a
                = Some (CObject (assoc_set Key_eqb UniqueID
                                   (VBig (next_uid (lastUID t))) props))).
  { now rewrite (nth_error_list_update_eq _ _ _ Hc). }
  split; [|split; [|split; [|split]]].
  - erewrite get_raw_spec by exact Hc1. simpl.
    rewrite (assoc_get_set Key_eqb_spec).
    now destruct (Key_eqb_spec UniqueID UniqueID).
  - unfold getRecord, table. cbn [_data]. rewrite Ht1.
    cbn [t1 inserted records].
    rewrite (assoc_get_set same_value_spec), same_value_refl. reflexivity.
  - unfold getRecord, table. cbn [_data]. rewrite Ht1.
    cbn [t1 inserted records].
    rewrite (assoc_get_set same_value_spec), same_value_refl.
    cbn [truthy]. cbv iota.
    rewrite (bind_ok _ _ (eq_refl : as_ref (VObj (Raw a)) _ = Ok (Raw a) _)).
    destruct wrapped.
    + destruct (assoc_get Ref_eqb (Raw a) w') as [cl|] eqn:Hcl;
        [|now destruct (Hcached eq_refl)].
      eexists. split; [|reflexivity].
      apply (@wrapRecord_cached T a _ cl). exact Hcl.
    + unfold _wrapRecord.
      edestruct (wrap_spec T (Raw a) None (VObj (Raw a))) as (w2 & E2 & _).
      eexists. split; [exact E2|discriminate].
  - intros id v Hne. unfold getRecord, table, db. cbn [_data].
    rewrite Ht1, Ht. cbn [t1 inserted records].
    rewrite (assoc_get_set same_value_spec).
    destruct (same_value_spec (VBig id) (VBig (next_uid (lastUID t))))
      as [Heq|_]; [congruence|].
    destruct (assoc_get same_value (VBig id) (records t)) as [r|];
      [destruct (truthy r)|]; unfold ret; intros Hv;
      injection Hv as <-; reflexivity.
  - unfold getNextUID.
    rewrite (bind_ok _ _ (@the_table_spec T _ _ _ _ _ t1 Ht1)).
    unfold ret. rewrite next_uid_spec. reflexivity.
Qed.

Lemma addRecord_then_getRecord_witness :
  exists db1,
    addRecord "users" (VObj (Raw 0)) true sample_db = Ok (handle 0) db1 /\
    getRecord "users" 1 false db1 = Ok (VObj (Raw 0)) db1 /\
    getNextUID "users" db1 = Ok 2%Z db1.
Proof.
  destruct (addRecord_then_getRecord "users" 0 john true
              (heap sample_db) (_wrapped sample_db) (_data sample_db)
              (_transactions sample_db) (console sample_db)
              (mkTable [] [("email", [])] None) eq_refl eq_refl)
    as (uid & db1 & Hnext & E & _ & Hget & _ & _ & Hnext1).
  injection Hnext as <-.
  exists db1. split; [exact E|]. split; [exact Hget|exact Hnext1].
Defined.




(** *** Indices added to a table with records *)

Lemma same_value_sym (v1 v2 : DbValue) : same_value v1 v2 = same_value v2 v1.
Proof.
  destruct (same_value_spec v1 v2), (same_value_spec v2 v1); congruence.
Qed.

Lemma strict_eq_same_value (x v : DbValue) :
  v <> VNaN -> strict_eq x v = same_value v x.
Proof.
  intros Hv. rewrite same_value_sym.
  destruct x; try reflexivity.
  destruct v; try reflexivity. congruence.
Qed.

Lemma NoDup_map_snd {K V} (l : list (K * V)) :
  NoDup (map fst l) ->
  (forall k k' v, In (k, v) l -> In (k', v) l -> k = k') ->
  NoDup (map snd l).
Proof.
  induction l as [|[k v] l IH]; intros Hnd Hinj; [constructor|].
  simpl in *. inversion Hnd as [|? ? Hk Hnd']; subst. constructor.
  - intros Hv. apply in_map_iff in Hv. destruct Hv as ([k' v'] & Hv & Hin).
    simpl in Hv. subst v'.
    assert (k = k') by (apply (Hinj k k' v); [now left|now right]).
    subst k'. apply Hk. apply in_map_iff. now exists (k, v).
  - apply IH; [exact Hnd'|]. intros k1 k2 v0 H1 H2.
    apply (Hinj k1 k2 v0); now right.
Qed.

Lemma fold_set_add_fresh (l : list DbValue) :
  forall b, NoDup (b ++ l) ->
  fold_left (fun b rec => set_add same_value rec b) l b = b ++ l.
Proof.
  induction l as [|x l IH]; intros b Hnd; simpl.
  - now rewrite app_nil_r.
  - assert (Hx : existsb (same_value x) b = false).
    { destruct (existsb (same_value x) b) eqn:E; [|reflexivity].
      apply existsb_exists in E. destruct E as (y & Hy & Hxy).
      destruct (same_value_spec x y) as [<-|]; [|discriminate].
      apply NoDup_remove_2 in Hnd. destruct Hnd. apply in_or_app. now left. }
    unfold set_add at 2. rewrite Hx.
    rewrite IH; rewrite <- app_assoc; [reflexivity|exact Hnd].
Qed.

(** The loop of [addIndex] over the records of a table. *)
Lemma addIndex_scan col h w d tr c l :
  (forall rec, In rec l ->
     exists a cell, rec = VObj (Raw a) /\ nth_error h a = Some cell) ->
  forall ix0,
  exists ix,
    (fix scan (rs : list DbValue) (indexMap : IndexMap) : Op IndexMap :=
       match rs with
       | [] => ret indexMap
       | rec :: rest =>
           r <- as_ref rec ;;
           value <- get r (KStr col) ;;
           scan rest (if strict_eq value VUndef then indexMap
                      else bucket_add value rec indexMap)
       end) l ix0 (mkDb h w d tr c)
    = Ok ix (mkDb h w d tr c) /\
    forall v, v <> VUndef -> v <> VNaN ->
      index_lookup ix v
      = fold_left (fun b rec => set_add same_value rec b)
                  (filter (matching h col v) l) (index_lookup ix0 v).
Proof.
  induction l as [|rec rest IH]; intros Hl ix0.
  - exists ix0. split; reflexivity.
  - destruct (Hl rec (or_introl eq_refl)) as (a & cell & -> & Hc).
    destruct (IH (fun x Hx => Hl x (or_intror Hx))
                 (if strict_eq (raw_get cell (KStr col)) VUndef then ix0
                  else bucket_add (raw_get cell (KStr col)) (VObj (Raw a)) ix0))
      as (ix & E & Hix).
    exists ix. split.
    + rewrite (bind_ok _ _ (eq_refl : as_ref (VObj (Raw a)) (mkDb h w d tr c)
                                      = Ok (Raw a) (mkDb h w d tr c))).
      rewrite (bind_ok _ _ (@get_raw_spec a (KStr col) cell h w d tr c Hc)).
      exact E.
    + intros v Hu Hn. rewrite (Hix v Hu Hn). cbn [filter matching].
      rewrite Hc. rewrite (strict_eq_same_value _ _ Hn).
      destruct (strict_eq (raw_get cell (KStr col)) VUndef) eqn:Eu.
      * apply strict_eq_undefined in Eu. rewrite Eu.
        destruct (same_value_spec v VUndef); [contradiction|reflexivity].
      * rewrite index_lookup_bucket_add.
        destruct (same_value_spec v (raw_get cell (KStr col))) as [<-|];
          reflexivity.
Qed.

(** [addIndex] on a table whose records are objects. *)
Lemma addIndex_spec T col h w d tr c t :
  assoc_get String.eqb T d = Some t ->
  (forall rec, In rec (map snd (records t)) ->
     exists a cell, rec = VObj (Raw a) /\ nth_error h a = Some cell) ->
  assoc_get String.eqb col (indices t) = None ->
  exists ix,
    addIndex T col (mkDb h w d tr c)
    = Ok tt (mkDb h w
               (assoc_set String.eqb T
                  (set_indices (assoc_set String.eqb col ix (indices t)) t) d)
               tr c) /\
    forall v, v <> VUndef -> v <> VNaN ->
      index_lookup ix v
      = fold_left (fun b rec => set_add same_value rec b)
                  (filter (matching h col v) (map snd (records t))) [].
Proof.
  intros Ht Hl Hnone.
  destruct (addIndex_scan col h w d tr c (map snd (records t)) Hl [])
    as (ix & E & Hix).
  exists ix. split; [|exact Hix].
  unfold addIndex, table. cbn [_data]. rewrite Ht.
  unfold assoc_has. rewrite Hnone.
  rewrite (bind_ok _ _ E).
  rewrite (bind_ok _ _ (@update_table_spec T _ h w d tr c t Ht)).
  reflexivity.
Qed.

(** X15. In a store built by the steps of [plain_step] (tables created
    with their indexes, under names that [Object.prototype] does not define;
    records that are fresh object literals with primitive fields, added with
    [wrapped] true by [addRecord] or, under a positive identifier not in
    use, by [setRecord];
    primitive values assigned to fields, fields deleted and records removed
    through the handles), adding an index on a column
    of a table that has records, the column being none of the names
    [Object.prototype] defines, does not change what a lookup on that column
    returns: for a value other than [undefined] and [NaN],
    [getRecordsByColumn] returns after [addIndex], from the index, the
    records it returned before from the scan of the table, in the same
    order -- the objects themselves, or their handles when the wrapped
    records are asked for. *)
Theorem addIndex_keeps_the_lookups T col db t :
  built db ->
  inherited col = false ->
  table T db = Some t ->
  assoc_get String.eqb col (indices t) = None ->
  exists db1,
    addIndex T col db = Ok tt db1 /\
    indexExists T col db1 = Ok true db1 /\
    getAllRecords T db1 = Ok (map snd (records t)) db1 /\
    forall v, v <> VUndef -> v <> VNaN ->
      let found := filter (matching (heap db) col v) (map snd (records t)) in
      getRecordsByColumn T col v false db = Ok found db /\
      getRecordsByColumn T col v false db1 = Ok found db1 /\
      exists db' db1',
        getRecordsByColumn T col v true db = Ok (map wrapped_value found) db' /\
        getRecordsByColumn T col v true db1
        = Ok (map wrapped_value found) db1'.
Proof.
  intros Hreach _ Ht Hnone. apply built_reachable in Hreach.
  pose proof (reachable_ok db Hreach) as Hok.
  destruct db as [h w d tr c]. unfold table in Ht. cbn [_data heap] in *.
  assert (Hinv : inv h w d) by exact Hok.
  destruct Hinv as (Htab & _ & _).
  pose proof (Htab T t Ht) as Htok.
  assert (Hl : forall rec, In rec (map snd (records t)) ->
            exists a cell, rec = VObj (Raw a) /\ nth_error h a = Some cell).
  { intros rec Hin. apply in_map_iff in Hin.
    destruct Hin as ([id rec'] & <- & Hin).
    destruct (stored_record h w T t id rec' Htok Hin)
      as (? & a & props & _ & -> & _ & Hc & _).
    now exists a, (CObject props). }
  assert (Hnd : NoDup (map snd (records t))).
  { apply NoDup_map_snd; [exact (@ok_ids h w T t Htok)|].
    intros k k' v H1 H2.
    destruct (stored_record h w T t k v Htok H1) as (? & a & ? & _ & -> & _).
    exact (one_identifier h w T t k' k a Htok H2 H1). }
  destruct (addIndex_spec T col h w d tr c t Ht Hl Hnone) as (ix & E & Hix).
  eexists. split; [exact E|].
  set (t1 := set_indices (assoc_set String.eqb col ix (indices t)) t).
  assert (Ht1 : assoc_get String.eqb T (assoc_set String.eqb T t1 d) = Some t1).
  { rewrite (assoc_get_set String.eqb_spec).
    now destruct (String.eqb_spec T T). }
  assert (Hcol : assoc_get String.eqb col (indices t1) = Some ix).
  { cbn [t1 set_indices indices]. rewrite (assoc_get_set String.eqb_spec).
    now destruct (String.eqb_spec col col). }
  split; [|split].
  - unfold indexExists, table. cbn [_data]. rewrite Ht1.
    unfold assoc_has. now rewrite Hcol.
  - unfold getAllRecords.
    now rewrite (bind_ok _ _ (@the_table_spec T _ _ _ _ _ t1 Ht1)).
  - intros v Hu Hn.
    set (found := filter (matching h col v) (map snd (records t))).
    assert (Hlookup : index_lookup ix v = found).
    { rewrite (Hix v Hu Hn). apply (fold_set_add_fresh found []).
      apply NoDup_filter, Hnd. }
    assert (Hobj : forall x, In x found -> exists r, x = VObj r).
    { intros x Hx. apply filter_In in Hx. destruct Hx as (Hx & _).
      destruct (Hl x Hx) as (a & _ & -> & _). now exists (Raw a). }
    assert (Hscan : forall w0,
              linear_scan t col v (mkDb h w0 d tr c) = Ok found (mkDb h w0 d tr c)).
    { intros w0. unfold linear_scan. now apply linear_scan_spec. }
    split; [|split].
    + unfold getRecordsByColumn, table. cbn [_data]. rewrite Ht, Hnone.
      now rewrite (bind_ok _ _ (Hscan w)).
    + unfold getRecordsByColumn, table. cbn [_data]. rewrite Ht1, Hcol.
      rewrite (bind_ok _ _ (eq_refl : ret (index_lookup ix v) _ = Ok _ _)).
      now rewrite Hlookup.
    + destruct (wrap_all T found h d tr c w Hobj) as (w1 & E1 & _).
      destruct (wrap_all T found h (assoc_set String.eqb T t1 d) tr c w Hobj)
        as (w2 & E2 & _).
      eexists. eexists. split.
      * unfold getRecordsByColumn, table. cbn [_data]. rewrite Ht, Hnone.
        rewrite (bind_ok _ _ (Hscan w)). exact E1.
      * unfold getRecordsByColumn, table. cbn [_data]. rewrite Ht1, Hcol.
        rewrite (bind_ok _ _ (eq_refl : ret (index_lookup ix v) _ = Ok _ _)).
        rewrite Hlookup. exact E2.
Qed.

Lemma addIndex_keeps_the_lookups_witness :
  exists db1,
    addIndex "users" "name" users_3 = Ok tt db1 /\
    getRecordsByColumn "users" "name" (VStr "John") false users_3
    = Ok [VObj (Raw 0)] users_3 /\
    getRecordsByColumn "users" "name" (VStr "John") false db1
    = Ok [VObj (Raw 0)] db1.
Proof.
  destruct (addIndex_keeps_the_lookups "users" "name" users_3
              (match table "users" users_3 with
               | Some t => t
               | None => mkTable [] [] None
               end) users_3_built eq_refl eq_refl eq_refl)
    as (db1 & E & _ & _ & Hsame).
  destruct (Hsame (VStr "John") ltac:(discriminate) ltac:(discriminate))
    as (Hscan & Hindex & _).
  exists db1. split; [exact E|]. split; [exact Hscan|exact Hindex].
Defined.


(** *** Tables created twice, and created then deleted *)

Lemma assoc_del_fresh {K V} (eqb : K -> K -> bool) k (v : V) l :
  (forall a b, reflect (a = b) (eqb a b)) ->
  assoc_get eqb k l = None -> assoc_del eqb k (assoc_set eqb k v l) = l.
Proof.
  intros eqb_spec.
  induction l as [|[k0 v0] l IH]; simpl.
  - now destruct (eqb_spec k k).
  - destruct (eqb k k0) eqn:E; [discriminate|]. intros H. simpl.
    now rewrite E, IH.
Qed.

(** The loop of [createTable] over the index keys, on a table whose records
    are objects. *)
Lemma createTable_loop T cols h w tr d0 :
  forall c t,
  assoc_get String.eqb T d0 = Some t ->
  (forall rec, In rec (map snd (records t)) ->
     exists a cell, rec = VObj (Raw a) /\ nth_error h a = Some cell) ->
  exists t' c',
    for_each (fun key => addIndex T key) cols (mkDb h w d0 tr c)
    = Ok tt (mkDb h w (assoc_set String.eqb T t' d0) tr c') /\
    records t' = records t /\ lastUID t' = lastUID t /\
    (forall col, In col cols -> assoc_get String.eqb col (indices t') <> None) /\
    (forall col ix, assoc_get String.eqb col (indices t) = Some ix ->
       assoc_get String.eqb col (indices t') = Some ix) /\
    (cols = [] -> t' = t).
Proof.
  revert d0.
  induction cols as [|col cols IH]; intros d0 c t Ht Hl.
  - exists t, c. split; [|repeat split; try tauto; now intros ? []].
    simpl. unfold ret. now rewrite (assoc_set_same String.eqb_spec Ht).
  - destruct (assoc_get String.eqb col (indices t)) as [ix0|] eqn:Hcol.
    + assert (E : addIndex T col (mkDb h w d0 tr c)
                  = Ok tt (mkDb h w d0 tr
                             (c ++ [String.append "Index "
                                     (String.append (quoted col)
                                     (String.append " already exists in "
                                     (String.append (quoted T) ".")))]))).
      { unfold addIndex, table. cbn [_data]. rewrite Ht.
        unfold assoc_has. now rewrite Hcol. }
      destruct (IH d0 (c ++ [String.append "Index "
                                     (String.append (quoted col)
                                     (String.append " already exists in "
                                     (String.append (quoted T) ".")))])
                  t Ht Hl)
        as (t' & c' & E' & Hr & Hu & Hcols & Hold & _).
      exists t', c'. split; [|split; [exact Hr|split; [exact Hu|split; [|split]]]].
      * cbn [for_each]. rewrite E. exact E'.
      * intros col' [<-|Hin]; [|now apply Hcols].
        now rewrite (Hold _ _ Hcol).
      * exact Hold.
      * discriminate.
    + destruct (addIndex_spec T col h w d0 tr c t Ht Hl Hcol) as (ix & E & _).
      set (t1 := set_indices (assoc_set String.eqb col ix (indices t)) t) in *.
      assert (Ht1 : assoc_get String.eqb T (assoc_set String.eqb T t1 d0)
                    = Some t1).
      { rewrite (assoc_get_set String.eqb_spec).
        now destruct (String.eqb_spec T T). }
      destruct (IH (assoc_set String.eqb T t1 d0) c t1 Ht1 Hl)
        as (t' & c' & E' & Hr & Hu & Hcols & Hold & _).
      exists t', c'. split; [|split; [exact Hr|split; [exact Hu|split; [|split]]]].
      * cbn [for_each]. rewrite E, E'.
        now rewrite (assoc_set_set String.eqb_spec).
      * intros col' [<-|Hin]; [|now apply Hcols].
        erewrite Hold; [discriminate|].
        cbn [t1 set_indices indices]. rewrite (assoc_get_set String.eqb_spec).
        now destruct (String.eqb_spec col col).
      * intros col' ix' Hix'. apply Hold.
        cbn [t1 set_indices indices]. rewrite (assoc_get_set String.eqb_spec).
        destruct (String.eqb_spec col' col) as [->|]; [congruence|exact Hix'].
      * discriminate.
Qed.

(** X16. In a store built through the interface, [createTable] on a table
    that exists already keeps it: its records and its identifier counter
    are as they were, every index it had is unchanged, the indexes asked for
    that it lacked are added, and the other tables and the objects are not
    touched. *)
Theorem createTable_keeps_an_existing_table T cols db t :
  reachable db ->
  table T db = Some t ->
  exists db1 t1,
    createTable T cols db = Ok tt db1 /\
    table T db1 = Some t1 /\
    records t1 = records t /\ lastUID t1 = lastUID t /\
    (forall col ix, assoc_get String.eqb col (indices t) = Some ix ->
       assoc_get String.eqb col (indices t1) = Some ix) /\
    (forall col, In col cols -> indexExists T col db1 = Ok true db1) /\
    (forall T', T' <> T -> table T' db1 = table T' db) /\
    heap db1 = heap db /\ _transactions db1 = _transactions db.
Proof.
  intros Hreach Ht.
  pose proof (reachable_ok db Hreach) as Hok.
  destruct db as [h w d tr c]. unfold table in Ht. cbn [_data heap] in *.
  assert (Hinv : inv h w d) by exact Hok.
  destruct Hinv as (Htab & _ & _).
  pose proof (Htab T t Ht) as Htok.
  assert (Hl : forall rec, In rec (map snd (records t)) ->
            exists a cell, rec = VObj (Raw a) /\ nth_error h a = Some cell).
  { intros rec Hin. apply in_map_iff in Hin.
    destruct Hin as ([id rec'] & <- & Hin).
    destruct (stored_record h w T t id rec' Htok Hin)
      as (? & a & props & _ & -> & _ & Hc & _).
    now exists a, (CObject props). }
  destruct (createTable_loop T cols h w tr d c t Ht Hl)
    as (t1 & c1 & E & Hr & Hu & Hcols & Hold & _).
  assert (Ht1 : assoc_get String.eqb T (assoc_set String.eqb T t1 d) = Some t1).
  { rewrite (assoc_get_set String.eqb_spec).
    now destruct (String.eqb_spec T T). }
  exists (mkDb h w (assoc_set String.eqb T t1 d) tr c1), t1.
  split; [|split; [exact Ht1|split; [exact Hr|split; [exact Hu|
           split; [exact Hold|split; [|split; [|split; reflexivity]]]]]]].
  - unfold createTable. erewrite bind_ok; [exact E|].
    unfold table. cbn [_data]. now rewrite Ht.
  - intros col Hin. unfold indexExists, table. cbn [_data]. rewrite Ht1.
    unfold assoc_has.
    destruct (assoc_get String.eqb col (indices t1)) eqn:Hc;
      [reflexivity|now destruct (Hcols col Hin)].
  - intros T' Hne. unfold table. cbn [_data].
    rewrite (assoc_get_set String.eqb_spec).
    now destruct (String.eqb_spec T' T).
Qed.

Lemma createTable_keeps_an_existing_table_witness :
  exists db1 t1,
    createTable "users" ["name"; "email"] users_3 = Ok tt db1 /\
    table "users" db1 = Some t1 /\
    map snd (records t1) = [VObj (Raw 0)] /\
    indexExists "users" "name" db1 = Ok true db1.
Proof.
  destruct (createTable_keeps_an_existing_table "users" ["name"; "email"]
              users_3
              (match table "users" users_3 with
               | Some t => t
               | None => mkTable [] [] None
               end) users_3_reachable eq_refl)
    as (db1 & t1 & E & Ht1 & Hr & _ & _ & Hcols & _).
  exists db1, t1. split; [exact E|]. split; [exact Ht1|].
  split; [now rewrite Hr|]. apply Hcols. now left.
Defined.

(** X17. A table created and then deleted leaves no trace, for a table name
    and index keys that are none of the names [Object.prototype] defines:
    [createTable] of a name that is free makes an empty table with an index on each key
    asked for, and [deleteTable] of that name afterwards gives back the
    tables as they were before, in their order; the objects, the proxies and
    the transaction frames are not touched by either. *)
Theorem createTable_then_deleteTable T cols db :
  inherited T = false ->
  forallb (fun col => negb (inherited col)) cols = true ->
  table T db = None ->
  exists db1 db2,
    createTable T cols db = Ok tt db1 /\
    tableExists T db1 = Ok true db1 /\
    getAllRecords T db1 = Ok [] db1 /\
    getNextUID T db1 = Ok 1%Z db1 /\
    (forall col, In col cols -> indexExists T col db1 = Ok true db1) /\
    deleteTable T db1 = Ok tt db2 /\
    _data db2 = _data db /\ heap db2 = heap db /\
    _wrapped db2 = _wrapped db /\ _transactions db2 = _transactions db.
Proof.
  intros _ _ Hnone. destruct db as [h w d tr c].
  unfold table in Hnone. cbn [_data] in Hnone.
  set (d0 := assoc_set String.eqb T (mkTable [] [] None) d).
  assert (Ht0 : assoc_get String.eqb T d0 = Some (mkTable [] [] None)).
  { unfold d0. rewrite (assoc_get_set String.eqb_spec).
    now destruct (String.eqb_spec T T). }
  destruct (createTable_loop T cols h w tr d0 c (mkTable [] [] None) Ht0)
    as (t1 & c1 & E & Hr & Hu & Hcols & _); [now intros ? []|].
  cbn [records lastUID] in Hr, Hu.
  assert (Hd1 : assoc_set String.eqb T t1 d0 = assoc_set String.eqb T t1 d).
  { unfold d0. apply (assoc_set_set String.eqb_spec). }
  rewrite Hd1 in E.
  assert (Ht1 : assoc_get String.eqb T (assoc_set String.eqb T t1 d) = Some t1).
  { rewrite (assoc_get_set String.eqb_spec).
    now destruct (String.eqb_spec T T). }
  exists (mkDb h w (assoc_set String.eqb T t1 d) tr c1).
  exists (mkDb h w d tr c1).
  split; [|split; [|split; [|split; [|split; [|split]]]]].
  - unfold createTable. erewrite bind_ok; [exact E|].
    unfold table. cbn [_data]. now rewrite Hnone.
  - unfold tableExists, table. cbn [_data]. now rewrite Ht1.
  - unfold getAllRecords.
    rewrite (bind_ok _ _ (@the_table_spec T _ _ _ _ _ t1 Ht1)).
    unfold ret. now rewrite Hr.
  - unfold getNextUID.
    rewrite (bind_ok _ _ (@the_table_spec T _ _ _ _ _ t1 Ht1)).
    unfold ret. now rewrite Hu.
  - intros col Hin.
    unfold indexExists, table. cbn [_data]. rewrite Ht1. unfold assoc_has.
    destruct (assoc_get String.eqb col (indices t1)) eqn:Hc;
      [reflexivity|now destruct (Hcols col Hin)].
  - unfold deleteTable, table. cbn [_data]. rewrite Ht1.
    unfold onUpdateTable, ret, set_data. cbn [_data heap _wrapped _transactions console].
    now rewrite (assoc_del_fresh String.eqb T t1 d String.eqb_spec Hnone).
  - repeat split.
Qed.

Lemma createTable_then_deleteTable_witness :
  exists db1 db2,
    createTable "orders" ["item"] users_3 = Ok tt db1 /\
    indexExists "orders" "item" db1 = Ok true db1 /\
    deleteTable "orders" db1 = Ok tt db2 /\
    _data db2 = _data users_3.
Proof.
  destruct (createTable_then_deleteTable "orders" ["item"] users_3
              eq_refl eq_refl eq_refl)
    as (db1 & db2 & E & _ & _ & _ & Hcols & Edel & Hdata & _).
  exists db1, db2. split; [exact E|]. split; [apply Hcols; now left|].
  split; [exact Edel|exact Hdata].
Defined.


(** *** List methods through a proxy, and their rollback *)

(** [push], [unshift], [pop] and [shift] called through the proxy of a
    list: the call on the list itself, and one event. *)
Lemma call_list_method b (m : Method) args elems cl h w d tr c :
  nth_error h b = Some (CArray elems) ->
  assoc_get Ref_eqb (Raw b) w = Some cl ->
  m = m_push \/ m = m_unshift \/ m = m_pop \/ m = m_shift ->
  exists w' at_ result,
    call (Prox (Raw b)) m args (mkDb h w d tr c)
    = Ok result
         (mkDb (list_update b (fun _ =>
                  CArray match m with
                         | m_push => elems ++ args
                         | m_unshift => args ++ elems
                         | m_pop => removelast elems
                         | _ => tl elems
                         end) h)
               w' d
               (push_change
                  match m with
                  | m_push => EvMethodPush at_ args
                  | m_unshift => EvMethodUnshift at_ args
                  | m_pop =>
                      EvMethodPop at_ (wrapped_value (last elems VUndef)) args
                  | _ =>
                      EvMethodShift at_ (wrapped_value (hd VUndef elems)) args
                  end tr) c) /\
    object at_ = VObj (Prox (Raw b)) /\
    cache_grows w w'.
Proof.
  intros Hc Hcl Hm.
  set (T0 := cl_tableName cl). set (rec0 := cl_record cl).
  set (col := curColName cl (KStr (method_name m))).
  cbn [call].
  rewrite (bind_ok _ _ (@closure_of_spec (Raw b) cl h w d tr c Hcl)).
  cbv zeta. fold T0 rec0 col.
  unfold is_map, is_set, is_date, is_array, cell_of. cbn [heap base].
  rewrite Hc. cbn [orb].
  assert (Hraw : forall w0,
            raw_call b m args (mkDb h w0 d tr c)
            = Ok match m with
                 | m_push => VNum (Z.of_nat (length (elems ++ args)))
                 | m_unshift => VNum (Z.of_nat (length (args ++ elems)))
                 | m_pop => last elems VUndef
                 | _ => hd VUndef elems
                 end
                 (mkDb (list_update b (fun _ =>
                          CArray match m with
                                 | m_push => elems ++ args
                                 | m_unshift => args ++ elems
                                 | m_pop => removelast elems
                                 | _ => tl elems
                                 end) h) w0 d tr c)).
  { intros w0. unfold raw_call. cbn [heap]. rewrite Hc.
    destruct Hm as [-> | [-> | [-> | ->]]]; reflexivity. }
  set (h1 := list_update b (fun _ =>
                CArray match m with
                       | m_push => elems ++ args
                       | m_unshift => args ++ elems
                       | m_pop => removelast elems
                       | _ => tl elems
                       end) h) in *.
  destruct (wrap_spec T0 rec0 None (VObj rec0) h1 w d tr c)
    as (w1 & E1 & G1 & _).
  destruct (wrap_spec T0 (Raw b) (Some col) (VObj (Raw b)) h1 w1 d tr c)
    as (w2 & E2 & G2 & _).
  destruct (wrap_spec T0 rec0 (Some col)
              match m with m_pop => last elems VUndef | _ => hd VUndef elems end
              h1 w2 d tr c)
    as (w3 & E3 & G3 & _).
  destruct Hm as [-> | [-> | [-> | ->]]].
  - exists w2, (mkAttr T0 (wrapped_value (VObj rec0)) col (VObj (Prox (Raw b)))).
    eexists. split; [|split; [reflexivity|]].
    + rewrite (bind_ok _ _ (Hraw w)). unfold _wrapRecord.
      rewrite (bind_ok _ _ E1), (bind_ok _ _ E2). reflexivity.
    + eapply cache_grows_trans; eassumption.
  - exists w2, (mkAttr T0 (wrapped_value (VObj rec0)) col (VObj (Prox (Raw b)))).
    eexists. split; [|split; [reflexivity|]].
    + rewrite (bind_ok _ _ (Hraw w)). unfold _wrapRecord.
      rewrite (bind_ok _ _ E1), (bind_ok _ _ E2). reflexivity.
    + eapply cache_grows_trans; eassumption.
  - exists w3, (mkAttr T0 (wrapped_value (VObj rec0)) col (VObj (Prox (Raw b)))).
    eexists. split; [|split; [reflexivity|]].
    + rewrite (bind_ok _ _ (Hraw w)). unfold _wrapRecord.
      rewrite (bind_ok _ _ E1), (bind_ok _ _ E2), (bind_ok _ _ E3).
      reflexivity.
    + repeat (eapply cache_grows_trans; [eassumption|]). apply cache_grows_refl.
  - exists w3, (mkAttr T0 (wrapped_value (VObj rec0)) col (VObj (Prox (Raw b)))).
    eexists. split; [|split; [reflexivity|]].
    + rewrite (bind_ok _ _ (Hraw w)). unfold _wrapRecord.
      rewrite (bind_ok _ _ E1), (bind_ok _ _ E2), (bind_ok _ _ E3).
      reflexivity.
    + repeat (eapply cache_grows_trans; [eassumption|]). apply cache_grows_refl.
Qed.

(** A transaction that recorded one event and is rolled back undoes that
    event on the state the operation left, with the frame closed. *)
Lemma rollback_of_one_event {A} (op : Op A) ev result h w d tr c h1 w1 d1 c1 :
  op (mkDb h w d (tr ++ [mkTransaction []]) c)
  = Ok result (mkDb h1 w1 d1 (push_change ev (tr ++ [mkTransaction []])) c1) ->
  (beginTransaction ;;; op ;;; rollbackTransaction) (mkDb h w d tr c)
  = (undo ev ;;; ret tt) (mkDb h1 w1 d1 tr c1).
Proof.
  intros E.
  rewrite (bind_ok _ _ (eq_refl : beginTransaction (mkDb h w d tr c)
                                  = Ok tt (mkDb h w d (tr ++ [mkTransaction []]) c))).
  rewrite (bind_ok _ _ E).
  erewrite rollback_pops by (cbn [_transactions]; apply push_change_last).
  reflexivity.
Qed.

(** [length] read through the proxy of a list. *)
Lemma length_through_proxy b elems cl h w d tr c :
  nth_error h b = Some (CArray elems) ->
  assoc_get Ref_eqb (Raw b) w = Some cl ->
  get (Prox (Raw b)) (KStr "length") (mkDb h w d tr c)
  = Ok (VNum (Z.of_nat (length elems))) (mkDb h w d tr c).
Proof.
  intros Hc Hcl. cbn [get].
  rewrite (bind_ok _ _ (@closure_of_spec (Raw b) cl h w d tr c Hcl)).
  unfold is_map, is_set, is_date, cell_of. cbn [heap base].
  rewrite Hc. cbn [orb].
  rewrite (bind_ok _ _ (@get_raw_spec b (KStr "length") _ h w d tr c Hc)).
  reflexivity.
Qed.

(** X18. A call of [push], [unshift], [pop] or [shift] through the proxy of
    a list, made in a transaction that is then rolled back, is undone by one
    call of the opposite method.  After the rollback a list that held [elems]
    holds: after [push(...args)], [elems] and [args] without the last
    element; after [unshift(...args)], [args] and [elems] without the first
    element; after [pop()], [elems] with its last element -- or [undefined],
    if the list was empty -- replaced by its proxy when it is an object;
    after [shift()], the same at the front.  So the list is as before when
    exactly one value was pushed or unshifted, and when a primitive value
    was popped or shifted.  No other object and no table is touched, and the
    frames are as before the transaction, but that the undoing call is
    recorded in the enclosing frame. *)
Theorem list_call_rolled_back b (m : Method) args elems cl h w d tr c :
  nth_error h b = Some (CArray elems) ->
  assoc_get Ref_eqb (Raw b) w = Some cl ->
  m = m_push \/ m = m_unshift \/ m = m_pop \/ m = m_shift ->
  exists db',
    (beginTransaction ;;; call (Prox (Raw b)) m args ;;; rollbackTransaction)
      (mkDb h w d tr c) = Ok tt db' /\
    nth_error (heap db') b
    = Some (CArray match m with
                   | m_push => removelast (elems ++ args)
                   | m_unshift => tl (args ++ elems)
                   | m_pop =>
                       removelast elems ++ [wrapped_value (last elems VUndef)]
                   | _ => wrapped_value (hd VUndef elems) :: tl elems
                   end) /\
    (forall a, a <> b -> nth_error (heap db') a = nth_error h a) /\
    length (heap db') = length h /\
    _data db' = d /\
    exists events, _transactions db' = append_changes events tr.
Proof.
  intros Hc Hcl Hm.
  destruct (call_list_method b m args elems cl h w d
              (tr ++ [mkTransaction []]) c Hc Hcl Hm)
    as (w1 & at_ & result & E & Hobj & G).
  rewrite (rollback_of_one_event _ _ _ _ _ _ _ _ _ _ _ _ E).
  set (elems1 := match m with
                 | m_push => elems ++ args
                 | m_unshift => args ++ elems
                 | m_pop => removelast elems
                 | _ => tl elems
                 end) in *.
  set (h1 := list_update b (fun _ => CArray elems1) h) in *.
  assert (Hc1 : nth_error h1 b = Some (CArray elems1)).
  { unfold h1. now rewrite (nth_error_list_update_eq _ _ _ Hc). }
  pose proof (G _ _ Hcl) as Hcl1.
  assert (Harr : is_array (Prox (Raw b)) (mkDb h1 w1 d tr c) = true).
  { unfold is_array, cell_of. cbn [heap base]. now rewrite Hc1. }
  assert (Hfinal : forall (elems2 : list DbValue) w2 tr2,
            nth_error (heap (mkDb (list_update b (fun _ => CArray elems2) h1)
                                  w2 d tr2 c)) b = Some (CArray elems2) /\
            (forall a, a <> b ->
               nth_error (heap (mkDb (list_update b (fun _ => CArray elems2) h1)
                                     w2 d tr2 c)) a = nth_error h a) /\
            length (heap (mkDb (list_update b (fun _ => CArray elems2) h1)
                               w2 d tr2 c)) = length h).
  { intros elems2 w2 tr2. cbn [heap]. split; [|split].
    - now rewrite (nth_error_list_update_eq _ _ _ Hc1).
    - intros a Ha. unfold h1.
      rewrite !nth_error_list_update_neq by congruence. reflexivity.
    - unfold h1. now rewrite !length_list_update. }
  assert (Hinverse : forall m' args',
            m' = m_push \/ m' = m_unshift \/ m' = m_pop \/ m' = m_shift ->
            exists w2 ev,
              (call (Prox (Raw b)) m' args' ;;; ret tt) (mkDb h1 w1 d tr c)
              = Ok tt (mkDb (list_update b (fun _ =>
                               CArray match m' with
                                      | m_push => elems1 ++ args'
                                      | m_unshift => args' ++ elems1
                                      | m_pop => removelast elems1
                                      | _ => tl elems1
                                      end) h1) w2 d (push_change ev tr) c)).
  { intros m' args' Hm'.
    destruct (call_list_method b m' args' elems1 cl h1 w1 d tr c Hc1 Hcl1 Hm')
      as (w2 & at2 & result2 & E2 & _).
    eexists. eexists. rewrite (bind_ok _ _ E2). reflexivity. }
  assert (Hone : forall ev, push_change ev tr = append_changes [ev] tr)
    by reflexivity.
  destruct Hm as [-> | [-> | [-> | ->]]]; cbn [undo]; rewrite Hobj.
  - (* push, undone by pop *)
    unfold bind at 1. rewrite Harr.
    rewrite (bind_ok _ _ (length_through_proxy b elems1 cl h1 w1 d tr c Hc1 Hcl1)).
    cbn [to_integer].
    destruct (0 <? Z.of_nat (length elems1))%Z eqn:Elen.
    + destruct (Hinverse m_pop [] ltac:(tauto)) as (w2 & ev & E2).
      rewrite E2. eexists. split; [reflexivity|].
      destruct (Hfinal (removelast elems1) w2 (push_change ev tr))
        as (H1 & H2 & H3).
      split; [exact H1|]. split; [exact H2|]. split; [exact H3|].
      split; [reflexivity|]. exists [ev]. reflexivity.
    + assert (elems1 = []) as Hnil.
      { destruct elems1; [reflexivity|]. apply Z.ltb_ge in Elen.
        simpl length in Elen. lia. }
      eexists. split; [reflexivity|]. cbn [heap _data _transactions].
      split; [rewrite Hc1; do 2 f_equal; change (elems1 = removelast elems1);
              now rewrite Hnil|]. split.
      { intros a Ha. unfold h1. now rewrite nth_error_list_update_neq by congruence. }
      split; [unfold h1; now rewrite length_list_update|].
      split; [reflexivity|]. exists []. reflexivity.
  - (* unshift, undone by shift *)
    unfold bind at 1. rewrite Harr.
    rewrite (bind_ok _ _ (length_through_proxy b elems1 cl h1 w1 d tr c Hc1 Hcl1)).
    cbn [to_integer].
    destruct (0 <? Z.of_nat (length elems1))%Z eqn:Elen.
    + destruct (Hinverse m_shift [] ltac:(tauto)) as (w2 & ev & E2).
      rewrite E2. eexists. split; [reflexivity|].
      destruct (Hfinal (tl elems1) w2 (push_change ev tr)) as (H1 & H2 & H3).
      split; [exact H1|]. split; [exact H2|]. split; [exact H3|].
      split; [reflexivity|]. exists [ev]. reflexivity.
    + assert (elems1 = []) as Hnil.
      { destruct elems1; [reflexivity|]. apply Z.ltb_ge in Elen.
        simpl length in Elen. lia. }
      eexists. split; [reflexivity|]. cbn [heap _data _transactions].
      split; [rewrite Hc1; do 2 f_equal; change (elems1 = tl elems1);
              now rewrite Hnil|]. split.
      { intros a Ha. unfold h1. now rewrite nth_error_list_update_neq by congruence. }
      split; [unfold h1; now rewrite length_list_update|].
      split; [reflexivity|]. exists []. reflexivity.
  - (* pop, undone by push *)
    unfold bind at 1. rewrite Harr.
    destruct (Hinverse m_push [wrapped_value (last elems VUndef)] ltac:(tauto))
      as (w2 & ev & E2).
    rewrite E2. eexists. split; [reflexivity|].
    destruct (Hfinal (elems1 ++ [wrapped_value (last elems VUndef)]) w2
                (push_change ev tr)) as (H1 & H2 & H3).
    split; [exact H1|]. split; [exact H2|]. split; [exact H3|].
    split; [reflexivity|]. exists [ev]. reflexivity.
  - (* shift, undone by unshift *)
    unfold bind at 1. rewrite Harr.
    destruct (Hinverse m_unshift [wrapped_value (hd VUndef elems)] ltac:(tauto))
      as (w2 & ev & E2).
    rewrite E2. eexists. split; [reflexivity|].
    destruct (Hfinal ([wrapped_value (hd VUndef elems)] ++ elems1) w2
                (push_change ev tr)) as (H1 & H2 & H3).
    split; [exact H1|]. split; [exact H2|]. split; [exact H3|].
    split; [reflexivity|]. exists [ev]. reflexivity.
Qed.


Lemma list_call_rolled_back_witness :
  exists db',
    (beginTransaction ;;; call (Prox (Raw 1)) m_push [VStr "b"] ;;;
     rollbackTransaction)
      (mkDb [CObject [(KStr "tags", VObj (Raw 1))]; CArray [VStr "a"]]
            [(Raw 0, mkClosure "users" (Raw 0) None);
             (Raw 1, mkClosure "users" (Raw 0) (Some (KStr "tags")))]
            [("users", mkTable [] [] None)] [] []) = Ok tt db' /\
    nth_error (heap db') 1 = Some (CArray [VStr "a"]).
Proof.
  destruct (list_call_rolled_back 1 m_push [VStr "b"] [VStr "a"]
              (mkClosure "users" (Raw 0) (Some (KStr "tags")))
              [CObject [(KStr "tags", VObj (Raw 1))]; CArray [VStr "a"]]
              [(Raw 0, mkClosure "users" (Raw 0) None);
               (Raw 1, mkClosure "users" (Raw 0) (Some (KStr "tags")))]
              [("users", mkTable [] [] None)] [] []
              eq_refl eq_refl (or_introl eq_refl))
    as (db' & E & Hlist & _).
  exists db'. split; [exact E|exact Hlist].
Defined.

(** *** Set and Map methods through a proxy, and their rollback *)

(** [add] and [delete] called through the proxy of a [Set]: one event, then
    the call on the set itself. *)
Lemma call_set_method b (m : Method) args members cl h w d tr c :
  nth_error h b = Some (CSet members) ->
  assoc_get Ref_eqb (Raw b) w = Some cl ->
  m = m_add \/ m = m_delete ->
  exists w' at_ result,
    call (Prox (Raw b)) m args (mkDb h w d tr c)
    = Ok result
         (mkDb (list_update b (fun _ =>
                  CSet match m with
                       | m_add => set_add same_value (arg 0 args) members
                       | _ => set_del same_value (arg 0 args) members
                       end) h)
               w' d
               (push_change
                  match m with
                  | m_add => EvMethodAdd at_ VUndef args
                  | _ => EvMethodDelete at_ VUndef args
                  end tr) c) /\
    object at_ = VObj (Prox (Raw b)) /\
    cache_grows w w'.
Proof.
  intros Hc Hcl Hm.
  set (T0 := cl_tableName cl). set (rec0 := cl_record cl).
  set (col := curColName cl (KStr (method_name m))).
  cbn [call].
  rewrite (bind_ok _ _ (@closure_of_spec (Raw b) cl h w d tr c Hcl)).
  cbv zeta. fold T0 rec0 col.
  unfold is_map at 1, is_set at 1, cell_of. cbn [heap base].
  rewrite Hc. cbn [orb].
  destruct (wrap_spec T0 rec0 None (VObj rec0) h w d tr c)
    as (w1 & E1 & G1 & _).
  destruct (wrap_spec T0 (Raw b) (Some col) (VObj (Raw b)) h w1 d tr c)
    as (w2 & E2 & G2 & _).
  exists w2, (mkAttr T0 (wrapped_value (VObj rec0)) col (VObj (Prox (Raw b)))).
  destruct Hm as [-> | ->]; eexists; (split; [|split; [reflexivity|]]).
  - unfold _wrapRecord. rewrite (bind_ok _ _ E1), (bind_ok _ _ E2).
    rewrite (bind_ok _ _ (eq_refl : ret VUndef _ = Ok VUndef _)).
    cbv zeta. unfold onUpdateRecord, bind, raw_call.
    cbn [heap set_transactions _wrapped _data _transactions console].
    rewrite Hc. reflexivity.
  - eapply cache_grows_trans; eassumption.
  - unfold _wrapRecord. rewrite (bind_ok _ _ E1), (bind_ok _ _ E2).
    unfold bind at 1. cbv beta. unfold is_map, cell_of. cbn [heap base].
    rewrite Hc. cbv zeta. unfold onUpdateRecord, bind, raw_call.
    cbn [heap set_transactions _wrapped _data _transactions console].
    rewrite Hc. reflexivity.
  - eapply cache_grows_trans; eassumption.
Qed.

(** X19. A call of [add] or [delete] through the proxy of a [Set], made in
    a transaction that is then rolled back, is undone by the opposite call
    with the same argument, whatever the set held: after [add(v)] and the
    rollback [v] is deleted from the set, also when it was a member before
    the transaction; after [delete(v)] and the rollback [v] is added, at the
    end, also when it was no member.  So the set is as before when the value
    added was new.  No other object and no table is touched. *)
Theorem set_call_rolled_back b (m : Method) args members cl h w d tr c :
  nth_error h b = Some (CSet members) ->
  assoc_get Ref_eqb (Raw b) w = Some cl ->
  m = m_add \/ m = m_delete ->
  let v := arg 0 args in
  exists db',
    (beginTransaction ;;; call (Prox (Raw b)) m args ;;; rollbackTransaction)
      (mkDb h w d tr c) = Ok tt db' /\
    nth_error (heap db') b
    = Some (CSet match m with
                 | m_add => set_del same_value v (set_add same_value v members)
                 | _ => set_add same_value v (set_del same_value v members)
                 end) /\
    (m = m_add -> existsb (same_value v) members = false ->
     nth_error (heap db') b = Some (CSet members)) /\
    (forall a, a <> b -> nth_error (heap db') a = nth_error h a) /\
    length (heap db') = length h /\
    _data db' = d /\
    exists events, _transactions db' = append_changes events tr.
Proof.
  intros Hc Hcl Hm v.
  destruct (call_set_method b m args members cl h w d
              (tr ++ [mkTransaction []]) c Hc Hcl Hm)
    as (w1 & at_ & result & E & Hobj & G).
  rewrite (rollback_of_one_event _ _ _ _ _ _ _ _ _ _ _ _ E).
  set (members1 := match m with
                   | m_add => set_add same_value (arg 0 args) members
                   | _ => set_del same_value (arg 0 args) members
                   end) in *.
  set (h1 := list_update b (fun _ => CSet members1) h) in *.
  assert (Hc1 : nth_error h1 b = Some (CSet members1)).
  { unfold h1. now rewrite (nth_error_list_update_eq _ _ _ Hc). }
  pose proof (G _ _ Hcl) as Hcl1.
  assert (Hinverse : forall m',
            m' = m_add \/ m' = m_delete ->
            exists w2 ev,
              (call (Prox (Raw b)) m' [arg 0 args] ;;; ret tt)
                (mkDb h1 w1 d tr c)
              = Ok tt (mkDb (list_update b (fun _ =>
                               CSet match m' with
                                    | m_add => set_add same_value v members1
                                    | _ => set_del same_value v members1
                                    end) h1) w2 d (push_change ev tr) c)).
  { intros m' Hm'.
    destruct (call_set_method b m' [arg 0 args] members1 cl h1 w1 d tr c
                Hc1 Hcl1 Hm')
      as (w2 & at2 & result2 & E2 & _).
    eexists. eexists. rewrite (bind_ok _ _ E2). reflexivity. }
  assert (Hdone : forall m', m' = m_add \/ m' = m_delete ->
            exists db',
              (call (Prox (Raw b)) m' [arg 0 args] ;;; ret tt)
                (mkDb h1 w1 d tr c) = Ok tt db' /\
              nth_error (heap db') b
              = Some (CSet match m' with
                           | m_add => set_add same_value v members1
                           | _ => set_del same_value v members1
                           end) /\
              (forall a, a <> b -> nth_error (heap db') a = nth_error h a) /\
              length (heap db') = length h /\
              _data db' = d /\
              exists events, _transactions db' = append_changes events tr).
  { intros m' Hm'. destruct (Hinverse m' Hm') as (w2 & ev & E2).
    eexists. split; [exact E2|]. cbn [heap _data _transactions].
    split; [now rewrite (nth_error_list_update_eq _ _ _ Hc1)|].
    split; [|split; [|split; [reflexivity|exists [ev]; reflexivity]]].
    - intros a Ha. unfold h1.
      rewrite !nth_error_list_update_neq by congruence. reflexivity.
    - unfold h1. now rewrite !length_list_update. }
  destruct Hm as [-> | ->]; cbn [undo]; rewrite Hobj.
  - unfold bind at 1.
    rewrite (bind_ok _ _ (eq_refl : as_ref (VObj (Prox (Raw b))) _ = Ok _ _)).
    destruct (Hdone m_delete ltac:(tauto))
      as (db' & E2 & Hcell & Hrest).
    rewrite E2.
    exists db'. split; [reflexivity|]. split; [exact Hcell|].
    split; [|exact Hrest].
    intros _ Hnew. rewrite Hcell. do 2 f_equal.
    unfold members1, set_add. fold v. rewrite Hnew.
    clear -Hnew. induction members as [|x l IH]; simpl in *.
    + now rewrite same_value_refl.
    + apply Bool.orb_false_iff in Hnew. destruct Hnew as (Hx & Hl).
      rewrite Hx. now rewrite (IH Hl).
  - unfold bind at 1.
    rewrite (bind_ok _ _ (eq_refl : as_ref (VObj (Prox (Raw b))) _ = Ok _ _)).
    assert (Hset : is_map (Prox (Raw b)) (mkDb h1 w1 d tr c) = false).
    { unfold is_map, cell_of. cbn [heap base]. now rewrite Hc1. }
    rewrite Hset.
    destruct (Hdone m_add ltac:(tauto)) as (db' & E2 & Hcell & Hrest).
    rewrite E2.
    exists db'. split; [reflexivity|]. split; [exact Hcell|].
    split; [discriminate|exact Hrest].
Qed.


Lemma set_call_rolled_back_witness :
  exists db',
    (beginTransaction ;;; call (Prox (Raw 1)) m_add [VStr "a"] ;;;
     rollbackTransaction)
      (mkDb [CObject [(KStr "tags", VObj (Raw 1))]; CSet [VStr "a"; VStr "b"]]
            [(Raw 0, mkClosure "users" (Raw 0) None);
             (Raw 1, mkClosure "users" (Raw 0) (Some (KStr "tags")))]
            [("users", mkTable [] [] None)] [] []) = Ok tt db' /\
    nth_error (heap db') 1 = Some (CSet [VStr "b"]).
Proof.
  destruct (set_call_rolled_back 1 m_add [VStr "a"] [VStr "a"; VStr "b"]
              (mkClosure "users" (Raw 0) (Some (KStr "tags")))
              [CObject [(KStr "tags", VObj (Raw 1))]; CSet [VStr "a"; VStr "b"]]
              [(Raw 0, mkClosure "users" (Raw 0) None);
               (Raw 1, mkClosure "users" (Raw 0) (Some (KStr "tags")))]
              [("users", mkTable [] [] None)] [] []
              eq_refl eq_refl (or_introl eq_refl))
    as (db' & E & Hset & _).
  exists db'. split; [exact E|exact Hset].
Defined.

(** [set] and [delete] called through the proxy of a [Map]: one event that
    carries the proxy of the value the key had, then the call on the map
    itself. *)
Lemma call_map_method b (m : Method) args entries cl h w d tr c :
  nth_error h b = Some (CMap entries) ->
  assoc_get Ref_eqb (Raw b) w = Some cl ->
  m = m_set \/ m = m_delete ->
  let old := match assoc_get same_value (arg 0 args) entries with
             | Some v => v
             | None => VUndef
             end in
  exists w' at_ result,
    call (Prox (Raw b)) m args (mkDb h w d tr c)
    = Ok result
         (mkDb (list_update b (fun _ =>
                  CMap match m with
                       | m_set =>
                           assoc_set same_value (arg 0 args) (arg 1 args) entries
                       | _ => assoc_del same_value (arg 0 args) entries
                       end) h)
               w' d
               (push_change
                  match m with
                  | m_set => EvMethodSet at_ (wrapped_value old) args
                  | _ => EvMethodDelete at_ (wrapped_value old) args
                  end tr) c) /\
    object at_ = VObj (Prox (Raw b)) /\
    cache_grows w w'.
Proof.
  intros Hc Hcl Hm old.
  set (T0 := cl_tableName cl). set (rec0 := cl_record cl).
  set (col := curColName cl (KStr (method_name m))).
  cbn [call].
  rewrite (bind_ok _ _ (@closure_of_spec (Raw b) cl h w d tr c Hcl)).
  cbv zeta. fold T0 rec0 col.
  unfold is_map at 1, is_set at 1, cell_of. cbn [heap base].
  rewrite Hc. cbn [orb].
  destruct (wrap_spec T0 rec0 None (VObj rec0) h w d tr c)
    as (w1 & E1 & G1 & _).
  destruct (wrap_spec T0 (Raw b) (Some col) (VObj (Raw b)) h w1 d tr c)
    as (w2 & E2 & G2 & _).
  destruct (wrap_spec T0 rec0 (Some col) old h w2 d tr c)
    as (w3 & E3 & G3 & _).
  assert (Hold : forall m', m' = m_set \/ m' = m_delete ->
            (fun db' : Db =>
               if is_map (Raw b) db'
               then (v <- raw_call b m_get [arg 0 args] ;;
                     _wrap T0 rec0 (Some col) v) db'
               else Ok VUndef db') (mkDb h w2 d tr c)
            = Ok (wrapped_value old) (mkDb h w3 d tr c)).
  { intros m' _. cbv beta. unfold is_map, cell_of. cbn [heap base].
    rewrite Hc.
    assert (Eget : raw_call b m_get [arg 0 args] (mkDb h w2 d tr c)
                   = Ok old (mkDb h w2 d tr c)).
    { unfold raw_call. cbn [heap]. rewrite Hc. reflexivity. }
    rewrite (bind_ok _ _ Eget). exact E3. }
  exists w3, (mkAttr T0 (wrapped_value (VObj rec0)) col (VObj (Prox (Raw b)))).
  destruct Hm as [-> | ->]; eexists; (split; [|split; [reflexivity|]]).
  - unfold _wrapRecord. rewrite (bind_ok _ _ E1), (bind_ok _ _ E2).
    rewrite (bind_ok _ _ (Hold m_set ltac:(tauto))).
    cbv zeta. unfold onUpdateRecord, bind, raw_call.
    cbn [heap set_transactions _wrapped _data _transactions console].
    rewrite Hc. reflexivity.
  - repeat (eapply cache_grows_trans; [eassumption|]). apply cache_grows_refl.
  - unfold _wrapRecord. rewrite (bind_ok _ _ E1), (bind_ok _ _ E2).
    rewrite (bind_ok _ _ (Hold m_delete ltac:(tauto))).
    cbv zeta. unfold onUpdateRecord, bind, raw_call.
    cbn [heap set_transactions _wrapped _data _transactions console].
    rewrite Hc. reflexivity.
  - repeat (eapply cache_grows_trans; [eassumption|]). apply cache_grows_refl.
Qed.

(** [has] called through the proxy of a [Map] is the call on the map. *)
Lemma has_through_proxy b args entries cl h w d tr c :
  nth_error h b = Some (CMap entries) ->
  assoc_get Ref_eqb (Raw b) w = Some cl ->
  call (Prox (Raw b)) m_has args (mkDb h w d tr c)
  = Ok (VBool (assoc_has same_value (arg 0 args) entries)) (mkDb h w d tr c).
Proof.
  intros Hc Hcl. cbn [call].
  rewrite (bind_ok _ _ (@closure_of_spec (Raw b) cl h w d tr c Hcl)).
  cbv zeta. unfold is_map, is_set, cell_of. cbn [heap base].
  rewrite Hc. cbn [orb]. unfold raw_call. cbn [heap]. now rewrite Hc.
Qed.

(** X20. A call of [set] or [delete] through the proxy of a [Map], made in
    a transaction that is then rolled back, is not undone to the former
    entry.  After [set(k, v)] and the rollback the map still holds [v] at
    [k], whether [k] had a value before or not: the rollback finds the key
    and sets it to [v] again.  After [delete(k)] and the rollback the key is
    entered anew, with the value it had (its proxy, when it is an object),
    and with [undefined] when the key was absent.  No other object and no
    table is touched. *)
Theorem map_call_rolled_back b (m : Method) args entries cl h w d tr c :
  nth_error h b = Some (CMap entries) ->
  assoc_get Ref_eqb (Raw b) w = Some cl ->
  m = m_set \/ m = m_delete ->
  let k := arg 0 args in
  let old := match assoc_get same_value k entries with
             | Some v => v
             | None => VUndef
             end in
  exists db',
    (beginTransaction ;;; call (Prox (Raw b)) m args ;;; rollbackTransaction)
      (mkDb h w d tr c) = Ok tt db' /\
    nth_error (heap db') b
    = Some (CMap match m with
                 | m_set => assoc_set same_value k (arg 1 args) entries
                 | _ => assoc_set same_value k (wrapped_value old)
                          (assoc_del same_value k entries)
                 end) /\
    (forall a, a <> b -> nth_error (heap db') a = nth_error h a) /\
    length (heap db') = length h /\
    _data db' = d /\
    exists events, _transactions db' = append_changes events tr.
Proof.
  intros Hc Hcl Hm k old.
  destruct (call_map_method b m args entries cl h w d
              (tr ++ [mkTransaction []]) c Hc Hcl Hm)
    as (w1 & at_ & result & E & Hobj & G).
  fold k old in E.
  rewrite (rollback_of_one_event _ _ _ _ _ _ _ _ _ _ _ _ E).
  set (entries1 := match m with
                   | m_set => assoc_set same_value k (arg 1 args) entries
                   | _ => assoc_del same_value k entries
                   end) in *.
  set (h1 := list_update b (fun _ => CMap entries1) h) in *.
  assert (Hc1 : nth_error h1 b = Some (CMap entries1)).
  { unfold h1. now rewrite (nth_error_list_update_eq _ _ _ Hc). }
  pose proof (G _ _ Hcl) as Hcl1.
  assert (Hmap : is_map (Prox (Raw b)) (mkDb h1 w1 d tr c) = true).
  { unfold is_map, cell_of. cbn [heap base]. now rewrite Hc1. }
  assert (Hdone : forall v,
            exists db',
              (call (Prox (Raw b)) m_set [k; v] ;;; ret tt)
                (mkDb h1 w1 d tr c) = Ok tt db' /\
              nth_error (heap db') b
              = Some (CMap (assoc_set same_value k v entries1)) /\
              (forall a, a <> b -> nth_error (heap db') a = nth_error h a) /\
              length (heap db') = length h /\
              _data db' = d /\
              exists events, _transactions db' = append_changes events tr).
  { intros v.
    destruct (call_map_method b m_set [k; v] entries1 cl h1 w1 d tr c
                Hc1 Hcl1 ltac:(tauto))
      as (w2 & at2 & result2 & E2 & _).
    eexists. split; [rewrite (bind_ok _ _ E2); reflexivity|].
    cbn [heap _data _transactions arg nth].
    split; [now rewrite (nth_error_list_update_eq _ _ _ Hc1)|].
    split; [|split; [|split; [reflexivity|eexists [_]; reflexivity]]].
    - intros a Ha. unfold h1.
      rewrite !nth_error_list_update_neq by congruence. reflexivity.
    - unfold h1. now rewrite !length_list_update. }
  destruct Hm as [-> | ->]; cbn [undo]; rewrite Hobj.
  - unfold bind at 1.
    rewrite (bind_ok _ _ (eq_refl : as_ref (VObj (Prox (Raw b))) _ = Ok _ _)).
    rewrite (bind_ok _ _ (has_through_proxy b [arg 0 args] entries1 cl
                            h1 w1 d tr c Hc1 Hcl1)).
    cbn [arg nth]. fold (arg 0 args). fold k.
    assert (Hhas : assoc_has same_value k entries1 = true).
    { unfold assoc_has, entries1.
      rewrite (assoc_get_set same_value_spec), same_value_refl. reflexivity. }
    rewrite Hhas. cbn [truthy].
    destruct (Hdone (arg 1 args)) as (db' & E2 & Hcell & Hrest).
    rewrite E2. exists db'. split; [reflexivity|]. split; [|exact Hrest].
    rewrite Hcell. unfold entries1.
    now rewrite (assoc_set_set same_value_spec).
  - unfold bind at 1.
    rewrite (bind_ok _ _ (eq_refl : as_ref (VObj (Prox (Raw b))) _ = Ok _ _)).
    rewrite Hmap.
    destruct (Hdone (wrapped_value old)) as (db' & E2 & Hcell & Hrest).
    cbn [arg nth]. fold (arg 0 args). fold k.
    rewrite E2. exists db'. split; [reflexivity|]. split; [|exact Hrest].
    exact Hcell.
Qed.

Lemma map_call_rolled_back_witness :
  exists db',
    (beginTransaction ;;; call (Prox (Raw 1)) m_set [VStr "a"; VNum 2] ;;;
     rollbackTransaction)
      (mkDb [CObject [(KStr "tags", VObj (Raw 1))]; CMap [(VStr "a", VNum 1)]]
            [(Raw 0, mkClosure "users" (Raw 0) None);
             (Raw 1, mkClosure "users" (Raw 0) (Some (KStr "tags")))]
            [("users", mkTable [] [] None)] [] []) = Ok tt db' /\
    nth_error (heap db') 1 = Some (CMap [(VStr "a", VNum 2)]).
Proof.
  destruct (map_call_rolled_back 1 m_set [VStr "a"; VNum 2] [(VStr "a", VNum 1)]
              (mkClosure "users" (Raw 0) (Some (KStr "tags")))
              [CObject [(KStr "tags", VObj (Raw 1))]; CMap [(VStr "a", VNum 1)]]
              [(Raw 0, mkClosure "users" (Raw 0) None);
               (Raw 1, mkClosure "users" (Raw 0) (Some (KStr "tags")))]
              [("users", mkTable [] [] None)] [] []
              eq_refl eq_refl (or_introl eq_refl))
    as (db' & E & Hmap & _).
  exists db'. split; [exact E|exact Hmap].
Defined.


(** *** Removal by the object instead of the handle *)

Lemma set_del_absent (v : DbValue) l :
  ~ In v l -> set_del same_value v l = l.
Proof.
  induction l as [|x l IH]; simpl; [reflexivity|]. intros Hn.
  destruct (same_value_spec v x) as [->|_]; [destruct Hn; now left|].
  rewrite IH; [reflexivity|]. intros Hin. apply Hn. now right.
Qed.

(** [removeRecord] given the record object itself. *)
Lemma removeRecord_raw T a (props : list (Key * DbValue)) uid stored
    (h : list (Cell Ref)) w d tr c t :
  nth_error h a = Some (CObject props) ->
  assoc_get Key_eqb UniqueID props = Some (VBig uid) ->
  uid <> 0%Z ->
  assoc_get String.eqb T d = Some t ->
  assoc_get same_value (VBig uid) (records t) = Some stored ->
  exists w',
    removeRecord T (VObj (Raw a)) (mkDb h w d tr c)
    = Ok tt (mkDb h w'
               (assoc_set String.eqb T
                  (removed t uid (VObj (Raw a)) (index_key_of false props)) d)
               (push_change (EvRemoved T (VObj (Raw a))) tr) c) /\
    cache_grows w w'.
Proof.
  intros Hc Hid Hnz Ht Hst.
  pose proof (@reads_raw a h w (CObject props) Hc) as Hreads.
  assert (Eid : raw_get (CObject props) UniqueID = VBig uid).
  { simpl. now rewrite Hid. }
  set (t1 := set_records (assoc_del same_value (VBig uid) (records t)) t).
  set (d1 := assoc_set String.eqb T t1 d).
  assert (Ht1 : assoc_get String.eqb T d1 = Some t1).
  { unfold d1. now rewrite (assoc_get_set string_eqb_spec), String.eqb_refl. }
  destruct (@depopulate_loop T (Raw a) (VObj (Raw a)) _ h tr c
              (map fst (indices t)) w d1 t1 Hreads Ht1) as (w2 & Eloop & Hg2 & _).
  exists w2. split; [|exact Hg2].
  unfold removeRecord, table. simpl _data. rewrite Ht.
  rewrite (bind_ok _ _ (eq_refl : as_ref (VObj (Raw a)) _ = Ok (Raw a) _)).
  rewrite (bind_ok _ _ (@get_raw_spec a UniqueID _ h w d tr c Hc)).
  rewrite Eid.
  assert (Etr : truthy (VBig uid : DbValue) = true).
  { simpl. now destruct (Z.eqb_spec uid 0). }
  rewrite Etr. change (negb true) with false. cbv iota.
  rewrite (bind_ok _ _ (@the_table_spec T h w d tr c t Ht)).
  rewrite (assoc_has_get _ _ _ Hst). change (negb true) with false. cbv iota.
  rewrite (bind_ok _ _ (@update_table_spec T _ h w d tr c t Ht)).
  fold t1. fold d1.
  rewrite (bind_ok _ _ Eloop).
  unfold onUpdateRecord. simpl. f_equal. f_equal.
  unfold d1. rewrite (@assoc_set_set _ _ _ string_eqb_spec). reflexivity.
Qed.

(** X21. [removeRecord] takes a record out of the indices only when it is
    given the value the indices hold, the handle.  In a store built by the steps of [plain_step] (tables created
    with their indexes, under names that [Object.prototype] does not define;
    records that are fresh object literals with primitive fields, added with
    [wrapped] true by [addRecord] or, under a positive identifier not in
    use, by [setRecord];
    primitive values assigned to fields, fields deleted and records removed
    through the handles), [removeRecord] given the record object itself deletes
    the record from the table -- [getRecord] of its identifier returns
    [undefined] -- and leaves every index as it was: a lookup on an indexed
    column returns what it returned before, the removed record included. *)
Theorem removeRecord_by_object_leaves_the_index T id a db t :
  built db ->
  table T db = Some t ->
  In (VBig id, VObj (Raw a)) (records t) ->
  exists db1,
    removeRecord T (VObj (Raw a)) db = Ok tt db1 /\
    (forall wrapped, getRecord T id wrapped db1 = Ok VUndef db1) /\
    (forall col ix v,
       assoc_get String.eqb col (indices t) = Some ix ->
       getRecordsByColumn T col v false db = Ok (index_lookup ix v) db /\
       getRecordsByColumn T col v false db1 = Ok (index_lookup ix v) db1) /\
    (forall col ix v,
       assoc_get String.eqb col (indices t) = Some ix ->
       get (Raw a) (KStr col) db = Ok v db -> v <> VUndef ->
       In (handle a) (index_lookup ix v)).
Proof.
  intros Hreach Ht Hin. apply built_reachable in Hreach.
  pose proof (reachable_ok db Hreach) as Hok.
  pose proof (store_ok_index_invariant db Hok) as Hix.
  destruct db as [h w d tr c]. unfold table in Ht. cbn [_data] in Ht.
  assert (Hinv : inv h w d) by exact Hok.
  destruct Hinv as (Htab & _ & _).
  pose proof (Htab T t Ht) as Htok.
  destruct (stored_record h w T t (VBig id) (VObj (Raw a)) Htok Hin)
    as (uid & a' & props & Hid & Hrec & Hpos & Hc & Hprim & Hnd & Huid & Hcl
        & Hstored).
  injection Hid as <-. injection Hrec as <-.
  destruct (removeRecord_raw T a props id _ h w d tr c t
              Hc Huid ltac:(lia) Ht Hstored) as (w' & E & Hg).
  eexists. split; [exact E|].
  set (t1 := removed t id (VObj (Raw a)) (index_key_of false props)).
  assert (Ht1 : forall w0 tr',
            table T (mkDb h w0 (assoc_set String.eqb T t1 d) tr' c) = Some t1).
  { intros w0 tr'. unfold table. cbn [_data].
    rewrite (assoc_get_set String.eqb_spec).
    now destruct (String.eqb_spec T T). }
  pose proof (@ok_ids h w T t Htok) as Hids.
  split; [|split].
  - intros wrapped. unfold getRecord. rewrite Ht1. cbn [t1 removed records].
    rewrite (assoc_get_del same_value_spec _ _ Hids), same_value_refl.
    reflexivity.
  - intros col ix v Hcol. split.
    + unfold getRecordsByColumn, table. cbn [_data]. rewrite Ht, Hcol.
      reflexivity.
    + unfold getRecordsByColumn. rewrite Ht1.
      assert (Hcol1 : exists ix1,
                assoc_get String.eqb col (indices t1) = Some ix1 /\
                index_lookup ix1 v = index_lookup ix v).
      { cbn [t1 removed indices]. unfold depopulated, depopulate_step.
        rewrite (index_loop_all _ _ _ _ _ (@ok_columns h w T t Htok)), Hcol.
        eexists. split; [reflexivity|].
        unfold changed_index.
        destruct (strict_eq (index_key_of false props col) VUndef);
          [reflexivity|].
        rewrite index_lookup_bucket_delete.
        destruct (same_value_spec v (index_key_of false props col))
          as [<-|]; [|reflexivity].
        apply set_del_absent. intros Hmem.
        destruct (@ok_members h w T t Htok col ix v _ Hcol Hmem)
          as (a0 & Ha0 & _).
        discriminate. }
      destruct Hcol1 as (ix1 & -> & <-). reflexivity.
  - intros col ix v Hcol Hget Hv.
    destruct (Hix T t Ht (VBig id) (VObj (Raw a)) Hin)
      as (a0 & props0 & Ha0 & Hc0 & Hall).
    injection Ha0 as <-. cbn [heap] in Hc0.
    rewrite (@get_raw_spec a (KStr col) _ h w d tr c Hc0) in Hget.
    injection Hget as <-.
    destruct (Hall col ix Hcol) as (Hmember & _).
    exact (Hmember Hv).
Qed.

Lemma removeRecord_by_object_leaves_the_index_witness :
  exists db1,
    removeRecord "users" (VObj (Raw 0)) users_3 = Ok tt db1 /\
    getRecord "users" 1 true db1 = Ok VUndef db1 /\
    getRecordsByColumn "users" "email" (VStr "k@x.com") false db1
    = Ok [handle 0] db1.
Proof.
  destruct (removeRecord_by_object_leaves_the_index "users" 1 0 users_3
              (match table "users" users_3 with
               | Some t => t
               | None => mkTable [] [] None
               end) users_3_built eq_refl (or_introl eq_refl))
    as (db1 & E & Hgone & Hsame & _).
  exists db1. split; [exact E|]. split; [apply Hgone|].
  exact (proj2 (Hsame "email" [(VStr "j@x.com", []); (VStr "k@x.com", [handle 0])]
                  (VStr "k@x.com") eq_refl)).
Defined.


(** *** Removal of the records found by a lookup *)

(** The loop of [removeRecordsByColumn] over handles of records of the
    table. *)
Lemma remove_all T h w c l :
  forall d tr t,
  inv h w d ->
  assoc_get String.eqb T d = Some t ->
  NoDup l ->
  (forall x, In x l ->
     exists a id, x = handle a /\ In (VBig id, VObj (Raw a)) (records t)) ->
  exists d' tr' t',
    for_each (fun entry => removeRecord T entry) l (mkDb h w d tr c)
    = Ok tt (mkDb h w d' tr' c) /\
    inv h w d' /\
    assoc_get String.eqb T d' = Some t' /\
    map fst (indices t') = map fst (indices t) /\
    (forall id rec, In (id, rec) (records t')
       <-> In (id, rec) (records t) /\ ~ In (wrapped_value rec) l) /\
    exists events, tr' = append_changes events tr.
Proof.
  induction l as [|x l IH]; intros d tr t Hinv Ht Hnd Hl.
  - exists d, tr, t. split; [reflexivity|]. split; [exact Hinv|].
    split; [exact Ht|]. split; [reflexivity|]. split; [|now exists []].
    intros id rec. simpl. tauto.
  - destruct (Hl x (or_introl eq_refl)) as (a & id & -> & Hin).
    pose proof Hinv as (Htab & _ & _).
    pose proof (Htab T t Ht) as Htok.
    destruct (stored_record h w T t (VBig id) (VObj (Raw a)) Htok Hin)
      as (uid & a' & props & Hid & Hrec & Hpos & Hc & Hprim & _ & Huid & Hcl
          & Hstored).
    injection Hid as <-. injection Hrec as <-.
    destruct (@removeRecord_handle T a props id _ (VObj (Raw a)) h w d tr c t
                Hc Hcl Huid ltac:(lia) Ht Hstored) as (w' & E & _ & Hsame).
    rewrite Hsame in E
      by (intros col; unfold index_key_of; rewrite primitive_wrapped;
          apply (primitive_field props (KStr col) Hprim)).
    clear w' Hsame.
    set (t1 := removed t id (handle a) (index_key_of true props)) in *.
    pose proof (inv_removeRecord h w d T t id a props Hinv Ht Hin Hc) as Hinv1.
    fold t1 in Hinv1.
    assert (Ht1 : assoc_get String.eqb T (assoc_set String.eqb T t1 d) = Some t1).
    { rewrite (assoc_get_set String.eqb_spec).
      now destruct (String.eqb_spec T T). }
    pose proof (@ok_ids h w T t Htok) as Hids.
    inversion Hnd as [|? ? Hx Hnd']; subst.
    assert (Hl1 : forall x, In x l ->
              exists a0 id0, x = handle a0 /\
                In (VBig id0, VObj (Raw a0)) (records t1)).
    { intros x Hxl. destruct (Hl x (or_intror Hxl)) as (a0 & id0 & -> & Hin0).
      exists a0, id0. split; [reflexivity|].
      cbn [t1 removed records]. apply (In_assoc_del_iff _ _ _ _ Hids).
      split; [|exact Hin0]. intros Heq. injection Heq as ->.
      assert (VObj (Raw a0) = VObj (Raw a)) as Heq.
      { pose proof (In_assoc_get same_value_spec Hids Hin0) as G0.
        pose proof (In_assoc_get same_value_spec Hids Hin) as G.
        congruence. }
      injection Heq as ->. contradiction. }
    destruct (IH (assoc_set String.eqb T t1 d)
                 (push_change (EvRemoved T (handle a)) tr) t1
                 Hinv1 Ht1 Hnd' Hl1)
      as (d' & tr' & t' & E' & Hinv' & Ht' & Hkeys & Hrecs & evs & Htr).
    exists d', tr', t'. split; [|split; [exact Hinv'|split; [exact Ht'|split; [|split]]]].
    + cbn [for_each]. rewrite E. exact E'.
    + rewrite Hkeys. cbn [t1 removed indices].
      unfold depopulated, depopulate_step. apply index_loop_keys.
    + intros id0 rec. rewrite Hrecs. cbn [t1 removed records].
      rewrite (In_assoc_del_iff _ _ _ _ Hids). split.
      * intros ((Hne & Hin0) & Hnl). split; [exact Hin0|].
        intros [Heq|Hin1]; [|contradiction].
        destruct (stored_record h w T t id0 rec Htok Hin0)
          as (uid0 & a0 & ? & -> & -> & _).
        injection Heq as Heq. rewrite <- Heq in *.
        apply Hne. f_equal.
        pose proof (one_identifier h w T t (VBig id) (VBig uid0) a Htok Hin Hin0)
          as Hsame. now injection Hsame.
      * intros (Hin0 & Hnl). split; [split; [|exact Hin0]|].
        -- intros ->. apply Hnl. left.
           pose proof (In_assoc_get same_value_spec Hids Hin0) as G0.
           pose proof (In_assoc_get same_value_spec Hids Hin) as G.
           assert (rec = VObj (Raw a)) by congruence. now subst rec.
        -- intros Hin1. apply Hnl. now right.
    + exists (EvRemoved T (handle a) :: evs). exact Htr.
Qed.

(** X22. In a store built by the steps of [plain_step] (tables created
    with their indexes, under names that [Object.prototype] does not define;
    records that are fresh object literals with primitive fields, added with
    [wrapped] true by [addRecord] or, under a positive identifier not in
    use, by [setRecord];
    primitive values assigned to fields, fields deleted and records removed
    through the handles), [removeRecordsByColumn]
    on an indexed column, for a value other than [undefined], asked for the
    records as the index holds them ([wrapped] false), removes the records
    the lookup finds and no other:
    it returns what [getRecordsByColumn] returned, the table keeps the
    records that were not found, with their identifiers, and the lookup
    finds nothing afterwards. *)
Theorem removeRecordsByColumn_removes_the_matches T col v db t ix :
  built db ->
  table T db = Some t ->
  assoc_get String.eqb col (indices t) = Some ix ->
  v <> VUndef ->
  exists db1 t1,
    getRecordsByColumn T col v false db = Ok (index_lookup ix v) db /\
    removeRecordsByColumn T col v false db = Ok (index_lookup ix v) db1 /\
    table T db1 = Some t1 /\
    (forall id rec, In (id, rec) (records t1)
       <-> In (id, rec) (records t) /\
           ~ In (wrapped_value rec) (index_lookup ix v)) /\
    getRecordsByColumn T col v false db1 = Ok [] db1 /\
    heap db1 = heap db.
Proof.
  intros Hreach Ht Hcol Hv. apply built_reachable in Hreach.
  pose proof (reachable_ok db Hreach) as Hok.
  destruct db as [h w d tr c]. unfold table in Ht. cbn [_data heap] in *.
  assert (Hinv : inv h w d) by exact Hok.
  pose proof Hinv as (Htab & _ & _).
  pose proof (Htab T t Ht) as Htok.
  destruct (@ok_indices h w T t Htok col ix Hcol v Hv) as (Hnd & Hmem).
  assert (Hfind : getRecordsByColumn T col v false (mkDb h w d tr c)
                  = Ok (index_lookup ix v) (mkDb h w d tr c)).
  { unfold getRecordsByColumn, table. cbn [_data]. rewrite Ht, Hcol.
    reflexivity. }
  destruct (remove_all T h w c (index_lookup ix v) d tr t Hinv Ht Hnd)
    as (d' & tr' & t' & E & Hinv' & Ht' & Hkeys & Hrecs & _).
  { intros x Hx. apply Hmem in Hx. destruct Hx as (a & -> & id & props & Hin & _).
    destruct (stored_record h w T t id (VObj (Raw a)) Htok Hin)
      as (uid & ? & ? & -> & _).
    now exists a, uid. }
  exists (mkDb h w d' tr' c), t'.
  split; [exact Hfind|]. split; [|split; [exact Ht'|split; [exact Hrecs|split]]].
  - unfold removeRecordsByColumn. rewrite (bind_ok _ _ Hfind).
    rewrite (bind_ok _ _ E). reflexivity.
  - destruct Hinv' as (Htab' & _ & _).
    pose proof (Htab' T t' Ht') as Htok'.
    destruct (assoc_get String.eqb col (indices t')) as [ix'|] eqn:Hcol'.
    + unfold getRecordsByColumn, table. cbn [_data]. rewrite Ht', Hcol'.
      destruct (@ok_indices h w T t' Htok' col ix' Hcol' v Hv) as (_ & Hmem').
      destruct (index_lookup ix' v) as [|x rest] eqn:El; [reflexivity|].
      exfalso.
      destruct (proj1 (Hmem' x) (or_introl eq_refl))
        as (a & -> & id & props & Hin' & Hc & Hval).
      apply Hrecs in Hin'. destruct Hin' as (Hin & Hnot).
      apply Hnot. apply Hmem. exists a. split; [reflexivity|].
      now exists id, props.
    + exfalso. apply (assoc_get_None String.eqb_spec) in Hcol'.
      rewrite Hkeys in Hcol'. apply Hcol'.
      apply (assoc_get_In String.eqb_spec) in Hcol.
      apply in_map_iff. now exists (col, ix).
  - reflexivity.
Qed.

Lemma removeRecordsByColumn_removes_the_matches_witness :
  exists db1,
    removeRecordsByColumn "users" "email" (VStr "k@x.com") false users_3
    = Ok [handle 0] db1 /\
    getRecordsByColumn "users" "email" (VStr "k@x.com") false db1 = Ok [] db1.
Proof.
  destruct (removeRecordsByColumn_removes_the_matches "users" "email"
              (VStr "k@x.com") users_3
              (match table "users" users_3 with
               | Some t => t
               | None => mkTable [] [] None
               end)
              [(VStr "j@x.com", []); (VStr "k@x.com", [handle 0])]
              users_3_built eq_refl eq_refl ltac:(discriminate))
    as (db1 & t1 & _ & E & _ & _ & Hnone & _).
  exists db1. split; [exact E|exact Hnone].
Defined.


(** *** Identifiers given by the caller *)

(** X23. [setRecord] stores the object under the identifier it is given and
    moves the counter of the table past it: the object carries the
    identifier, [getRecord] of the identifier returns the object (whatever
    was stored under it before), the records with other identifiers are
    found as before, and for a positive identifier [getNextUID] is afterwards
    the greater of what it was and the identifier plus one -- so a later
    [addRecord] does not reuse it. *)
Theorem setRecord_moves_the_counter T a (props : list (Key * DbValue)) uid
    (wrapped : bool) (h : list (Cell Ref)) w d tr c t :
  nth_error h a = Some (CObject props) ->
  assoc_get String.eqb T d = Some t ->
  (0 < uid)%Z ->
  let db := mkDb h w d tr c in
  exists db1,
    setRecord T (VObj (Raw a)) uid wrapped db
    = Ok (if wrapped then handle a else VObj (Raw a)) db1 /\
    get (Raw a) UniqueID db1 = Ok (VBig uid) db1 /\
    getRecord T uid false db1 = Ok (VObj (Raw a)) db1 /\
    (forall id v, id <> uid ->
       getRecord T id false db = Ok v db ->
       getRecord T id false db1 = Ok v db1) /\
    getNextUID T db = Ok (next_uid (lastUID t)) db /\
    getNextUID T db1 = Ok (Z.max (next_uid (lastUID t)) (uid + 1)) db1.
Proof.
  intros Hc Ht Hpos db.
  pose proof (@setRecord_raw T a props uid wrapped h w d tr c t Hc Ht) as Hset.
  cbv zeta in Hset. destruct Hset as (w' & E & _).
  eexists. split; [exact E|].
  set (t1 := inserted (mkTable (records t) (indices t)
                         (advanced (lastUID t) uid))
                      uid (VObj (Raw a))
                      (if wrapped then handle a else VObj (Raw a))
                      (index_key_of wrapped props)).
  assert (Ht1 : assoc_get String.eqb T (assoc_set String.eqb T t1 d) = Some t1).
  { rewrite (assoc_get_set String.eqb_spec).
    now destruct (String.eqb_spec T T). }
  assert (Hc1 : nth_error (list_update a (raw_set UniqueID (VBig uid)) h) a
                = Some (CObject (assoc_set Key_eqb UniqueID (VBig uid) props))).
  { now rewrite (nth_error_list_update_eq _ _ _ Hc). }
  split; [|split; [|split; [|split]]].
  - erewrite get_raw_spec by exact Hc1. now rewrite raw_get_uid.
  - unfold getRecord, table. cbn [_data]. rewrite Ht1.
    cbn [t1 inserted records].
    rewrite (assoc_get_set same_value_spec), same_value_refl. reflexivity.
  - intros id v Hne. unfold getRecord, table, db. cbn [_data].
    rewrite Ht1, Ht. cbn [t1 inserted records].
    rewrite (assoc_get_set same_value_spec).
    destruct (same_value_spec (VBig id) (VBig uid)) as [Heq|_]; [congruence|].
    destruct (assoc_get same_value (VBig id) (records t)) as [r|];
      [destruct (truthy r)|]; unfold ret; intros Hv;
      injection Hv as <-; reflexivity.
  - unfold getNextUID, db.
    rewrite (bind_ok _ _ (@the_table_spec T h w d tr c t Ht)).
    unfold ret. now rewrite next_uid_spec.
  - unfold getNextUID.
    rewrite (bind_ok _ _ (@the_table_spec T _ _ _ _ _ t1 Ht1)).
    unfold ret. rewrite next_uid_spec. f_equal.
    cbn [t1 inserted lastUID]. unfold advanced, next_uid.
    destruct (lastUID t) as [last|]; [|lia].
    destruct (Z.eqb_spec last 0) as [->|Hnz]; cbn [orb]; [lia|].
    destruct (Z.ltb_spec last uid); lia.
Qed.

Lemma setRecord_moves_the_counter_witness :
  exists db1,
    setRecord "users" (VObj (Raw 0)) 7 true sample_db = Ok (handle 0) db1 /\
    getRecord "users" 7 false db1 = Ok (VObj (Raw 0)) db1 /\
    getNextUID "users" db1 = Ok 8%Z db1.
Proof.
  destruct (setRecord_moves_the_counter "users" 0 john 7 true
              (heap sample_db) (_wrapped sample_db) (_data sample_db)
              (_transactions sample_db) (console sample_db)
              (mkTable [] [("email", [])] None) eq_refl eq_refl eq_refl)
    as (db1 & E & _ & Hget & _ & _ & Hnext).
  exists db1. split; [exact E|]. split; [exact Hget|exact Hnext].
Defined.


(** *** Rollback of an insertion *)





(** *** Rollback of a write through a handle *)

Lemma getRecord_cached T id a cl h w d tr c t :
  assoc_get String.eqb T d = Some t ->
  assoc_get same_value (VBig id) (records t) = Some (VObj (Raw a)) ->
  assoc_get Ref_eqb (Raw a) w = Some cl ->
  getRecord T id true (mkDb h w d tr c) = Ok (handle a) (mkDb h w d tr c).
Proof.
  intros Ht Hst Hcl. unfold getRecord, table. cbn [_data]. rewrite Ht, Hst.
  cbn [truthy]. cbv iota.
  rewrite (bind_ok _ _ (eq_refl : as_ref (VObj (Raw a)) _ = Ok (Raw a) _)).
  apply (@wrapRecord_cached T a _ cl). exact Hcl.
Qed.

Lemma reindex_data_table T k o n r d t :
  assoc_get String.eqb T d = Some t ->
  exists t1,
    assoc_get String.eqb T (reindex_data T k o n r d) = Some t1 /\
    records t1 = records t /\
    map fst (indices t1) = map fst (indices t).
Proof.
  intros Ht. unfold reindex_data. rewrite Ht.
  destruct k as [col|n0]; [|now exists t].
  destruct (assoc_get String.eqb col (indices t)) as [ix|] eqn:Hcol;
    [|now exists t].
  eexists. split; [|split].
  - rewrite (assoc_get_set String.eqb_spec).
    destruct (String.eqb_spec T T); [reflexivity|congruence].
  - reflexivity.
  - cbn [set_indices indices].
    apply (map_fst_assoc_set String.eqb_spec). now rewrite Hcol.
Qed.

(** An assignment of a primitive value, or a deletion, through the handle
    of a stored record: the state it leaves, and the event it records. *)
Lemma field_change_step T id a props key (op : Op unit) v h w d tr c t :
  reachable (mkDb h w d tr c) ->
  assoc_get String.eqb T d = Some t ->
  In (VBig id, VObj (Raw a)) (records t) ->
  nth_error h a = Some (CObject props) ->
  (op = put (Prox (Raw a)) (KStr key) v /\ primitive v = true) \/
  (op = delete (Prox (Raw a)) (KStr key) /\ v = VUndef) ->
  exists h1 props1 d1 t1 ev,
    op (mkDb h w d tr c) = Ok tt (mkDb h1 w d1 (push_change ev tr) c) /\
    (forall plain, plain T = true -> plain key = true ->
       step_of plain (mkDb h w d tr c) (mkDb h1 w d1 (push_change ev tr) c)) /\
    nth_error h1 a = Some (CObject props1) /\
    (forall k, k <> KStr key ->
       raw_get (CObject props1) k = raw_get (CObject props) k) /\
    raw_get (CObject props1) (KStr key) = v /\
    (forall a', a' <> a -> nth_error h1 a' = nth_error h a') /\
    undo ev = (o <- as_ref (handle a) ;;
               put o (KStr key) (raw_get (CObject props) (KStr key))) /\
    assoc_get String.eqb T d1 = Some t1 /\
    records t1 = records t /\
    map fst (indices t1) = map fst (indices t).
Proof.
  intros Hreach Ht Hin Hc Hop.
  pose proof (reachable_ok _ Hreach) as Hok.
  assert (Hinv : inv h w d) by exact Hok.
  destruct Hinv as (Htab & _ & _).
  pose proof (Htab T t Ht) as Htok.
  destruct (stored_record h w T t (VBig id) (VObj (Raw a)) Htok Hin)
    as (uid & a' & props' & Hid & Hrec & Hpos & Hc' & Hprim & Hnd & Huid & Hcl
        & Hstored).
  injection Hid as <-. injection Hrec as <-.
  rewrite Hc in Hc'. injection Hc' as <-.
  set (cl := mkClosure T (Raw a) None) in *.
  set (old := raw_get (CObject props) (KStr key)).
  assert (Hold : primitive old = true) by (apply primitive_field, Hprim).
  assert (Hcached : assoc_get Ref_eqb (cl_record cl) w <> None).
  { cbn [cl cl_record]. rewrite Hcl. discriminate. }
  assert (Hget : getRecord T id true (mkDb h w d tr c)
                 = Ok (VObj (Prox (Raw a))) (mkDb h w d tr c)).
  { exact (getRecord_cached T id a cl h w d tr c t Ht Hstored Hcl). }
  destruct Hop as [(-> & Hv) | (-> & ->)].
  - pose proof (@put_through_handle a (KStr key) v props cl h w d tr c Hc Hcl)
      as Hput.
    cbv zeta in Hput. fold old in Hput.
    destruct Hput as (w' & E & _ & Hsame).
    rewrite (Hsame Hv Hold Hcached) in E. clear w' Hsame.
    rewrite (wrapped_primitive v Hv), (wrapped_primitive old Hold) in E.
    cbn [cl cl_record cl_tableName Ref_eqb] in E. rewrite Nat.eqb_refl in E.
    fold cl in E.
    destruct (reindex_data_table T (KStr key) old v (VObj (Prox (Raw a))) d t Ht)
      as (t1 & Ht1 & Hr1 & Hk1).
    eexists _, _, _, t1, _.
    split; [exact E|].
    split; [|split; [|split; [|split; [|split; [|split; [|split;
           [exact Ht1|split; [exact Hr1|exact Hk1]]]]]]]].
    + intros plain HT Hkey.
      exact (@step_assign _ _ _ T id (Prox (Raw a)) _ key v HT Hkey Hget Hv E).
    + now rewrite (nth_error_list_update_eq _ _ _ Hc).
    + intros k Hk. cbn [raw_get]. rewrite (assoc_get_set Key_eqb_spec).
      destruct (Key_eqb_spec k (KStr key)); [contradiction|reflexivity].
    + cbn [raw_get]. rewrite (assoc_get_set Key_eqb_spec).
      now destruct (Key_eqb_spec (KStr key) (KStr key)).
    + intros a0 Ha0. apply nth_error_list_update_neq. congruence.
    + unfold set_event. cbn [undo object].
      now rewrite (wrapped_primitive old Hold).
  - pose proof (@delete_through_handle a (KStr key) props cl h w d tr c Hc Hcl)
      as Hdel.
    cbv zeta in Hdel. fold old in Hdel.
    destruct Hdel as (w' & E & _ & Hsame).
    rewrite (Hsame Hold Hcached) in E. clear w' Hsame.
    rewrite (wrapped_primitive old Hold) in E.
    cbn [cl cl_record cl_tableName Ref_eqb] in E. rewrite Nat.eqb_refl in E.
    fold cl in E.
    destruct (reindex_data_table T (KStr key) old VUndef (VObj (Prox (Raw a)))
                d t Ht)
      as (t1 & Ht1 & Hr1 & Hk1).
    eexists _, _, _, t1, _.
    split; [exact E|].
    split; [|split; [|split; [|split; [|split; [|split; [|split;
           [exact Ht1|split; [exact Hr1|exact Hk1]]]]]]]].
    + intros plain HT Hkey.
      exact (@step_delete _ _ _ T id (Prox (Raw a)) _ key HT Hkey Hget E).
    + now rewrite (nth_error_list_update_eq _ _ _ Hc).
    + intros k Hk. cbn [raw_get raw_delete].
      rewrite (assoc_get_del Key_eqb_spec _ _ Hnd).
      destruct (Key_eqb_spec k (KStr key)); [contradiction|reflexivity].
    + cbn [raw_get raw_delete].
      rewrite (assoc_get_del Key_eqb_spec _ _ Hnd).
      now destruct (Key_eqb_spec (KStr key) (KStr key)).
    + intros a0 Ha0. apply nth_error_list_update_neq. congruence.
    + unfold delete_event. cbn [undo object].
      now rewrite (wrapped_primitive old Hold).
Qed.


(** X26. In a store built by the steps of [plain_step] (names that
    [Object.prototype] does not define, indices declared on empty tables,
    records that are fresh object literals with primitive fields,
    [setRecord] under positive identifiers not in use, primitive values
    assigned), an assignment of a primitive value to a field whose name
    [Object.prototype] does not define, or a deletion of such a field, made
    through the handle of a record in a transaction that is then rolled
    back, is undone for every reader: each such field of the record reads as
    before, the records are found under their identifiers as before, and a
    lookup of a value other than [undefined] on an indexed column finds the
    same records as before.  The store is again one that these steps
    build. *)
Theorem rollback_of_a_write T id hd key v (op : Op unit) db db1 :
  built db ->
  inherited T = false -> inherited key = false ->
  getRecord T id true db = Ok (VObj hd) db1 ->
  (op = put hd (KStr key) v /\ primitive v = true) \/
  op = delete hd (KStr key) ->
  exists db2,
    (beginTransaction ;;; op ;;; rollbackTransaction) db1 = Ok tt db2 /\
    built db2 /\
    (forall k x, inherited_key k = false ->
       get hd k db1 = Ok x db1 -> get hd k db2 = Ok x db2) /\
    (forall id' x,
       getRecord T id' false db1 = Ok x db1 ->
       getRecord T id' false db2 = Ok x db2) /\
    (forall col v0 found,
       v0 <> VUndef ->
       indexExists T col db1 = Ok true db1 ->
       getRecordsByColumn T col v0 false db1 = Ok found db1 ->
       exists found2,
         getRecordsByColumn T col v0 false db2 = Ok found2 db2 /\
         forall x, In x found2 <-> In x found).
Proof.
  intros Hbuilt HT Hkey Hget Hop.
  pose proof (built_reachable _ Hbuilt) as Hreach.
  assert (HT' : negb (inherited T) = true) by now rewrite HT.
  assert (Hkey' : negb (inherited key) = true) by now rewrite Hkey.
  pose proof (reachable_ok db Hreach) as Hok.
  destruct (getRecord_handle T id hd db db1 Hok Hget)
    as (-> & a & t & -> & Ht & Hin).
  clear Hget. destruct db as [h w d tr c].
  unfold table in Ht. cbn [_data] in Ht.
  assert (Hinv : inv h w d) by exact Hok.
  destruct Hinv as (Htab & _ & _).
  pose proof (Htab T t Ht) as Htok.
  destruct (stored_record h w T t (VBig id) (VObj (Raw a)) Htok Hin)
    as (uid & a' & props & Hid & Hrec & Hpos & Hc & Hprim & Hnd & Huid & Hcl
        & Hstored).
  injection Hid as <-. injection Hrec as <-.
  set (old := raw_get (CObject props) (KStr key)).
  assert (Hold : primitive old = true) by (apply primitive_field, Hprim).
  (* the write, in the frame *)
  assert (Bb : built (mkDb h w d (tr ++ [mkTransaction []]) c)).
  { apply (@built_step (mkDb h w d tr c)); [exact Hbuilt|].
    apply step_begin. reflexivity. }
  pose proof (built_reachable _ Bb) as Rb.
  assert (Hop' : exists v',
            (op = put (Prox (Raw a)) (KStr key) v' /\ primitive v' = true) \/
            (op = delete (Prox (Raw a)) (KStr key) /\ v' = VUndef)).
  { destruct Hop as [Hput | Hdel];
      [exists v; left; exact Hput|exists VUndef; right; now split]. }
  destruct Hop' as (v' & Hop').
  destruct (field_change_step T id a props key op v'
              h w d (tr ++ [mkTransaction []]) c t Rb Ht Hin Hc Hop')
    as (h1 & props1 & d1 & t1 & ev & E1 & S1 & Hc1 & Hother1 & _ & Hheap1
        & Hundo & Ht1 & Hr1 & Hk1).
  rewrite (rollback_of_one_event _ _ _ _ _ _ _ _ _ _ _ _ E1).
  (* the frame closed *)
  assert (Bc : built (mkDb h1 w d1 tr c)).
  { apply (@built_step _ _ (@built_step _ _ Bb (S1 _ HT' Hkey'))).
    apply step_commit.
    exact (@commit_pops
             (mkDb h1 w d1 (push_change ev (tr ++ [mkTransaction []])) c)
             tr (mkTransaction ([] ++ [ev]))
             (push_change_last tr (mkTransaction []) ev)). }
  pose proof (built_reachable _ Bc) as Rc.
  (* the old value written back *)
  assert (Hin1 : In (VBig id, VObj (Raw a)) (records t1)) by now rewrite Hr1.
  destruct (field_change_step T id a props1 key
              (put (Prox (Raw a)) (KStr key) old) old
              h1 w d1 tr c t1 Rc Ht1 Hin1 Hc1 (or_introl (conj eq_refl Hold)))
    as (h2 & props2 & d2 & t2 & ev2 & E2 & S2 & Hc2 & Hother2 & Hkey2 & Hheap2
        & _ & Ht2 & Hr2 & Hk2).
  pose proof (@built_step _ _ Bc (S2 _ HT' Hkey')) as B2.
  pose proof (built_reachable _ B2) as R2.
  assert (E3 : (o <- as_ref (handle a) ;; put o (KStr key) old)
                 (mkDb h1 w d1 tr c)
               = Ok tt (mkDb h2 w d2 (push_change ev2 tr) c)).
  { rewrite (bind_ok _ _ (eq_refl : as_ref (handle a) _ = Ok (Prox (Raw a)) _)).
    exact E2. }
  rewrite Hundo. fold old. rewrite (bind_ok _ _ E3).
  eexists. split; [reflexivity|]. split; [exact B2|].
  assert (Heq : forall k, raw_get (CObject props2) k = raw_get (CObject props) k).
  { intros k. destruct (Key_eqb_spec k (KStr key)) as [->|Hne].
    - exact Hkey2.
    - now rewrite (Hother2 k Hne), (Hother1 k Hne). }
  pose proof (reachable_ok _ R2) as Hok2.
  assert (Hinv2 : inv h2 w d2) by exact Hok2.
  destruct Hinv2 as (Htab2 & _ & _).
  pose proof (Htab2 T t2 Ht2) as Htok2.
  split; [|split].
  - intros k x _.
    rewrite (@get_through_handle a k h w d tr c props _ Hc Hcl).
    rewrite (@get_through_handle a k h2 w d2 _ c props2 _ Hc2 Hcl).
    rewrite Heq.
    destruct (wrap_spec T (Raw a) (Some (curColName (mkClosure T (Raw a) None) k))
                (raw_get (CObject props) k) h w d tr c)
      as (w1 & Ew1 & _ & _ & Hp1 & _).
    destruct (wrap_spec T (Raw a) (Some (curColName (mkClosure T (Raw a) None) k))
                (raw_get (CObject props) k) h2 w d2 (push_change ev2 tr) c)
      as (w2 & Ew2 & _ & _ & Hp2 & _).
    rewrite (Hp1 (primitive_field props k Hprim)) in Ew1.
    rewrite (Hp2 (primitive_field props k Hprim)) in Ew2.
    cbn [cl_tableName cl_record]. rewrite Ew1, Ew2.
    intros Hx. injection Hx as <-. reflexivity.
  - intros id' x. unfold getRecord, table. cbn [_data].
    rewrite Ht, Ht2, Hr2, Hr1.
    destruct (assoc_get same_value (VBig id') (records t)) as [r|];
      [destruct (truthy r)|]; unfold ret; intros Hv;
      injection Hv as <-; reflexivity.
  - intros col v0 found Hv0 Hix Hfound.
    unfold indexExists, table in Hix. cbn [_data] in Hix. rewrite Ht in Hix.
    unfold assoc_has in Hix.
    destruct (assoc_get String.eqb col (indices t)) as [ix|] eqn:Hcol;
      [|discriminate].
    unfold getRecordsByColumn, table in Hfound. cbn [_data] in Hfound.
    rewrite Ht, Hcol in Hfound. injection Hfound as <-.
    destruct (assoc_get String.eqb col (indices t2)) as [ix2|] eqn:Hcol2.
    2:{ exfalso. apply (assoc_get_None String.eqb_spec) in Hcol2.
        rewrite Hk2, Hk1 in Hcol2. apply Hcol2.
        apply (assoc_get_In String.eqb_spec) in Hcol.
        apply in_map_iff. now exists (col, ix). }
    exists (index_lookup ix2 v0). split.
    { unfold getRecordsByColumn, table. cbn [_data]. rewrite Ht2, Hcol2.
      reflexivity. }
    destruct (@ok_indices h w T t Htok col ix Hcol v0 Hv0) as (_ & Hmem).
    destruct (@ok_indices h2 w T t2 Htok2 col ix2 Hcol2 v0 Hv0) as (_ & Hmem2).
    intros x. rewrite Hmem, Hmem2.
    assert (Hcell : forall a0 p0,
              nth_error h a0 = Some (CObject p0) ->
              exists p2, nth_error h2 a0 = Some (CObject p2) /\
                         raw_get (CObject p2) (KStr col)
                         = raw_get (CObject p0) (KStr col)).
    { intros a0 p0 H0. destruct (Nat.eq_dec a0 a) as [->|Hne].
      - rewrite Hc in H0. injection H0 as <-. now exists props2.
      - exists p0. split; [|reflexivity].
        now rewrite (Hheap2 a0 Hne), (Hheap1 a0 Hne). }
    assert (Hcell' : forall a0 p2,
              nth_error h2 a0 = Some (CObject p2) ->
              exists p0, nth_error h a0 = Some (CObject p0) /\
                         raw_get (CObject p2) (KStr col)
                         = raw_get (CObject p0) (KStr col)).
    { intros a0 p2 H2. destruct (Nat.eq_dec a0 a) as [->|Hne].
      - rewrite Hc2 in H2. injection H2 as <-. now exists props.
      - exists p2. split; [|reflexivity].
        now rewrite <- (Hheap1 a0 Hne), <- (Hheap2 a0 Hne). }
    split; intros (a0 & -> & id0 & p & Hin0 & Hc0 & Hval); exists a0;
      (split; [reflexivity|]).
    + rewrite Hr2, Hr1 in Hin0.
      destruct (Hcell' a0 p Hc0) as (p0 & Hp0 & Hsame).
      exists id0, p0. split; [exact Hin0|]. split; [exact Hp0|congruence].
    + destruct (Hcell a0 p Hc0) as (p2 & Hp2 & Hsame).
      exists id0, p2. rewrite Hr2, Hr1.
      split; [exact Hin0|]. split; [exact Hp2|congruence].
Qed.

Lemma rollback_of_a_write_witness :
  exists db2,
    (beginTransaction ;;; put (Prox (Raw 0)) (KStr "email") (VStr "z@x.com") ;;;
     rollbackTransaction) users_3 = Ok tt db2 /\
    get (Prox (Raw 0)) (KStr "email") db2 = Ok (VStr "k@x.com") db2.
Proof.
  destruct (rollback_of_a_write "users" 1 (Prox (Raw 0)) "email"
              (VStr "z@x.com")
              (put (Prox (Raw 0)) (KStr "email") (VStr "z@x.com"))
              users_3 users_3 users_3_built eq_refl eq_refl eq_refl
              (or_introl (conj eq_refl eq_refl)))
    as (db2 & E & _ & Hread & _).
  exists db2. split; [exact E|]. apply Hread; reflexivity.
Defined.


(** X27. A nested transaction that is committed is out of reach of the
    enclosing rollback: the commit drops the events of the inner frame
    instead of handing them to the outer one.  In a store built by the steps
    of [plain_step] (names that [Object.prototype] does not define, records
    that are fresh object literals with primitive fields, [setRecord] under
    positive identifiers not in use, primitive values assigned), an
    assignment of a primitive value to a field whose name [Object.prototype]
    does not define, through the handle of a record, made in an inner
    transaction that is committed, stays when the outer transaction is
    rolled back: the field reads the new value, and the frames are as before
    the outer transaction. *)
Theorem inner_commit_survives_outer_rollback T id hd key v db db1 :
  built db ->
  inherited key = false ->
  getRecord T id true db = Ok (VObj hd) db1 ->
  primitive v = true ->
  exists db2,
    (beginTransaction ;;; beginTransaction ;;; put hd (KStr key) v ;;;
     commitTransaction ;;; rollbackTransaction) db1 = Ok tt db2 /\
    get hd (KStr key) db2 = Ok v db2 /\
    _transactions db2 = _transactions db1.
Proof.
  intros Hbuilt _ Hget Hv.
  pose proof (built_reachable _ Hbuilt) as Hreach.
  pose proof (reachable_ok db Hreach) as Hok.
  destruct (getRecord_handle T id hd db db1 Hok Hget)
    as (-> & a & t & -> & Ht & Hin).
  clear Hget. destruct db as [h w d tr c].
  unfold table in Ht. cbn [_data] in Ht.
  assert (Hinv : inv h w d) by exact Hok.
  destruct Hinv as (Htab & _ & _).
  pose proof (Htab T t Ht) as Htok.
  destruct (stored_record h w T t (VBig id) (VObj (Raw a)) Htok Hin)
    as (uid & a' & props & Hid & Hrec & Hpos & Hc & Hprim & Hnd & Huid & Hcl
        & Hstored).
  injection Hid as <-. injection Hrec as <-.
  set (outer := tr ++ [mkTransaction []]).
  assert (Rb : reachable (mkDb h w d (outer ++ [mkTransaction []]) c)).
  { apply (@reach_step (mkDb h w d outer c)).
    - apply (@reach_step (mkDb h w d tr c)); [exact Hreach|].
      apply step_begin. reflexivity.
    - apply step_begin. reflexivity. }
  destruct (field_change_step T id a props key
              (put (Prox (Raw a)) (KStr key) v) v
              h w d (outer ++ [mkTransaction []]) c t Rb Ht Hin Hc
              (or_introl (conj eq_refl Hv)))
    as (h1 & props1 & d1 & t1 & ev & E1 & _ & Hc1 & _ & Hkey1 & _).
  rewrite (bind_ok _ _ (eq_refl : beginTransaction (mkDb h w d tr c)
                                  = Ok tt (mkDb h w d outer c))).
  rewrite (bind_ok _ _ (eq_refl : beginTransaction (mkDb h w d outer c)
                                  = Ok tt (mkDb h w d (outer ++ [mkTransaction []]) c))).
  rewrite (bind_ok _ _ E1).
  rewrite (bind_ok _ _ (@commit_pops
             (mkDb h1 w d1 (push_change ev (outer ++ [mkTransaction []])) c)
             outer (mkTransaction ([] ++ [ev]))
             (push_change_last outer (mkTransaction []) ev))).
  rewrite (@rollback_pops
             (set_transactions outer
                (mkDb h1 w d1 (push_change ev (outer ++ [mkTransaction []])) c))
             tr (mkTransaction []) eq_refl).
  exists (mkDb h1 w d1 tr c). split; [reflexivity|]. split; [|reflexivity].
  rewrite (@get_through_handle a (KStr key) h1 w d1 tr c props1 _ Hc1 Hcl).
  rewrite Hkey1.
  destruct (wrap_spec T (Raw a)
              (Some (curColName (mkClosure T (Raw a) None) (KStr key)))
              v h1 w d1 tr c)
    as (w1 & Ew1 & _ & _ & Hp1 & _).
  rewrite (Hp1 Hv) in Ew1. rewrite (wrapped_primitive v Hv) in Ew1.
  exact Ew1.
Qed.

Lemma inner_commit_survives_outer_rollback_witness :
  exists db2,
    (beginTransaction ;;; beginTransaction ;;;
     put (Prox (Raw 0)) (KStr "email") (VStr "z@x.com") ;;;
     commitTransaction ;;; rollbackTransaction) users_3 = Ok tt db2 /\
    get (Prox (Raw 0)) (KStr "email") db2 = Ok (VStr "z@x.com") db2.
Proof.
  destruct (inner_commit_survives_outer_rollback "users" 1 (Prox (Raw 0))
              "email" (VStr "z@x.com") users_3 users_3 users_3_built
              eq_refl eq_refl eq_refl)
    as (db2 & E & Hread & _).
  exists db2. split; [exact E|exact Hread].
Defined.


(** *** [splice] through a proxy, and its rollback *)

Lemma key_index_index_key i : key_index (index_key i) = Some i.
Proof.
  unfold key_index, index_key, string_of_nat.
  rewrite Z_of_string_of_Z.
  assert (H : (0 <=? Z.of_nat i)%Z = true) by (apply Z.leb_le; lia).
  rewrite H, String.eqb_refl. cbn [andb]. now rewrite Nat2Z.id.
Qed.

Lemma index_key_not_length i : Key_eqb (index_key i) (KStr "length") = false.
Proof.
  destruct (Key_eqb_spec (index_key i) (KStr "length")) as [E|]; [|reflexivity].
  pose proof (key_index_index_key i) as H. rewrite E in H. discriminate.
Qed.

Lemma map_nth_seq {A} (d0 : A) l :
  forall pre,
  map (fun i => nth i (pre ++ l) d0) (seq (length pre) (length l)) = l.
Proof.
  induction l as [|x l IH]; intros pre; [reflexivity|].
  cbn [length seq map]. f_equal.
  - rewrite app_nth2 by lia. now rewrite Nat.sub_diag.
  - specialize (IH (pre ++ [x])). rewrite <- app_assoc in IH.
    rewrite length_app in IH. cbn [length app] in IH.
    now rewrite Nat.add_1_r in IH.
Qed.

(** An element of a list of primitive values read through its proxy. *)
Lemma element_through_proxy n i elems cl h w d tr c :
  nth_error h n = Some (CArray elems) ->
  assoc_get Ref_eqb (Raw n) w = Some cl ->
  Forall (fun x => primitive x = true) elems ->
  get (Prox (Raw n)) (index_key i) (mkDb h w d tr c)
  = Ok (nth i elems VUndef) (mkDb h w d tr c).
Proof.
  intros Hc Hcl Hprim. cbn [get].
  rewrite (bind_ok _ _ (@closure_of_spec (Raw n) cl h w d tr c Hcl)).
  unfold is_map, is_set, is_date, cell_of. cbn [heap base].
  rewrite Hc. cbn [orb].
  rewrite (bind_ok _ _ (@get_raw_spec n (index_key i) _ h w d tr c Hc)).
  cbn [raw_get]. rewrite index_key_not_length, key_index_index_key.
  assert (Hp : primitive (nth i elems VUndef) = true).
  { destruct (Nat.lt_ge_cases i (length elems)) as [Hlt|Hge].
    - rewrite Forall_forall in Hprim. apply Hprim. now apply nth_In.
    - now rewrite nth_overflow. }
  destruct (nth i elems VUndef); try reflexivity. discriminate.
Qed.

(** [[...list]] for the proxy of a list of primitive values. *)
Lemma spread_through_proxy n elems cl h w d tr c :
  nth_error h n = Some (CArray elems) ->
  assoc_get Ref_eqb (Raw n) w = Some cl ->
  Forall (fun x => primitive x = true) elems ->
  spread (VObj (Prox (Raw n))) (mkDb h w d tr c) = Ok elems (mkDb h w d tr c).
Proof.
  intros Hc Hcl Hprim. unfold spread.
  rewrite (bind_ok _ _ (eq_refl : as_ref (VObj (Prox (Raw n))) _ = Ok _ _)).
  rewrite (bind_ok _ _ (length_through_proxy n elems cl h w d tr c Hc Hcl)).
  cbn [to_integer]. rewrite Nat2Z.id.
  assert (Hall : forall is_,
            map_m (fun i => get (Prox (Raw n)) (index_key i)) is_
                  (mkDb h w d tr c)
            = Ok (map (fun i => nth i elems VUndef) is_) (mkDb h w d tr c)).
  { induction is_ as [|i is_ IH]; [reflexivity|]. cbn [map_m map].
    rewrite (bind_ok _ _ (element_through_proxy n i elems cl h w d tr c
                            Hc Hcl Hprim)).
    rewrite (bind_ok _ _ IH). reflexivity. }
  rewrite Hall. f_equal. exact (map_nth_seq VUndef elems []).
Qed.

(** [splice] called through the proxy of a list: the call on the list
    itself, which allocates the list of the removed elements, and one
    event that carries the proxy of that list. *)
Lemma call_splice b args elems cl h w d tr c :
  nth_error h b = Some (CArray elems) ->
  assoc_get Ref_eqb (Raw b) w = Some cl ->
  exists h' w' at_,
    call (Prox (Raw b)) m_splice args (mkDb h w d tr c)
    = Ok (VObj (Raw (length h)))
         (mkDb h' w' d
            (push_change
               (EvMethodSplice at_ (VObj (Prox (Raw (length h)))) args) tr) c) /\
    object at_ = VObj (Prox (Raw b)) /\
    nth_error h' b = Some (CArray (fst (splice elems args))) /\
    nth_error h' (length h) = Some (CArray (snd (splice elems args))) /\
    (forall a, a <> b -> a < length h -> nth_error h' a = nth_error h a) /\
    length h' = S (length h) /\
    cache_grows w w' /\
    assoc_get Ref_eqb (Raw (length h)) w' <> None.
Proof.
  intros Hc Hcl.
  assert (Hb : b < length h) by (apply nth_error_Some; congruence).
  set (T0 := cl_tableName cl). set (rec0 := cl_record cl).
  set (col := curColName cl (KStr (method_name m_splice))).
  cbn [call].
  rewrite (bind_ok _ _ (@closure_of_spec (Raw b) cl h w d tr c Hcl)).
  cbv zeta. fold T0 rec0 col.
  unfold is_map, is_set, is_date, is_array, cell_of. cbn [heap base].
  rewrite Hc. cbn [orb].
  set (h1 := list_update b (fun _ => CArray (fst (splice elems args))) h
             ++ [CArray (snd (splice elems args))]).
  assert (Hraw : raw_call b m_splice args (mkDb h w d tr c)
                 = Ok (VObj (Raw (length h))) (mkDb h1 w d tr c)).
  { unfold raw_call. cbn [heap]. rewrite Hc.
    unfold h1. now destruct (splice elems args). }
  destruct (wrap_spec T0 rec0 None (VObj rec0) h1 w d tr c)
    as (w1 & E1 & G1 & _).
  destruct (wrap_spec T0 (Raw b) (Some col) (VObj (Raw b)) h1 w1 d tr c)
    as (w2 & E2 & G2 & _).
  destruct (wrap_spec T0 rec0 (Some col) (VObj (Raw (length h))) h1 w2 d tr c)
    as (w3 & E3 & G3 & Hin3 & _).
  exists h1, w3, (mkAttr T0 (wrapped_value (VObj rec0)) col (VObj (Prox (Raw b)))).
  split; [|split; [reflexivity|split; [|split; [|split; [|split; [|split]]]]]].
  - rewrite (bind_ok _ _ Hraw). unfold _wrapRecord.
    rewrite (bind_ok _ _ E1), (bind_ok _ _ E2), (bind_ok _ _ E3).
    reflexivity.
  - unfold h1. rewrite nth_error_app1 by (now rewrite length_list_update).
    now rewrite (nth_error_list_update_eq _ _ _ Hc).
  - unfold h1. rewrite nth_error_app2 by (rewrite length_list_update; lia).
    rewrite length_list_update, Nat.sub_diag. reflexivity.
  - intros a Ha Hlt. unfold h1.
    rewrite nth_error_app1 by (now rewrite length_list_update).
    apply nth_error_list_update_neq. congruence.
  - unfold h1. rewrite length_app, length_list_update. simpl. lia.
  - repeat (eapply cache_grows_trans; [eassumption|]). apply cache_grows_refl.
  - exact (Hin3 _ eq_refl).
Qed.

Lemma splice_in_range (elems rest : list DbValue) s :
  (0 <= s <= Z.of_nat (length elems))%Z ->
  exists n,
    Z.to_nat s <= length elems /\ n <= length elems - Z.to_nat s /\
    splice elems (VNum s :: rest)
    = (firstn (Z.to_nat s) elems ++ tl rest ++ skipn (Z.to_nat s + n) elems,
       firstn n (skipn (Z.to_nat s) elems)).
Proof.
  intros Hs. unfold splice. cbn [to_integer].
  assert (E0 : (s <? 0)%Z = false) by (apply Z.ltb_ge; lia).
  rewrite E0, Z.min_l by lia.
  eexists. split; [lia|]. split; [|reflexivity].
  destruct rest as [|dc ?]; lia.
Qed.

(** X28. A call of [splice] through the proxy of a list of primitive
    values, with a start index between 0 and the length of the list, made
    in a transaction that is then rolled back, is undone: the rollback
    removes what the call inserted and puts back what it removed, and the
    list holds the elements it held, in their order.  No table is touched,
    and the other objects are as before, but for the lists of removed
    elements that the calls allocated. *)
Theorem splice_rolled_back b s rest elems cl h w d tr c :
  nth_error h b = Some (CArray elems) ->
  assoc_get Ref_eqb (Raw b) w = Some cl ->
  (0 <= s <= Z.of_nat (length elems))%Z ->
  Forall (fun x => primitive x = true) elems ->
  exists db',
    (beginTransaction ;;; call (Prox (Raw b)) m_splice (VNum s :: rest) ;;;
     rollbackTransaction) (mkDb h w d tr c) = Ok tt db' /\
    nth_error (heap db') b = Some (CArray elems) /\
    (forall a, a <> b -> a < length h ->
       nth_error (heap db') a = nth_error h a) /\
    _data db' = d.
Proof.
  intros Hc Hcl Hs Hprim.
  assert (Hb : b < length h) by (apply nth_error_Some; congruence).
  destruct (splice_in_range elems rest s Hs) as (n & Hs' & Hn & Esp).
  set (k := Z.to_nat s) in *.
  (* the call *)
  destruct (call_splice b (VNum s :: rest) elems cl h w d
              (tr ++ [mkTransaction []]) c Hc Hcl)
    as (h1 & w1 & at_ & E1 & Hobj & Hb1 & Hn1 & Hrest1 & Hlen1 & G1 & Hcached1).
  rewrite Esp in Hb1, Hn1. cbn [fst snd] in Hb1, Hn1.
  rewrite (rollback_of_one_event _ _ _ _ _ _ _ _ _ _ _ _ E1).
  set (kept := firstn k elems ++ tl rest ++ skipn (k + n) elems) in *.
  set (removed := firstn n (skipn k elems)) in *.
  assert (Hlen_kept : length kept = k + length (tl rest) + (length elems - (k + n))).
  { unfold kept. rewrite !length_app, length_firstn, length_skipn. lia. }
  assert (Hprim_removed : Forall (fun x => primitive x = true) removed).
  { unfold removed. rewrite Forall_forall in *. intros x Hx.
    apply Hprim. rewrite <- (firstn_skipn k elems). apply in_or_app. right.
    rewrite <- (firstn_skipn n (skipn k elems)). apply in_or_app. now left. }
  (* first step of the undo: the inserted elements are removed *)
  pose proof (G1 _ _ Hcl) as Hcl1.
  destruct (assoc_get Ref_eqb (Raw (length h)) w1) as [cln|] eqn:Hcln;
    [|now destruct Hcached1].
  assert (Hs1 : (0 <= s <= Z.of_nat (length kept))%Z) by lia.
  destruct (call_splice b
              [VNum s; VNum (Z.max 0 (Z.of_nat (length (VNum s :: rest)) - 2))]
              kept cl h1 w1 d tr c Hb1 Hcl1)
    as (h2 & w2 & at2 & E2 & _ & Hb2 & _ & Hrest2 & Hlen2 & G2 & _).
  assert (Ek : Z.max 0 (Z.of_nat (length (VNum s :: rest)) - 2)
               = Z.of_nat (length (tl rest))).
  { destruct rest; cbn [length tl]; lia. }
  assert (Esp2 : fst (splice kept
                        [VNum s;
                         VNum (Z.max 0 (Z.of_nat (length (VNum s :: rest)) - 2))])
                 = firstn k elems ++ skipn (k + n) elems).
  { rewrite Ek. unfold splice. cbn [to_integer tl fst].
    assert (E0 : (s <? 0)%Z = false) by (apply Z.ltb_ge; lia).
    rewrite E0, Z.min_l by lia. fold k.
    replace (Z.to_nat (Z.min (Z.max (Z.of_nat (length (tl rest))) 0)
                             (Z.of_nat (length kept) - Z.of_nat k)))
      with (length (tl rest)) by lia.
    cbn [app]. unfold kept.
    rewrite firstn_app, firstn_firstn, length_firstn.
    replace (Nat.min k k) with k by lia.
    replace (k - Nat.min k (length elems)) with 0 by lia.
    cbn [firstn]. rewrite app_nil_r. f_equal.
    rewrite skipn_app, length_firstn.
    rewrite skipn_all2 by (rewrite length_firstn; lia).
    replace (k + length (tl rest) - Nat.min k (length elems))
      with (length (tl rest)) by lia.
    cbn [app]. rewrite skipn_app, Nat.sub_diag.
    rewrite skipn_all. reflexivity. }
  rewrite Esp2 in Hb2.
  set (kept2 := firstn k elems ++ skipn (k + n) elems) in *.
  (* second step: the removed elements are read through their proxy *)
  assert (Hn2 : nth_error h2 (length h) = Some (CArray removed)).
  { rewrite Hrest2; [exact Hn1|lia|lia]. }
  pose proof (G2 _ _ Hcln) as Hcln2.
  pose proof (G2 _ _ Hcl1) as Hcl2.
  (* third step: they are inserted at the start index *)
  destruct (call_splice b (VNum s :: VNum 0 :: removed) kept2 cl h2 w2 d
              (push_change
                 (EvMethodSplice at2 (VObj (Prox (Raw (length h1))))
                    [VNum s;
                     VNum (Z.max 0 (Z.of_nat (length (VNum s :: rest)) - 2))])
                 tr) c Hb2 Hcl2)
    as (h3 & w3 & at3 & E3 & _ & Hb3 & _ & Hrest3 & Hlen3 & _).
  assert (Esp3 : fst (splice kept2 (VNum s :: VNum 0 :: removed)) = elems).
  { unfold splice. cbn [to_integer tl fst].
    assert (E0 : (s <? 0)%Z = false) by (apply Z.ltb_ge; lia).
    assert (Hlen_kept2 : length kept2 = length elems - n).
    { unfold kept2. rewrite length_app, length_firstn, length_skipn. lia. }
    rewrite E0, Z.min_l by lia. fold k.
    replace (Z.to_nat (Z.min (Z.max 0 0) (Z.of_nat (length kept2) - Z.of_nat k)))
      with 0 by lia.
    rewrite Nat.add_0_r. unfold kept2.
    rewrite firstn_app, firstn_firstn, length_firstn.
    replace (Nat.min k k) with k by lia.
    replace (k - Nat.min k (length elems)) with 0 by lia.
    cbn [firstn]. rewrite app_nil_r.
    rewrite skipn_app, length_firstn.
    rewrite skipn_all2 by (rewrite length_firstn; lia).
    replace (k - Nat.min k (length elems)) with 0 by lia.
    cbn [skipn app]. unfold removed.
    replace (skipn (k + n) elems) with (skipn n (skipn k elems))
      by (rewrite skipn_skipn; f_equal; lia).
    now rewrite (firstn_skipn n (skipn k elems)), (firstn_skipn k elems). }
  rewrite Esp3 in Hb3.
  cbn [undo]. rewrite Hobj.
  assert (Harr : is_array (Prox (Raw b)) (mkDb h1 w1 d tr c) = true).
  { unfold is_array, cell_of. cbn [heap base]. now rewrite Hb1. }
  unfold bind at 1. rewrite Harr. cbv zeta. cbn [arg nth].
  rewrite (bind_ok _ _ E2).
  rewrite (bind_ok _ _ (spread_through_proxy (length h) removed cln h2 w2 d _ c
                          Hn2 Hcln2 Hprim_removed)).
  rewrite (bind_ok _ _ E3).
  eexists. split; [reflexivity|]. cbn [heap _data].
  split; [exact Hb3|]. split; [|reflexivity].
  intros a Ha Hlt.
  rewrite Hrest3, Hrest2, Hrest1; [reflexivity|exact Ha|exact Hlt|exact Ha|lia
                                  |exact Ha|lia].
Qed.

Lemma splice_rolled_back_witness :
  exists db',
    (beginTransaction ;;;
     call (Prox (Raw 1)) m_splice [VNum 1; VNum 1; VStr "x"; VStr "y"] ;;;
     rollbackTransaction)
      (mkDb [CObject [(KStr "tags", VObj (Raw 1))];
             CArray [VStr "a"; VStr "b"; VStr "c"]]
            [(Raw 0, mkClosure "users" (Raw 0) None);
             (Raw 1, mkClosure "users" (Raw 0) (Some (KStr "tags")))]
            [("users", mkTable [] [] None)] [] []) = Ok tt db' /\
    nth_error (heap db') 1 = Some (CArray [VStr "a"; VStr "b"; VStr "c"]).
Proof.
  destruct (splice_rolled_back 1 1 [VNum 1; VStr "x"; VStr "y"]
              [VStr "a"; VStr "b"; VStr "c"]
              (mkClosure "users" (Raw 0) (Some (KStr "tags")))
              [CObject [(KStr "tags", VObj (Raw 1))];
               CArray [VStr "a"; VStr "b"; VStr "c"]]
              [(Raw 0, mkClosure "users" (Raw 0) None);
               (Raw 1, mkClosure "users" (Raw 0) (Some (KStr "tags")))]
              [("users", mkTable [] [] None)] [] []
              eq_refl eq_refl ltac:(simpl; lia) ltac:(repeat constructor))
    as (db' & E & Hlist & _).
  exists db'. split; [exact E|exact Hlist].
Defined.


(** *** What a lookup returns *)

(** X29. What [getRecordsByColumn] returns for a value other than
    [undefined] and [NaN], on a column that is none of the names
    [Object.prototype] defines, in a store built by the steps of [plain_step] (tables created
    with their indexes, under names that [Object.prototype] does not define;
    records that are fresh object literals with primitive fields, added with
    [wrapped] true by [addRecord] or, under a positive identifier not in
    use, by [setRecord];
    primitive values assigned to fields, fields deleted and records removed
    through the handles).  On a
    column without index it returns the records whose field is the value,
    in the order of the table: the objects themselves when [wrapped] is
    false, their handles when it is true.  On a column with an index it
    returns what the index holds, and the index holds handles: with
    [wrapped] false the handles of exactly those records, and with
    [wrapped] true a proxy of each of these handles. *)
Theorem what_a_lookup_returns T col v db t :
  built db ->
  inherited col = false ->
  table T db = Some t ->
  v <> VUndef -> v <> VNaN ->
  let objects := filter (matching (heap db) col v) (map snd (records t)) in
  match assoc_get String.eqb col (indices t) with
  | None =>
      getRecordsByColumn T col v false db = Ok objects db /\
      exists db',
        getRecordsByColumn T col v true db = Ok (map wrapped_value objects) db'
  | Some ix =>
      getRecordsByColumn T col v false db = Ok (index_lookup ix v) db /\
      (forall x, In x (index_lookup ix v)
         <-> exists a, x = handle a /\ In (VObj (Raw a)) objects) /\
      exists db',
        getRecordsByColumn T col v true db
        = Ok (map wrapped_value (index_lookup ix v)) db'
  end.
Proof.
  intros Hreach _ Ht Hv Hnan objects. apply built_reachable in Hreach.
  pose proof (reachable_ok db Hreach) as Hok.
  destruct db as [h w d tr c]. unfold table in Ht. cbn [_data heap] in *.
  assert (Hinv : inv h w d) by exact Hok.
  destruct Hinv as (Htab & _ & _).
  pose proof (Htab T t Ht) as Htok.
  assert (Hl : forall rec, In rec (map snd (records t)) ->
            exists a cell, rec = VObj (Raw a) /\ nth_error h a = Some cell).
  { intros rec Hin. apply in_map_iff in Hin.
    destruct Hin as ([id rec'] & <- & Hin).
    destruct (stored_record h w T t id rec' Htok Hin)
      as (? & a & props & _ & -> & _ & Hc & _).
    now exists a, (CObject props). }
  assert (Hobj : forall x, In x objects -> exists r, x = VObj r).
  { intros x Hx. apply filter_In in Hx. destruct Hx as (Hx & _).
    destruct (Hl x Hx) as (a & _ & -> & _). now exists (Raw a). }
  destruct (assoc_get String.eqb col (indices t)) as [ix|] eqn:Hcol.
  - destruct (@ok_indices h w T t Htok col ix Hcol v Hv) as (_ & Hmem).
    split; [|split].
    + unfold getRecordsByColumn, table. cbn [_data]. rewrite Ht, Hcol.
      reflexivity.
    + intros x. rewrite Hmem. split; intros (a & -> & Hholds); exists a;
        (split; [reflexivity|]).
      * destruct Hholds as (id & props & Hin & Hc & Hval).
        apply filter_In. split.
        -- apply in_map_iff. now exists (id, VObj (Raw a)).
        -- cbn [matching]. rewrite Hc.
           destruct (stored_record h w T t id (VObj (Raw a)) Htok Hin)
             as (? & a' & props' & _ & Ha & _ & Hc' & Hprim & _).
           injection Ha as <-. rewrite Hc in Hc'. injection Hc' as <-.
           apply (strict_eq_primitive _ _
                    (primitive_field props (KStr col) Hprim) Hnan).
           exact Hval.
      * apply filter_In in Hholds. destruct Hholds as (Hin & Hmatch).
        apply in_map_iff in Hin. destruct Hin as ([id rec] & Hrec & Hin).
        cbn [snd] in Hrec. subst rec.
        destruct (stored_record h w T t id (VObj (Raw a)) Htok Hin)
          as (? & a' & props & _ & Ha & _ & Hc & Hprim & _).
        injection Ha as <-.
        exists id, props. split; [exact Hin|]. split; [exact Hc|].
        cbn [matching] in Hmatch. rewrite Hc in Hmatch.
        apply (strict_eq_primitive _ _
                 (primitive_field props (KStr col) Hprim) Hnan).
        exact Hmatch.
    + destruct (wrap_all T (index_lookup ix v) h d tr c w) as (w1 & E1 & _).
      { intros x Hx. apply Hmem in Hx. destruct Hx as (a & -> & _).
        now exists (Prox (Raw a)). }
      eexists. unfold getRecordsByColumn, table. cbn [_data].
      rewrite Ht, Hcol.
      rewrite (bind_ok _ _ (eq_refl : ret (index_lookup ix v) _ = Ok _ _)).
      exact E1.
  - assert (Hscan : linear_scan t col v (mkDb h w d tr c)
                    = Ok objects (mkDb h w d tr c)).
    { unfold linear_scan. now apply linear_scan_spec. }
    split.
    + unfold getRecordsByColumn, table. cbn [_data]. rewrite Ht, Hcol.
      now rewrite (bind_ok _ _ Hscan).
    + destruct (wrap_all T objects h d tr c w Hobj) as (w1 & E1 & _).
      eexists. unfold getRecordsByColumn, table. cbn [_data].
      rewrite Ht, Hcol. rewrite (bind_ok _ _ Hscan). exact E1.
Qed.

Lemma what_a_lookup_returns_witness :
  getRecordsByColumn "users" "email" (VStr "k@x.com") false users_3
  = Ok [VObj (Prox (Raw 0))] users_3 /\
  (exists db',
     getRecordsByColumn "users" "email" (VStr "k@x.com") true users_3
     = Ok [VObj (Prox (Prox (Raw 0)))] db') /\
  getRecordsByColumn "users" "name" (VStr "John") false users_3
  = Ok [VObj (Raw 0)] users_3.
Proof.
  pose proof (what_a_lookup_returns "users" "email" (VStr "k@x.com") users_3
                (match table "users" users_3 with
                 | Some t => t
                 | None => mkTable [] [] None
                 end) users_3_built eq_refl eq_refl
                ltac:(discriminate) ltac:(discriminate)) as Hindexed.
  pose proof (what_a_lookup_returns "users" "name" (VStr "John") users_3
                (match table "users" users_3 with
                 | Some t => t
                 | None => mkTable [] [] None
                 end) users_3_built eq_refl eq_refl
                ltac:(discriminate) ltac:(discriminate)) as Hscanned.
  cbv zeta in Hindexed, Hscanned.
  destruct Hindexed as (Hraw & _ & Hwrapped).
  destruct Hscanned as (Hobjects & _).
  split; [exact Hraw|]. split; [exact Hwrapped|exact Hobjects].
Defined.

End DatabaseFacts.
